(** * Translation tooling of central-frontend: a shallow embedding

    The development follows the script that converts between the Vue I18n
    messages of the application and the Structured JSON exchanged with
    Transifex (sections LOCALES, VARIABLES, PLURALS, LINKED LOCALE MESSAGES,
    JSON CONVERSION and WRITE TRANSLATIONS of the source file).

    Conventions of the embedding.
    - A JavaScript string is the list of its UTF-16 code units ([str]); the
      literal [u "text"] is the string of an ASCII text.
    - A function that may throw returns a [result]; the constructor of
      [error] records which [throw] of the source was reached.
    - Objects used as maps are association lists kept in the order in which
      [Object.keys] enumerates them. Reading a property that an object has
      not gives what the object inherits: the methods of [Object.prototype]
      and of [Array.prototype] (those of ECMAScript 2023) and the accessor
      [__proto__].
    - [Intl.PluralRules] is a parameter: the function [intl] gives the
      plural categories of a locale that the table does not override.
    - The translations that [writeTranslations] changes in place are one
      store, a tree addressed by paths; a [Translations] object is the path
      of its node, so that every object that refers to a node sees the
      changes made through any other. The error [NotModelled] marks what
      the embedding leaves out: the stores on which the script would use
      an instance of [PluralForms] as a plain object, and the places where
      it would go on with a prototype or with a value that is inherited
      where a message or a comment is expected. *)

From Stdlib Require Import String Ascii DecimalString.
From Stdlib Require Import List NArith Bool Arith Lia Sorted Permutation.
Import ListNotations.
Local Open Scope list_scope.
Set Warnings "-register-all".

(** ** JavaScript strings and the built-ins the script relies on *)

Module Js.

Definition char := N.
Definition str := list char.

Definition u (s : string) : str := map N_of_ascii (list_ascii_of_string s).
Arguments u s%_string.

Fixpoint str_eqb (a b : str) : bool :=
  match a, b with
  | [], [] => true
  | x :: a', y :: b' => N.eqb x y && str_eqb a' b'
  | _, _ => false
  end.

(** Ramda's [equals] on two arrays of strings. *)
Fixpoint equals (a b : list str) : bool :=
  match a, b with
  | [], [] => true
  | x :: a', y :: b' => str_eqb x y && equals a' b'
  | _, _ => false
  end.

Definition in_range (lo hi c : N) : bool := N.leb lo c && N.leb c hi.

(** [\w] without the [i] and [u] flags: [A-Za-z0-9_]. *)
Definition is_word (c : char) : bool :=
  in_range 48 57 c || in_range 65 90 c || N.eqb c 95 || in_range 97 122 c.

(** [[a-z]]. *)
Definition is_lower (c : char) : bool := in_range 97 122 c.

(** [\s], which is also the set that [String.prototype.trim] strips:
    WhiteSpace and LineTerminator of ECMAScript. *)
Definition is_space (c : char) : bool :=
  in_range 9 13 c || N.eqb c 32 || N.eqb c 160 || N.eqb c 5760
  || in_range 8192 8202 c || N.eqb c 8232 || N.eqb c 8233 || N.eqb c 8239
  || N.eqb c 8287 || N.eqb c 12288 || N.eqb c 65279.

Definition open_brace : char := 123%N.
Definition close_brace : char := 125%N.
Definition space : char := 32%N.

(** [[{}]]. *)
Definition is_brace (c : char) : bool := N.eqb c open_brace || N.eqb c close_brace.

Fixpoint prefix (p s : str) : bool :=
  match p, s with
  | [], _ => true
  | x :: p', y :: s' => N.eqb x y && prefix p' s'
  | _ :: _, [] => false
  end.

(** [s.includes(sub)]. *)
Fixpoint includes (sub s : str) : bool :=
  prefix sub s ||
  match s with
  | [] => false
  | _ :: t => includes sub t
  end.

(** [s.split(sep)] for a non-empty separator: [skip] counts the code units
    of a separator occurrence that are still to be passed over. *)
Fixpoint split_from (sep : str) (skip : nat) (cur : str) (s : str) : list str :=
  match s with
  | [] => [rev cur]
  | c :: t =>
    match skip with
    | S k => split_from sep k cur t
    | O =>
      if prefix sep s
      then rev cur :: split_from sep (length sep - 1) [] t
      else split_from sep 0 (c :: cur) t
    end
  end.

Definition split (sep s : str) : list str := split_from sep 0 [] s.

(** [l.join(sep)]. *)
Fixpoint join (sep : str) (l : list str) : str :=
  match l with
  | [] => []
  | [x] => x
  | x :: l' => x ++ sep ++ join sep l'
  end.

Fixpoint drop_spaces (s : str) : str :=
  match s with
  | c :: t => if is_space c then drop_spaces t else s
  | [] => []
  end.

(** [s.trim()]. *)
Definition trim (s : str) : str := rev (drop_spaces (rev (drop_spaces s))).

(** [s.replace(/\s+/g, ' ')]: [in_run] tells that the preceding code unit
    belonged to the run of white space that has already been replaced. *)
Fixpoint collapse_from (in_run : bool) (s : str) : str :=
  match s with
  | [] => []
  | c :: t =>
    if is_space c
    then (if in_run then collapse_from true t else space :: collapse_from true t)
    else c :: collapse_from false t
  end.

Definition collapse (s : str) : str := collapse_from false s.

Definition starts_with_space (s : str) : bool :=
  match s with
  | c :: _ => is_space c
  | [] => false
  end.

Fixpoint double_space (s : str) : bool :=
  match s with
  | c :: ((d :: _) as t) => (is_space c && is_space d) || double_space t
  | _ => false
  end.

(** [/(^\s|\s$|\s\s)/.test(s)]. *)
Definition odd_white_space (s : str) : bool :=
  starts_with_space s || starts_with_space (rev s) || double_space s.

(** Comparison of strings by code units, the order of the default
    [Array.prototype.sort]. *)
Fixpoint str_leb (a b : str) : bool :=
  match a, b with
  | [], _ => true
  | _ :: _, [] => false
  | x :: a', y :: b' => N.ltb x y || (N.eqb x y && str_leb a' b')
  end.

Fixpoint insert_sorted (x : str) (l : list str) : list str :=
  match l with
  | [] => [x]
  | y :: l' => if str_leb x y then x :: l else y :: insert_sorted x l'
  end.

(** [l.sort()] on an array of strings. The order is total and two strings
    that compare equal are the same string, so the sorted array does not
    depend on the sorting algorithm of the engine. *)
Fixpoint sort (l : list str) : list str :=
  match l with
  | [] => []
  | x :: l' => insert_sorted x (sort l')
  end.

Fixpoint span (p : char -> bool) (s : str) : str * str :=
  match s with
  | c :: t => if p c then let '(a, b) := span p t in (c :: a, b) else ([], s)
  | [] => ([], [])
  end.

Fixpoint last_char (s : str) : option char :=
  match s with
  | [] => None
  | [c] => Some c
  | _ :: t => last_char t
  end.

(** [o[k]] on an object kept as an association list. *)
Fixpoint assoc {A : Type} (k : str) (l : list (str * A)) : option A :=
  match l with
  | [] => None
  | (k', v) :: l' => if str_eqb k k' then Some v else assoc k l'
  end.

(** The keys that are array indices come first in ascending order when
    the properties of an object are enumerated; [array_index k] is the
    index that the key [k] denotes, if it is the canonical decimal numeral
    of an integer below 2^32 - 1. *)
Fixpoint digits_value (acc : N) (s : str) : option N :=
  match s with
  | [] => Some acc
  | c :: t => if in_range 48 57 c then digits_value (acc * 10 + (c - 48)) t else None
  end.

Definition array_index (k : str) : option N :=
  match k with
  | [] => None
  | [c] => digits_value 0 k
  | c :: _ =>
    if N.eqb c 48 then None
    else match digits_value 0 k with
         | Some n => if N.ltb n 4294967295 then Some n else None
         | None => None
         end
  end.

Fixpoint has_key {A : Type} (k : str) (l : list (str * A)) : bool :=
  match l with
  | [] => false
  | (k', _) :: l' => str_eqb k k' || has_key k l'
  end.

Fixpoint replace_value {A : Type} (k : str) (v : A) (l : list (str * A)) : list (str * A) :=
  match l with
  | [] => []
  | (k', v') :: l' => if str_eqb k k' then (k', v) :: l' else (k', v') :: replace_value k v l'
  end.

Fixpoint insert_index {A : Type} (n : N) (k : str) (v : A) (l : list (str * A)) : list (str * A) :=
  match l with
  | [] => [(k, v)]
  | (k', v') :: l' =>
    match array_index k' with
    | Some m => if N.ltb m n then (k', v') :: insert_index n k v l' else (k, v) :: l
    | None => (k, v) :: l
    end
  end.

(** [o[k] = v]: the value of an existing property is replaced where it
    stands; a new property is enumerated after the others, unless its key
    is an array index. *)
Definition put {A : Type} (k : str) (v : A) (l : list (str * A)) : list (str * A) :=
  if has_key k l then replace_value k v l
  else match array_index k with
       | Some n => insert_index n k v l
       | None => l ++ [(k, v)]
       end.

(** [i.toString()] for an index [i]. *)
Definition key_of_index (i : nat) : str :=
  u (NilEmpty.string_of_uint (Nat.to_uint i)).

(** [/^\d+$/.test(key)]. *)
Definition all_digits (key : str) : bool :=
  negb (length key =? 0) && forallb (in_range 48 57) key.

(** *** Inherited properties

    [o[k]], read from an object that has no property [k] of its own, is
    what the object inherits. Every object inherits the methods of
    [Object.prototype], listed here with the number of their parameters
    (for [constructor], that of [Object]), and the accessor [__proto__],
    which gives the prototype itself. An array inherits the methods of
    [Array.prototype] besides. *)
Definition object_methods : list (str * nat) :=
  [ (u "constructor", 1); (u "hasOwnProperty", 1); (u "isPrototypeOf", 1);
    (u "propertyIsEnumerable", 1); (u "toLocaleString", 0); (u "toString", 0);
    (u "valueOf", 0); (u "__defineGetter__", 2); (u "__defineSetter__", 2);
    (u "__lookupGetter__", 1); (u "__lookupSetter__", 1) ].

Definition proto_key : str := u "__proto__".

Definition array_methods : list str :=
  [ u "at"; u "concat"; u "copyWithin"; u "entries"; u "every"; u "fill";
    u "filter"; u "find"; u "findIndex"; u "findLast"; u "findLastIndex";
    u "flat"; u "flatMap"; u "forEach"; u "includes"; u "indexOf"; u "join";
    u "keys"; u "lastIndexOf"; u "map"; u "pop"; u "push"; u "reduce";
    u "reduceRight"; u "reverse"; u "shift"; u "slice"; u "some"; u "sort";
    u "splice"; u "toReversed"; u "toSorted"; u "toSpliced"; u "unshift";
    u "values"; u "with" ].

Definition is_object_method (k : str) : bool := has_key k object_methods.

Definition is_array_method (k : str) : bool := existsb (str_eqb k) array_methods.

(** [k] names a property that every object inherits. *)
Definition inherited (k : str) : bool := str_eqb k proto_key || is_object_method k.

End Js.
Export Js.

(** ** Failures *)

(** One constructor for each [throw] of the script, named after the message
    it carries; [TypeError] is the error raised by the engine when a
    property of [undefined] or [null] is read or a value that is not a
    function is called. *)
Inductive error : Type :=
| unexpected_brace
| pluralized_message_two_forms
| unexpected_pipe
| unexpected_white_space
| invalid_plural
| unmatched_brace
| plural_categories (expected found : list str)
| forms_cannot_be_empty
| unexpected_empty_plural_form
| same_variables_in_each_form
| straight_single_quote
| unexpected_hash
| too_many_plural_forms
| unexpected_linked_locale_message
| invalid_message
| parent_not_found
| invalid_component_interpolation
| invalid_source
| invalid_translated
| invalid_key
| sparse_array
| mismatch_for_source_locale
| pluralization_mismatch
| translation_same_variables
| unknown_locale
| TypeError
| NotModelled.

Inductive result (A : Type) : Type :=
| Ok (a : A)
| Throw (e : error).
Arguments Ok {A} a.
Arguments Throw {A} e.

Definition bind {A B : Type} (r : result A) (k : A -> result B) : result B :=
  match r with
  | Ok a => k a
  | Throw e => Throw e
  end.

Notation "x <- r ;; k" := (bind r (fun x => k))
  (at level 61, r at next level, right associativity).
Notation "r ;;; k" := (bind r (fun _ => k))
  (at level 61, right associativity).

(** Modelled from the spec: [logThenThrow] of [./util], which is not part of
    the sources at hand. It logs the offending value and aborts the whole
    operation with the given message. *)
Definition logThenThrow {A : Type} (message : error) : result A := Throw message.

Definition when_ (b : bool) (r : result unit) : result unit :=
  if b then r else Ok tt.

(** ** LOCALES *)

Module Locales.

Record options : Type := {
  opt_pluralCategories : option (list str);
  opt_warnVariableSeparator : option bool
}.

Definition no_options : options :=
  {| opt_pluralCategories := None; opt_warnVariableSeparator := None |}.

Definition locales_literal : list (str * options) :=
  [ (u "en", no_options);
    (u "cs", no_options);
    (u "de", no_options);
    (u "es", no_options);
    (u "fr", {| opt_pluralCategories := Some [u "one"; u "other"];
                opt_warnVariableSeparator := None |});
    (u "id", no_options);
    (u "it", no_options);
    (u "ja", {| opt_pluralCategories := None;
                opt_warnVariableSeparator := Some false |});
    (u "sw", no_options) ].

Definition sourceLocale : str := u "en".

Record normalized : Type := {
  pluralCategories : list str;
  warnVariableSeparator : bool
}.

Section Normalize.
(** [new Intl.PluralRules([locale]).resolvedOptions().pluralCategories]:
    the plural categories are those that the JavaScript runtime reports. *)
Variable intl : str -> list str.

Definition normalize (locale : str) (o : options) : normalized :=
  {| pluralCategories :=
       match opt_pluralCategories o with
       | Some c => c
       | None => intl locale
       end;
     warnVariableSeparator :=
       match opt_warnVariableSeparator o with
       | Some b => b
       | None => true
       end |}.

Definition locales : list (str * normalized) :=
  map (fun '(locale, o) => (locale, normalize locale o)) locales_literal.

(** [locales[locale]]. *)
Definition locale_lookup (locale : str) : option normalized := assoc locale locales.
End Normalize.

(** The categories reported by a runtime with the CLDR data of the time of
    the script, used in the examples. *)
Definition cldr (locale : str) : list str :=
  if str_eqb locale (u "cs") then [u "few"; u "many"; u "one"; u "other"]
  else if str_eqb locale (u "id") || str_eqb locale (u "ja") then [u "other"]
  else [u "one"; u "other"].

End Locales.

(** ** VARIABLES *)

Module Vars.

(** A match of [/{\w+}/] anchored at the head of [s]. *)
Definition token_at (s : str) : option str :=
  match s with
  | c :: t =>
    if N.eqb c open_brace then
      match span is_word t with
      | ((_ :: _) as w, d :: _) =>
        if N.eqb d close_brace then Some (open_brace :: w ++ [close_brace]) else None
      | _ => None
      end
    else None
  | [] => None
  end.

(** [s.match(/{\w+}/g)], the empty list standing for [null]: [skip] counts
    the code units of the last match that are still to be passed over. *)
Fixpoint match_tokens (skip : nat) (s : str) : list str :=
  match s with
  | [] => []
  | _ :: t =>
    match skip with
    | S k => match_tokens k t
    | O =>
      match token_at s with
      | Some tok => tok :: match_tokens (length tok - 1) t
      | None => match_tokens 0 t
      end
    end
  end.

(** The length of [s.match(/[{}]/g)], 0 standing for [null]. *)
Definition count_braces (s : str) : nat := length (filter is_brace s).

Definition parseVars (pluralForm : str) : result (list str) :=
  let vars := sort (match_tokens 0 pluralForm) in
  let braceMatches := count_braces pluralForm in
  when_ (negb (braceMatches =? 0) && negb (braceMatches =? 2 * length vars))
        (logThenThrow unexpected_brace) ;;;
  Ok vars.

End Vars.

(** ** PLURALS *)

Module Plural.
Import Locales Vars.

(** The array-like object: [forms] lists the elements [this[0]], ...,
    [this[length - 1]]. *)
Record PluralForms : Type := mkPluralForms { forms : list str }.

Definition is_empty_string (s : str) : bool := str_eqb s [].

Fixpoint check_forms (form0 : str) (vars : list str) (rest : list str) : result unit :=
  match rest with
  | [] => Ok tt
  | form :: rest' =>
    when_ (xorb (is_empty_string form) (is_empty_string form0))
          (logThenThrow unexpected_empty_plural_form) ;;;
    vars_i <- parseVars form ;;
    when_ (negb (equals vars_i vars))
          (logThenThrow same_variables_in_each_form) ;;;
    check_forms form0 vars rest'
  end.

(** [new PluralForms(forms)]. *)
Definition new (fs : list str) : result PluralForms :=
  match fs with
  | [] => Throw forms_cannot_be_empty
  | form0 :: rest =>
    vars <- parseVars form0 ;;
    check_forms form0 vars rest ;;;
    Ok (mkPluralForms fs)
  end.

(** [PluralForms.empty(length)]. *)
Definition empty (length : nat) : result PluralForms := new (repeat [] length).

(** [this[0] === '']; on an object without an element 0 the comparison of
    [undefined] with [''] is false. *)
Definition isEmpty (pf : PluralForms) : bool :=
  match forms pf with
  | form0 :: _ => is_empty_string form0
  | [] => false
  end.

Fixpoint check_vue_forms (fs : list str) : result unit :=
  match fs with
  | [] => Ok tt
  | form :: fs' =>
    when_ (includes (u "|") form) (logThenThrow unexpected_pipe) ;;;
    when_ (odd_white_space form) (logThenThrow unexpected_white_space) ;;;
    check_vue_forms fs'
  end.

Definition fromVueI18n (message : str) : result PluralForms :=
  let fs := split (u " | ") message in
  when_ (2 <? length fs) (logThenThrow pluralized_message_two_forms) ;;;
  check_vue_forms fs ;;;
  new fs.

Definition icu_open : str := u "{count, plural,".

(** [string.match(/^({count, plural,).+}$/s) != null]. *)
Definition icuMatch (s : str) : bool :=
  prefix icu_open s && (length icu_open + 2 <=? length s)
  && match last_char s with
     | Some c => N.eqb c close_brace
     | None => false
     end.

(** [s.match(/^ ([a-z]+) {/)]: the category, the length of the whole match
    and what follows the match. *)
Definition formMatch (s : str) : option (str * nat * str) :=
  match s with
  | c :: t =>
    if N.eqb c space then
      match span is_lower t with
      | ((_ :: _) as category, c1 :: c2 :: body) =>
        if N.eqb c1 space && N.eqb c2 open_brace
        then Some (category, length category + 3, body)
        else None
      | _ => None
      end
    else None
  | [] => None
  end.

(** The inner loop of [fromTransifex]. [r] is [string.slice(end)]; the test
    [end < string.length - 1] says that [r] has more than one code unit.
    [seen] accumulates, last first, the code units the loop went past. *)
Fixpoint scan_braces (unmatchedBraces : nat) (r : str) (seen : str) : nat * str :=
  match unmatchedBraces, r with
  | S n, c :: ((_ :: _) as t) =>
    scan_braces
      (if N.eqb c open_brace then S (S n)
       else if N.eqb c close_brace then n
       else S n)
      t (c :: seen)
  | _, _ => (unmatchedBraces, seen)
  end.

(** The outer loop of [fromTransifex], on [string.slice(begin)] once [skip]
    code units have been passed over; the test [begin < string.length - 1]
    says that the slice has more than one code unit. The result pairs the
    categories with the forms. *)
Fixpoint plural_blocks (skip : nat) (s : str) : result (list str * list str) :=
  match s with
  | [] => Ok ([], [])
  | _ :: t =>
    match skip with
    | S k => plural_blocks k t
    | O =>
      match t with
      | [] => Ok ([], [])
      | _ :: _ =>
        match formMatch s with
        | None => logThenThrow invalid_plural
        | Some (category, matched, body) =>
          let '(unmatchedBraces, seen) := scan_braces 1 body [] in
          if negb (unmatchedBraces =? 0) then logThenThrow unmatched_brace
          else
            more <- plural_blocks (matched + length seen - 1) t ;;
            Ok (category :: fst more, rev (tl seen) :: snd more)
        end
      end
    end
  end.

(** [form.trim().replace(/\s+/g, ' ')]. *)
Definition tidy (form : str) : str := collapse (trim form).

Section FromTransifex.
Variable intl : str -> list str.

Definition fromTransifex (string : str) (locale : str) : result PluralForms :=
  fs <- (if icuMatch string then
           parsed <- plural_blocks (length icu_open) string ;;
           let categories := sort (fst parsed) in
           match locale_lookup intl locale with
           | None => Throw TypeError
           | Some l =>
             let expectedCategories := pluralCategories l in
             when_ (negb (equals categories expectedCategories))
                   (logThenThrow (plural_categories expectedCategories categories)) ;;;
             Ok (snd parsed)
           end
         else Ok [string]) ;;
  new (map tidy fs).
End FromTransifex.

Definition toVueI18n (pf : PluralForms) : result str :=
  when_ (existsb (includes (u "|")) (forms pf)) (logThenThrow unexpected_pipe) ;;;
  Ok (join (u " | ") (forms pf)).

Fixpoint check_transifex_forms (fs : list str) : result unit :=
  match fs with
  | [] => Ok tt
  | form :: fs' =>
    when_ (includes (u "'") form) (logThenThrow straight_single_quote) ;;;
    when_ (includes (u "#") form) (logThenThrow unexpected_hash) ;;;
    check_transifex_forms fs'
  end.

(** An instance always has an element 0 (it is built by [new]); the
    embedding gives no value to [this[0]] on an object without one. *)
Definition toTransifex (pf : PluralForms) : result str :=
  check_transifex_forms (forms pf) ;;;
  when_ (2 <? length (forms pf)) (logThenThrow too_many_plural_forms) ;;;
  match forms pf with
  | [form0; form1] =>
    Ok (u "{count, plural, one {" ++ form0 ++ u "} other {" ++ form1 ++ u "}}")
  | form0 :: _ => Ok form0
  | [] => Throw NotModelled
  end.

End Plural.

(** ** LINKED LOCALE MESSAGES *)

Module Linked.
Import Plural.

Definition is_path_char (c : char) : bool := is_word c || N.eqb c 46.

(** [s.match(/^@:([\w.]+)$/)]: the captured group. *)
Definition link_match (s : str) : option str :=
  match s with
  | c1 :: c2 :: ((_ :: _) as p) =>
    if N.eqb c1 64 && N.eqb c2 58 && forallb is_path_char p then Some p else None
  | _ => None
  end.

Definition pathOfLinkedMessage (pluralForms : PluralForms) : result (option (list str)) :=
  match
    match forms pluralForms with
    | [form0] => link_match form0
    | _ => None
    end
  with
  | Some p => Ok (Some (split (u ".") p))
  | None =>
    when_ (existsb (includes (u "@:")) (forms pluralForms))
          (logThenThrow unexpected_linked_locale_message) ;;;
    Ok None
  end.

End Linked.

(** ** JSON CONVERSION: the tree of a component interpolation *)

Module Interp.
Import Plural.

(** A property of the object given to [fromMessages]: a message, or a
    value that is not an instance of [PluralForms]. *)
Inductive value : Type :=
| Message (pluralForms : PluralForms)
| NotMessage.

(** A node refers to its parent and to its children by their keys in
    [nodesByKey]. *)
Record ComponentInterpolationNode : Type := mkNode {
  key : str;
  pluralForms : PluralForms;
  parentNode : option str;
  childNodes : list str
}.

Definition full : str := u "full".

Fixpoint make_nodes (entries : list (str * value))
    (nodesByKey : list (str * ComponentInterpolationNode))
    : result (list (str * ComponentInterpolationNode)) :=
  match entries with
  | [] => Ok nodesByKey
  | (k, NotMessage) :: _ => logThenThrow invalid_message
  | (k, Message pf) :: entries' =>
    make_nodes entries' (put k (mkNode k pf None []) nodesByKey)
  end.

(** The token of a key. *)
Definition token (k : str) : str := open_brace :: k ++ [close_brace].

(** [entries.find(([, pluralForms]) => pluralForms[0].includes(tok))]. *)
Fixpoint find_entry (tok : str) (entries : list (str * value)) : result (option str) :=
  match entries with
  | [] => Ok None
  | (k, v) :: entries' =>
    match v with
    | Message pf =>
      match forms pf with
      | form0 :: _ => if includes tok form0 then Ok (Some k) else find_entry tok entries'
      | [] => Throw TypeError
      end
    | NotMessage => Throw TypeError
    end
  end.

Definition set_parent (parentKey : str) (n : ComponentInterpolationNode) :=
  mkNode (key n) (pluralForms n) (Some parentKey) (childNodes n).

Definition push_child (childKey : str) (n : ComponentInterpolationNode) :=
  mkNode (key n) (pluralForms n) (parentNode n) (childNodes n ++ [childKey]).

Definition update (k : str) (f : ComponentInterpolationNode -> ComponentInterpolationNode)
    (nodesByKey : list (str * ComponentInterpolationNode))
    : result (list (str * ComponentInterpolationNode)) :=
  match assoc k nodesByKey with
  | Some n => Ok (put k (f n) nodesByKey)
  | None => Throw TypeError
  end.

(** The second loop of [fromMessages]. Destructuring the [undefined] that
    [find] returns when no entry contains the token is a [TypeError]. *)
Fixpoint link_nodes (entries : list (str * value)) (keys : list str)
    (nodesByKey : list (str * ComponentInterpolationNode))
    : result (list (str * ComponentInterpolationNode)) :=
  match keys with
  | [] => Ok nodesByKey
  | k :: keys' =>
    if str_eqb k full then link_nodes entries keys' nodesByKey
    else
      found <- find_entry (token k) entries ;;
      match found with
      | None => Throw TypeError
      | Some parentKey =>
        nodes1 <- update k (set_parent parentKey) nodesByKey ;;
        nodes2 <- update parentKey (push_child k) nodes1 ;;
        link_nodes entries keys' nodes2
      end
  end.

Definition hasChildNodes (n : ComponentInterpolationNode) : bool :=
  negb (length (childNodes n) =? 0).

(** [ComponentInterpolationNode.fromMessages(messages)]: the nodes by key;
    the node returned by the source is the one of [full]. *)
Definition fromMessages (messages : list (str * value))
    : result (list (str * ComponentInterpolationNode)) :=
  nodes0 <- make_nodes messages [] ;;
  nodesByKey <- link_nodes messages (map fst messages) nodes0 ;;
  match assoc full nodesByKey with
  | None => Throw TypeError
  | Some root =>
    when_ (negb (hasChildNodes root)) (logThenThrow invalid_component_interpolation) ;;;
    Ok nodesByKey
  end.

End Interp.

(** ** WRITE TRANSLATIONS *)

Module Merge.
Import Locales Vars Plural Linked.

(** The source messages: a message, or an object or array of further
    values. An array is kept with its indices as keys, as [Object.keys]
    enumerates them. The keys of an object are pairwise distinct. *)
Inductive snode : Type :=
| SMessage (pf : PluralForms)
| SNode (array : bool) (entries : list (str * snode)).

(** The translations read from Structured JSON: every leaf of that format
    is a message. *)
Inductive tnode : Type :=
| TMessage (pf : PluralForms)
| TObject (entries : list (str * tnode)).

Inductive json : Type :=
| JString (s : str)
| JArray (elements : list json)
| JObject (entries : list (str * json)).

Definition source_entries (s : snode) : list (str * snode) :=
  match s with
  | SNode _ entries => entries
  | SMessage _ => []
  end.

(** [Array.isArray(source)]. *)
Definition is_array (s : snode) : bool :=
  match s with
  | SNode array _ => array
  | SMessage _ => false
  end.

(** *** The translations as a shared store

    Every [Translations] object refers to the object that holds its
    translations, and a change made through one of them is seen through
    the others. The embedding keeps the whole tree of translations as the
    state and lets a [Translations] object refer to its part of the tree by
    its path from the root. *)

Fixpoint tat (t : tnode) (path : list str) : option tnode :=
  match path with
  | [] => Some t
  | k :: path' =>
    match t with
    | TObject entries =>
      match assoc k entries with
      | Some child => tat child path'
      | None => None
      end
    | TMessage _ => None
    end
  end.

Fixpoint map_first (k : str) (f : tnode -> tnode) (l : list (str * tnode)) : list (str * tnode) :=
  match l with
  | [] => []
  | (k', v) :: l' => if str_eqb k k' then (k', f v) :: l' else (k', v) :: map_first k f l'
  end.

(** The store in which the properties of the object at [path] are changed
    by [f]. *)
Fixpoint tupdate (path : list str) (f : list (str * tnode) -> list (str * tnode))
    (t : tnode) : tnode :=
  match t with
  | TMessage _ => t
  | TObject entries =>
    match path with
    | [] => TObject (f entries)
    | k :: path' => TObject (map_first k (tupdate path' f) entries)
    end
  end.

Record Translations : Type := mkTranslations {
  root_source : snode;
  path : list str;
  _source : snode
}.

Record Translation : Type := mkTranslation {
  parent : Translations;
  key : str;
  source : PluralForms
}.

(** [this.root]. *)
Definition root (h : Translations) : Translations :=
  mkTranslations (root_source h) [] (root_source h).

(** [this._translated]. A message met where the source has an object or an
    array is outside the embedding: the script would go on and use the
    instance of [PluralForms] as a plain object. *)
Definition _translated (h : Translations) (store : tnode) : result (list (str * tnode)) :=
  match tat store (path h) with
  | Some (TObject entries) => Ok entries
  | _ => Throw NotModelled
  end.

(** [translation.translated], [None] standing for [undefined]. Where the
    translations have no property of the key but inherit one, the value
    is a method or the prototype, on which every callback that reads the
    translation throws; that case is outside the embedding. *)
Definition translated (t : Translation) (store : tnode) : result (option tnode) :=
  entries <- _translated (parent t) store ;;
  match assoc (key t) entries with
  | Some tr => Ok (Some tr)
  | None => if inherited (key t) then Throw NotModelled else Ok None
  end.

Definition length_key : str := u "length".

(** What [get] does for a source value that is not a message: the
    translations of [key] are created if [this._translated[key]] is null.
    A method that the translations inherit under that name is not null:
    nothing is created, and the constructor of [Translations] rejects the
    method. The prototype, read under [__proto__], is outside the
    embedding. *)
Definition enter (h : Translations) (k : str) (store : tnode) : result tnode :=
  entries <- _translated h store ;;
  match assoc k entries with
  | None =>
    if str_eqb k proto_key then Throw NotModelled
    else if is_object_method k then logThenThrow invalid_translated
    else Ok (tupdate (path h) (put k (TObject [])) store)
  | Some (TObject _) => Ok store
  | Some (TMessage _) => Throw NotModelled
  end.

(** [this._source[key]] for a key that the source has no property of:
    [absent] where it is [undefined]. An inherited method is not null, and
    the constructor of [Translations] rejects it as a source; the
    prototype, read under [__proto__], is outside the embedding. *)
Definition not_own {A : Type} (array : bool) (k : str) (absent : result A) : result A :=
  if str_eqb k proto_key then Throw NotModelled
  else if is_object_method k || array && is_array_method k
  then logThenThrow invalid_source
  else absent.

Inductive got : Type :=
| Undefined
| ATranslation (t : Translation)
| SomeTranslations (h : Translations).

Definition child (h : Translations) (k : str) (sv : snode) : Translations :=
  mkTranslations (root_source h) (path h ++ [k]) sv.

(** [translations.get(key)]. The property [length] of an array is a number,
    which the constructor of [Translations] rejects, as it rejects a
    method that the source inherits under the key. *)
Definition get (h : Translations) (k : str) (store : tnode) : result (got * tnode) :=
  if is_array (_source h) && str_eqb k length_key then logThenThrow invalid_source
  else
    match assoc k (source_entries (_source h)) with
    | None => not_own (is_array (_source h)) k (Ok (Undefined, store))
    | Some (SMessage pf) => Ok (ATranslation (mkTranslation h k pf), store)
    | Some sv =>
      store' <- enter h k store ;;
      Ok (SomeTranslations (child h k sv), store')
    end.

(** [translations.has(key)]: what the source inherits is not null
    either. *)
Definition has (h : Translations) (k : str) : bool :=
  match assoc k (source_entries (_source h)) with
  | Some _ => true
  | None =>
    inherited k
    || (str_eqb k length_key || is_array_method k) && is_array (_source h)
  end.

(** [translations.set(key, translated)]. *)
Definition set (h : Translations) (k : str) (pf : PluralForms) (store : tnode) : result tnode :=
  match assoc k (source_entries (_source h)) with
  | Some (SMessage _) =>
    _translated h store ;;;
    Ok (tupdate (path h) (put k (TMessage pf)) store)
  | _ => logThenThrow invalid_key
  end.

(** [translations.delete(key)], given what [clear()] does on each value of
    the source: the translations of a message are replaced by empty ones,
    those of an object or array are cleared. For a key that the
    translations only inherit, the value is not null and every way on
    throws; that case is outside the embedding. *)
Definition delete (h : Translations)
    (clear_child : list (str * (tnode -> result tnode)))
    (k : str) (store : tnode) : result tnode :=
  entries <- _translated h store ;;
  match assoc k entries with
  | None => if inherited k then Throw NotModelled else Ok store
  | Some (TMessage pf) =>
    e <- empty (length (forms pf)) ;;
    Ok (tupdate (path h) (put k (TMessage e)) store)
  | Some (TObject _) =>
    if is_array (_source h) && str_eqb k length_key then logThenThrow invalid_source
    else
      match assoc k clear_child with
      | Some clear_k => clear_k store
      | None => not_own (is_array (_source h)) k (Throw TypeError)
      end
  end.

Fixpoint delete_each (delete_key : str -> tnode -> result tnode)
    (keys : list str) (store : tnode) : result tnode :=
  match keys with
  | [] => Ok store
  | k :: keys' => store' <- delete_key k store ;; delete_each delete_key keys' store'
  end.

(** [translations.clear()] on the [Translations] object of [src] at [p];
    on a [Translation], which has no method [clear], the call is a
    [TypeError]. *)
Fixpoint clear (rs : snode) (p : list str) (src : snode) (store : tnode) {struct src}
    : result tnode :=
  match src with
  | SMessage _ => Throw TypeError
  | SNode _ ses =>
    let h := mkTranslations rs p src in
    let clear_child := map (fun e => (fst e, clear rs (p ++ [fst e]) (snd e))) ses in
    entries <- _translated h store ;;
    delete_each (delete h clear_child) (map fst entries) store
  end.

Definition callback : Type := Translation -> tnode -> result tnode.

Fixpoint call_each (callbacks : list callback) (t : Translation) (store : tnode)
    : result tnode :=
  match callbacks with
  | [] => Ok store
  | cb :: callbacks' => store' <- cb t store ;; call_each callbacks' t store'
  end.

(** The loop of [walk] over the keys of the source, given what [walk] does
    on an object or array of the source. *)
Fixpoint walk_each (walk_child : list str -> snode -> tnode -> result tnode)
    (callbacks : list callback) (h : Translations)
    (ses : list (str * snode)) (store : tnode) : result tnode :=
  match ses with
  | [] => Ok store
  | (k, sv) :: ses' =>
    store' <-
      match sv with
      | SMessage pf => call_each callbacks (mkTranslation h k pf) store
      | SNode _ _ =>
        store1 <- enter h k store ;;
        walk_child (path h ++ [k]) sv store1
      end ;;
    walk_each walk_child callbacks h ses' store'
  end.

(** [translations.walk(callbacks)] on the [Translations] object of [src] at
    [p]. *)
Fixpoint walk (callbacks : list callback) (rs : snode) (p : list str) (src : snode)
    (store : tnode) {struct src} : result tnode :=
  match src with
  | SMessage _ => Throw NotModelled
  | SNode _ ses =>
    walk_each (fun p' sv store' => walk callbacks rs p' sv store')
              callbacks (mkTranslations rs p src) ses store
  end.

(** [Object.keys(value).length === 0]. *)
Definition no_keys (value : json) : bool :=
  match value with
  | JString s => length s =? 0
  | JArray l => length l =? 0
  | JObject es => length es =? 0
  end.

Fixpoint count_undefined (l : list (option json)) : nat :=
  match l with
  | [] => 0
  | None :: l' => S (count_undefined l')
  | Some _ :: l' => count_undefined l'
  end.

Fixpoint count_no_keys (l : list (option json)) : nat :=
  match l with
  | [] => 0
  | Some v :: l' => (if no_keys v then 1 else 0) + count_no_keys l'
  | None :: l' => count_no_keys l'
  end.

Fixpoint defined (l : list (option json)) : list json :=
  match l with
  | [] => []
  | Some v :: l' => v :: defined l'
  | None :: l' => defined l'
  end.

(** [this.get(k).toJSON(k)], given [toJSON] on each value of the source.
    As for [translated], translations that are inherited under the key are
    outside the embedding. *)
Definition value_of (array : bool)
    (child_toJSON : list (str * (option tnode -> str -> result (option json))))
    (entries : list (str * tnode)) (k : str) : result (option json) :=
  if array && str_eqb k length_key then logThenThrow invalid_source
  else
    match assoc k child_toJSON with
    | Some toJSON_k =>
      match assoc k entries with
      | None => if inherited k then Throw NotModelled else toJSON_k None k
      | tr => toJSON_k tr k
      end
    | None => not_own array k (Throw TypeError)
    end.

(** The loop of [toJSON] on an array, from the index [i], [n] elements
    being left. *)
Fixpoint array_values (value_at : str -> result (option json)) (n i : nat)
    : result (list (option json)) :=
  match n with
  | O => Ok []
  | S n' =>
    value <- value_at (key_of_index i) ;;
    more <- array_values value_at n' (S i) ;;
    Ok (value :: more)
  end.

(** The loop of [toJSON] on an object. *)
Fixpoint object_values (value_at : str -> result (option json))
    (keys : list str) (object : list (str * json)) : result (list (str * json)) :=
  match keys with
  | [] => Ok object
  | k :: keys' =>
    value <- value_at k ;;
    object_values value_at keys'
      (match value with
       | Some v => put k v object
       | None => object
       end)
  end.

(** [toJSON(key)] of the [Translation] or [Translations] object of [src],
    [tr] being its translations ([None] where there are none yet, in which
    case [get] creates an empty object); [None] in the result stands for
    [undefined]. *)
Fixpoint toJSON (src : snode) (tr : option tnode) (k : str) {struct src}
    : result (option json) :=
  match src with
  | SMessage source =>
    match tr with
    | Some (TMessage translated) =>
      if isEmpty translated then Ok None
      else if str_eqb k (u "full") && negb (length (forms source) =? 1)
      then Ok (Some (JArray (map JString (forms translated))))
      else s <- toVueI18n translated ;; Ok (Some (JString s))
    | _ => Throw TypeError
    end
  | SNode array ses =>
    let child_toJSON := map (fun e => (fst e, toJSON (snd e))) ses in
    match tr with
    | Some (TMessage _) => Throw NotModelled
    | _ =>
      let entries := match tr with Some (TObject entries) => entries | _ => [] end in
      if array then
        values <- array_values (value_of array child_toJSON entries) (length ses) 0 ;;
        if count_undefined values + count_no_keys values =? length ses
        then Ok (if all_digits k then Some (JArray []) else None)
        else if negb (count_undefined values =? 0) then logThenThrow sparse_array
        else Ok (Some (JArray (defined values)))
      else
        object <- object_values (value_of array child_toJSON entries)
                                (map fst entries) [] ;;
        Ok (if negb (length object =? 0) || all_digits k
            then Some (JObject object) else None)
    end
  end.

(** *** The passes of [writeTranslations] *)

(** [path.reduce((node, k) => node.get(k), node)]. *)
Fixpoint reduce_get (link : list str) (node : got) (store : tnode)
    : result (got * tnode) :=
  match link with
  | [] => Ok (node, store)
  | k :: link' =>
    match node with
    | SomeTranslations h =>
      next <- get h k store ;;
      reduce_get link' (fst next) (snd next)
    | _ => Throw TypeError
    end
  end.

Definition copyLinkedLocaleMessage : callback := fun t store =>
  linked <- pathOfLinkedMessage (source t) ;;
  match linked with
  | None => Ok store
  | Some link =>
    reached <- reduce_get link (SomeTranslations (root (parent t))) store ;;
    match fst reached with
    | ATranslation translationLinkedTo =>
      linkedTo <- translated translationLinkedTo (snd reached) ;;
      match linkedTo with
      | Some (TMessage pf) =>
        if negb (isEmpty pf) then set (parent t) (key t) (source t) (snd reached)
        else Ok (snd reached)
      | _ => Throw TypeError
      end
    | _ => Throw TypeError
    end
  end.

(** [Array.from] gives the empty array for a plain object. *)
Definition verifyDestructure : callback := fun t store =>
  tr <- translated t store ;;
  match tr with
  | Some (TMessage pf) =>
    when_ (negb (equals (forms (source t)) (forms pf)))
          (logThenThrow mismatch_for_source_locale) ;;;
    Ok store
  | Some (TObject _) =>
    when_ (negb (equals (forms (source t)) []))
          (logThenThrow mismatch_for_source_locale) ;;;
    Ok store
  | None => logThenThrow mismatch_for_source_locale
  end.

Definition deletePartialTranslation : callback := fun t store =>
  let p := parent t in
  if has p (u "full") || is_array (_source p) then
    tr <- translated t store ;;
    match tr with
    | Some (TMessage pf) =>
      if isEmpty pf then clear (root_source p) (path p) (_source p) store
      else Ok store
    | _ => Throw TypeError
    end
  else Ok store.

Section Validate.
Variable intl : str -> list str.

Fixpoint check_links (source translated : list str) : result unit :=
  match translated with
  | [] => Ok tt
  | form :: translated' =>
    when_ (includes (u "@:") form
           && negb (match source with
                    | s0 :: _ => str_eqb form s0
                    | [] => false
                    end))
          (logThenThrow unexpected_linked_locale_message) ;;;
    check_links (tl source) translated'
  end.

(** The body of [validateTranslation(locale)] on the source message and the
    translated value. The warning about a variable without a separator is
    written to the console and changes nothing else; it is left out. A
    plain object has neither [length] nor [isEmpty]. *)
Definition validate (locale : str) (source : PluralForms) (tr : option tnode)
    : result unit :=
  match tr with
  | None => Ok tt
  | Some translated =>
    match locale_lookup intl locale with
    | None => Throw TypeError
    | Some l =>
      let translated_single :=
        match translated with
        | TMessage pf => length (forms pf) =? 1
        | TObject _ => false
        end in
      when_ (negb (length (pluralCategories l) =? 1)
             && xorb (negb (length (forms source) =? 1)) (negb translated_single))
            (logThenThrow pluralization_mismatch) ;;;
      match translated with
      | TObject _ => Throw TypeError
      | TMessage pf =>
        (if negb (isEmpty pf) then
           match forms source, forms pf with
           | s0 :: _, t0 :: _ =>
             vs <- parseVars s0 ;;
             vt <- parseVars t0 ;;
             when_ (negb (equals vs vt)) (logThenThrow translation_same_variables)
           | _, _ => Throw TypeError
           end
         else Ok tt) ;;;
        check_links (forms source) (forms pf)
      end
    end
  end.

Definition validateTranslation (locale : str) : callback := fun t store =>
  tr <- translated t store ;;
  validate locale (source t) tr ;;;
  Ok store.

(** The part of [writeTranslations] that comes before the files are
    written: the translations after the passes. *)
Definition writeTranslations (locale : str) (source : snode) (translated : tnode)
    : result tnode :=
  match locale_lookup intl locale with
  | None => Throw unknown_locale
  | Some _ =>
    if str_eqb locale sourceLocale then
      walk [copyLinkedLocaleMessage; verifyDestructure] source [] source translated
    else
      store <- walk [deletePartialTranslation] source [] source translated ;;
      walk [copyLinkedLocaleMessage; validateTranslation locale] source [] source store
  end.
End Validate.

End Merge.

(** ** JSON CONVERSION: comments, Structured JSON and back *)

(** The failures of the conversions: those of the sections above and the
    further [throw]s of the script, named after their messages. *)
Inductive failure : Type :=
| Earlier (e : error)
| invalid_value
| link_to_missing_message
| link_to_linked_message
| link_in_group_or_array
| invalid_full_property.

Inductive outcome (A : Type) : Type :=
| Done (a : A)
| Fail (f : failure).
Arguments Done {A} a.
Arguments Fail {A} f.

Definition and_then {A B : Type} (r : outcome A) (k : A -> outcome B) : outcome B :=
  match r with
  | Done a => k a
  | Fail f => Fail f
  end.

Definition lift {A : Type} (r : result A) : outcome A :=
  match r with
  | Ok a => Done a
  | Throw e => Fail (Earlier e)
  end.

Declare Scope outcome_scope.
Delimit Scope outcome_scope with outcome.
Notation "x <- r ;; k" := (and_then r (fun x => k))
  (at level 61, r at next level, right associativity) : outcome_scope.
Notation "r ;;; k" := (and_then r (fun _ => k))
  (at level 61, right associativity) : outcome_scope.

Module Messages.
Import Plural.

(** The Vue I18n messages as [comment-json] reads them: [before] holds, for
    a key [k], the values of the comments kept under
    [Symbol.for('before:k')]. An array is kept with its indices as keys. A
    string is a message that the reviver has not converted yet. *)
Inductive vnode : Type :=
| VNull
| VOther
| VString (s : str)
| VMessage (pluralForms : PluralForms)
| VNode (array : bool) (entries : list (str * vnode)) (before : list (str * list str)).

(** [o[k]] on a plain object whose values are comments, [None] standing
    for [undefined]. A value that the object inherits is not a comment: it
    is not described. *)
Definition own {A : Type} (k : str) (o : list (str * A)) : outcome (option A) :=
  match assoc k o with
  | Some v => Done (Some v)
  | None => if inherited k then Fail (Earlier NotModelled) else Done None
  end.

(** [value.full != null]. *)
Definition has_full (entries : list (str * vnode)) : bool :=
  match assoc (u "full") entries with
  | Some VNull | None => false
  | Some _ => true
  end.

End Messages.

(** *** The comments of a component interpolation *)

Module Comments.
Import Plural Interp Messages.
Local Open Scope outcome_scope.

Definition nl : str := [10%N].

(** [String.prototype.replace] with a string as the pattern: the first
    occurrence of the pattern, with what precedes and what follows it. *)
Fixpoint find_first (pattern : str) (seen : str) (s : str) : option (str * str) :=
  if prefix pattern s then Some (rev seen, skipn (length pattern) s)
  else match s with
       | [] => None
       | c :: t => find_first pattern (c :: seen) t
       end.

(** The replacement text: [$$], [$&], [$`] and ['$''] are patterns; there is
    no capture, so that [$] before a digit or [<] stands for itself. *)
Fixpoint substitution (matched preceding following : str) (replacement : str) : str :=
  match replacement with
  | [] => []
  | c :: rest =>
    if N.eqb c 36 then
      match rest with
      | d :: rest' =>
        if N.eqb d 36 then 36%N :: substitution matched preceding following rest'
        else if N.eqb d 38 then matched ++ substitution matched preceding following rest'
        else if N.eqb d 96 then preceding ++ substitution matched preceding following rest'
        else if N.eqb d 39 then following ++ substitution matched preceding following rest'
        else c :: substitution matched preceding following rest
      | [] => [c]
      end
    else c :: substitution matched preceding following rest
  end.

Definition replace (s pattern replacement : str) : str :=
  match find_first pattern [] s with
  | Some (preceding, following) =>
    preceding ++ substitution pattern preceding following replacement ++ following
  | None => s
  end.

(** The nodes under a node, as [childNodes] gives them one level after the
    other. *)
Inductive tree : Type :=
| Tree (node : ComponentInterpolationNode) (children : list tree).

Definition node_of (t : tree) : ComponentInterpolationNode :=
  match t with Tree n _ => n end.

Definition children_of (t : tree) : list tree :=
  match t with Tree _ c => c end.

(** The tree under the node of the key [k]. The nodes refer to their
    children by key; [depth] bounds the length of a chain of children. *)
Fixpoint unfold (nodesByKey : list (str * ComponentInterpolationNode))
    (depth : nat) (k : str) : option tree :=
  match depth with
  | O => None
  | S depth' =>
    match assoc k nodesByKey with
    | None => None
    | Some n =>
      match
        (fix each (keys : list str) : option (list tree) :=
           match keys with
           | [] => Some []
           | c :: keys' =>
             match unfold nodesByKey depth' c, each keys' with
             | Some t, Some ts => Some (t :: ts)
             | _, _ => None
             end
           end) (childNodes n)
      with
      | Some ts => Some (Tree n ts)
      | None => None
      end
    end
  end.

(** [node.visitDescendants(callback)], the callback changing a state. *)
Fixpoint visitDescendants {S : Type} (callback : ComponentInterpolationNode -> S -> S)
    (t : tree) (state : S) : S :=
  match t with
  | Tree _ children =>
    (fix each (l : list tree) (state : S) : S :=
       match l with
       | [] => state
       | childNode :: l' =>
         each l' (visitDescendants callback childNode (callback (node_of childNode) state))
       end) children state
  end.

(** [pluralForms[i]] inside a template literal. *)
Definition form_at (i : nat) (pf : PluralForms) : str := nth i (forms pf) (u "undefined").

(** [pluralForms[pluralForms.length - 1]]. *)
Definition last_form (pf : PluralForms) : str := last (forms pf) (u "undefined").

(** [comments[k] += s]. *)
Definition append_to (k : str) (s : str) (comments : list (str * str)) : list (str * str) :=
  put k (match assoc k comments with
         | Some c => c ++ s
         | None => u "undefined" ++ s
         end) comments.

Section Group.
Variable rootNode : ComponentInterpolationNode.

Fixpoint commentOnChildNode (t : tree) (expandedMessage : str)
    (comments : list (str * str)) : list (str * str) :=
  match t with
  | Tree node children =>
    let comments1 :=
      put (key node)
        (u "This text will be formatted within ODK Central, for example, it might be bold or a link. ")
        comments in
    let comments2 :=
      append_to (key node)
        (if length (forms (pluralForms rootNode)) =? 1
         then u "It will be inserted where " ++ token (key node)
                ++ u " is in the following text:"
         else u "It will be inserted where " ++ token (key node)
                ++ u " is in the following text. (The plural form of the text is shown.)")
        comments1 in
    let comments3 := append_to (key node) (nl ++ nl ++ expandedMessage) comments2 in
    if hasChildNodes node then
      let messageForChildNodes :=
        replace expandedMessage (token (key node)) (last_form (pluralForms node)) in
      (fix each (l : list tree) (comments : list (str * str)) : list (str * str) :=
         match l with
         | [] => comments
         | child :: l' => each l' (commentOnChildNode child messageForChildNodes comments)
         end) children comments3
    else comments3
  end.

Definition describe (node descendant : ComponentInterpolationNode)
    (comments : list (str * str)) : list (str * str) :=
  append_to (key node)
    (if length (forms (pluralForms descendant)) =? 1
     then u "- " ++ token (key descendant) ++ u " has the text: "
            ++ form_at 0 (pluralForms descendant)
     else u "- " ++ token (key descendant) ++ u " has the plural form: "
            ++ form_at 1 (pluralForms descendant))
    (append_to (key node) nl comments).

Definition several : str :=
  u "The following are separate strings that will be translated below. They will be formatted within ODK Central, for example, they might be bold or a link.".

Fixpoint commentOnParentNode (t : tree) (comments : list (str * str))
    : list (str * str) :=
  match t with
  | Tree node children =>
    let comments1 :=
      match assoc (key node) comments with
      | Some [] => comments
      | _ => append_to (key node) (nl ++ nl) comments
      end in
    if match children with
       | [child] => negb (hasChildNodes (node_of child))
       | _ => false
       end
    then
      match children with
      | child :: _ =>
        let childNode := node_of child in
        let comments2 :=
          append_to (key node)
            (match parentNode node with
             | None =>
               token (key childNode)
               ++ u " is a separate string that will be translated below. Its text will be formatted within ODK Central, for example, it might be bold or a link."
             | Some _ =>
               u "Note that " ++ token (key childNode)
               ++ u " is a separate string that will be translated below."
             end) comments1 in
        let comments3 := append_to (key node) (u " ") comments2 in
        append_to (key node)
          (if length (forms (pluralForms childNode)) =? 1
           then u "Its text is:" ++ nl ++ nl ++ form_at 0 (pluralForms childNode)
           else u "In its plural form, its text is:" ++ nl ++ nl
                  ++ form_at 1 (pluralForms childNode))
          comments3
      | [] => comments1
      end
    else
      let comments2 :=
        append_to (key node)
          (match parentNode node with
           | None => several
           | Some _ =>
             u "Note that the following are separate strings that will be translated below:"
           end) comments1 in
      let comments3 := append_to (key node) nl comments2 in
      let comments4 := visitDescendants (describe node) t comments3 in
      (fix each (l : list tree) (comments : list (str * str)) : list (str * str) :=
         match l with
         | [] => comments
         | childNode :: l' =>
           each l' (if hasChildNodes (node_of childNode)
                    then commentOnParentNode childNode comments
                    else comments)
         end) children comments4
  end.

End Group.

(** The values of the object given to [fromMessages]. *)
Definition message_of (v : vnode) : value :=
  match v with
  | VMessage pf => Message pf
  | _ => NotMessage
  end.

(** [generateCommentsForFull(messages)]. The chains of children of the
    nodes are no longer than the number of nodes. *)
Definition generateCommentsForFull (messages : list (str * vnode))
    : outcome (list (str * str)) :=
  nodesByKey <- lift (fromMessages (map (fun e => (fst e, message_of (snd e))) messages)) ;;
  match unfold nodesByKey (length nodesByKey) full with
  | None => Fail (Earlier NotModelled)
  | Some (Tree rootNode children as t) =>
    let comments0 := [(full, [])] in
    let comments1 :=
      fold_left (fun comments childNode =>
                   commentOnChildNode rootNode childNode
                     (last_form (pluralForms rootNode)) comments)
                children comments0 in
    Done (commentOnParentNode t comments1)
  end.

End Comments.

(** *** Structured JSON *)

Module Restructure.
Import Plural Linked Messages Comments.
Local Open Scope outcome_scope.

(** A value of the Structured JSON: a string with its developer comment,
    or an object. *)
Inductive Structured : Type :=
| SLeaf (string : str) (developer_comment : option str)
| SObj (entries : list (str * Structured)).

(** [delete o[k]]. *)
Fixpoint remove {A : Type} (k : str) (l : list (str * A)) : list (str * A) :=
  match l with
  | [] => []
  | (k', v) :: l' => if str_eqb k k' then l' else (k', v) :: remove k l'
  end.

(** The developer comment of a message. *)
Definition comment_of (commentForPath commentForKey commentForFull : option str)
    : option str :=
  match commentForPath, commentForKey with
  | Some comment, _ | None, Some comment =>
    Some (match commentForFull with
          | Some forFull => comment ++ nl ++ nl ++ forFull
          | None => comment
          end)
  | None, None => commentForFull
  end.

(** What the path of a linked locale message can lead to: a value of the
    messages; a string, which is a form of a message or one of its code
    units; a number, which is a length; a method that the value before it
    inherits, with the number of its parameters. *)
Inductive reached : Type :=
| Value (v : vnode)
| Text (s : str)
| Number (n : nat)
| Method (parameters : nat).

(** The methods of [PluralForms]. *)
Definition plural_methods : list (str * nat) :=
  [ (u "isEmpty", 0); (u "toVueI18n", 0); (u "toTransifex", 0) ].

(** [node[key]] for a name that a plain object or a message does not have
    as a property of its own. The prototype, read under [__proto__], is
    not described. *)
Definition inherited_property (methods : list (str * nat)) (key : str)
    : outcome (option reached) :=
  if str_eqb key proto_key then Fail (Earlier NotModelled)
  else match assoc key (methods ++ object_methods) with
       | Some parameters => Done (Some (Method parameters))
       | None => Done None
       end.

(** [s[key]] on a string: a code unit, or the length. The methods of
    strings are not described. *)
Definition text_property (s : str) (key : str) : outcome (option reached) :=
  match array_index key with
  | Some i => Done (option_map (fun c => Text [c]) (nth_error s (N.to_nat i)))
  | None =>
    if str_eqb key (u "length") then Done (Some (Number (length s)))
    else Fail (Earlier NotModelled)
  end.

(** [node[key]] in the reduction of the path of a linked locale message,
    [None] standing for [undefined]. A message has its forms at their
    indices and its [length]. What an array inherits depends on the
    library that read it, and is not described; nor are the properties of
    numbers, booleans and methods. *)
Definition property (node : reached) (key : str) : outcome (option reached) :=
  match node with
  | Value (VNode false entries _) =>
    match assoc key entries with
    | Some v => Done (Some (Value v))
    | None => inherited_property [] key
    end
  | Value (VNode true entries _) =>
    match assoc key entries with
    | Some v => Done (Some (Value v))
    | None =>
      if str_eqb key (u "length") then Done (Some (Number (length entries)))
      else match array_index key with
           | Some _ => Done None
           | None => Fail (Earlier NotModelled)
           end
    end
  | Value (VMessage pf) =>
    match array_index key with
    | Some i => Done (option_map Text (nth_error (forms pf) (N.to_nat i)))
    | None =>
      if str_eqb key (u "length") then Done (Some (Number (length (forms pf))))
      else inherited_property plural_methods key
    end
  | Value (VString s) | Text s => text_property s key
  | Value VNull => Fail (Earlier TypeError)
  | Value VOther | Number _ | Method _ => Fail (Earlier NotModelled)
  end.

(** [path.reduce((node, key) => ..., root)]. *)
Fixpoint messageLinkedTo (path : list str) (node : reached) : outcome reached :=
  match path with
  | [] => Done node
  | key :: path' =>
    found <- property node key ;;
    match found with
    | None | Some (Value VNull) => Fail link_to_missing_message
    | Some next => messageLinkedTo path' next
    end
  end.

(** [pathOfLinkedMessage(messageLinkedTo) != null]. Only an instance of
    [PluralForms] can be a linked locale message. Of the other values, a
    number, a boolean and an object without [length] pass the test, as the
    loop over the forms does not run; so does a string, no code unit of
    which holds the marker of a link, a method without parameters and an
    empty array. A method with parameters and an array of messages or
    objects have a [length] but no forms, which is a [TypeError]. An
    object with a property [length] and the arrays of other values are
    not described. *)
Definition is_linked (target : reached) : outcome bool :=
  match target with
  | Value (VMessage pf) =>
    path <- lift (pathOfLinkedMessage pf) ;;
    Done (match path with Some _ => true | None => false end)
  | Value (VNode false entries _) =>
    match assoc (u "length") entries with
    | None => Done false
    | Some _ => Fail (Earlier NotModelled)
    end
  | Value (VNode true entries _) =>
    if length entries =? 0 then Done false
    else match assoc (u "0") entries with
         | Some (VMessage _) | Some (VNode false _ _) => Fail (Earlier TypeError)
         | _ => Fail (Earlier NotModelled)
         end
  | Value (VString _) | Text _ | Value VOther | Number _ => Done false
  | Method 0 => Done false
  | Method _ | Value VNull => Fail (Earlier TypeError)
  end.

Definition is_object (v : vnode) : bool :=
  match v with
  | VMessage _ | VNode _ _ _ | VNull => true
  | VOther | VString _ => false
  end.

Definition no_properties (s : Structured) : bool :=
  match s with
  | SLeaf _ _ => false
  | SObj entries => length entries =? 0
  end.

(** [comments.map(comment => comment.value.trim()).join(' ')]. *)
Definition comment_text (comments : list str) : str := join (u " ") (map trim comments).

Section WithRoot.
Variable root : vnode.
Variable commentsByKey : list (str * str).

Fixpoint _restructure (value : vnode)
    (commentForPath commentForKey commentForFull : option str) {struct value}
    : outcome Structured :=
  match value with
  | VNull => Fail invalid_value
  | VMessage pf =>
    string <- lift (toTransifex pf) ;;
    Done (SLeaf string (comment_of commentForPath commentForKey commentForFull))
  | VOther | VString _ => Fail invalid_value
  | VNode array entries before =>
    commentsForFull <-
      (if has_full entries
       then comments <- generateCommentsForFull entries ;; Done (Some comments)
       else Done None) ;;
    structured <-
      (fix each (l : list (str * vnode)) (structured : list (str * Structured))
           : outcome (list (str * Structured)) :=
         match l with
         | [] => Done structured
         | (k, v) :: l' =>
           skip <-
             match v with
             | VMessage pf =>
               path <- lift (pathOfLinkedMessage pf) ;;
               match path with
               | Some path =>
                 target <- messageLinkedTo path (Value root) ;;
                 linked <- is_linked target ;;
                 if linked then Fail link_to_linked_message
                 else if has_full entries || array then Fail link_in_group_or_array
                 else Done true
               | None => Done false
               end
             | _ => Done false
             end ;;
           if skip then each l' structured
           else
             forKey <- own k commentsByKey ;;
             forFull <-
               match commentsForFull with
               | Some comments => own k comments
               | None => Done None
               end ;;
             converted <-
               _restructure v
                 (match assoc k before with
                  | Some comments => Some (comment_text comments)
                  | None => commentForPath
                  end)
                 (match forKey with
                  | Some comment => Some comment
                  | None => commentForKey
                  end)
                 forFull ;;
             let structured1 := put k converted structured in
             each l' (if is_object v && no_properties converted
                      then remove k structured1
                      else structured1)
         end) entries [] ;;
    Done (SObj structured)
  end.

End WithRoot.

(** [.] of a regular expression without the flag [s]. *)
Definition line_terminator (c : char) : bool :=
  N.eqb c 10 || N.eqb c 13 || N.eqb c 8232 || N.eqb c 8233.

Fixpoint drop_blanks (s : str) : str :=
  match s with
  | c :: t => if N.eqb c 32 || N.eqb c 9 then drop_blanks t else s
  | [] => []
  end.

(** [value.trim().match(/^(\w+):[ \t]*(.+)$/)]: the two groups. *)
Definition key_comment (value : str) : option (str * str) :=
  match span is_word (trim value) with
  | ((_ :: _) as name, colon :: rest) =>
    if N.eqb colon 58 then
      match drop_blanks rest with
      | (_ :: _) as text =>
        if existsb line_terminator rest then None else Some (name, text)
      | [] => None
      end
    else None
  | _ => None
  end.

(** [restructure(messages)]; [before_all] holds the values of the comments
    under [Symbol.for('before-all')], which the loop requires. *)
Definition restructure (messages : vnode) (before_all : option (list str))
    : outcome Structured :=
  match before_all with
  | None => Fail (Earlier TypeError)
  | Some comments =>
    let commentsByKey :=
      fold_left (fun byKey value =>
                   match key_comment value with
                   | Some (name, text) => put name text byKey
                   | None => byKey
                   end) comments [] in
    _restructure messages commentsByKey messages None None None
  end.

End Restructure.

(** *** From Structured JSON back to messages *)

Module Destructure.
Import Plural.

(** A value that [JSON.parse] reads. An object is kept as the list of its
    properties in the order of [Object.keys]; a number is kept as its
    literal. *)
Inductive parsed : Type :=
| PNull
| PBool (b : bool)
| PNumber (literal : str)
| PString (s : str)
| PArray (elements : list parsed)
| PObject (entries : list (str * parsed)).

(** What the reviver of [destructure] makes of it. *)
Inductive revived : Type :=
| RNull
| RBool (b : bool)
| RNumber (literal : str)
| RString (s : str)
| RForms (pluralForms : PluralForms)
| RArray (elements : list revived)
| RObject (entries : list (str * revived)).

Section WithLocale.
Variable intl : str -> list str.
Variable locale : str.

(** The reviver, on a value whose elements or properties have been
    revived. *)
Definition reviver (value : revived) : result revived :=
  match value with
  | RObject entries =>
    match assoc (u "string") entries with
    | Some (RString string) =>
      pf <- fromTransifex intl string locale ;; Ok (RForms pf)
    | _ => Ok value
    end
  | _ => Ok value
  end.

(** [destructure(json, locale)] on the value that [JSON.parse] reads from
    [json]: the reviver is applied to the elements of an array and to the
    properties of an object before it is applied to the value itself. *)
Fixpoint destructure (json : parsed) : result revived :=
  match json with
  | PNull => reviver RNull
  | PBool b => reviver (RBool b)
  | PNumber literal => reviver (RNumber literal)
  | PString s => reviver (RString s)
  | PArray elements =>
    elements' <-
      (fix each (l : list parsed) : result (list revived) :=
         match l with
         | [] => Ok []
         | element :: l' =>
           element' <- destructure element ;;
           more <- each l' ;;
           Ok (element' :: more)
         end) elements ;;
    reviver (RArray elements')
  | PObject entries =>
    entries' <-
      (fix each (l : list (str * parsed)) : result (list (str * revived)) :=
         match l with
         | [] => Ok []
         | (k, v) :: l' =>
           v' <- destructure v ;;
           more <- each l' ;;
           Ok ((k, v') :: more)
         end) entries ;;
    reviver (RObject entries')
  end.

End WithLocale.

End Destructure.

(** ** READ SOURCE MESSAGES: the reviver *)

Module Read.
Import Plural Messages.
Local Open Scope outcome_scope.

(** [pluralForms.length !== 1] and [pluralForms[0]] on an element of the
    array of [full]. The elements are revived before the array is: a
    string has become a message. A number or a boolean has no [length];
    reading [length] of [null] is a [TypeError]; an element that is an
    array or another object is outside the embedding. *)
Definition only_form (element : vnode) : outcome str :=
  match element with
  | VMessage pf =>
    match forms pf with
    | [form] => Done form
    | _ => Fail invalid_full_property
    end
  | VOther => Fail invalid_full_property
  | VNull => Fail (Earlier TypeError)
  | VString _ | VNode _ _ _ => Fail (Earlier NotModelled)
  end.

Fixpoint only_forms (elements : list (str * vnode)) : outcome (list str) :=
  match elements with
  | [] => Done []
  | (_, element) :: elements' =>
    form <- only_form element ;;
    more <- only_forms elements' ;;
    Done (form :: more)
  end.

(** The reviver of [readSourceMessages]. *)
Definition reviver (key : str) (value : vnode) : outcome vnode :=
  match value with
  | VString s => pf <- lift (fromVueI18n s) ;; Done (VMessage pf)
  | _ =>
    if str_eqb key (u "full") then
      match value with
      | VNode true elements _ =>
        fs <- only_forms elements ;;
        pf <- lift (new fs) ;;
        Done (VMessage pf)
      | _ => Fail invalid_full_property
      end
    else Done value
  end.

(** [parse(text, reviver)] on the value read from the text: as
    [JSON.parse] does, [comment-json] revives the properties of an object
    before the object. *)
Fixpoint revive (key : str) (value : vnode) : outcome vnode :=
  match value with
  | VNode array entries before =>
    entries' <-
      (fix each (l : list (str * vnode)) : outcome (list (str * vnode)) :=
         match l with
         | [] => Done []
         | (k, v) :: l' =>
           v' <- revive k v ;;
           more <- each l' ;;
           Done ((k, v') :: more)
         end) entries ;;
    reviver key (VNode array entries' before)
  | _ => reviver key value
  end.

End Read.

(** ** WRITE TRANSLATIONS: the block of a component *)

Module Block.

(** The six code units that replace [<]: a backslash and [u003c]. *)
Definition escaped_lt : str := 92%N :: u "u003c".

(** [escapeJSON(json)]: every [<] is replaced. *)
Definition escapeJSON (json : str) : str :=
  flat_map (fun c => if N.eqb c 60 then escaped_lt else [c]) json.

(** The loop that moves each key of the object, in the order of the sorted
    keys, behind the others: the value is read, the property deleted and
    set again. The keys are those of the object. *)
Fixpoint reposition {A : Type} (keys : list str) (blockMessages : list (str * A))
    : list (str * A) :=
  match keys with
  | [] => blockMessages
  | key :: keys' =>
    match assoc key blockMessages with
    | Some value =>
      reposition keys' (put key value (Restructure.remove key blockMessages))
    | None => reposition keys' blockMessages
    end
  end.

(** [blockMessages[locale] = translationsForComponent], then the loop. *)
Definition add_locale {A : Type} (locale : str) (translationsForComponent : A)
    (blockMessages : list (str * A)) : list (str * A) :=
  let blockMessages1 := put locale translationsForComponent blockMessages in
  reposition (sort (map fst blockMessages1)) blockMessages1.

End Block.

(** * Properties *)

(** ** Strings, arrays and objects *)

Module JsFacts.

Lemma str_eqb_eq (a b : str) : str_eqb a b = true <-> a = b.
Proof.
  revert b; induction a as [|x a IH]; intros [|y b]; simpl; split;
    try congruence; try reflexivity.
  - intros H. apply andb_true_iff in H as [H1 H2].
    apply N.eqb_eq in H1. apply IH in H2. congruence.
  - intros H. injection H as -> ->. rewrite N.eqb_refl. simpl. now apply IH.
Qed.

Lemma str_eqb_refl (a : str) : str_eqb a a = true.
Proof. now apply str_eqb_eq. Qed.

Lemma str_eqb_neq (a b : str) : str_eqb a b = false <-> a <> b.
Proof.
  split.
  - intros H E. apply str_eqb_eq in E. congruence.
  - intros H. destruct (str_eqb a b) eqn:E; [|reflexivity].
    apply str_eqb_eq in E. contradiction.
Qed.

Lemma str_eqb_sym (a b : str) : str_eqb a b = str_eqb b a.
Proof.
  destruct (str_eqb a b) eqn:E.
  - apply str_eqb_eq in E. subst. symmetry. apply str_eqb_refl.
  - symmetry. apply str_eqb_neq. apply str_eqb_neq in E. congruence.
Qed.

Lemma equals_eq (a b : list str) : equals a b = true <-> a = b.
Proof.
  revert b; induction a as [|x a IH]; intros [|y b]; simpl; split;
    try congruence; try reflexivity.
  - intros H. apply andb_true_iff in H as [H1 H2].
    apply str_eqb_eq in H1. apply IH in H2. congruence.
  - intros H. injection H as -> ->. rewrite str_eqb_refl. simpl. now apply IH.
Qed.

Lemma equals_refl (a : list str) : equals a a = true.
Proof. now apply equals_eq. Qed.

Lemma equals_neq (a b : list str) : equals a b = false <-> a <> b.
Proof.
  split.
  - intros H E. apply equals_eq in E. congruence.
  - intros H. destruct (equals a b) eqn:E; [|reflexivity].
    apply equals_eq in E. contradiction.
Qed.

(** *** The order of [sort] *)

Definition str_le (a b : str) : Prop := str_leb a b = true.

Lemma str_leb_total (a b : str) : str_leb a b = true \/ str_leb b a = true.
Proof.
  revert b; induction a as [|x a IH]; intros [|y b]; simpl; auto.
  destruct (N.ltb_spec x y) as [Hxy|Hxy]; simpl; auto.
  destruct (N.ltb_spec y x) as [Hyx|Hyx]; simpl; auto.
  assert (x = y) by lia. subst. rewrite N.eqb_refl. simpl. apply IH.
Qed.

Lemma str_leb_antisym (a b : str) :
  str_leb a b = true -> str_leb b a = true -> a = b.
Proof.
  revert b; induction a as [|x a IH]; intros [|y b]; simpl; try congruence.
  intros H1 H2.
  apply orb_true_iff in H1. apply orb_true_iff in H2.
  destruct H1 as [H1|H1], H2 as [H2|H2];
    try apply N.ltb_lt in H1; try apply N.ltb_lt in H2;
    try apply andb_true_iff in H1 as [E1 L1];
    try apply andb_true_iff in H2 as [E2 L2];
    try apply N.eqb_eq in E1; try apply N.eqb_eq in E2; try lia.
  subst. f_equal. now apply IH.
Qed.

Lemma str_leb_trans (a b c : str) :
  str_leb a b = true -> str_leb b c = true -> str_leb a c = true.
Proof.
  revert b c; induction a as [|x a IH]; intros [|y b] [|z c]; simpl;
    try congruence.
  intros H1 H2.
  apply orb_true_iff in H1. apply orb_true_iff in H2. apply orb_true_iff.
  destruct H1 as [H1|H1], H2 as [H2|H2];
    try apply N.ltb_lt in H1; try apply N.ltb_lt in H2;
    try apply andb_true_iff in H1 as [E1 L1];
    try apply andb_true_iff in H2 as [E2 L2];
    try apply N.eqb_eq in E1; try apply N.eqb_eq in E2; subst.
  - left. apply N.ltb_lt. lia.
  - left. now apply N.ltb_lt.
  - left. now apply N.ltb_lt.
  - right. rewrite N.eqb_refl. simpl. eapply IH; eauto.
Qed.

Lemma insert_sorted_perm (x : str) (l : list str) :
  Permutation (insert_sorted x l) (x :: l).
Proof.
  induction l as [|y l IH]; simpl; [reflexivity|].
  destruct (str_leb x y); [reflexivity|].
  rewrite IH. apply perm_swap.
Qed.

Lemma sort_perm (l : list str) : Permutation (sort l) l.
Proof.
  induction l as [|x l IH]; simpl; [reflexivity|].
  rewrite insert_sorted_perm. now constructor.
Qed.

Lemma sort_length (l : list str) : length (sort l) = length l.
Proof. apply Permutation_length, sort_perm. Qed.

Lemma insert_sorted_sorted (x : str) (l : list str) :
  StronglySorted str_le l -> StronglySorted str_le (insert_sorted x l).
Proof.
  induction 1 as [|y l Hl IH Hy]; simpl.
  - constructor; constructor.
  - destruct (str_leb x y) eqn:E.
    + constructor; [now constructor|].
      constructor; [exact E|].
      eapply Forall_impl; [|exact Hy].
      intros z Hz. eapply str_leb_trans; eauto.
    + constructor; [exact IH|].
      eapply Permutation_Forall; [symmetry; apply insert_sorted_perm|].
      constructor; [|exact Hy].
      destruct (str_leb_total x y) as [H|H]; [congruence|exact H].
Qed.

Lemma sort_sorted (l : list str) : StronglySorted str_le (sort l).
Proof.
  induction l as [|x l IH]; simpl; [constructor|].
  now apply insert_sorted_sorted.
Qed.

(** A sorted array is determined by its elements. *)
Lemma sorted_unique (l1 l2 : list str) :
  Permutation l1 l2 -> StronglySorted str_le l1 -> StronglySorted str_le l2 ->
  l1 = l2.
Proof.
  revert l2; induction l1 as [|a l1 IH]; intros l2 HP H1 H2.
  - apply Permutation_nil in HP. now subst.
  - destruct l2 as [|b l2].
    + symmetry in HP. apply Permutation_nil in HP. discriminate.
    + inversion H1 as [|? ? S1 F1]; subst. inversion H2 as [|? ? S2 F2]; subst.
      assert (a = b) as ->.
      { assert (Ha : In a (b :: l2)) by (eapply Permutation_in; [exact HP|now left]).
        assert (Hb : In b (a :: l1)) by (eapply Permutation_in; [symmetry; exact HP|now left]).
        destruct Ha as [->|Ha]; [reflexivity|].
        destruct Hb as [->|Hb]; [reflexivity|].
        rewrite Forall_forall in F1, F2.
        apply str_leb_antisym; [now apply F1|now apply F2]. }
      f_equal. apply IH; auto. eapply Permutation_cons_inv; eauto.
Qed.

Lemma sort_of_perm (l1 l2 : list str) : Permutation l1 l2 -> sort l1 = sort l2.
Proof.
  intros HP. apply sorted_unique; try apply sort_sorted.
  rewrite !sort_perm. exact HP.
Qed.

Lemma sort_id (l : list str) : StronglySorted str_le l -> sort l = l.
Proof.
  intros H. apply sorted_unique; auto using sort_sorted, sort_perm.
Qed.

(** *** Objects *)

Lemma assoc_replace_value {A : Type} (k k' : str) (v : A) (l : list (str * A)) :
  has_key k l = true ->
  assoc k' (replace_value k v l) = if str_eqb k' k then Some v else assoc k' l.
Proof.
  induction l as [|[k0 v0] l IH]; simpl; [discriminate|].
  intros H. destruct (str_eqb k k0) eqn:E.
  - apply str_eqb_eq in E; subst k0. simpl.
    destruct (str_eqb k' k); reflexivity.
  - simpl in H. simpl. destruct (str_eqb k' k0) eqn:E0.
    + apply str_eqb_eq in E0; subst k0.
      rewrite str_eqb_sym, E. reflexivity.
    + now apply IH.
Qed.

Lemma assoc_insert_index {A : Type} (n : N) (k k' : str) (v : A) (l : list (str * A)) :
  has_key k l = false ->
  assoc k' (insert_index n k v l) = if str_eqb k' k then Some v else assoc k' l.
Proof.
  induction l as [|[k0 v0] l IH]; simpl; [reflexivity|].
  intros H. apply orb_false_iff in H as [H0 H].
  destruct (array_index k0) as [m|]; [destruct (N.ltb m n)|]; simpl;
    try reflexivity.
  destruct (str_eqb k' k0) eqn:E0.
  - apply str_eqb_eq in E0; subst k0. rewrite str_eqb_sym, H0. reflexivity.
  - now apply IH.
Qed.

Lemma assoc_app_new {A : Type} (k k' : str) (v : A) (l : list (str * A)) :
  has_key k l = false ->
  assoc k' (l ++ [(k, v)]) = if str_eqb k' k then Some v else assoc k' l.
Proof.
  induction l as [|[k0 v0] l IH]; simpl; [reflexivity|].
  intros H. apply orb_false_iff in H as [H0 H].
  destruct (str_eqb k' k0) eqn:E0.
  - apply str_eqb_eq in E0; subst k0. rewrite str_eqb_sym, H0. reflexivity.
  - now apply IH.
Qed.

(** Reading a property after an assignment. *)
Lemma assoc_put {A : Type} (k k' : str) (v : A) (l : list (str * A)) :
  assoc k' (put k v l) = if str_eqb k' k then Some v else assoc k' l.
Proof.
  unfold put. destruct (has_key k l) eqn:H.
  - now apply assoc_replace_value.
  - destruct (array_index k); [now apply assoc_insert_index|now apply assoc_app_new].
Qed.

Lemma assoc_put_same {A : Type} (k : str) (v : A) (l : list (str * A)) :
  assoc k (put k v l) = Some v.
Proof. rewrite assoc_put, str_eqb_refl. reflexivity. Qed.

Lemma assoc_put_other {A : Type} (k k' : str) (v : A) (l : list (str * A)) :
  k' <> k -> assoc k' (put k v l) = assoc k' l.
Proof. intros H. rewrite assoc_put. apply str_eqb_neq in H. now rewrite H. Qed.

Lemma has_key_assoc {A : Type} (k : str) (l : list (str * A)) :
  has_key k l = true <-> exists v, assoc k l = Some v.
Proof.
  induction l as [|[k0 v0] l IH]; simpl.
  - split; [discriminate|intros [v H]; discriminate].
  - destruct (str_eqb k k0); simpl; [|exact IH].
    split; [eauto|reflexivity].
Qed.

Lemma assoc_in_keys {A : Type} (k : str) (v : A) (l : list (str * A)) :
  assoc k l = Some v -> In k (map fst l).
Proof.
  induction l as [|[k0 v0] l IH]; simpl; [discriminate|].
  destruct (str_eqb k k0) eqn:E.
  - apply str_eqb_eq in E. auto.
  - auto.
Qed.

Lemma in_keys_assoc {A : Type} (k : str) (l : list (str * A)) :
  In k (map fst l) -> exists v, assoc k l = Some v.
Proof.
  induction l as [|[k0 v0] l IH]; simpl; [contradiction|].
  intros [->|H].
  - rewrite str_eqb_refl. eauto.
  - destruct (str_eqb k k0); eauto.
Qed.

End JsFacts.
Import JsFacts.

(** ** VARIABLES *)

Module VarsFacts.
Import Vars.

Lemma span_app (p : char -> bool) (s : str) :
  fst (span p s) ++ snd (span p s) = s /\ forallb p (fst (span p s)) = true.
Proof.
  induction s as [|c t [IH1 IH2]]; simpl; [auto|].
  destruct (p c) eqn:E; simpl; [|auto].
  destruct (span p t) as [a b]; simpl in *. rewrite IH1, E. auto.
Qed.

Lemma is_word_not_brace (c : char) : is_word c = true -> is_brace c = false.
Proof.
  unfold is_word, is_brace, in_range, open_brace, close_brace. intros H.
  destruct (N.eqb_spec c 123); [subst; discriminate|].
  destruct (N.eqb_spec c 125); [subst; discriminate|]. reflexivity.
Qed.

Lemma count_braces_app (a b : str) :
  count_braces (a ++ b) = count_braces a + count_braces b.
Proof. unfold count_braces. now rewrite filter_app, length_app. Qed.

Lemma count_braces_word (w : str) : forallb is_word w = true -> count_braces w = 0.
Proof.
  unfold count_braces. induction w as [|c w IH]; simpl; [reflexivity|].
  intros H. apply andb_true_iff in H as [Hc Hw].
  rewrite (is_word_not_brace c Hc). auto.
Qed.

(** The shape of a match of [/{\w+}/]. *)
Lemma token_at_shape (s tok : str) :
  token_at s = Some tok ->
  exists w rest, w <> [] /\ forallb is_word w = true
    /\ tok = open_brace :: w ++ [close_brace]
    /\ s = open_brace :: w ++ close_brace :: rest.
Proof.
  unfold token_at. destruct s as [|c t]; [discriminate|].
  destruct (N.eqb_spec c open_brace) as [->|]; [|discriminate].
  destruct (span_app is_word t) as [Happ Hw].
  destruct (span is_word t) as [[|x w] [|d rest]]; simpl in *; try discriminate.
  destruct (N.eqb_spec d close_brace) as [->|]; [|discriminate].
  intros H. injection H as <-.
  exists (x :: w), rest. repeat split; auto; [discriminate|].
  now rewrite <- Happ.
Qed.

Lemma match_tokens_skip (p s : str) :
  match_tokens (length p) (p ++ s) = match_tokens 0 s.
Proof. induction p as [|c p IH]; simpl; auto. Qed.

Lemma match_tokens_token (w rest : str) :
  w <> [] -> forallb is_word w = true ->
  match_tokens 0 (open_brace :: w ++ close_brace :: rest)
  = (open_brace :: w ++ [close_brace]) :: match_tokens 0 rest.
Proof.
  intros Hne Hw.
  assert (Ht : token_at (open_brace :: w ++ close_brace :: rest)
               = Some (open_brace :: w ++ [close_brace])).
  { unfold token_at. rewrite N.eqb_refl.
    assert (Hs : span is_word (w ++ close_brace :: rest) = (w, close_brace :: rest)).
    { clear Hne. induction w as [|c w IH]; simpl; [reflexivity|].
      simpl in Hw. apply andb_true_iff in Hw as [Hc Hw].
      rewrite Hc, (IH Hw). reflexivity. }
    rewrite Hs. destruct w; [congruence|]. rewrite N.eqb_refl. reflexivity. }
  change (match_tokens 0 (open_brace :: w ++ close_brace :: rest))
    with (match token_at (open_brace :: w ++ close_brace :: rest) with
          | Some tok => tok :: match_tokens (length tok - 1) (w ++ close_brace :: rest)
          | None => match_tokens 0 (w ++ close_brace :: rest)
          end).
  rewrite Ht. f_equal.
  replace (length (open_brace :: w ++ [close_brace]) - 1) with (length (w ++ [close_brace]))
    by (simpl; lia).
  replace (w ++ close_brace :: rest) with ((w ++ [close_brace]) ++ rest)
    by (rewrite <- app_assoc; reflexivity).
  apply match_tokens_skip.
Qed.

Lemma match_tokens_no_token (c : char) (t : str) :
  token_at (c :: t) = None -> match_tokens 0 (c :: t) = match_tokens 0 t.
Proof.
  intros H.
  change (match_tokens 0 (c :: t))
    with (match token_at (c :: t) with
          | Some tok => tok :: match_tokens (length tok - 1) t
          | None => match_tokens 0 t
          end).
  now rewrite H.
Qed.

(** A string in which every brace belongs to a token. *)
Inductive Flat : str -> Prop :=
| Flat_nil : Flat []
| Flat_char (c : char) (s : str) : is_brace c = false -> Flat s -> Flat (c :: s)
| Flat_token (w s : str) :
    w <> [] -> forallb is_word w = true -> Flat s ->
    Flat (open_brace :: w ++ close_brace :: s).

Lemma braces_of_tokens (n : nat) (s : str) :
  length s <= n ->
  2 * length (match_tokens 0 s) <= count_braces s
  /\ (count_braces s = 2 * length (match_tokens 0 s) -> Flat s).
Proof.
  revert s; induction n as [|n IH]; intros s Hn.
  - destruct s; [|simpl in Hn; lia]. simpl. split; [lia|constructor].
  - destruct s as [|c t]; [simpl; split; [lia|constructor]|].
    destruct (token_at (c :: t)) as [tok|] eqn:Ht.
    + apply token_at_shape in Ht as (w & rest & Hne & Hw & -> & E).
      rewrite E. rewrite match_tokens_token by assumption.
      assert (Hc : count_braces (open_brace :: w ++ close_brace :: rest)
                   = 2 + count_braces rest).
      { change (open_brace :: w ++ close_brace :: rest)
          with ([open_brace] ++ w ++ [close_brace] ++ rest).
        rewrite !count_braces_app, (count_braces_word w Hw). reflexivity. }
      rewrite Hc.
      assert (Hlen : length rest <= n).
      { rewrite E in Hn. simpl in Hn. rewrite length_app in Hn. simpl in Hn. lia. }
      destruct (IH rest Hlen) as [B F]. simpl length. split; [lia|].
      intros H. apply Flat_token; auto. apply F. lia.
    + rewrite (match_tokens_no_token c t Ht).
      assert (Hlen : length t <= n) by (simpl in Hn; lia).
      destruct (IH t Hlen) as [B F].
      unfold count_braces in *. simpl filter. destruct (is_brace c) eqn:Ec; simpl length.
      * split; [lia|]. intros H. lia.
      * split; [exact B|]. intros H. apply Flat_char; auto.
Qed.

(** The extractor accepts a string exactly when its braces are twice its
    tokens, and it then returns the sorted array of the matches. *)
Lemma parseVars_Ok (s : str) (vs : list str) :
  parseVars s = Ok vs <->
  count_braces s = 2 * length (match_tokens 0 s) /\ vs = sort (match_tokens 0 s).
Proof.
  unfold parseVars. rewrite sort_length.
  destruct (braces_of_tokens (length s) s (le_n _)) as [B _].
  destruct (Nat.eqb_spec (count_braces s) 0) as [E0|E0];
    destruct (Nat.eqb_spec (count_braces s) (2 * length (match_tokens 0 s))) as [E|E];
    simpl; split; try (intros H; injection H as <-; split; [lia|reflexivity]);
    try (intros [_ ->]; reflexivity); try discriminate; try (intros [H _]; lia).
Qed.

Lemma parseVars_Flat (s : str) (vs : list str) : parseVars s = Ok vs -> Flat s.
Proof.
  intros H. apply parseVars_Ok in H as [H _].
  now apply (braces_of_tokens (length s) s (le_n _)).
Qed.

Lemma parseVars_fails (s : str) (e : error) :
  parseVars s = Throw e -> e = unexpected_brace.
Proof.
  unfold parseVars.
  destruct (negb (count_braces s =? 0) && negb (count_braces s =? 2 * length (sort (match_tokens 0 s))));
    simpl; congruence.
Qed.

End VarsFacts.
Import VarsFacts.

(** C7, as the code has it. For every variant string that the variable
    extractor accepts (the number of braces is exactly twice the number of
    tokens), the output is the array of all the occurrences of [{name}]
    tokens in the string, sorted by code units: it is sorted, and it holds
    every token as many times as the string uses it (a token used twice
    occurs twice). The order of occurrence does not matter: two accepted
    strings have equal outputs exactly when their token occurrences are the
    same up to order. *)
Theorem parseVars_sorted_occurrences (s : str) (vs : list str) :
  Vars.parseVars s = Ok vs ->
  Vars.count_braces s = 2 * length vs
  /\ StronglySorted str_le vs
  /\ Permutation vs (Vars.match_tokens 0 s)
  /\ (forall tok, count_occ (list_eq_dec N.eq_dec) vs tok
                  = count_occ (list_eq_dec N.eq_dec) (Vars.match_tokens 0 s) tok)
  /\ (forall t vt, Vars.parseVars t = Ok vt ->
        (vs = vt <-> Permutation (Vars.match_tokens 0 s) (Vars.match_tokens 0 t))).
Proof.
  intros H. apply parseVars_Ok in H as [Hc ->].
  rewrite sort_length. split; [exact Hc|].
  split; [apply sort_sorted|].
  split; [apply sort_perm|].
  split.
  - intros tok. apply Permutation_count_occ. apply sort_perm.
  - intros t vt Ht. apply parseVars_Ok in Ht as [_ ->]. split.
    + intros E. rewrite <- (sort_perm (Vars.match_tokens 0 s)), E. apply sort_perm.
    + apply sort_of_perm.
Qed.

Lemma parseVars_sorted_occurrences_witness :
  Vars.parseVars (u "{b} and {a} or {b}") = Ok [u "{a}"; u "{b}"; u "{b}"]
  /\ Vars.count_braces (u "{b} and {a} or {b}") = 2 * 3.
Proof.
  split; [reflexivity|].
  exact (proj1 (parseVars_sorted_occurrences (u "{b} and {a} or {b}")
                  [u "{a}"; u "{b}"; u "{b}"] eq_refl)).
Defined.

(** C7 as stated fails: a string that uses a token twice and a string that
    uses it once are both accepted and have different outputs. *)
Lemma parseVars_keeps_duplicates :
  Vars.parseVars (u "{a} and {a}") = Ok [u "{a}"; u "{a}"]
  /\ Vars.parseVars (u "{a}") = Ok [u "{a}"]
  /\ Vars.parseVars (u "{a} and {a}") <> Vars.parseVars (u "{a}").
Proof. repeat split; discriminate. Qed.

(** ** PLURALS *)

Module PluralFacts.
Import Vars Plural.

Lemma when_Ok (b : bool) (r : result unit) (x : unit) :
  when_ b r = Ok x -> b = false \/ r = Ok x.
Proof. destruct b; simpl; auto. Qed.

Lemma when_false (r : result unit) : when_ false r = Ok tt.
Proof. reflexivity. Qed.

Lemma when_throw (b : bool) (m e : error) :
  when_ b (logThenThrow m) = Throw e -> b = true /\ e = m.
Proof. destruct b; simpl; unfold logThenThrow; [intros H; injection H; auto|discriminate]. Qed.

(** The errors of the constructor. *)
Definition constructor_error (e : error) : Prop :=
  e = forms_cannot_be_empty \/ e = unexpected_brace
  \/ e = unexpected_empty_plural_form \/ e = same_variables_in_each_form.

Lemma check_forms_error (form0 : str) (vars rest : list str) (e : error) :
  check_forms form0 vars rest = Throw e -> constructor_error e.
Proof.
  unfold constructor_error.
  induction rest as [|f rest IH]; simpl; [discriminate|].
  destruct (xorb (is_empty_string f) (is_empty_string form0)); simpl;
    [unfold logThenThrow; intros H; injection H as <-; auto|].
  destruct (parseVars f) as [v|e'] eqn:P; simpl.
  - destruct (equals v vars); simpl; [exact IH|].
    unfold logThenThrow; intros H; injection H as <-; auto.
  - intros H; injection H as <-. apply parseVars_fails in P. auto.
Qed.

Lemma new_error (fs : list str) (e : error) :
  new fs = Throw e -> constructor_error e.
Proof.
  unfold new, constructor_error. destruct fs as [|f fs]; [intros H; injection H as <-; auto|].
  destruct (parseVars f) as [v|e'] eqn:P; simpl.
  - destruct (check_forms f v fs) eqn:C; simpl; [discriminate|].
    intros H; injection H as <-. now apply check_forms_error in C.
  - intros H; injection H as <-. apply parseVars_fails in P. auto.
Qed.

Lemma new_Ok (fs : list str) (pf : PluralForms) :
  new fs = Ok pf ->
  pf = mkPluralForms fs
  /\ exists form0 rest vars, fs = form0 :: rest /\ parseVars form0 = Ok vars
       /\ check_forms form0 vars rest = Ok tt.
Proof.
  unfold new. destruct fs as [|f fs]; [discriminate|].
  destruct (parseVars f) as [v|] eqn:P; simpl; [|discriminate].
  destruct (check_forms f v fs) as [[]|] eqn:C; simpl; [|discriminate].
  intros H; injection H as <-. split; [reflexivity|]. eauto 6.
Qed.

Lemma check_forms_Ok (form0 : str) (vars rest : list str) :
  check_forms form0 vars rest = Ok tt ->
  forall f, In f rest ->
    is_empty_string f = is_empty_string form0 /\ parseVars f = Ok vars.
Proof.
  induction rest as [|g rest IH]; simpl; [contradiction|].
  destruct (xorb (is_empty_string g) (is_empty_string form0)) eqn:X; simpl;
    [discriminate|].
  destruct (parseVars g) as [v|] eqn:P; simpl; [|discriminate].
  destruct (equals v vars) eqn:E; simpl; [|discriminate].
  intros H f [<-|Hf]; [|now apply IH].
  apply equals_eq in E; subst v. split; [|exact P].
  destruct (is_empty_string g), (is_empty_string form0); simpl in X; congruence.
Qed.

(** Every form of an instance passes the variable extractor. *)
Lemma new_forms_parse (fs : list str) (pf : PluralForms) :
  new fs = Ok pf -> forall f, In f fs -> exists vars, parseVars f = Ok vars.
Proof.
  intros H f Hf. apply new_Ok in H as (_ & f0 & rest & vars & -> & P & C).
  destruct Hf as [<-|Hf]; [eauto|].
  destruct (check_forms_Ok _ _ _ C f Hf) as [_ Hp]. eauto.
Qed.

End PluralFacts.
Import PluralFacts.

(** C10. The constructor fails on an empty array of forms, so that every
    instance it returns has a first form: index 0 exists, and [isEmpty] is
    the comparison of that form with the empty string. *)
Theorem new_has_first_form (fs : list str) (pf : Plural.PluralForms) :
  Plural.new fs = Ok pf ->
  Plural.new [] = Throw forms_cannot_be_empty
  /\ Plural.forms pf = fs
  /\ 1 <= length (Plural.forms pf)
  /\ exists form0 rest,
       Plural.forms pf = form0 :: rest
       /\ nth_error (Plural.forms pf) 0 = Some form0
       /\ Plural.isEmpty pf = Plural.is_empty_string form0.
Proof.
  intros H. apply new_Ok in H as (-> & f0 & rest & vars & -> & _ & _).
  split; [reflexivity|]. split; [reflexivity|]. split; [simpl; lia|].
  exists f0, rest. repeat split.
Qed.

Lemma new_has_first_form_witness :
  Plural.new [u "{count} row"; u "{count} rows"]
  = Ok (Plural.mkPluralForms [u "{count} row"; u "{count} rows"])
  /\ 1 <= length (Plural.forms (Plural.mkPluralForms [u "{count} row"; u "{count} rows"])).
Proof.
  split; [reflexivity|].
  exact (proj1 (proj2 (proj2
    (new_has_first_form [u "{count} row"; u "{count} rows"]
       (Plural.mkPluralForms [u "{count} row"; u "{count} rows"]) eq_refl)))).
Defined.

(** The other ways to build an instance go through the constructor. *)
Lemma factories_have_first_form (intl : str -> list str) (pf : Plural.PluralForms) :
  (exists n, Plural.empty n = Ok pf)
  \/ (exists message, Plural.fromVueI18n message = Ok pf)
  \/ (exists string locale, Plural.fromTransifex intl string locale = Ok pf) ->
  Plural.forms pf <> [].
Proof.
  assert (G : forall fs, Plural.new fs = Ok pf -> Plural.forms pf <> []).
  { intros fs H. apply new_Ok in H as (-> & f0 & rest & vars & -> & _).
    discriminate. }
  intros [[n H]|[[m H]|(s & l & H)]].
  - exact (G _ H).
  - unfold Plural.fromVueI18n, bind in H.
    repeat match type of H with
           | match ?x with _ => _ end = _ => destruct x; try discriminate
           end.
    exact (G _ H).
  - unfold Plural.fromTransifex, bind in H.
    repeat match type of H with
           | match ?x with _ => _ end = _ => destruct x; try discriminate
           end; exact (G _ H).
Qed.

(** ** LINKED LOCALE MESSAGES *)

Module LinkedFacts.
Import Plural Linked.

Definition link_marker : str := u "@:".

Lemma link_match_spec (s p : str) :
  link_match s = Some p <->
  s = link_marker ++ p /\ p <> [] /\ forallb is_path_char p = true.
Proof.
  unfold link_match, link_marker. split.
  - destruct s as [|c1 [|c2 [|c3 s]]]; try discriminate.
    destruct (N.eqb_spec c1 64); simpl; [|discriminate].
    destruct (N.eqb_spec c2 58); simpl; [|discriminate].
    destruct (is_path_char c3 && forallb is_path_char s) eqn:E; [|discriminate].
    intros H; injection H as <-. subst. repeat split; [discriminate|exact E].
  - intros (-> & Hne & Hp). destruct p as [|c3 p]; [congruence|].
    simpl in *. now rewrite Hp.
Qed.

End LinkedFacts.
Import LinkedFacts.

(** C6, as the code has it. [pathOfLinkedMessage] returns the path, split
    at the dots, when the message has exactly one form and the whole of it
    matches [@:path]. In every other case it throws if some form contains
    [@:], whatever the number of forms, and returns [null] if none does: a
    message of a single form that contains [@:] without being a link as a
    whole is rejected. *)
Theorem pathOfLinkedMessage_cases (pf : Plural.PluralForms) :
  (forall p, Plural.forms pf = [link_marker ++ p] -> p <> [] ->
     forallb Linked.is_path_char p = true ->
     Linked.pathOfLinkedMessage pf = Ok (Some (split (u ".") p)))
  /\ ((forall p, Plural.forms pf = [link_marker ++ p] -> p <> [] ->
         forallb Linked.is_path_char p = true -> False) ->
      (Linked.pathOfLinkedMessage pf = Throw unexpected_linked_locale_message
       <-> exists form, In form (Plural.forms pf) /\ includes link_marker form = true)
      /\ (Linked.pathOfLinkedMessage pf = Ok None
          <-> forall form, In form (Plural.forms pf) -> includes link_marker form = false)).
Proof.
  unfold Linked.pathOfLinkedMessage. split.
  - intros p E Hne Hp. rewrite E.
    assert (H : Linked.link_match (link_marker ++ p) = Some p)
      by (apply link_match_spec; auto).
    now rewrite H.
  - intros Hno.
    assert (E : match Plural.forms pf with
                | [form0] => Linked.link_match form0
                | _ => None
                end = None).
    { destruct (Plural.forms pf) as [|f [|g r]] eqn:F; try reflexivity.
      destruct (Linked.link_match f) as [p|] eqn:M; [|reflexivity].
      apply link_match_spec in M as (-> & Hne & Hp).
      exfalso. eapply Hno; eauto. }
    rewrite E. fold link_marker.
    destruct (existsb (includes link_marker) (Plural.forms pf)) eqn:X; simpl.
    + apply existsb_exists in X. split; split; try discriminate; auto.
      intros H. destruct X as (f & Hf & Hi). rewrite (H f Hf) in Hi. discriminate.
    + split; split; try discriminate; auto.
      * intros (f & Hf & Hi).
        assert (existsb (includes link_marker) (Plural.forms pf) = true)
          by (apply existsb_exists; eauto). congruence.
      * intros _ f Hf. destruct (includes link_marker f) eqn:Hi; [|reflexivity].
        assert (existsb (includes link_marker) (Plural.forms pf) = true)
          by (apply existsb_exists; eauto). congruence.
Qed.

(** C6 as stated fails: a message of one form that contains the marker
    without matching the pattern as a whole does not return [null]. *)
Lemma pathOfLinkedMessage_single_form_throws :
  length (Plural.forms (Plural.mkPluralForms [u "see @:a.b"])) = 1
  /\ Linked.link_match (u "see @:a.b") = None
  /\ Linked.pathOfLinkedMessage (Plural.mkPluralForms [u "see @:a.b"])
     = Throw unexpected_linked_locale_message
  /\ Linked.pathOfLinkedMessage (Plural.mkPluralForms [u "see @:a.b"]) <> Ok None.
Proof. repeat split; discriminate. Qed.

(** C3, as the code has it. For a registered locale and a string with the
    ICU plural wrapper whose blocks parse, [fromTransifex] throws the error
    about the plural categories exactly when the sorted array of the
    categories found, repetitions included, differs from the array of the
    categories of the locale. In particular it throws it whenever the
    categories found and those of the locale differ as sets; a string that
    repeats a category is rejected as well. *)
Theorem fromTransifex_category_check (intl : str -> list str)
    (string locale : str) (l : Locales.normalized) (categories fs : list str) :
  Locales.locale_lookup intl locale = Some l ->
  Plural.icuMatch string = true ->
  Plural.plural_blocks (length Plural.icu_open) string = Ok (categories, fs) ->
  (Plural.fromTransifex intl string locale
   = Throw (plural_categories (Locales.pluralCategories l) (sort categories))
   <-> sort categories <> Locales.pluralCategories l)
  /\ (forall expected found,
        Plural.fromTransifex intl string locale = Throw (plural_categories expected found) ->
        sort categories <> Locales.pluralCategories l)
  /\ (~ (forall c, In c categories <-> In c (Locales.pluralCategories l)) ->
      Plural.fromTransifex intl string locale
      = Throw (plural_categories (Locales.pluralCategories l) (sort categories))).
Proof.
  intros Hl Hm Hb.
  assert (Hne : sort categories <> Locales.pluralCategories l ->
                Plural.fromTransifex intl string locale
                = Throw (plural_categories (Locales.pluralCategories l) (sort categories))).
  { intros H. unfold Plural.fromTransifex. rewrite Hm, Hb. simpl. rewrite Hl.
    apply equals_neq in H. rewrite H. reflexivity. }
  assert (Heq : sort categories = Locales.pluralCategories l ->
                forall expected found,
                  Plural.fromTransifex intl string locale
                  <> Throw (plural_categories expected found)).
  { intros H expected found. unfold Plural.fromTransifex. rewrite Hm, Hb. simpl.
    rewrite Hl. rewrite H, equals_refl. simpl. intros E.
    apply new_error in E. unfold constructor_error in E.
    destruct E as [E|[E|[E|E]]]; discriminate. }
  split; [|split].
  - split; [|exact Hne]. intros E H. exact (Heq H _ _ E).
  - intros expected found E H. exact (Heq H _ _ E).
  - intros H. apply Hne. intros E. apply H. intros c.
    rewrite <- E. split; intros Hc.
    + eapply Permutation_in; [symmetry; apply sort_perm|exact Hc].
    + eapply Permutation_in; [apply sort_perm|exact Hc].
Qed.

Lemma fromTransifex_category_check_witness :
  Plural.fromTransifex Locales.cldr (u "{count, plural, other {{count} rows}}") (u "fr")
  = Throw (plural_categories [u "one"; u "other"] [u "other"]).
Proof.
  apply (proj2 (proj2 (fromTransifex_category_check Locales.cldr
    (u "{count, plural, other {{count} rows}}") (u "fr")
    {| Locales.pluralCategories := [u "one"; u "other"];
       Locales.warnVariableSeparator := true |}
    [u "other"] [u "{count} rows"] eq_refl eq_refl eq_refl))).
  intros H. destruct (proj2 (H (u "one"))) as [E|[]]; [simpl; auto|discriminate].
Defined.

(** C3 as stated fails: the categories found are those of the locale as a
    set, and the string is rejected all the same. *)
Lemma fromTransifex_repeated_category :
  Locales.locale_lookup Locales.cldr (u "fr")
  = Some {| Locales.pluralCategories := [u "one"; u "other"];
            Locales.warnVariableSeparator := true |}
  /\ Plural.icuMatch (u "{count, plural, one {a} one {b} other {c}}") = true
  /\ Plural.plural_blocks (length Plural.icu_open)
       (u "{count, plural, one {a} one {b} other {c}}")
     = Ok ([u "one"; u "one"; u "other"], [u "a"; u "b"; u "c"])
  /\ (forall c, In c [u "one"; u "one"; u "other"] <-> In c [u "one"; u "other"])
  /\ Plural.fromTransifex Locales.cldr
       (u "{count, plural, one {a} one {b} other {c}}") (u "fr")
     = Throw (plural_categories [u "one"; u "other"] [u "one"; u "one"; u "other"]).
Proof.
  repeat split; simpl; intuition.
Qed.

(** ** Content validation *)

Module ValidateFacts.
Import Vars Plural Merge.

Lemma check_links_error (source translated : list str) (e : error) :
  check_links source translated = Throw e -> e = unexpected_linked_locale_message.
Proof.
  revert source; induction translated as [|f translated IH]; intros source; simpl;
    [discriminate|].
  match goal with |- context [when_ ?b _] => destruct b end; simpl.
  - unfold logThenThrow. congruence.
  - apply IH.
Qed.

(** The test of the pluralization, as [validateTranslation] writes it. *)
Definition arity_differs (l : Locales.normalized) (source translated : PluralForms) : bool :=
  negb (length (Locales.pluralCategories l) =? 1)
  && xorb (negb (length (forms source) =? 1)) (negb (length (forms translated) =? 1)).

Lemma validate_arity_differs (intl : str -> list str) (locale : str)
    (l : Locales.normalized) (source translated : PluralForms) :
  Locales.locale_lookup intl locale = Some l ->
  arity_differs l source translated = true ->
  validate intl locale source (Some (TMessage translated)) = Throw pluralization_mismatch.
Proof.
  intros Hl H. unfold validate. rewrite Hl. fold (arity_differs l source translated).
  rewrite H. reflexivity.
Qed.

Lemma validate_arity_same (intl : str -> list str) (locale : str)
    (l : Locales.normalized) (source translated : PluralForms) :
  Locales.locale_lookup intl locale = Some l ->
  arity_differs l source translated = false ->
  validate intl locale source (Some (TMessage translated))
  = ((if negb (isEmpty translated) then
        match forms source, forms translated with
        | s0 :: _, t0 :: _ =>
          vs <- parseVars s0 ;;
          vt <- parseVars t0 ;;
          when_ (negb (equals vs vt)) (logThenThrow translation_same_variables)
        | _, _ => Throw TypeError
        end
      else Ok tt) ;;;
     check_links (forms source) (forms translated)).
Proof.
  intros Hl H. unfold validate. rewrite Hl. fold (arity_differs l source translated).
  rewrite H. reflexivity.
Qed.

End ValidateFacts.
Import ValidateFacts.

(** C9. For a registered locale, whose array of plural categories is not
    empty, [validateTranslation] throws the error of the pluralization
    exactly when the locale has more than one plural category and exactly
    one of the source message and the translated message has a single
    form. For a locale with one plural category it never throws it. *)
Theorem validate_pluralization (intl : str -> list str) (locale : str)
    (l : Locales.normalized) (source translated : Plural.PluralForms) :
  Locales.locale_lookup intl locale = Some l ->
  Locales.pluralCategories l <> [] ->
  (Merge.validate intl locale source (Some (Merge.TMessage translated))
   = Throw pluralization_mismatch
   <-> 1 < length (Locales.pluralCategories l)
       /\ ((length (Plural.forms source) = 1 /\ length (Plural.forms translated) <> 1)
           \/ (length (Plural.forms source) <> 1 /\ length (Plural.forms translated) = 1)))
  /\ (length (Locales.pluralCategories l) = 1 ->
      Merge.validate intl locale source (Some (Merge.TMessage translated))
      <> Throw pluralization_mismatch).
Proof.
  intros Hl Hne.
  assert (Hc : length (Locales.pluralCategories l) <> 0)
    by (destruct (Locales.pluralCategories l); [congruence|discriminate]).
  assert (A : arity_differs l source translated = true
              <-> 1 < length (Locales.pluralCategories l)
                  /\ ((length (Plural.forms source) = 1 /\ length (Plural.forms translated) <> 1)
                      \/ (length (Plural.forms source) <> 1 /\ length (Plural.forms translated) = 1))).
  { unfold arity_differs.
    destruct (Nat.eqb_spec (length (Locales.pluralCategories l)) 1);
      destruct (Nat.eqb_spec (length (Plural.forms source)) 1);
      destruct (Nat.eqb_spec (length (Plural.forms translated)) 1); simpl;
      split; try discriminate; try (intros _; split; [lia|tauto]);
      intros [H1 [[H2 H3]|[H2 H3]]]; try lia; try reflexivity. }
  assert (B : Merge.validate intl locale source (Some (Merge.TMessage translated))
              = Throw pluralization_mismatch
              <-> arity_differs l source translated = true).
  { split; [|now apply validate_arity_differs].
    destruct (arity_differs l source translated) eqn:D; [reflexivity|].
    rewrite (validate_arity_same intl locale l source translated Hl D).
    remember (Merge.check_links (Plural.forms source) (Plural.forms translated))
      as links eqn:Hlinks.
    assert (L : forall e, links = Throw e -> e = unexpected_linked_locale_message)
      by (subst links; apply check_links_error).
    clear Hlinks. intros H. exfalso. unfold bind in H.
    destruct (negb (Plural.isEmpty translated)).
    - destruct (Plural.forms source) as [|s0 ?]; [discriminate|].
      destruct (Plural.forms translated) as [|t0 ?]; [discriminate|].
      destruct (Vars.parseVars s0) as [vs|e1] eqn:P1;
        [|apply parseVars_fails in P1; congruence].
      destruct (Vars.parseVars t0) as [vt|e2] eqn:P2;
        [|apply parseVars_fails in P2; congruence].
      destruct (negb (equals vs vt)); simpl in H; [discriminate|].
      apply L in H. discriminate.
    - apply L in H. discriminate. }
  split.
  - rewrite B. exact A.
  - intros H1 E. apply B, A in E. lia.
Qed.

Lemma validate_pluralization_witness :
  Merge.validate Locales.cldr (u "fr")
    (Plural.mkPluralForms [u "{count} row"; u "{count} rows"])
    (Some (Merge.TMessage (Plural.mkPluralForms [u "{count} lignes"])))
  = Throw pluralization_mismatch
  /\ Merge.validate Locales.cldr (u "ja")
       (Plural.mkPluralForms [u "{count} row"; u "{count} rows"])
       (Some (Merge.TMessage (Plural.mkPluralForms [u "{count} gyou"])))
     <> Throw pluralization_mismatch.
Proof.
  split.
  - apply (proj1 (validate_pluralization Locales.cldr (u "fr")
      {| Locales.pluralCategories := [u "one"; u "other"];
         Locales.warnVariableSeparator := true |}
      (Plural.mkPluralForms [u "{count} row"; u "{count} rows"])
      (Plural.mkPluralForms [u "{count} lignes"])
      eq_refl ltac:(discriminate))).
    simpl. split; [lia|]. right. split; [lia|reflexivity].
  - apply (proj2 (validate_pluralization Locales.cldr (u "ja")
      {| Locales.pluralCategories := [u "other"];
         Locales.warnVariableSeparator := false |}
      (Plural.mkPluralForms [u "{count} row"; u "{count} rows"])
      (Plural.mkPluralForms [u "{count} gyou"])
      eq_refl ltac:(discriminate))).
    reflexivity.
Defined.

(** C4. For a registered locale and a translated message that is not
    empty, [validateTranslation] fails whenever the set of the variable
    tokens of the translation differs from the set of those of the source
    message: it throws the error of the pluralization or the error of the
    variables. The latter is thrown exactly when the pluralization test
    passes and the sorted arrays of tokens differ. For the source
    ["{count} items"], a translation that uses [{count}] and [{n}] fails and
    a translation that uses just [{count}] passes. *)
Theorem validate_variables (intl : str -> list str) (locale : str)
    (l : Locales.normalized) (source translated : Plural.PluralForms)
    (s0 t0 : str) (srest trest vs vt : list str) :
  Locales.locale_lookup intl locale = Some l ->
  Plural.forms source = s0 :: srest ->
  Plural.forms translated = t0 :: trest ->
  Vars.parseVars s0 = Ok vs ->
  Vars.parseVars t0 = Ok vt ->
  Plural.isEmpty translated = false ->
  (~ (forall tok, In tok vs <-> In tok vt) ->
   Merge.validate intl locale source (Some (Merge.TMessage translated))
   = Throw pluralization_mismatch
   \/ Merge.validate intl locale source (Some (Merge.TMessage translated))
      = Throw translation_same_variables)
  /\ (Merge.validate intl locale source (Some (Merge.TMessage translated))
      = Throw translation_same_variables
      <-> arity_differs l source translated = false /\ vs <> vt)
  /\ Merge.validate Locales.cldr (u "es") (Plural.mkPluralForms [u "{count} items"])
       (Some (Merge.TMessage (Plural.mkPluralForms [u "{count} de {n} elementos"])))
     = Throw translation_same_variables
  /\ Merge.validate Locales.cldr (u "es") (Plural.mkPluralForms [u "{count} items"])
       (Some (Merge.TMessage (Plural.mkPluralForms [u "{count} elementos"])))
     = Ok tt.
Proof.
  intros Hl Hs Ht Ps Pt Hne.
  assert (B : Merge.validate intl locale source (Some (Merge.TMessage translated))
              = Throw translation_same_variables
              <-> arity_differs l source translated = false /\ vs <> vt).
  { destruct (arity_differs l source translated) eqn:D.
    - rewrite (validate_arity_differs intl locale l source translated Hl D).
      split; [discriminate|intros [? _]; discriminate].
    - rewrite (validate_arity_same intl locale l source translated Hl D).
      remember (Merge.check_links (Plural.forms source) (Plural.forms translated))
        as links eqn:Hlinks.
      assert (L : forall e, links = Throw e -> e = unexpected_linked_locale_message)
        by (subst links; apply check_links_error).
      clear Hlinks. rewrite Hne, Hs, Ht. simpl. rewrite Ps, Pt. simpl.
      destruct (equals vs vt) eqn:E; simpl.
      + apply equals_eq in E. split; [|tauto].
        intros H. apply L in H. discriminate.
      + apply equals_neq in E. unfold logThenThrow. tauto. }
  split; [|split; [exact B|split; reflexivity]].
  intros Hset.
  destruct (arity_differs l source translated) eqn:D.
  - left. now apply (validate_arity_differs intl locale l).
  - right. apply B. split; [reflexivity|]. intros E. apply Hset. subst. tauto.
Qed.

Lemma validate_variables_witness :
  Merge.validate Locales.cldr (u "es") (Plural.mkPluralForms [u "{count} items"])
    (Some (Merge.TMessage (Plural.mkPluralForms [u "{count} de {n} elementos"])))
  = Throw pluralization_mismatch
  \/ Merge.validate Locales.cldr (u "es") (Plural.mkPluralForms [u "{count} items"])
       (Some (Merge.TMessage (Plural.mkPluralForms [u "{count} de {n} elementos"])))
     = Throw translation_same_variables.
Proof.
  apply (proj1 (validate_variables Locales.cldr (u "es")
    {| Locales.pluralCategories := [u "one"; u "other"];
       Locales.warnVariableSeparator := true |}
    (Plural.mkPluralForms [u "{count} items"])
    (Plural.mkPluralForms [u "{count} de {n} elementos"])
    (u "{count} items") (u "{count} de {n} elementos") [] []
    [u "{count}"] [u "{count}"; u "{n}"]
    eq_refl eq_refl eq_refl eq_refl eq_refl eq_refl)).
  intros H. destruct (proj2 (H (u "{n}"))) as [E|[]]; [simpl; auto|discriminate].
Defined.

(** ** The tree of a component interpolation *)

Module InterpFacts.
Import Plural Interp.

Definition str_eq_dec : forall a b : str, {a = b} + {a <> b} := list_eq_dec N.eq_dec.

Lemma make_nodes_Ok (entries : list (str * value))
    (nodes nodes' : list (str * ComponentInterpolationNode)) :
  make_nodes entries nodes = Ok nodes' ->
  (forall k, In k (map fst entries) ->
     exists pf, assoc k nodes' = Some (mkNode k pf None []))
  /\ (forall k, ~ In k (map fst entries) -> assoc k nodes' = assoc k nodes).
Proof.
  revert nodes; induction entries as [|[k0 v0] entries IH]; intros nodes; simpl.
  - intros H; injection H as <-. split; [contradiction|reflexivity].
  - destruct v0 as [pf|]; [|discriminate]. intros H.
    destruct (IH _ H) as [I1 I2]. split.
    + intros k [<-|Hk].
      * destruct (in_dec str_eq_dec k0 (map fst entries)) as [Hi|Hn]; [auto|].
        rewrite (I2 k0 Hn), assoc_put_same. eauto.
      * auto.
    + intros k Hk. rewrite I2 by tauto. apply assoc_put_other. intros ->. tauto.
Qed.

Lemma make_nodes_Throw (entries : list (str * value))
    (nodes : list (str * ComponentInterpolationNode)) (e : error) :
  make_nodes entries nodes = Throw e ->
  e = invalid_message /\ exists k, In (k, NotMessage) entries.
Proof.
  revert nodes; induction entries as [|[k0 v0] entries IH]; intros nodes; simpl;
    [discriminate|].
  destruct v0 as [pf|].
  - intros H. destruct (IH _ H) as [-> [k Hk]]. eauto.
  - unfold logThenThrow. intros H; injection H as <-. eauto.
Qed.

(** The entry that [find] returns is the first one whose first form
    contains the token. *)
Lemma find_entry_Some (tok : str) (entries : list (str * value)) (parentKey : str) :
  find_entry tok entries = Ok (Some parentKey) ->
  exists before pf form0 rest after,
    entries = before ++ (parentKey, Message pf) :: after
    /\ forms pf = form0 :: rest /\ includes tok form0 = true
    /\ forall k v, In (k, v) before ->
         exists pf' f' r', v = Message pf' /\ forms pf' = f' :: r'
                           /\ includes tok f' = false.
Proof.
  induction entries as [|[k0 v0] entries IH]; simpl; [discriminate|].
  destruct v0 as [pf|]; [|discriminate].
  destruct (forms pf) as [|f0 r0] eqn:F; [discriminate|].
  destruct (includes tok f0) eqn:I.
  - intros H; injection H as <-.
    exists [], pf, f0, r0, entries. repeat split; auto. intros k v [].
  - intros H. destruct (IH H) as (before & pf' & f' & r' & after & -> & F' & I' & B).
    exists ((k0, Message pf) :: before), pf', f', r', after. repeat split; auto.
    intros k v [E|Hin]; [injection E as <- <-; eauto 6|eauto].
Qed.

Lemma find_entry_None (tok : str) (entries : list (str * value)) :
  find_entry tok entries = Ok None ->
  forall k v, In (k, v) entries ->
    exists pf f r, v = Message pf /\ forms pf = f :: r /\ includes tok f = false.
Proof.
  induction entries as [|[k0 v0] entries IH]; simpl; [intros _ k v []|].
  destruct v0 as [pf|]; [|discriminate].
  destruct (forms pf) as [|f0 r0] eqn:F; [discriminate|].
  destruct (includes tok f0) eqn:I; [discriminate|].
  intros H k v [E|Hin]; [injection E as <- <-; eauto 6|eauto].
Qed.

(** An entry of the group whose first form contains the token of [k]. *)
Definition contains_token (entries : list (str * value)) (k' k : str) : Prop :=
  exists pf form0 rest,
    In (k', Message pf) entries /\ forms pf = form0 :: rest
    /\ includes (token k) form0 = true.

Lemma find_entry_orphan (entries : list (str * value)) (k : str) :
  (forall k', ~ contains_token entries k' k) ->
  forall p, find_entry (token k) entries <> Ok (Some p).
Proof.
  intros H p E. apply find_entry_Some in E
    as (before & pf & f0 & r & after & -> & F & I & _).
  apply (H p). exists pf, f0, r. repeat split; auto.
  apply in_or_app. right. now left.
Qed.

Lemma find_entry_total (tok : str) (entries : list (str * value)) :
  (forall k v, In (k, v) entries -> exists pf f r, v = Message pf /\ forms pf = f :: r) ->
  exists found, find_entry tok entries = Ok found.
Proof.
  induction entries as [|[k0 v0] entries IH]; simpl; [eauto|].
  intros H. destruct (H k0 v0 (or_introl eq_refl)) as (pf & f & r & -> & F).
  rewrite F. destruct (includes tok f); [eauto|].
  apply IH. intros k v Hin. apply (H k v). now right.
Qed.

(** The keys that the second loop attaches to [p]. *)
Definition attached (entries : list (str * value)) (p : str) (keys : list str) : list str :=
  filter (fun k => negb (str_eqb k full)
                   && match find_entry (token k) entries with
                      | Ok (Some q) => str_eqb q p
                      | _ => false
                      end) keys.

Lemma attached_nil (entries : list (str * value)) (p : str) (keys : list str) :
  (forall k, In k keys -> k <> full -> find_entry (token k) entries <> Ok (Some p)) ->
  attached entries p keys = [].
Proof.
  unfold attached. induction keys as [|k keys IH]; intros H; [reflexivity|].
  cbn [filter].
  assert (H' : forall k', In k' keys -> k' <> full ->
             find_entry (token k') entries <> Ok (Some p))
    by (intros k' Hk'; apply H; now right).
  destruct (str_eqb k full) eqn:Ek; cbn [negb andb]; [auto|].
  apply str_eqb_neq in Ek. pose proof (H k (or_introl eq_refl) Ek) as Hk.
  destruct (find_entry (token k) entries) as [[q|]|]; auto.
  destruct (str_eqb q p) eqn:Eq; [|auto].
  apply str_eqb_eq in Eq; subst q. congruence.
Qed.

Definition same_message (n n' : ComponentInterpolationNode) : Prop :=
  key n' = key n /\ pluralForms n' = pluralForms n.

Lemma link_nodes_Ok (entries : list (str * value)) (keys : list str)
    (nodes nodes' : list (str * ComponentInterpolationNode)) :
  link_nodes entries keys nodes = Ok nodes' ->
  (forall k, In k keys -> k <> full ->
     exists parentKey, find_entry (token k) entries = Ok (Some parentKey))
  /\ forall p n, assoc p nodes = Some n ->
       exists n', assoc p nodes' = Some n'
         /\ same_message n n'
         /\ childNodes n' = childNodes n ++ attached entries p keys
         /\ parentNode n' =
            (if existsb (str_eqb p) keys && negb (str_eqb p full)
             then match find_entry (token p) entries with
                  | Ok found => found
                  | Throw _ => None
                  end
             else parentNode n).
Proof.
  revert nodes; induction keys as [|k keys IH]; intros nodes; cbn [link_nodes].
  - intros H; injection H as <-. split; [intros k []|].
    intros p n Hp. exists n. unfold attached. cbn [filter]. rewrite app_nil_r.
    repeat split; auto.
  - destruct (str_eqb k full) eqn:Ek.
    + apply str_eqb_eq in Ek; subst k. intros H.
      destruct (IH _ H) as [I1 I2]. split.
      * intros k [<-|Hk] Hne; [congruence|auto].
      * intros p n Hp. destruct (I2 p n Hp) as (n' & A & M & C & P).
        exists n'. split; [exact A|]. split; [exact M|]. split.
        -- rewrite C. unfold attached. cbn [filter]. rewrite str_eqb_refl. reflexivity.
        -- rewrite P. cbn [existsb].
           destruct (str_eqb p full), (existsb (str_eqb p) keys); reflexivity.
    + apply str_eqb_neq in Ek.
      destruct (find_entry (token k) entries) as [[parentKey|]|] eqn:F; simpl;
        try discriminate.
      unfold update at 1.
      destruct (assoc k nodes) as [nk|] eqn:Ak; simpl; [|discriminate].
      unfold update at 1. rewrite assoc_put.
      set (nodes1 := put k (set_parent parentKey nk) nodes).
      destruct (if str_eqb parentKey k then Some (set_parent parentKey nk)
                else assoc parentKey nodes) as [np|] eqn:Ap; simpl; [|discriminate].
      intros H. destruct (IH _ H) as [I1 I2]. split.
      * intros k' [<-|Hk] Hne; [eauto|auto].
      * intros p n Hp.
        assert (Hp2 : exists n2, assoc p (put parentKey (push_child k np) nodes1) = Some n2
                  /\ same_message n n2
                  /\ childNodes n2 = childNodes n ++ (if str_eqb parentKey p then [k] else [])
                  /\ parentNode n2 = if str_eqb p k then Some parentKey else parentNode n).
        { rewrite assoc_put. unfold nodes1. rewrite assoc_put.
          destruct (str_eqb p parentKey) eqn:E1.
          - apply str_eqb_eq in E1; subst p. rewrite str_eqb_refl.
            destruct (str_eqb parentKey k) eqn:E2.
            + apply str_eqb_eq in E2; subst k. injection Ap as <-.
              rewrite Hp in Ak; injection Ak as <-.
              eexists; repeat split; reflexivity.
            + rewrite Hp in Ap; injection Ap as <-.
              eexists; repeat split; reflexivity.
          - rewrite (str_eqb_sym parentKey p), E1, app_nil_r.
            destruct (str_eqb p k) eqn:E2.
            + apply str_eqb_eq in E2; subst k. rewrite Hp in Ak; injection Ak as <-.
              eexists; repeat split; reflexivity.
            + eexists; repeat split; eauto. }
        destruct Hp2 as (n2 & A2 & [M2a M2b] & C2 & P2).
        destruct (I2 p n2 A2) as (n' & A & [Ma Mb] & C & P).
        exists n'. split; [exact A|]. split; [split; congruence|]. split.
        -- rewrite C, C2, <- app_assoc. f_equal. unfold attached. cbn [filter].
           apply str_eqb_neq in Ek. rewrite Ek, F. cbn [negb andb].
           destruct (str_eqb parentKey p); reflexivity.
        -- rewrite P, P2. apply str_eqb_neq in Ek. cbn [existsb].
           destruct (str_eqb p k) eqn:E.
           ++ apply str_eqb_eq in E; subst p. rewrite Ek, F.
              destruct (existsb (str_eqb k) keys); reflexivity.
           ++ reflexivity.
Qed.

Lemma update_None (k p : str)
    (f : ComponentInterpolationNode -> ComponentInterpolationNode)
    (nodes nodes' : list (str * ComponentInterpolationNode)) :
  update k f nodes = Ok nodes' -> assoc p nodes = None -> assoc p nodes' = None.
Proof.
  unfold update. destruct (assoc k nodes) as [n|] eqn:A; [|discriminate].
  intros H Hp; injection H as <-. rewrite assoc_put.
  destruct (str_eqb p k) eqn:E; [|exact Hp].
  apply str_eqb_eq in E; subst p. congruence.
Qed.

(** The second loop adds no key to [nodesByKey]. *)
Lemma link_nodes_None (entries : list (str * value)) (keys : list str)
    (nodes nodes' : list (str * ComponentInterpolationNode)) (p : str) :
  link_nodes entries keys nodes = Ok nodes' ->
  assoc p nodes = None -> assoc p nodes' = None.
Proof.
  revert nodes; induction keys as [|k keys IH]; intros nodes; cbn [link_nodes].
  - intros H; injection H as <-. auto.
  - destruct (str_eqb k full); [apply IH|].
    destruct (find_entry (token k) entries) as [[parentKey|]|]; simpl; try discriminate.
    destruct (update k (set_parent parentKey) nodes) as [nodes1|] eqn:U1; simpl;
      [|discriminate].
    destruct (update parentKey (push_child k) nodes1) as [nodes2|] eqn:U2; simpl;
      [|discriminate].
    intros H Hp. apply (IH _ H). eapply update_None; [exact U2|].
    eapply update_None; [exact U1|exact Hp].
Qed.

Lemma link_nodes_orphan (entries : list (str * value)) (keys : list str) (k : str)
    (nodes : list (str * ComponentInterpolationNode)) :
  In k keys -> k <> full ->
  (forall p, find_entry (token k) entries <> Ok (Some p)) ->
  exists e, link_nodes entries keys nodes = Throw e.
Proof.
  intros Hk Hne Hf.
  destruct (link_nodes entries keys nodes) as [nodes'|e] eqn:L; [|eauto].
  apply link_nodes_Ok in L as [L _]. destruct (L k Hk Hne) as [p Hp].
  exfalso. exact (Hf p Hp).
Qed.

Lemma link_nodes_total (entries : list (str * value)) (keys : list str)
    (nodes : list (str * ComponentInterpolationNode)) :
  (forall k, In k keys -> k <> full ->
     exists p, find_entry (token k) entries = Ok (Some p)) ->
  (forall k, In k (map fst entries) -> exists n, assoc k nodes = Some n) ->
  incl keys (map fst entries) ->
  exists nodes', link_nodes entries keys nodes = Ok nodes'.
Proof.
  revert nodes; induction keys as [|k keys IH]; intros nodes Hf Hn Hi; simpl; [eauto|].
  assert (Hi' : incl keys (map fst entries)) by (intros x Hx; apply Hi; now right).
  destruct (str_eqb k full) eqn:Ek.
  - apply IH; auto. intros k' Hk'. apply Hf. now right.
  - apply str_eqb_neq in Ek.
    destruct (Hf k (or_introl eq_refl) Ek) as [p Hp]. rewrite Hp. simpl.
    destruct (Hn k (Hi k (or_introl eq_refl))) as [nk Hnk].
    unfold update at 1. rewrite Hnk. simpl.
    assert (Hpin : In p (map fst entries)).
    { apply find_entry_Some in Hp as (before & pf & f0 & r & after & -> & _).
      rewrite map_app. apply in_or_app. right. now left. }
    assert (Hn1 : forall k', In k' (map fst entries) ->
              exists n, assoc k' (put k (set_parent p nk) nodes) = Some n).
    { intros k' Hk'. rewrite assoc_put. destruct (str_eqb k' k); eauto. }
    destruct (Hn1 p Hpin) as [np Hnp].
    unfold update at 1. rewrite Hnp. simpl.
    apply IH; auto.
    + intros k' Hk'. apply Hf. now right.
    + intros k' Hk'. rewrite assoc_put. destruct (str_eqb k' p); eauto.
Qed.

(** The first form of the entry [k'] of the group holds [{k}]. *)
Definition mentions (entries : list (str * value)) (k' k : str) : Prop :=
  exists pf form0 rest,
    In (k', Message pf) entries /\ forms pf = form0 :: rest
    /\ includes (u "{" ++ k ++ u "}") form0 = true.

(** The entry [p] is the first one of the group whose first form holds
    [{k}]. *)
Definition first_mention (entries : list (str * value)) (k p : str) : Prop :=
  exists before pf form0 rest after,
    entries = before ++ (p, Message pf) :: after
    /\ forms pf = form0 :: rest
    /\ includes (u "{" ++ k ++ u "}") form0 = true
    /\ forall k0 v, In (k0, v) before ->
         exists pf' f' r', v = Message pf' /\ forms pf' = f' :: r'
                           /\ includes (u "{" ++ k ++ u "}") f' = false.

Lemma token_braces (k : str) : token k = u "{" ++ k ++ u "}".
Proof. reflexivity. Qed.

Lemma mentions_contains (entries : list (str * value)) (k' k : str) :
  mentions entries k' k <-> contains_token entries k' k.
Proof. unfold mentions, contains_token. rewrite token_braces. tauto. Qed.

Lemma first_mention_mentions (entries : list (str * value)) (k p : str) :
  first_mention entries k p -> mentions entries p k.
Proof.
  intros (before & pf & f0 & r & after & -> & F & I & _).
  exists pf, f0, r. repeat split; auto. apply in_or_app. right. now left.
Qed.

Lemma find_entry_first (entries : list (str * value)) (k p : str) :
  find_entry (token k) entries = Ok (Some p) <-> first_mention entries k p.
Proof.
  rewrite token_braces. split; [apply find_entry_Some|].
  intros (before & pf & f0 & r & after & -> & F & I & B).
  revert I B. generalize (u "{" ++ k ++ u "}"). intros tok I B.
  induction before as [|[k0 v0] before IH]; simpl.
  - rewrite F, I. reflexivity.
  - destruct (B k0 v0 (or_introl eq_refl)) as (pf' & f' & r' & -> & F' & I').
    rewrite F', I'. apply IH. intros k1 v1 Hin. apply (B k1 v1). now right.
Qed.

End InterpFacts.
Import InterpFacts.

(** C8, as the code has it. [fromMessages] fails for every group in which
    the token [{k}] of some key [k] other than [full] occurs in the first
    form of no entry of the group, the entry of [k] itself included, and
    for every group in which [full] gets no child, that is, in which
    [full] is the first entry to hold the token of no key. When it
    succeeds, every key other than [full] has as its parent the first
    entry of the group whose first form holds its token, and is a child
    of that entry; that entry can be the entry of the key itself. It
    succeeds in the remaining cases, when the group is made of messages
    and has the key [full]. *)
Theorem fromMessages_parents (messages : list (str * Interp.value)) :
  ((exists k, In k (map fst messages) /\ k <> Interp.full
              /\ forall k', ~ mentions messages k' k) ->
   exists e, Interp.fromMessages messages = Throw e)
  /\ ((forall k, In k (map fst messages) -> k <> Interp.full ->
         ~ first_mention messages k Interp.full) ->
      exists e, Interp.fromMessages messages = Throw e)
  /\ (forall nodes, Interp.fromMessages messages = Ok nodes ->
      forall k, In k (map fst messages) -> k <> Interp.full ->
      exists node parentKey parent,
        assoc k nodes = Some node
        /\ Interp.parentNode node = Some parentKey
        /\ first_mention messages k parentKey
        /\ assoc parentKey nodes = Some parent
        /\ In k (Interp.childNodes parent))
  /\ ((forall k v, In (k, v) messages ->
         exists pf f r, v = Interp.Message pf /\ Plural.forms pf = f :: r) ->
      In Interp.full (map fst messages) ->
      (forall k, In k (map fst messages) -> k <> Interp.full ->
         exists k', mentions messages k' k) ->
      (exists k, In k (map fst messages) /\ k <> Interp.full
                 /\ first_mention messages k Interp.full) ->
      exists nodes, Interp.fromMessages messages = Ok nodes).
Proof.
  unfold Interp.fromMessages.
  split; [|split; [|split]].
  - intros (k & Hk & Hne & Ho).
    destruct (Interp.make_nodes messages []) as [nodes0|e] eqn:M; simpl; [|eauto].
    destruct (link_nodes_orphan messages (map fst messages) k nodes0 Hk Hne) as [e ->].
    { apply find_entry_orphan. intros k' C. apply (Ho k'). now apply mentions_contains. }
    simpl. eauto.
  - intros Hnone.
    destruct (Interp.make_nodes messages []) as [nodes0|e] eqn:M; simpl; [|eauto].
    destruct (Interp.link_nodes messages (map fst messages) nodes0) as [nodes|e] eqn:L;
      simpl; [|eauto].
    destruct (assoc Interp.full nodes) as [root|] eqn:R; [|eauto].
    apply make_nodes_Ok in M as [M1 M2].
    assert (Hin : In Interp.full (map fst messages)).
    { destruct (in_dec str_eq_dec Interp.full (map fst messages)) as [H|H]; [exact H|].
      exfalso. rewrite (link_nodes_None _ _ _ _ _ L (M2 _ H)) in R. discriminate. }
    apply link_nodes_Ok in L as [_ L].
    destruct (M1 _ Hin) as [pf0 A0]. destruct (L _ _ A0) as (n' & A' & _ & C & _).
    rewrite R in A'. injection A' as <-.
    assert (E : attached messages Interp.full (map fst messages) = []).
    { apply attached_nil. intros k Hk Hne F. apply (Hnone k Hk Hne).
      now apply find_entry_first. }
    unfold Interp.hasChildNodes. rewrite C, E. simpl. eauto.
  - intros nodes H k Hk Hne.
    destruct (Interp.make_nodes messages []) as [nodes0|e] eqn:M; simpl in H; [|discriminate].
    destruct (Interp.link_nodes messages (map fst messages) nodes0) as [nodes1|e] eqn:L;
      simpl in H; [|discriminate].
    destruct (assoc Interp.full nodes1) as [root|] eqn:R; [|discriminate].
    destruct (negb (Interp.hasChildNodes root)); simpl in H; [discriminate|].
    injection H as <-.
    apply make_nodes_Ok in M as [M1 _]. apply link_nodes_Ok in L as [L1 L2].
    destruct (L1 k Hk Hne) as [parentKey F].
    destruct (M1 k Hk) as [pf A0]. destruct (L2 _ _ A0) as (node & A & _ & _ & P).
    pose proof (proj1 (find_entry_first _ _ _) F) as Hfirst.
    assert (Hpin : In parentKey (map fst messages)).
    { destruct Hfirst as (before & pfp & f0 & r & after & -> & _).
      rewrite map_app. apply in_or_app. right. now left. }
    destruct (M1 parentKey Hpin) as [pfp Ap0].
    destruct (L2 _ _ Ap0) as (parent & Ap & _ & C & _).
    exists node, parentKey, parent. repeat split; auto.
    + rewrite P. assert (X : existsb (str_eqb k) (map fst messages) = true).
      { apply existsb_exists. exists k. split; [exact Hk|apply str_eqb_refl]. }
      apply str_eqb_neq in Hne. rewrite X, Hne, F. reflexivity.
    + rewrite C. simpl. unfold attached. apply filter_In. split; [exact Hk|].
      apply str_eqb_neq in Hne. rewrite Hne, F, str_eqb_refl. reflexivity.
  - intros Hmsg Hfull Hpar (kc & Hkc & Hnec & Fc).
    apply find_entry_first in Fc.
    destruct (Interp.make_nodes messages []) as [nodes0|e] eqn:M.
    2:{ apply make_nodes_Throw in M as [_ [k Hk]].
        destruct (Hmsg _ _ Hk) as (pf & f & r & E & _). discriminate. }
    simpl. pose proof (make_nodes_Ok _ _ _ M) as [M1 _].
    assert (Hf : forall k, In k (map fst messages) -> k <> Interp.full ->
              exists p, Interp.find_entry (Interp.token k) messages = Ok (Some p)).
    { intros k Hk Hne.
      destruct (find_entry_total (Interp.token k) messages) as [[p|] F]; [|eauto|].
      - intros k0 v Hin. destruct (Hmsg _ _ Hin) as (pf & f & r & E & Ff). eauto.
      - exfalso. destruct (Hpar k Hk Hne) as (k' & Hm).
        apply mentions_contains in Hm as (pf & f0 & r & Hin & Ff & I).
        destruct (find_entry_None _ _ F _ _ Hin) as (pf' & f' & r' & E & Ff' & I').
        injection E as <-. rewrite Ff in Ff'. injection Ff' as <- <-.
        rewrite token_braces, I in I'. discriminate. }
    destruct (link_nodes_total messages (map fst messages) nodes0) as [nodes L].
    + exact Hf.
    + intros k Hk. destruct (M1 k Hk) as [pf A]. eauto.
    + apply incl_refl.
    + rewrite L. simpl. pose proof (link_nodes_Ok _ _ _ _ L) as [_ L2].
      destruct (M1 _ Hfull) as [pf0 A0]. destruct (L2 _ _ A0) as (root & A & _ & C & _).
      rewrite A. unfold Interp.hasChildNodes. rewrite C. simpl.
      assert (Hin : In kc (attached messages Interp.full (map fst messages))).
      { unfold attached. apply filter_In. split; [exact Hkc|].
        apply str_eqb_neq in Hnec. rewrite Hnec, Fc, str_eqb_refl. reflexivity. }
      destruct (attached messages Interp.full (map fst messages)); [destruct Hin|].
      simpl. eauto.
Qed.

Definition group_example : list (str * Interp.value) :=
  [ (u "full", Interp.Message (Plural.mkPluralForms [u "Click {here} or {there}."]));
    (u "here", Interp.Message (Plural.mkPluralForms [u "here"]));
    (u "there", Interp.Message (Plural.mkPluralForms [u "over {where}"]));
    (u "where", Interp.Message (Plural.mkPluralForms [u "there"])) ].

Definition group_example_nodes : list (str * Interp.ComponentInterpolationNode) :=
  Eval vm_compute in
    match Interp.fromMessages group_example with
    | Ok nodes => nodes
    | Throw _ => []
    end.

Lemma fromMessages_parents_witness :
  exists node parentKey parent,
    assoc (u "where") group_example_nodes = Some node
    /\ Interp.parentNode node = Some parentKey
    /\ first_mention group_example (u "where") parentKey
    /\ assoc parentKey group_example_nodes = Some parent
    /\ In (u "where") (Interp.childNodes parent).
Proof.
  apply (proj1 (proj2 (proj2 (fromMessages_parents group_example)))
           group_example_nodes eq_refl (u "where")).
  - simpl. auto.
  - discriminate.
Defined.

Definition own_parent_group : list (str * Interp.value) :=
  [ (u "full", Interp.Message (Plural.mkPluralForms [u "Click {x}."]));
    (u "x", Interp.Message (Plural.mkPluralForms [u "y"]));
    (u "a", Interp.Message (Plural.mkPluralForms [u "see {a}"])) ].

(** C8 as stated fails for a key whose token occurs in its own message
    only: no sibling of [a] holds [{a}], and yet [fromMessages] returns,
    with [a] as its own parent and its own child, out of reach from
    [full]. *)
Lemma fromMessages_accepts_own_parent :
  (forall k', k' <> u "a" -> ~ mentions own_parent_group k' (u "a"))
  /\ exists nodes node,
       Interp.fromMessages own_parent_group = Ok nodes
       /\ assoc (u "a") nodes = Some node
       /\ Interp.parentNode node = Some (u "a")
       /\ Interp.childNodes node = [u "a"].
Proof.
  split.
  - intros k' Hne (pf & f & r & Hin & F & I).
    destruct Hin as [E|[E|[E|[]]]]; injection E as <- <-;
      try (injection F as <- <-; discriminate I).
    now apply Hne.
  - eexists. eexists. split; [reflexivity|]. split; [reflexivity|]. split; reflexivity.
Qed.

(** ** Round trips of a message *)

Module RoundTripFacts.
Import Vars Plural.

Lemma prefix_app (p s : str) : prefix p (p ++ s) = true.
Proof. induction p as [|c p IH]; simpl; [reflexivity|]. now rewrite N.eqb_refl. Qed.

Lemma prefix_true (p s : str) : prefix p s = true -> exists r, s = p ++ r.
Proof.
  revert s; induction p as [|c p IH]; intros s; simpl; [eauto|].
  destruct s as [|d s]; [discriminate|]. intros H.
  apply andb_true_iff in H as [E H]. apply N.eqb_eq in E; subst d.
  destruct (IH s H) as [r ->]. eauto.
Qed.

Lemma includes_single (c : char) (s : str) : includes [c] s = false -> ~ In c s.
Proof.
  induction s as [|d s IH]; simpl; [tauto|].
  intros H. apply orb_false_iff in H as [H1 H2].
  rewrite andb_true_r in H1. apply N.eqb_neq in H1.
  intros [E|Hin]; [congruence|]. now apply IH.
Qed.

Definition pipe : char := 124%N.
Definition separator : str := [space; pipe; space].

Lemma separator_is : u " | " = separator.
Proof. reflexivity. Qed.

Lemma prefix_separator_no_pipe (s : str) : ~ In pipe s -> prefix separator s = false.
Proof.
  unfold separator. destruct s as [|a [|b s]]; cbn [prefix]; intros H.
  - reflexivity.
  - apply andb_false_r.
  - destruct (N.eqb_spec pipe b) as [E|E]; [exfalso; apply H; simpl; auto|].
    apply andb_false_r.
Qed.

Lemma prefix_separator_later (a : char) (A B : str) :
  ~ In pipe (a :: A) -> prefix separator ((a :: A) ++ separator ++ B) = false.
Proof.
  unfold separator. destruct A as [|b A]; cbn [prefix app]; intros H.
  - change (N.eqb pipe space) with false. apply andb_false_r.
  - destruct (N.eqb_spec pipe b) as [E|E]; [exfalso; apply H; simpl; auto|].
    apply andb_false_r.
Qed.

Lemma split_from_no_separator (s cur : str) :
  ~ In pipe s -> split_from separator 0 cur s = [rev cur ++ s].
Proof.
  revert cur; induction s as [|c s IH]; intros cur H.
  - simpl. now rewrite app_nil_r.
  - cbn [split_from]. rewrite (prefix_separator_no_pipe _ H).
    rewrite IH by (simpl in H; tauto). simpl. now rewrite <- app_assoc.
Qed.

Lemma split_from_two (A B cur : str) :
  ~ In pipe A -> ~ In pipe B ->
  split_from separator 0 cur (A ++ separator ++ B) = [rev cur ++ A; B].
Proof.
  revert cur; induction A as [|a A IH]; intros cur HA HB.
  - simpl. rewrite app_nil_r. f_equal.
    apply (split_from_no_separator B [] HB).
  - change (split_from separator 0 cur ((a :: A) ++ separator ++ B))
      with (if prefix separator ((a :: A) ++ separator ++ B)
            then rev cur :: split_from separator (length separator - 1) []
                              (A ++ separator ++ B)
            else split_from separator 0 (a :: cur) (A ++ separator ++ B)).
    rewrite (prefix_separator_later a A B HA).
    rewrite IH by (simpl in HA; tauto). simpl. now rewrite <- app_assoc.
Qed.

(** White space that [fromTransifex] leaves as it is: no white space at
    either end, none doubled, and no white space but the space. *)
Definition plain_space (c : char) : bool := negb (is_space c) || N.eqb c space.

Definition plain_spacing (s : str) : bool :=
  negb (odd_white_space s) && forallb plain_space s.

Lemma drop_spaces_id (s : str) : starts_with_space s = false -> drop_spaces s = s.
Proof. destruct s as [|c s]; simpl; [reflexivity|]. now intros ->. Qed.

Lemma trim_id (s : str) :
  starts_with_space s = false -> starts_with_space (rev s) = false -> trim s = s.
Proof.
  intros H1 H2. unfold trim. rewrite (drop_spaces_id s H1), (drop_spaces_id _ H2).
  apply rev_involutive.
Qed.

Lemma collapse_from_id (s : str) (in_run : bool) :
  double_space s = false -> forallb plain_space s = true ->
  (in_run = true -> starts_with_space s = false) ->
  collapse_from in_run s = s.
Proof.
  revert in_run; induction s as [|c s IH]; intros in_run Hd Hp Hr; [reflexivity|].
  cbn [collapse_from]. cbn [forallb] in Hp. apply andb_true_iff in Hp as [Hc Hp].
  assert (Hd' : double_space s = false /\ (is_space c = true -> starts_with_space s = false)).
  { destruct s as [|d s]; [auto|]. cbn [double_space] in Hd.
    apply orb_false_iff in Hd as [H1 H2]. split; [exact H2|].
    intros E. rewrite E in H1. exact H1. }
  destruct Hd' as [Hd1 Hd2].
  destruct (is_space c) eqn:E.
  - destruct in_run; [specialize (Hr eq_refl); simpl in Hr; congruence|].
    unfold plain_space in Hc. rewrite E in Hc. simpl in Hc. apply N.eqb_eq in Hc.
    subst c. f_equal. apply IH; auto.
  - f_equal. apply IH; auto; discriminate.
Qed.

Lemma tidy_id (s : str) : plain_spacing s = true -> tidy s = s.
Proof.
  unfold plain_spacing, odd_white_space, tidy. intros H.
  apply andb_true_iff in H as [H1 H2]. apply negb_true_iff in H1.
  apply orb_false_iff in H1 as [H1 H3]. apply orb_false_iff in H1 as [H0 H1].
  rewrite trim_id by assumption. apply collapse_from_id; auto; discriminate.
Qed.

(** *** The loops of [fromTransifex] on an encoded message *)

Lemma scan_braces_step (n : nat) (c d : char) (t seen : str) :
  scan_braces (S n) (c :: d :: t) seen
  = scan_braces (if N.eqb c open_brace then S (S n)
                 else if N.eqb c close_brace then n else S n)
                (d :: t) (c :: seen).
Proof. reflexivity. Qed.

Lemma scan_braces_done (r seen : str) : scan_braces 0 r seen = (0, seen).
Proof. destruct r; reflexivity. Qed.

Lemma is_brace_false (c : char) :
  is_brace c = false -> N.eqb c open_brace = false /\ N.eqb c close_brace = false.
Proof. unfold is_brace. apply orb_false_iff. Qed.

Lemma scan_braces_char (n : nat) (c : char) (r seen : str) :
  is_brace c = false -> 1 <= length r ->
  scan_braces (S n) (c :: r) seen = scan_braces (S n) r (c :: seen).
Proof.
  intros Hc Hr. destruct r as [|d t]; [simpl in Hr; lia|].
  rewrite scan_braces_step. destruct (is_brace_false c Hc) as [-> ->]. reflexivity.
Qed.

Lemma scan_braces_word (w : str) (n : nat) (r seen : str) :
  forallb is_word w = true -> 1 <= length r ->
  scan_braces (S n) (w ++ r) seen = scan_braces (S n) r (rev w ++ seen).
Proof.
  revert seen; induction w as [|c w IH]; intros seen Hw Hr; [reflexivity|].
  cbn [forallb] in Hw. apply andb_true_iff in Hw as [Hc Hw].
  simpl app. rewrite scan_braces_char.
  - rewrite IH by assumption. simpl. now rewrite <- app_assoc.
  - now apply is_word_not_brace.
  - rewrite length_app. lia.
Qed.

Lemma scan_braces_flat (A : str) :
  Flat A -> forall n r seen, 2 <= length r ->
  scan_braces (S n) (A ++ r) seen = scan_braces (S n) r (rev A ++ seen).
Proof.
  induction 1 as [|c s Hc HF IH|w s Hne Hw HF IH]; intros n r seen Hr.
  - reflexivity.
  - simpl app. rewrite scan_braces_char by (auto; rewrite length_app; lia).
    rewrite IH by assumption. simpl. now rewrite <- app_assoc.
  - assert (E : (open_brace :: w ++ close_brace :: s) ++ r
                = open_brace :: w ++ close_brace :: s ++ r).
    { simpl. f_equal. rewrite <- app_assoc. reflexivity. }
    rewrite E. clear E.
    destruct (w ++ close_brace :: s ++ r) as [|d t] eqn:E.
    { destruct w; discriminate. }
    rewrite scan_braces_step. rewrite <- E. clear E d t. rewrite N.eqb_refl.
    rewrite scan_braces_word by (auto; simpl; lia).
    destruct (s ++ r) as [|d t] eqn:E.
    { apply (f_equal (@length _)) in E. rewrite length_app in E. simpl in E. lia. }
    rewrite scan_braces_step. rewrite <- E. clear E d t.
    change (N.eqb close_brace open_brace) with false. rewrite N.eqb_refl.
    rewrite IH by assumption. f_equal.
    simpl. rewrite rev_app_distr. simpl. rewrite <- !app_assoc. reflexivity.
Qed.

Lemma scan_braces_body (A t : str) :
  Flat A -> t <> [] ->
  scan_braces 1 (A ++ close_brace :: t) [] = (0, close_brace :: rev A).
Proof.
  intros HF Ht.
  rewrite (scan_braces_flat A HF) by (destruct t; [congruence|simpl; lia]).
  destruct t as [|d t]; [congruence|]. rewrite scan_braces_step.
  change (N.eqb close_brace open_brace) with false. rewrite N.eqb_refl.
  rewrite scan_braces_done, app_nil_r. reflexivity.
Qed.

Lemma span_lower (category rest : str) :
  forallb is_lower category = true ->
  span is_lower (category ++ space :: rest) = (category, space :: rest).
Proof.
  induction category as [|c category IH]; intros H; [reflexivity|].
  cbn [forallb] in H. apply andb_true_iff in H as [Hc H].
  simpl. rewrite Hc, (IH H). reflexivity.
Qed.

Lemma formMatch_block (category body : str) :
  category <> [] -> forallb is_lower category = true ->
  formMatch (space :: category ++ space :: open_brace :: body)
  = Some (category, length category + 3, body).
Proof.
  intros Hne Hl. unfold formMatch. rewrite N.eqb_refl, (span_lower _ _ Hl).
  destruct category; [congruence|]. rewrite !N.eqb_refl. reflexivity.
Qed.

Lemma plural_blocks_skip (p s : str) :
  plural_blocks (length p) (p ++ s) = plural_blocks 0 s.
Proof. induction p as [|c p IH]; simpl; auto. Qed.

(** One block [ category {form}] of the wrapper. *)
Lemma plural_blocks_block (category A rest : str) :
  category <> [] -> forallb is_lower category = true -> Flat A -> rest <> [] ->
  plural_blocks 0 (space :: category ++ space :: open_brace :: A ++ close_brace :: rest)
  = (more <- plural_blocks 0 rest ;; Ok (category :: fst more, A :: snd more)).
Proof.
  intros Hne Hl HF Hr.
  set (t := category ++ space :: open_brace :: A ++ close_brace :: rest).
  assert (Ht : exists d t', t = d :: t') by (unfold t; destruct category; [congruence|simpl; eauto]).
  destruct Ht as (d & t' & Ht).
  change (plural_blocks 0 (space :: t))
    with (match t with
          | [] => Ok ([], [])
          | _ :: _ =>
            match formMatch (space :: t) with
            | None => logThenThrow invalid_plural
            | Some (category, matched, body) =>
              let '(unmatchedBraces, seen) := scan_braces 1 body [] in
              if negb (unmatchedBraces =? 0) then logThenThrow unmatched_brace
              else
                more <- plural_blocks (matched + length seen - 1) t ;;
                Ok (category :: fst more, rev (tl seen) :: snd more)
            end
          end).
  rewrite Ht at 1. unfold t at 1. rewrite (formMatch_block _ _ Hne Hl).
  rewrite (scan_braces_body A rest HF Hr). cbn [Nat.eqb negb tl].
  rewrite rev_involutive.
  replace (length category + 3 + length (close_brace :: rev A) - 1)
    with (length (category ++ space :: open_brace :: A ++ [close_brace])).
  2:{ rewrite length_app. simpl. rewrite length_app, length_rev. simpl. lia. }
  replace t with ((category ++ space :: open_brace :: A ++ [close_brace]) ++ rest).
  2:{ unfold t. rewrite <- app_assoc. simpl. rewrite <- app_assoc. reflexivity. }
  rewrite plural_blocks_skip. reflexivity.
Qed.

Lemma last_char_cons (x : char) (l : str) :
  last_char (x :: l) = match last_char l with
                       | Some c => Some c
                       | None => Some x
                       end.
Proof.
  destruct l as [|y l]; [reflexivity|].
  assert (H : exists c, last_char (y :: l) = Some c).
  { clear x. revert y; induction l as [|z l IH]; intros y; [simpl; eauto|].
    destruct (IH z) as [c Hc]. exists c. exact Hc. }
  destruct H as [c Hc]. rewrite Hc. exact Hc.
Qed.

Lemma last_char_app (a b : str) :
  last_char (a ++ b) = match last_char b with
                       | Some c => Some c
                       | None => last_char a
                       end.
Proof.
  induction a as [|x a IH].
  - simpl. destruct (last_char b); reflexivity.
  - simpl app. rewrite !last_char_cons, IH.
    destruct (last_char b), (last_char a); reflexivity.
Qed.

Ltac peel_word w E :=
  destruct w as [|? w]; simpl in E; [discriminate E|];
  injection E as ? E; subst.

(** A message of one form is never taken for an ICU plural. *)
Lemma icuMatch_flat (A : str) : Flat A -> icuMatch A = false.
Proof.
  intros HF. unfold icuMatch.
  destruct (prefix icu_open A) eqn:P; [|reflexivity]. exfalso.
  apply prefix_true in P as [r ->].
  remember (icu_open ++ r) as A eqn:EA.
  destruct HF as [|c s Hc _|w s Hne Hw _].
  - discriminate EA.
  - injection EA as -> _. discriminate Hc.
  - injection EA as E. clear Hne.
    do 5 peel_word w E.
    destruct w as [|? w]; simpl in E; [discriminate E|].
    injection E as ? E; subst. simpl in Hw. discriminate Hw.
Qed.

End RoundTripFacts.
Import RoundTripFacts.

(** C1, as the code has it. Let [m] be an instance of one or two forms
    (built by the constructor, so with the same variables in each form and
    uniform emptiness).
    - If no form contains a straight single quote or [#], and the white
      space of each form is plain (none at either end, none doubled, no
      white space other than the space), and, when [m] has two forms, the
      locale is registered with the categories [one] and [other], then
      [toTransifex] succeeds and [fromTransifex] of its result gives [m]
      back.
    - If no form contains [|] and no form has white space at either end
      or doubled, then [toVueI18n] succeeds and [fromVueI18n] of its result
      gives [m] back. *)
Theorem round_trips (intl : str -> list str) (m : Plural.PluralForms) (locale : str) :
  Plural.new (Plural.forms m) = Ok m ->
  length (Plural.forms m) <= 2 ->
  ((forall f, In f (Plural.forms m) ->
      includes (u "'") f = false /\ includes (u "#") f = false
      /\ plain_spacing f = true) ->
   (length (Plural.forms m) = 2 ->
      exists l, Locales.locale_lookup intl locale = Some l
                /\ Locales.pluralCategories l = [u "one"; u "other"]) ->
   exists s, Plural.toTransifex m = Ok s
             /\ Plural.fromTransifex intl s locale = Ok m)
  /\ ((forall f, In f (Plural.forms m) ->
         includes (u "|") f = false /\ odd_white_space f = false) ->
      exists s, Plural.toVueI18n m = Ok s /\ Plural.fromVueI18n s = Ok m).
Proof.
  intros Hnew Hlen.
  assert (HF : forall f, In f (Plural.forms m) -> Flat f).
  { intros f Hf. destruct (new_forms_parse _ _ Hnew f Hf) as [vars Hv].
    eapply parseVars_Flat; eauto. }
  destruct m as [fs]. simpl in *.
  destruct fs as [|A [|B [|C fs]]]; [discriminate Hnew| | |simpl in Hlen; lia].
  - (* one form *)
    split.
    + intros Hc _. destruct (Hc A (or_introl eq_refl)) as (Hq & Hh & Hs).
      exists A. unfold Plural.toTransifex, Plural.fromTransifex. simpl.
      rewrite Hq, Hh. simpl. split; [reflexivity|].
      rewrite (icuMatch_flat A (HF A (or_introl eq_refl))). simpl.
      rewrite (tidy_id A Hs). exact Hnew.
    + intros Hc. destruct (Hc A (or_introl eq_refl)) as (Hp & Hw).
      exists A. unfold Plural.toVueI18n, Plural.fromVueI18n. simpl.
      rewrite Hp. simpl. split; [reflexivity|].
      rewrite separator_is. unfold split.
      change pipe with 124%N in *.
      rewrite (split_from_no_separator A [] (includes_single _ _ Hp)). simpl.
      rewrite Hp, Hw. simpl. exact Hnew.
  - (* two forms *)
    assert (FA : Flat A) by (apply HF; simpl; auto).
    assert (FB : Flat B) by (apply HF; simpl; auto).
    split.
    + intros Hc Hl. destruct (Hc A) as (HqA & HhA & HsA); [simpl; auto|].
      destruct (Hc B) as (HqB & HhB & HsB); [simpl; auto|].
      destruct (Hl eq_refl) as (l & Hlook & Hcats).
      set (s := u "{count, plural, one {" ++ A ++ u "} other {" ++ B ++ u "}}").
      exists s. split.
      { unfold Plural.toTransifex. cbn [Plural.forms Plural.check_transifex_forms].
        rewrite HqA, HhA, HqB, HhB. reflexivity. }
      assert (Hm : Plural.icuMatch s = true).
      { unfold Plural.icuMatch.
        assert (H1 : prefix Plural.icu_open s = true) by reflexivity.
        assert (H2 : (length Plural.icu_open + 2 <=? length s) = true) by reflexivity.
        rewrite H1, H2. unfold s. rewrite !last_char_app. reflexivity. }
      assert (Hb : Plural.plural_blocks (length Plural.icu_open) s
                   = Ok ([u "one"; u "other"], [A; B])).
      { change s with
          (Plural.icu_open
           ++ space :: u "one" ++ space :: open_brace :: A ++ close_brace
              :: (space :: u "other" ++ space :: open_brace :: B ++ close_brace
                  :: [close_brace])).
        rewrite plural_blocks_skip.
        rewrite plural_blocks_block; [|discriminate|reflexivity|exact FA|discriminate].
        rewrite plural_blocks_block; [|discriminate|reflexivity|exact FB|discriminate].
        reflexivity. }
      unfold Plural.fromTransifex. rewrite Hm, Hb. cbn [bind fst snd].
      rewrite Hlook, Hcats.
      change (sort [u "one"; u "other"]) with [u "one"; u "other"].
      rewrite equals_refl. cbn [negb when_ bind map].
      rewrite (tidy_id A HsA), (tidy_id B HsB). exact Hnew.
    + intros Hc. destruct (Hc A) as (HpA & HwA); [simpl; auto|].
      destruct (Hc B) as (HpB & HwB); [simpl; auto|].
      eexists. unfold Plural.toVueI18n. cbn [Plural.forms existsb].
      rewrite HpA, HpB. cbn [orb when_ bind join]. split; [reflexivity|].
      unfold Plural.fromVueI18n. rewrite separator_is. unfold split.
      change pipe with 124%N in *.
      rewrite (split_from_two A B [] (includes_single _ _ HpA) (includes_single _ _ HpB)).
      cbn [rev app length Nat.ltb Nat.leb when_ bind Plural.check_vue_forms].
      rewrite HpA, HwA, HpB, HwB. cbn [when_ bind]. exact Hnew.
Qed.

Lemma round_trips_witness :
  (exists s,
     Plural.toTransifex (Plural.mkPluralForms [u "{count} row"; u "{count} rows"]) = Ok s
     /\ Plural.fromTransifex Locales.cldr s (u "fr")
        = Ok (Plural.mkPluralForms [u "{count} row"; u "{count} rows"]))
  /\ (exists s,
        Plural.toVueI18n (Plural.mkPluralForms [u "{count} row"; u "{count} rows"]) = Ok s
        /\ Plural.fromVueI18n s
           = Ok (Plural.mkPluralForms [u "{count} row"; u "{count} rows"])).
Proof.
  destruct (round_trips Locales.cldr
              (Plural.mkPluralForms [u "{count} row"; u "{count} rows"]) (u "fr")
              eq_refl ltac:(simpl; lia)) as [T V].
  split.
  - apply T.
    + intros f [<-|[<-|[]]]; repeat split.
    + intros _. eexists. split; reflexivity.
  - apply V. intros f [<-|[<-|[]]]; repeat split.
Defined.

(** C1 as stated fails: this message has one form, the same variables in
    each form and uniform emptiness; [fromTransifex] tidies its white
    space, and [fromVueI18n] rejects it. *)
Lemma round_trips_need_plain_spacing :
  Plural.new [u "a  b"] = Ok (Plural.mkPluralForms [u "a  b"])
  /\ Plural.toTransifex (Plural.mkPluralForms [u "a  b"]) = Ok (u "a  b")
  /\ Plural.fromTransifex Locales.cldr (u "a  b") (u "en")
     = Ok (Plural.mkPluralForms [u "a b"])
  /\ Plural.mkPluralForms [u "a b"] <> Plural.mkPluralForms [u "a  b"]
  /\ Plural.toVueI18n (Plural.mkPluralForms [u "a  b"]) = Ok (u "a  b")
  /\ Plural.fromVueI18n (u "a  b") = Throw unexpected_white_space.
Proof. repeat split; discriminate. Qed.

(** ** The translations after the passes *)

Module MergeFacts.
Import Vars Plural Linked Merge.

(** Induction on the source messages, with the hypothesis for every value
    of an object or array. *)
Fixpoint snode_induction (P : snode -> Prop)
    (HM : forall pf, P (SMessage pf))
    (HN : forall array ses, Forall (fun e => P (snd e)) ses -> P (SNode array ses))
    (s : snode) {struct s} : P s :=
  match s with
  | SMessage pf => HM pf
  | SNode array ses =>
    HN array ses
       ((fix all (l : list (str * snode)) : Forall (fun e => P (snd e)) l :=
           match l with
           | [] => Forall_nil _
           | e :: l' => Forall_cons e (snode_induction P HM HN (snd e)) (all l')
           end) ses)
  end.

Lemma assoc_In {A : Type} (k : str) (v : A) (l : list (str * A)) :
  assoc k l = Some v -> In (k, v) l.
Proof.
  induction l as [|[k0 v0] l IH]; simpl; [discriminate|].
  destruct (str_eqb k k0) eqn:E.
  - apply str_eqb_eq in E; subst k0. intros H; injection H as <-. now left.
  - auto.
Qed.

Lemma assoc_map_values {A B : Type} (f : str * A -> B) (k : str) (l : list (str * A)) :
  assoc k (map (fun e => (fst e, f e)) l)
  = match assoc k l with
    | Some v => Some (f (k, v))
    | None => None
    end.
Proof.
  induction l as [|[k0 v0] l IH]; simpl; [reflexivity|].
  destruct (str_eqb k k0) eqn:E; [|exact IH].
  apply str_eqb_eq in E; subst k0. reflexivity.
Qed.

Lemma put_In {A : Type} (k : str) (v : A) (l : list (str * A)) (x : str * A) :
  In x (put k v l) -> x = (k, v) \/ In x l.
Proof.
  unfold put. destruct (has_key k l).
  - induction l as [|[k0 v0] l IH]; simpl; [tauto|].
    destruct (str_eqb k k0) eqn:E; simpl.
    + apply str_eqb_eq in E; subst k0. intros [<-|H]; auto.
    + intros [H|H]; [auto|]. destruct (IH H); auto.
  - destruct (array_index k) as [n|].
    + induction l as [|[k0 v0] l IH]; simpl; [intros [<-|[]]; auto|].
      destruct (array_index k0) as [m|]; [destruct (N.ltb m n)|]; simpl;
        try (intros [<-|[H|H]]; auto).
      intros [H|H]; [auto|]. destruct (IH H); auto.
    + intros H. apply in_app_or in H. simpl in H.
      destruct H as [H|[<-|[]]]; auto.
Qed.

(** *** Reading the store after a change *)

Lemma tat_app (t : tnode) (p r : list str) :
  tat t (p ++ r) = match tat t p with
                   | Some t' => tat t' r
                   | None => None
                   end.
Proof.
  revert t; induction p as [|k p IH]; intros t; simpl; [reflexivity|].
  destruct t as [pf|es]; [reflexivity|].
  destruct (assoc k es); [apply IH|reflexivity].
Qed.

Lemma assoc_map_first (k k' : str) (f : tnode -> tnode) (l : list (str * tnode)) :
  assoc k' (map_first k f l)
  = if str_eqb k' k then option_map f (assoc k l) else assoc k' l.
Proof.
  induction l as [|[k0 v0] l IH]; simpl.
  - destruct (str_eqb k' k); reflexivity.
  - destruct (str_eqb k k0) eqn:E; simpl.
    + apply str_eqb_eq in E; subst k0.
      destruct (str_eqb k' k); reflexivity.
    + destruct (str_eqb k' k0) eqn:E0.
      * apply str_eqb_eq in E0; subst k0. rewrite str_eqb_sym, E. reflexivity.
      * exact IH.
Qed.

Lemma tat_tupdate_prefix (f : list (str * tnode) -> list (str * tnode))
    (p : list str) (t : tnode) (es : list (str * tnode)) (r : list str) :
  tat t p = Some (TObject es) ->
  tat (tupdate p f t) (p ++ r) = tat (TObject (f es)) r.
Proof.
  revert t; induction p as [|k p IH]; intros t H.
  - simpl in H. injection H as ->. reflexivity.
  - destruct t as [pf|es0]; [discriminate|]. simpl in H.
    destruct (assoc k es0) as [c|] eqn:A; [|discriminate].
    simpl. rewrite assoc_map_first, str_eqb_refl, A. simpl. now apply IH.
Qed.

Definition leaf (t : tnode) (r : list str) (pf : PluralForms) : Prop :=
  tat t r = Some (TMessage pf).

Lemma tat_tupdate_other (f : list (str * tnode) -> list (str * tnode))
    (p : list str) (t : tnode) (r : list str) (pf : PluralForms) :
  (forall r', r <> p ++ r') ->
  (leaf (tupdate p f t) r pf <-> leaf t r pf).
Proof.
  unfold leaf. revert t r; induction p as [|k p IH]; intros t r H.
  - exfalso. apply (H r). reflexivity.
  - destruct t as [pf0|es0]; [reflexivity|]. simpl tupdate.
    destruct r as [|k' r]; [simpl; split; discriminate|].
    simpl. rewrite assoc_map_first.
    destruct (str_eqb k' k) eqn:E; [|reflexivity].
    apply str_eqb_eq in E; subst k'.
    destruct (assoc k es0) as [c|]; simpl; [|reflexivity].
    apply IH. intros r' E. apply (H r'). simpl. congruence.
Qed.

Lemma prefix_cases (p r : list str) :
  (exists r', r = p ++ r') \/ (forall r', r <> p ++ r').
Proof.
  revert r; induction p as [|k p IH]; intros r; [left; exists r; reflexivity|].
  destruct r as [|k' r]; [right; intros r'; discriminate|].
  destruct (list_eq_dec N.eq_dec k' k) as [->|Hne].
  - destruct (IH r) as [[r' ->]|H]; [left; exists r'; reflexivity|].
    right. intros r' E. injection E as E. exact (H r' E).
  - right. intros r' E. injection E as E _. contradiction.
Qed.

(** The messages of the store after [o[k] = v] on the object at [p]. *)
Lemma leaf_put (p : list str) (k : str) (v : tnode) (store : tnode)
    (es : list (str * tnode)) (r : list str) (pf : PluralForms) :
  tat store p = Some (TObject es) ->
  (leaf (tupdate p (put k v) store) r pf
   <-> (exists r', r = p ++ k :: r' /\ leaf v r' pf)
       \/ ((forall r', r <> p ++ k :: r') /\ leaf store r pf)).
Proof.
  intros Hp. destruct (prefix_cases p r) as [[r0 ->]|Hn].
  - unfold leaf. rewrite (tat_tupdate_prefix _ _ _ _ _ Hp), tat_app, Hp.
    destruct r0 as [|k' r1].
    + simpl. split; [discriminate|].
      intros [(r' & E & _)|[_ H]]; [|discriminate].
      apply app_inv_head in E. discriminate.
    + simpl. rewrite assoc_put. destruct (str_eqb k' k) eqn:E.
      * apply str_eqb_eq in E; subst k'. split.
        -- intros H. left. eauto.
        -- intros [(r' & E & H)|[H _]].
           ++ apply app_inv_head in E. injection E as <-. exact H.
           ++ exfalso. apply (H r1). reflexivity.
      * apply str_eqb_neq in E. split.
        -- intros H. right. split; [|exact H].
           intros r' E'. apply app_inv_head in E'. congruence.
        -- intros [(r' & E' & _)|[_ H]]; [|exact H].
           apply app_inv_head in E'. congruence.
  - rewrite (tat_tupdate_other _ _ _ _ _ Hn). split.
    + intros H. right. split; [|exact H].
      intros r' E. apply (Hn (k :: r')). exact E.
    + intros [(r' & E & _)|[_ H]]; [|exact H].
      exfalso. apply (Hn (k :: r')). exact E.
Qed.

(** *** What the deletion pass does to the messages of the store *)

(** Every message is still there, as it was or emptied, and no message is
    added. *)
Record cleared (store store' : tnode) : Prop := mk_cleared {
  cleared_keeps : forall r pf, leaf store r pf ->
    exists pf', leaf store' r pf' /\ (pf' = pf \/ isEmpty pf' = true);
  cleared_adds_nothing : forall r pf', leaf store' r pf' ->
    exists pf, leaf store r pf /\ (pf' = pf \/ isEmpty pf' = true)
}.

Lemma cleared_refl (store : tnode) : cleared store store.
Proof. split; intros r pf H; exists pf; auto. Qed.

Lemma cleared_trans (s1 s2 s3 : tnode) : cleared s1 s2 -> cleared s2 s3 -> cleared s1 s3.
Proof.
  intros [K1 A1] [K2 A2]. split.
  - intros r pf H. destruct (K1 r pf H) as (pf1 & H1 & E1).
    destruct (K2 r pf1 H1) as (pf2 & H2 & E2). exists pf2. split; [exact H2|].
    destruct E2 as [->|E2]; [exact E1|auto].
  - intros r pf3 H. destruct (A2 r pf3 H) as (pf2 & H2 & E2).
    destruct (A1 r pf2 H2) as (pf1 & H1 & E1). exists pf1. split; [exact H1|].
    destruct E2 as [->|E2]; [exact E1|auto].
Qed.

Lemma same_leaves_cleared (store store' : tnode) :
  (forall r pf, leaf store' r pf <-> leaf store r pf) -> cleared store store'.
Proof.
  intros H. split; intros r pf L; exists pf; split; auto; now apply H.
Qed.

(** Every message below [q] is empty. *)
Definition blank_under (store : tnode) (q : list str) : Prop :=
  forall r pf, leaf store (q ++ r) pf -> isEmpty pf = true.

Lemma blank_under_cleared (s s' : tnode) (q : list str) :
  cleared s s' -> blank_under s q -> blank_under s' q.
Proof.
  intros [_ A] B r pf' H. destruct (A _ _ H) as (pf & L & [->|E]); [|exact E].
  exact (B r pf L).
Qed.

Lemma empty_isEmpty (n : nat) (e : PluralForms) : empty n = Ok e -> isEmpty e = true.
Proof.
  unfold empty. intros H. apply new_Ok in H as (-> & f0 & rest & vars & E & _).
  unfold isEmpty. simpl. destruct n; simpl in *; [discriminate|].
  injection E as <- _. reflexivity.
Qed.

Lemma _translated_Ok (h : Translations) (store : tnode) (es : list (str * tnode)) :
  _translated h store = Ok es <-> tat store (path h) = Some (TObject es).
Proof.
  unfold _translated. destruct (tat store (path h)) as [[pf|es']|]; split;
    try discriminate; congruence.
Qed.

Lemma not_own_Ok {A : Type} (array : bool) (k : str) (absent : result A) (a : A) :
  not_own array k absent = Ok a -> absent = Ok a.
Proof.
  unfold not_own. destruct (str_eqb k proto_key); [discriminate|].
  destruct (is_object_method k || array && is_array_method k); [discriminate|].
  auto.
Qed.

Lemma translated_Ok (t : Translation) (store : tnode) (tr : option tnode) :
  translated t store = Ok tr ->
  exists es, _translated (parent t) store = Ok es /\ tr = assoc (key t) es.
Proof.
  unfold translated. destruct (_translated (parent t) store) as [es|]; [|discriminate].
  cbn [bind]. intros H. exists es. split; [reflexivity|].
  destruct (assoc (key t) es) as [v|]; [now injection H as <-|].
  destruct (inherited (key t)); [discriminate|now injection H as <-].
Qed.

Lemma translated_own (t : Translation) (store : tnode) (es : list (str * tnode))
    (tr : tnode) :
  _translated (parent t) store = Ok es -> assoc (key t) es = Some tr ->
  translated t store = Ok (Some tr).
Proof. intros T A. unfold translated. rewrite T. cbn [bind]. now rewrite A. Qed.

Lemma value_of_Ok (array : bool)
    (child_toJSON : list (str * (option tnode -> str -> result (option json))))
    (entries : list (str * tnode)) (k : str) (j : option json) :
  value_of array child_toJSON entries k = Ok j ->
  exists toJSON_k,
    assoc k child_toJSON = Some toJSON_k /\ toJSON_k (assoc k entries) k = Ok j.
Proof.
  unfold value_of. destruct (array && str_eqb k length_key); [discriminate|].
  destruct (assoc k child_toJSON) as [f|];
    [|intros H; apply not_own_Ok in H; discriminate].
  intros H. exists f. split; [reflexivity|].
  destruct (assoc k entries) as [tr|]; [exact H|].
  destruct (inherited k); [discriminate|exact H].
Qed.

Lemma enter_same_leaves (h : Translations) (k : str) (store store' : tnode) :
  enter h k store = Ok store' ->
  forall r pf, leaf store' r pf <-> leaf store r pf.
Proof.
  unfold enter. destruct (_translated h store) as [es|] eqn:T; simpl; [|discriminate].
  apply _translated_Ok in T.
  destruct (assoc k es) as [[pf0|es0]|] eqn:A; try discriminate.
  - intros H; injection H as <-. tauto.
  - destruct (str_eqb k proto_key); [discriminate|].
    destruct (is_object_method k); [discriminate|].
    intros H; injection H as <-. intros r pf. rewrite (leaf_put _ _ _ _ _ _ _ T).
    split.
    + intros [(r' & _ & L)|[_ L]]; [|exact L].
      unfold leaf in L. destruct r'; simpl in L; discriminate.
    + intros L. right. split; [|exact L].
      intros r' ->. unfold leaf in L. rewrite tat_app, T in L. simpl in L.
      rewrite A in L. discriminate.
Qed.

Lemma enter_cleared (h : Translations) (k : str) (store store' : tnode) :
  enter h k store = Ok store' -> cleared store store'.
Proof. intros H. apply same_leaves_cleared. exact (enter_same_leaves h k _ _ H). Qed.

(** Replacing a message by an empty one. *)
Lemma put_empty_cleared (p : list str) (k : str) (e pf0 : PluralForms) (store : tnode)
    (es : list (str * tnode)) :
  tat store p = Some (TObject es) -> assoc k es = Some (TMessage pf0) ->
  isEmpty e = true ->
  cleared store (tupdate p (put k (TMessage e)) store)
  /\ blank_under (tupdate p (put k (TMessage e)) store) (p ++ [k]).
Proof.
  intros T A E.
  assert (L0 : forall r' pf, leaf store (p ++ k :: r') pf -> r' = [] /\ pf = pf0).
  { intros r' pf L. unfold leaf in L. rewrite tat_app, T in L. simpl in L.
    rewrite A in L. destruct r'; simpl in L; [|discriminate].
    injection L as <-. auto. }
  split; [split|].
  - intros r pf L. destruct (prefix_cases (p ++ [k]) r) as [[r' ->]|Hn].
    + rewrite <- app_assoc in *. cbn [app] in *. destruct (L0 _ _ L) as [-> ->].
      exists e. split; [|auto]. apply (leaf_put _ _ _ _ _ _ _ T).
      left. exists []. split; [reflexivity|reflexivity].
    + exists pf. split; [|auto]. apply (leaf_put _ _ _ _ _ _ _ T).
      right. split; [|exact L]. intros r' ->. apply (Hn r').
      rewrite <- app_assoc. reflexivity.
  - intros r pf' L. apply (leaf_put _ _ _ _ _ _ _ T) in L.
    destruct L as [(r' & -> & L)|[_ L]].
    + unfold leaf in L. destruct r'; simpl in L; [|discriminate].
      injection L as <-. exists pf0. split; [|auto].
      unfold leaf. rewrite tat_app, T. simpl. rewrite A. reflexivity.
    + exists pf'. auto.
  - intros r pf L. rewrite <- app_assoc in L. simpl in L.
    apply (leaf_put _ _ _ _ _ _ _ T) in L.
    destruct L as [(r' & E' & L)|[H _]].
    + unfold leaf in L. destruct r'; simpl in L; [|discriminate].
      injection L as <-. exact E.
    + exfalso. apply (H r). reflexivity.
Qed.

End MergeFacts.
Import MergeFacts.

Module DeletionFacts.
Import Vars Plural Linked Merge.

(** What [clear] is known to do on a value of the source. *)
Definition clears (p : list str) (f : tnode -> result tnode) : Prop :=
  forall store store', f store = Ok store' ->
    cleared store store' /\ blank_under store' p.

Lemma delete_cleared (h : Translations)
    (clear_child : list (str * (tnode -> result tnode))) (k : str)
    (store store' : tnode) :
  (forall k' f, In (k', f) clear_child -> clears (path h ++ [k']) f) ->
  delete h clear_child k store = Ok store' ->
  cleared store store' /\ blank_under store' (path h ++ [k]).
Proof.
  intros IH. unfold delete.
  destruct (_translated h store) as [es|] eqn:T; simpl; [|discriminate].
  apply _translated_Ok in T.
  destruct (assoc k es) as [[pf0|es0]|] eqn:A.
  - destruct (empty (length (forms pf0))) as [e|] eqn:E; simpl; [|discriminate].
    intros H; injection H as <-.
    apply (put_empty_cleared _ _ _ _ _ _ T A (empty_isEmpty _ _ E)).
  - destruct (is_array (_source h) && str_eqb k length_key); [discriminate|].
    destruct (assoc k clear_child) as [f|] eqn:C;
      [|intros H; apply not_own_Ok in H; discriminate].
    apply assoc_In in C. exact (IH _ _ C store store').
  - destruct (inherited k); [discriminate|].
    intros H; injection H as <-. split; [apply cleared_refl|].
    intros r pf L. unfold leaf in L. rewrite <- app_assoc, tat_app, T in L.
    simpl in L. rewrite A in L. discriminate.
Qed.

Lemma delete_each_cleared (p : list str) (delete_key : str -> tnode -> result tnode)
    (keys : list str) (store store' : tnode) :
  (forall k, In k keys -> clears (p ++ [k]) (delete_key k)) ->
  delete_each delete_key keys store = Ok store' ->
  cleared store store' /\ forall k, In k keys -> blank_under store' (p ++ [k]).
Proof.
  revert store; induction keys as [|k keys IH]; intros store Hd; simpl.
  - intros H; injection H as <-. split; [apply cleared_refl|intros k []].
  - destruct (delete_key k store) as [store1|] eqn:D; simpl; [|discriminate].
    intros H.
    destruct (Hd k (or_introl eq_refl) _ _ D) as [C1 B1].
    destruct (IH store1 (fun k' Hk' => Hd k' (or_intror Hk')) H) as [C2 B2].
    split; [eapply cleared_trans; eauto|].
    intros k' [<-|Hk']; [|auto]. eapply blank_under_cleared; eauto.
Qed.

(** [clear()] empties every message below the object, and touches the
    other messages of the store in no other way. *)
Lemma clear_cleared (rs : snode) (src : snode) :
  forall p, clears p (clear rs p src).
Proof.
  induction src as [pf|array ses IH] using snode_induction; intros p store store'.
  - discriminate.
  - cbn [clear].
    set (h := mkTranslations rs p (SNode array ses)).
    set (clear_child := map (fun e => (fst e, clear rs (p ++ [fst e]) (snd e))) ses).
    destruct (_translated h store) as [es|] eqn:T; simpl; [|discriminate].
    intros H. pose proof (proj1 (_translated_Ok _ _ _) T) as T'. simpl in T'.
    assert (Hc : forall k' f, In (k', f) clear_child -> clears (path h ++ [k']) f).
    { intros k' f Hin. unfold clear_child in Hin. apply in_map_iff in Hin.
      destruct Hin as ([k0 sv] & E & Hin). simpl in E. injection E as <- <-.
      rewrite Forall_forall in IH. exact (IH _ Hin (p ++ [k0])). }
    destruct (delete_each_cleared p (delete h clear_child) (map fst es) store store')
      as [C B]; [|exact H|].
    { intros k _ s s' D. exact (delete_cleared h clear_child k s s' Hc D). }
    split; [exact C|].
    intros r pf L. destruct (cleared_adds_nothing _ _ C _ _ L) as (pf0 & L0 & _).
    unfold leaf in L0. rewrite tat_app, T' in L0.
    destruct r as [|k r]; [discriminate|]. simpl in L0.
    destruct (assoc k es) as [c|] eqn:A; [|discriminate].
    apply assoc_in_keys in A.
    apply (B k A r pf). rewrite <- app_assoc. exact L.
Qed.

Lemma deletePartialTranslation_cleared (t : Translation) (store store' : tnode) :
  deletePartialTranslation t store = Ok store' -> cleared store store'.
Proof.
  unfold deletePartialTranslation.
  destruct (has (parent t) (u "full") || is_array (_source (parent t)));
    [|intros H; injection H as <-; apply cleared_refl].
  destruct (translated t store) as [[[pf|es]|]|]; simpl; try discriminate.
  destruct (isEmpty pf); [|intros H; injection H as <-; apply cleared_refl].
  intros H. exact (proj1 (clear_cleared _ _ _ _ _ H)).
Qed.

Definition deletion : list callback := [deletePartialTranslation].

Lemma call_deletion (t : Translation) (store store' : tnode) :
  call_each deletion t store = Ok store' <-> deletePartialTranslation t store = Ok store'.
Proof.
  unfold deletion. simpl. destruct (deletePartialTranslation t store); simpl; tauto.
Qed.

(** What the pass does for one key of the source. *)
Definition visit (walk_child : list str -> snode -> tnode -> result tnode)
    (h : Translations) (k : str) (sv : snode) (store : tnode) : result tnode :=
  match sv with
  | SMessage pf => call_each deletion (mkTranslation h k pf) store
  | SNode _ _ => store1 <- enter h k store ;; walk_child (path h ++ [k]) sv store1
  end.

Lemma walk_each_cons (walk_child : list str -> snode -> tnode -> result tnode)
    (h : Translations) (k : str) (sv : snode) (ses : list (str * snode)) (store : tnode) :
  walk_each walk_child deletion h ((k, sv) :: ses) store
  = (store' <- visit walk_child h k sv store ;;
     walk_each walk_child deletion h ses store').
Proof. destruct sv; reflexivity. Qed.

Definition walks (walk_child : list str -> snode -> tnode -> result tnode)
    (sv : snode) : Prop :=
  forall p store store', walk_child p sv store = Ok store' -> cleared store store'.

Lemma visit_cleared (walk_child : list str -> snode -> tnode -> result tnode)
    (h : Translations) (k : str) (sv : snode) (store store' : tnode) :
  walks walk_child sv ->
  visit walk_child h k sv store = Ok store' -> cleared store store'.
Proof.
  intros W. destruct sv as [pf|a ses]; simpl.
  - intros H. apply call_deletion in H. now apply deletePartialTranslation_cleared in H.
  - destruct (enter h k store) as [store1|] eqn:E; simpl; [|discriminate].
    intros H. eapply cleared_trans; [exact (enter_cleared _ _ _ _ E)|].
    exact (W _ _ _ H).
Qed.

Lemma walk_each_cleared (walk_child : list str -> snode -> tnode -> result tnode)
    (h : Translations) (ses : list (str * snode)) (store store' : tnode) :
  Forall (fun e => walks walk_child (snd e)) ses ->
  walk_each walk_child deletion h ses store = Ok store' -> cleared store store'.
Proof.
  revert store; induction ses as [|[k sv] ses IH]; intros store HW.
  - simpl. intros H; injection H as <-. apply cleared_refl.
  - rewrite walk_each_cons. inversion HW as [|? ? W1 W2]; subst.
    destruct (visit walk_child h k sv store) as [store1|] eqn:V; simpl; [|discriminate].
    intros H. eapply cleared_trans; [exact (visit_cleared _ _ _ _ _ _ W1 V)|].
    now apply IH.
Qed.

Definition walk_deletion (rs : snode) : list str -> snode -> tnode -> result tnode :=
  fun p' sv store' => walk deletion rs p' sv store'.

Lemma walk_cleared (rs : snode) (src : snode) : walks (walk_deletion rs) src.
Proof.
  induction src as [pf|array ses IH] using snode_induction; intros p store store'.
  - discriminate.
  - unfold walk_deletion. cbn [walk]. apply walk_each_cleared. exact IH.
Qed.

(** The pass reaches every key of the source: when the loop over [ses]
    succeeds, each entry was visited in some state of the store. *)
Lemma walk_each_visits (walk_child : list str -> snode -> tnode -> result tnode)
    (h : Translations) (ses : list (str * snode)) (k : str) (sv : snode)
    (store store' : tnode) :
  Forall (fun e => walks walk_child (snd e)) ses ->
  In (k, sv) ses ->
  walk_each walk_child deletion h ses store = Ok store' ->
  exists s1 s2, cleared store s1 /\ visit walk_child h k sv s1 = Ok s2
                /\ cleared s2 store'.
Proof.
  revert store; induction ses as [|[k0 sv0] ses IH]; intros store HW Hin; [destruct Hin|].
  rewrite walk_each_cons. inversion HW as [|? ? W1 W2]; subst.
  destruct (visit walk_child h k0 sv0 store) as [store1|] eqn:V; simpl; [|discriminate].
  intros H. destruct Hin as [E|Hin].
  - injection E as -> ->. exists store, store1.
    split; [apply cleared_refl|]. split; [exact V|].
    exact (walk_each_cleared _ _ _ _ _ W2 H).
  - destruct (IH store1 W2 Hin H) as (s1 & s2 & C1 & V' & C2).
    exists s1, s2. split; [|auto].
    eapply cleared_trans; [exact (visit_cleared _ _ _ _ _ _ W1 V)|exact C1].
Qed.

(** The value of the source at a path. The property [length] of an array
    is not one of its elements. *)
Fixpoint sat (s : snode) (q : list str) : option snode :=
  match q with
  | [] => Some s
  | k :: q' =>
    if is_array s && str_eqb k length_key then None
    else match assoc k (source_entries s) with
         | Some child => sat child q'
         | None => None
         end
  end.

Lemma walk_visits (rs : snode) (q : list str) :
  forall (src : snode) (p : list str) (store store' : tnode)
         (array : bool) (ses : list (str * snode)) (k : str) (pf : PluralForms),
  walk deletion rs p src store = Ok store' ->
  sat src q = Some (SNode array ses) ->
  In (k, SMessage pf) ses ->
  exists s1 s2,
    cleared store s1
    /\ deletePartialTranslation
         (mkTranslation (mkTranslations rs (p ++ q) (SNode array ses)) k pf) s1 = Ok s2
    /\ cleared s2 store'.
Proof.
  induction q as [|k1 q IH]; intros src p store store' array ses k pf HW HS Hin.
  - simpl in HS. injection HS as ->. rewrite app_nil_r. cbn [walk] in HW.
    destruct (walk_each_visits _ _ _ k (SMessage pf) _ _
                (proj2 (Forall_forall _ _) (fun e _ => walk_cleared rs (snd e)))
                Hin HW) as (s1 & s2 & C1 & V & C2).
    exists s1, s2. split; [exact C1|]. split; [|exact C2].
    apply call_deletion. exact V.
  - simpl in HS.
    destruct (is_array src && str_eqb k1 length_key); [discriminate|].
    destruct (assoc k1 (source_entries src)) as [child|] eqn:A; [|discriminate].
    destruct src as [pf0|a0 ses0]; [discriminate|]. simpl in A.
    apply assoc_In in A.
    destruct child as [pfc|ac sesc].
    { destruct q; simpl in HS; [discriminate|discriminate]. }
    cbn [walk] in HW.
    destruct (walk_each_visits _ _ _ k1 (SNode ac sesc) _ _
                (proj2 (Forall_forall _ _) (fun e _ => walk_cleared rs (snd e)))
                A HW) as (s1 & s2 & C1 & V & C2).
    simpl in V. destruct (enter _ k1 s1) as [s1'|] eqn:E; simpl in V; [|discriminate].
    destruct (IH _ _ _ _ _ _ _ _ V HS Hin) as (s3 & s4 & C3 & D & C4).
    exists s3, s4. rewrite <- app_assoc in D. split; [|split; [exact D|]].
    + eapply cleared_trans; [exact C1|].
      eapply cleared_trans; [exact (enter_cleared _ _ _ _ E)|exact C3].
    + eapply cleared_trans; eauto.
Qed.

End DeletionFacts.
Import DeletionFacts.

Module EmitFacts.
Import Vars Plural Linked Merge.

(** A JSON value that holds no text. *)
Inductive Hollow : json -> Prop :=
| Hollow_array (l : list json) : (forall v, In v l -> Hollow v) -> Hollow (JArray l)
| Hollow_object (es : list (str * json)) :
    (forall k v, In (k, v) es -> Hollow v) -> Hollow (JObject es).

(** Translations all of whose messages are empty. *)
Definition blank (tr : option tnode) : Prop :=
  forall t r pf, tr = Some t -> leaf t r pf -> isEmpty pf = true.

Definition only_messages (ses : list (str * snode)) : Prop :=
  forall e, In e ses -> exists pf, snd e = SMessage pf.

(** What [toJSON] returns on blank translations. *)
Definition quiet (src : snode) (j : option json) : Prop :=
  (forall v, j = Some v -> Hollow v)
  /\ match src with
     | SMessage _ => j = None
     | SNode true ses => only_messages ses -> j = None \/ j = Some (JArray [])
     | SNode false ses =>
       j = None
       \/ exists o, j = Some (JObject o)
                    /\ forall k v, In (k, v) o ->
                         exists a' ses', assoc k ses = Some (SNode a' ses')
     end.

Lemma blank_child (entries : list (str * tnode)) (k : str) :
  blank (Some (TObject entries)) -> blank (assoc k entries).
Proof.
  intros B t r pf E L. apply (B (TObject entries) (k :: r) pf eq_refl).
  unfold leaf in *. simpl. rewrite E. exact L.
Qed.

Lemma blank_none : blank None.
Proof. intros t r pf E. discriminate. Qed.

Lemma blank_entries (tr : option tnode) :
  blank tr ->
  blank (Some (TObject match tr with Some (TObject entries) => entries | _ => [] end)).
Proof.
  intros B. destruct tr as [[pf|es]|].
  - intros t r pf' E L. injection E as <-. unfold leaf in L.
    destruct r; simpl in L; discriminate.
  - exact B.
  - intros t r pf' E L. injection E as <-. unfold leaf in L.
    destruct r; simpl in L; discriminate.
Qed.

Section Node.
Variable array : bool.
Variable ses : list (str * snode).
Hypothesis children_quiet :
  Forall (fun e => forall tr k j, blank tr -> toJSON (snd e) tr k = Ok j -> quiet (snd e) j) ses.
Variable entries : list (str * tnode).
Hypothesis entries_blank : blank (Some (TObject entries)).

Definition child_toJSON := map (fun e => (fst e, toJSON (snd e))) ses.

Lemma value_of_quiet (k : str) (j : option json) :
  value_of array child_toJSON entries k = Ok j ->
  exists sv, assoc k ses = Some sv /\ quiet sv j.
Proof.
  intros H. apply value_of_Ok in H as (f & Hf & H). revert Hf H.
  unfold child_toJSON.
  rewrite (assoc_map_values (fun e => toJSON (snd e)) k ses).
  destruct (assoc k ses) as [sv|] eqn:A; [|discriminate]. simpl.
  intros Hf H. injection Hf as <-. exists sv. split; [reflexivity|].
  apply assoc_In in A. rewrite Forall_forall in children_quiet.
  exact (children_quiet _ A _ _ _ (blank_child entries k entries_blank) H).
Qed.

Lemma array_values_quiet (n i : nat) (values : list (option json)) :
  array_values (value_of array child_toJSON entries) n i = Ok values ->
  length values = n
  /\ Forall (fun j => exists k sv, assoc k ses = Some sv /\ quiet sv j) values.
Proof.
  revert i values; induction n as [|n IH]; intros i values; simpl.
  - intros H; injection H as <-. auto.
  - destruct (value_of array child_toJSON entries (key_of_index i)) as [j|] eqn:V;
      simpl; [|discriminate].
    destruct (array_values (value_of array child_toJSON entries) n (S i)) as [more|] eqn:M;
      simpl; [|discriminate].
    intros H; injection H as <-. destruct (IH _ _ M) as [L F].
    split; [simpl; congruence|]. constructor; [|exact F].
    destruct (value_of_quiet _ _ V) as (sv & A & Q). eauto.
Qed.

Lemma object_values_quiet (keys : list str) (object object' : list (str * json)) :
  (forall k v, In (k, v) object ->
     Hollow v /\ exists a' ses', assoc k ses = Some (SNode a' ses')) ->
  object_values (value_of array child_toJSON entries) keys object = Ok object' ->
  forall k v, In (k, v) object' ->
    Hollow v /\ exists a' ses', assoc k ses = Some (SNode a' ses').
Proof.
  revert object; induction keys as [|k0 keys IH]; intros object Hinv; simpl.
  - intros H; injection H as <-. exact Hinv.
  - destruct (value_of array child_toJSON entries k0) as [j|] eqn:V; simpl; [|discriminate].
    apply IH. destruct j as [v0|]; [|exact Hinv].
    intros k v Hin. apply put_In in Hin. destruct Hin as [E|Hin]; [|auto].
    injection E as -> ->.
    destruct (value_of_quiet _ _ V) as (sv & A & [QH Q]).
    split; [apply QH; reflexivity|].
    destruct sv as [pf|a' ses']; [discriminate Q|eauto].
Qed.

End Node.

Lemma all_undefined (values : list (option json)) :
  Forall (fun j => j = None) values ->
  count_undefined values = length values /\ count_no_keys values = 0.
Proof.
  induction 1 as [|j values Hj _ [IH1 IH2]]; [auto|]. subst j. simpl. auto.
Qed.

Lemma defined_In (values : list (option json)) (v : json) :
  In v (defined values) -> In (Some v) values.
Proof.
  induction values as [|[w|] values IH]; simpl; [tauto| |auto].
  intros [->|H]; auto.
Qed.

(** On blank translations [toJSON] emits no text, and no key of a
    message. *)
Lemma toJSON_blank (src : snode) :
  forall tr k j, blank tr -> toJSON src tr k = Ok j -> quiet src j.
Proof.
  induction src as [source|array ses IH] using snode_induction; intros tr k j B.
  - simpl. destruct tr as [[translated|es]|]; try discriminate.
    rewrite (B _ [] translated eq_refl eq_refl).
    intros H; injection H as <-. split; [discriminate|reflexivity].
  - cbn [toJSON].
    destruct tr as [[pf|es]|] eqn:Etr; [discriminate| |];
      pose proof (blank_entries _ B) as Be; simpl in Be.
    + destruct array.
      * destruct (array_values _ (length ses) 0) as [values|] eqn:V; simpl; [|discriminate].
        destruct (array_values_quiet true ses IH es Be _ _ _ V) as [L F].
        rewrite Forall_forall in F.
        intros H. split.
        -- intros v E.
           destruct (count_undefined values + count_no_keys values =? length ses).
           { destruct (all_digits k); injection H as <-; [|discriminate].
             injection E as <-. constructor. intros v []. }
           destruct (negb (count_undefined values =? 0)); [discriminate|].
           injection H as <-. injection E as <-.
           constructor. intros v Hv. apply defined_In in Hv.
           destruct (F _ Hv) as (k' & sv & _ & [QH _]). now apply QH.
        -- intros Hm.
           assert (N : Forall (fun j => j = None) values).
           { apply Forall_forall. intros j' Hj. destruct (F _ Hj) as (k' & sv & A & [_ Q]).
             apply assoc_In in A. destruct (Hm _ A) as [pf E]. simpl in E. subst sv.
             exact Q. }
           destruct (all_undefined _ N) as [N1 N2]. rewrite N1, N2, L in H.
           rewrite Nat.add_0_r, Nat.eqb_refl in H.
           destruct (all_digits k); injection H as <-; auto.
      * destruct (object_values _ (map fst es) []) as [o|] eqn:V; simpl; [|discriminate].
        pose proof (object_values_quiet false ses IH es Be _ _ _
                      (fun k v (H : In (k, v) []) => False_ind _ H) V) as Ho.
        intros H. split.
        -- intros v E.
           destruct (negb (length o =? 0) || all_digits k); injection H as <-;
             [|discriminate].
           injection E as <-.
           constructor. intros k' v Hin. exact (proj1 (Ho _ _ Hin)).
        -- destruct (negb (length o =? 0) || all_digits k); injection H as <-; [|auto].
           right. exists o. split; [reflexivity|]. intros k' v Hin. exact (proj2 (Ho _ _ Hin)).
    + destruct array.
      * destruct (array_values _ (length ses) 0) as [values|] eqn:V; simpl; [|discriminate].
        destruct (array_values_quiet true ses IH [] Be _ _ _ V) as [L F].
        rewrite Forall_forall in F.
        intros H. split.
        -- intros v E.
           destruct (count_undefined values + count_no_keys values =? length ses).
           { destruct (all_digits k); injection H as <-; [|discriminate].
             injection E as <-. constructor. intros v []. }
           destruct (negb (count_undefined values =? 0)); [discriminate|].
           injection H as <-. injection E as <-.
           constructor. intros v Hv. apply defined_In in Hv.
           destruct (F _ Hv) as (k' & sv & _ & [QH _]). now apply QH.
        -- intros Hm.
           assert (N : Forall (fun j => j = None) values).
           { apply Forall_forall. intros j' Hj. destruct (F _ Hj) as (k' & sv & A & [_ Q]).
             apply assoc_In in A. destruct (Hm _ A) as [pf E]. simpl in E. subst sv.
             exact Q. }
           destruct (all_undefined _ N) as [N1 N2]. rewrite N1, N2, L in H.
           rewrite Nat.add_0_r, Nat.eqb_refl in H.
           destruct (all_digits k); injection H as <-; auto.
      * simpl. intros H. destruct (all_digits k); injection H as <-.
        -- split; [|right; exists []; split; [reflexivity|intros k' v []]].
           intros v E; injection E as <-. constructor. intros k' v [].
        -- split; [discriminate|auto].
Qed.

End EmitFacts.
Import EmitFacts.

(** ** The deletion pass succeeds on translations that fit the source *)

Module FitFacts.
Import Vars Plural Linked Merge.

(** Two paths one of which leads through the other. *)
Definition related (p r : list str) : Prop :=
  (exists r', r = p ++ r') \/ (exists p', p = r ++ p').

Lemma unrelated_tail (k : str) (p r : list str) :
  ~ related (k :: p) (k :: r) -> ~ related p r.
Proof.
  intros H [[r' ->]|[p' ->]]; apply H; [left; exists r'|right; exists p']; reflexivity.
Qed.

Lemma unrelated_siblings (p : list str) (k k' : str) :
  k <> k' -> ~ related (p ++ [k]) (p ++ [k']).
Proof.
  intros Hne [[r' E]|[p' E]]; rewrite <- app_assoc in E; apply app_inv_head in E;
    injection E as E _; congruence.
Qed.

Lemma unrelated_deeper (p q r : list str) : ~ related p r -> ~ related (p ++ q) r.
Proof.
  intros H [[r' ->]|[p' E]]; apply H.
  - left. exists (q ++ r'). now rewrite app_assoc.
  - apply app_eq_app in E. destruct E as [l [[-> _]|[-> _]]].
    + right. now exists l.
    + left. now exists l.
Qed.

Lemma tat_tupdate_unrelated (f : list (str * tnode) -> list (str * tnode))
    (p : list str) (t : tnode) (r : list str) :
  ~ related p r -> tat (tupdate p f t) r = tat t r.
Proof.
  revert t r; induction p as [|k p IH]; intros t r H.
  - exfalso. apply H. left. now exists r.
  - destruct t as [pf|es0]; [reflexivity|]. simpl tupdate.
    destruct r as [|k' r]; [exfalso; apply H; right; now exists (k :: p)|].
    simpl. rewrite assoc_map_first.
    destruct (str_eqb k' k) eqn:E; [|reflexivity].
    apply str_eqb_eq in E; subst k'.
    destruct (assoc k es0) as [c|]; simpl; [|reflexivity].
    apply IH. now apply unrelated_tail in H.
Qed.

Lemma tat_tupdate_above (f : list (str * tnode) -> list (str * tnode))
    (r p' : list str) (t : tnode) (es : list (str * tnode)) :
  tat t r = Some (TObject es) ->
  exists es', tat (tupdate (r ++ p') f t) r = Some (TObject es').
Proof.
  revert t; induction r as [|k r IH]; intros t H.
  - simpl in H. injection H as ->. simpl. destruct p'; simpl; eauto.
  - destruct t as [pf|es0]; [discriminate|]. simpl in H.
    destruct (assoc k es0) as [c|] eqn:A; [|discriminate].
    simpl. rewrite assoc_map_first, str_eqb_refl, A. simpl. now apply IH.
Qed.

(** A change of the store that stays below [p]: what is beside [p] is
    left as it is, and the objects on the way to [p] are still objects. *)
Record local (p : list str) (store store' : tnode) : Prop := mk_local {
  local_frame : forall r, ~ related p r -> tat store' r = tat store r;
  local_above : forall r p' es, p = r ++ p' -> tat store r = Some (TObject es) ->
    exists es', tat store' r = Some (TObject es')
}.

Lemma local_refl (p : list str) (store : tnode) : local p store store.
Proof. split; eauto. Qed.

Lemma local_trans (p : list str) (s1 s2 s3 : tnode) :
  local p s1 s2 -> local p s2 s3 -> local p s1 s3.
Proof.
  intros [F1 A1] [F2 A2]. split.
  - intros r H. rewrite (F2 r H). exact (F1 r H).
  - intros r p' es E H. destruct (A1 r p' es E H) as [es' H']. exact (A2 r p' es' E H').
Qed.

Lemma local_deeper (p q : list str) (s s' : tnode) :
  local (p ++ q) s s' -> local p s s'.
Proof.
  intros [F A]. split.
  - intros r H. apply F. now apply unrelated_deeper.
  - intros r p' es -> H. apply (A r (p' ++ q) es); [now rewrite app_assoc|exact H].
Qed.

Lemma local_tupdate (f : list (str * tnode) -> list (str * tnode))
    (p : list str) (store : tnode) :
  local p store (tupdate p f store).
Proof.
  split.
  - intros r H. now apply tat_tupdate_unrelated.
  - intros r p' es -> H. now apply tat_tupdate_above with (es := es).
Qed.

(** *** Translations that fit the source *)

Definition entries_of (tr : option tnode) : list (str * tnode) :=
  match tr with
  | Some (TObject es) => es
  | _ => []
  end.

(** The test of [deletePartialTranslation] on the parent. *)
Definition is_group (array : bool) (ses : list (str * snode)) : bool :=
  match assoc (u "full") ses with
  | Some _ => true
  | None => false
  end || array.

(** The translations [es] of an object or array of the source with the
    entries [ses]: every key of [es] is a key of the source, the
    translations of each value fit it, every message of an array or of a
    group with the key [full] has translations, and so has every object
    or array whose key is the name of a property that objects inherit. *)
Definition node_fits (F : snode -> option tnode -> Prop)
    (array : bool) (ses : list (str * snode)) (es : list (str * tnode)) : Prop :=
  NoDup (map fst ses)
  /\ (array = true -> assoc length_key ses = None)
  /\ (forall k tv, assoc k es = Some tv -> exists sv, assoc k ses = Some sv)
  /\ (forall k sv, In (k, sv) ses -> F sv (assoc k es))
  /\ (is_group array ses = true ->
      forall k source, In (k, SMessage source) ses -> assoc k es <> None)
  /\ (forall k a' ses', In (k, SNode a' ses') ses -> inherited k = true ->
        assoc k es <> None).

(** Translations that have the shape of the source: a message is
    translated by an instance with a first form or not at all, an object or
    array by an object or not at all. *)
Inductive fits : snode -> option tnode -> Prop :=
| fits_absent (source : PluralForms) : fits (SMessage source) None
| fits_message (source pf : PluralForms) :
    forms pf <> [] -> fits (SMessage source) (Some (TMessage pf))
| fits_node (array : bool) (ses : list (str * snode)) (tr : option tnode) :
    (forall pf, tr <> Some (TMessage pf)) ->
    node_fits fits array ses (entries_of tr) ->
    fits (SNode array ses) tr.

Lemma fits_node_inv (array : bool) (ses : list (str * snode)) (es : list (str * tnode)) :
  fits (SNode array ses) (Some (TObject es)) <-> node_fits fits array ses es.
Proof.
  split.
  - intros H. inversion H; subst. assumption.
  - intros H. constructor; [discriminate|exact H].
Qed.

Lemma fits_node_created (array : bool) (ses : list (str * snode)) :
  fits (SNode array ses) None -> fits (SNode array ses) (Some (TObject [])).
Proof. intros H. inversion H; subst. constructor; [discriminate|assumption]. Qed.

Lemma keys_unique (ses : list (str * snode)) (k : str) (sv sv' : snode) :
  NoDup (map fst ses) -> In (k, sv) ses -> In (k, sv') ses -> sv = sv'.
Proof.
  induction ses as [|[k0 v0] ses IH]; simpl; [tauto|].
  intros ND [E|H] [E'|H']; inversion ND as [|? ? Hn ND']; subst.
  - congruence.
  - injection E as -> ->. exfalso. apply Hn.
    change k with (fst (k, sv')). now apply in_map.
  - injection E' as -> ->. exfalso. apply Hn.
    change k with (fst (k, sv)). now apply in_map.
  - auto.
Qed.

Lemma In_assoc (ses : list (str * snode)) (k : str) (sv : snode) :
  NoDup (map fst ses) -> In (k, sv) ses -> assoc k ses = Some sv.
Proof.
  intros ND Hin.
  assert (Hk : In k (map fst ses)) by (change k with (fst (k, sv)); now apply in_map).
  destruct (in_keys_assoc _ _ Hk) as [sv' A].
  rewrite A. f_equal. apply (keys_unique ses k); auto. now apply assoc_In.
Qed.

(** The translations of one key are changed to translations that fit. *)
Lemma node_fits_update (array : bool) (ses : list (str * snode))
    (es es' : list (str * tnode)) (k : str) (sv : snode) :
  node_fits fits array ses es ->
  In (k, sv) ses ->
  fits sv (assoc k es') ->
  (assoc k es <> None -> assoc k es' <> None) ->
  (forall k', k' <> k -> assoc k' es' = assoc k' es) ->
  node_fits fits array ses es'.
Proof.
  intros (ND & Hl & Hu & Hc & Hg & Hi) Hin Hf Hn Ho.
  repeat split; auto.
  - intros k' tv A. destruct (list_eq_dec N.eq_dec k' k) as [->|Hne].
    + exists sv. now apply In_assoc.
    + rewrite (Ho _ Hne) in A. eauto.
  - intros k' sv' Hin'. destruct (list_eq_dec N.eq_dec k' k) as [->|Hne].
    + rewrite (keys_unique ses k sv' sv ND Hin' Hin). exact Hf.
    + rewrite (Ho _ Hne). auto.
  - intros G k' source Hin'. destruct (list_eq_dec N.eq_dec k' k) as [->|Hne].
    + apply Hn. eauto.
    + rewrite (Ho _ Hne). eauto.
  - intros k' a' ses' Hin' I. destruct (list_eq_dec N.eq_dec k' k) as [->|Hne].
    + apply Hn. eauto.
    + rewrite (Ho _ Hne). eauto.
Qed.

(** The state of the store seen from the object at [p]. *)
Definition fits_at (array : bool) (ses : list (str * snode)) (p : list str)
    (store : tnode) : Prop :=
  exists es, tat store p = Some (TObject es) /\ node_fits fits array ses es.

Lemma fits_at_fits (array : bool) (ses : list (str * snode)) (p : list str)
    (store : tnode) :
  fits_at array ses p store <->
  fits (SNode array ses) (tat store p) /\ exists es, tat store p = Some (TObject es).
Proof.
  split.
  - intros (es & T & N). rewrite T. split; [now apply fits_node_inv|eauto].
  - intros (F & es & T). exists es. split; [exact T|]. rewrite T in F.
    now apply fits_node_inv.
Qed.

(** After a change below the key [k] of the object at [p]. *)
Lemma fits_at_child (array : bool) (ses : list (str * snode)) (p : list str)
    (k : str) (sv : snode) (store store' : tnode) :
  fits_at array ses p store ->
  In (k, sv) ses ->
  local (p ++ [k]) store store' ->
  fits sv (tat store' (p ++ [k])) ->
  (tat store (p ++ [k]) <> None -> tat store' (p ++ [k]) <> None) ->
  fits_at array ses p store'.
Proof.
  intros (es & T & N) Hin [F A] Hf Hn.
  destruct (A p [k] es eq_refl T) as [es' T'].
  exists es'. split; [exact T'|].
  assert (R : forall s e k', tat s p = Some (TObject e) -> tat s (p ++ [k']) = assoc k' e).
  { intros s e k' H. rewrite tat_app, H. simpl. destruct (assoc k' e); reflexivity. }
  apply (node_fits_update array ses es es' k sv N Hin).
  - rewrite <- (R _ _ _ T'). exact Hf.
  - rewrite <- (R _ _ _ T'), <- (R _ _ _ T). exact Hn.
  - intros k' Hne. rewrite <- (R _ _ _ T'), <- (R _ _ _ T).
    apply F. apply unrelated_siblings. congruence.
Qed.

Lemma tat_key (store : tnode) (p : list str) (es : list (str * tnode)) (k : str) :
  tat store p = Some (TObject es) -> tat store (p ++ [k]) = assoc k es.
Proof.
  intros H. rewrite tat_app, H. simpl. destruct (assoc k es); reflexivity.
Qed.

(** After the translations of the key [k] are set to [v]. *)
Lemma fits_at_put (array : bool) (ses : list (str * snode)) (p : list str)
    (k : str) (sv : snode) (v : tnode) (store : tnode) :
  fits_at array ses p store ->
  In (k, sv) ses ->
  fits sv (Some v) ->
  fits_at array ses p (tupdate p (put k v) store).
Proof.
  intros (es & T & N) Hin Hf.
  exists (put k v es). split.
  - rewrite <- (app_nil_r p) at 2. now rewrite (tat_tupdate_prefix _ _ _ _ [] T).
  - apply (node_fits_update array ses es _ k sv N Hin).
    + now rewrite assoc_put_same.
    + rewrite assoc_put_same. discriminate.
    + intros k' Hne. now apply assoc_put_other.
Qed.

Lemma check_forms_blank (n : nat) : check_forms [] [] (repeat [] n) = Ok tt.
Proof. induction n as [|n IH]; [reflexivity|exact IH]. Qed.

(** [PluralForms.empty(length)] returns for a positive length. *)
Lemma empty_total (n : nat) :
  n <> 0 -> exists e, empty n = Ok e /\ forms e <> [].
Proof.
  intros H. destruct n as [|n]; [congruence|].
  exists (mkPluralForms (repeat [] (S n))). split; [|discriminate].
  unfold empty. simpl repeat. unfold new.
  change (parseVars []) with (Ok (@nil str)). cbn [bind].
  now rewrite check_forms_blank.
Qed.

(** [clear()] returns on translations that fit, which it leaves fitting. *)
Definition clears_totally (rs : snode) (sv : snode) : Prop :=
  forall p store,
    fits sv (tat store p) -> (exists es, tat store p = Some (TObject es)) ->
    exists store', clear rs p sv store = Ok store'
                   /\ local p store store' /\ fits sv (tat store' p).

Lemma delete_each_total (Inv : tnode -> Prop) (p : list str)
    (d : str -> tnode -> result tnode) (keys : list str) (store : tnode) :
  Inv store ->
  (forall k s, In k keys -> Inv s ->
     exists s', d k s = Ok s' /\ Inv s' /\ local p s s') ->
  exists s', delete_each d keys store = Ok s' /\ Inv s' /\ local p store s'.
Proof.
  revert store; induction keys as [|k keys IH]; intros store I0 Step.
  - exists store. split; [reflexivity|split; [assumption|apply local_refl]].
  - destruct (Step k store (or_introl eq_refl) I0) as (s1 & D & I1 & L1).
    destruct (IH s1 I1) as (s2 & D2 & I2 & L2).
    { intros k' s Hk'. apply Step. now right. }
    exists s2. simpl. rewrite D. simpl. split; [exact D2|split; [exact I2|]].
    exact (local_trans _ _ _ _ L1 L2).
Qed.

Lemma fits_child_object (sv : snode) (es : list (str * tnode)) :
  fits sv (Some (TObject es)) -> exists array ses, sv = SNode array ses.
Proof. intros H. inversion H; subst. eauto. Qed.

Lemma fits_child_message (sv : snode) (pf : PluralForms) :
  fits sv (Some (TMessage pf)) -> (exists source, sv = SMessage source) /\ forms pf <> [].
Proof.
  intros H. inversion H as [| |? ? ? Hn]; subst; [eauto|].
  exfalso. exact (Hn pf eq_refl).
Qed.

(** The keys of the object at [p] that have a value. *)
Definition keeps_keys (p : list str) (store store' : tnode) : Prop :=
  forall k, tat store (p ++ [k]) <> None -> tat store' (p ++ [k]) <> None.

Lemma delete_total (rs : snode) (p : list str) (array : bool)
    (ses : list (str * snode)) (k : str) (store : tnode) :
  Forall (fun e => clears_totally rs (snd e)) ses ->
  fits_at array ses p store ->
  tat store (p ++ [k]) <> None ->
  exists store',
    delete (mkTranslations rs p (SNode array ses))
           (map (fun e => (fst e, clear rs (p ++ [fst e]) (snd e))) ses) k store
    = Ok store'
    /\ fits_at array ses p store' /\ local p store store'
    /\ keeps_keys p store store'.
Proof.
  intros IH HF Hk. pose proof HF as (es & T & N).
  pose proof N as (ND & Hl & Hu & Hc & Hg & Hi).
  unfold delete.
  rewrite (proj2 (_translated_Ok (mkTranslations rs p (SNode array ses)) store es) T).
  cbn [bind]. destruct (assoc k es) as [[pf|esk]|] eqn:A.
  - destruct (Hu _ _ A) as [sv S]. apply assoc_In in S.
    pose proof (Hc _ _ S) as F. rewrite A in F.
    destruct (fits_child_message _ _ F) as [[source ->] Hpf].
    destruct (empty_total (length (forms pf))) as (e & E & He).
    { destruct (forms pf); [congruence|discriminate]. }
    rewrite E. cbn [bind path]. eexists. split; [reflexivity|]. split; [|split].
    + apply (fits_at_put array ses p k (SMessage source)); auto. now constructor.
    + apply local_tupdate.
    + intros k'. rewrite (tat_key _ _ _ k' T).
      rewrite (tat_tupdate_prefix _ _ _ _ [k'] T). simpl.
      destruct (list_eq_dec N.eq_dec k' k) as [->|Hne].
      * rewrite assoc_put_same. discriminate.
      * rewrite assoc_put_other by congruence. now destruct (assoc k' es).
  - destruct (Hu _ _ A) as [sv S]. pose proof (assoc_In _ _ _ S) as Hin.
    pose proof (Hc _ _ Hin) as F. rewrite A in F.
    assert (G : is_array (SNode array ses) && str_eqb k length_key = false).
    { simpl. destruct array; [|reflexivity]. simpl.
      apply str_eqb_neq. intros ->. rewrite (Hl eq_refl) in S. discriminate. }
    cbn [_source]. rewrite G.
    rewrite (assoc_map_values (fun e => clear rs (p ++ [fst e]) (snd e))), S. cbn [fst snd].
    pose proof (proj1 (Forall_forall _ _) IH _ Hin) as C. cbn [snd] in C.
    destruct (C (p ++ [k]) store) as (store' & D & L & F').
    { rewrite (tat_key _ _ _ k T), A. exact F. }
    { rewrite (tat_key _ _ _ k T), A. eauto. }
    assert (Kk : tat store' (p ++ [k]) <> None).
    { destruct (local_above _ _ _ L (p ++ [k]) [] esk) as [es' T'].
      - now rewrite app_nil_r.
      - now rewrite (tat_key _ _ _ k T), A.
      - rewrite T'. discriminate. }
    exists store'. split; [exact D|]. split; [|split].
    + apply (fits_at_child array ses p k sv store store' HF Hin L F').
      intros _. exact Kk.
    + exact (local_deeper _ _ _ _ L).
    + intros k' Hk'. destruct (list_eq_dec N.eq_dec k' k) as [->|Hne]; [exact Kk|].
      rewrite (local_frame _ _ _ L); [exact Hk'|].
      apply unrelated_siblings. congruence.
  - exfalso. apply Hk. now rewrite (tat_key _ _ _ k T).
Qed.

Lemma clear_total (rs : snode) (src : snode) : clears_totally rs src.
Proof.
  induction src as [pf|array ses IH] using snode_induction; intros p store F [es T].
  - rewrite T in F. inversion F.
  - cbn [clear].
    rewrite (proj2 (_translated_Ok (mkTranslations rs p (SNode array ses)) store es) T).
    cbn [bind].
    destruct (delete_each_total
                (fun s => fits_at array ses p s /\ keeps_keys p store s) p
                (delete (mkTranslations rs p (SNode array ses))
                   (map (fun e => (fst e, clear rs (p ++ [fst e]) (snd e))) ses))
                (map fst es) store) as (s' & D & [I _] & L).
    + split; [apply fits_at_fits; eauto|intros k Hk; exact Hk].
    + intros k s Hk [Hs Ks].
      destruct (delete_total rs p array ses k s IH Hs) as (s1 & D1 & I1 & L1 & K1).
      { apply Ks. rewrite (tat_key _ _ _ k T).
        destruct (in_keys_assoc _ _ Hk) as [v ->]. discriminate. }
      exists s1. split; [exact D1|]. split; [|exact L1].
      split; [exact I1|]. intros k' Hk'. apply K1, Ks, Hk'.
    + exists s'. split; [exact D|]. split; [exact L|].
      now apply fits_at_fits in I as [I _].
Qed.

(** [deletePartialTranslation] returns on translations that fit. *)
Lemma deletePartialTranslation_total (rs : snode) (p : list str) (array : bool)
    (ses : list (str * snode)) (k : str) (source : PluralForms) (store : tnode) :
  fits_at array ses p store ->
  In (k, SMessage source) ses ->
  exists store',
    deletePartialTranslation
      (mkTranslation (mkTranslations rs p (SNode array ses)) k source) store = Ok store'
    /\ fits_at array ses p store' /\ local p store store'.
Proof.
  intros HF Hin. pose proof HF as (es & T & N).
  pose proof N as (ND & Hl & Hu & Hc & Hg & Hi).
  unfold deletePartialTranslation. cbn [parent _source root_source path].
  change (has (mkTranslations rs p (SNode array ses)) (u "full")
          || is_array (SNode array ses)) with (is_group array ses).
  destruct (is_group array ses) eqn:G.
  - pose proof (Hc _ _ Hin) as F. pose proof (Hg eq_refl _ _ Hin) as Hn.
    destruct (assoc k es) as [tr|] eqn:A; [|congruence].
    rewrite (translated_own
               (mkTranslation (mkTranslations rs p (SNode array ses)) k source)
               store es tr
               (proj2 (_translated_Ok (mkTranslations rs p (SNode array ses)) store es) T)
               A).
    cbn [bind]. destruct tr as [pf|esk].
    + destruct (isEmpty pf).
      * destruct (clear_total rs (SNode array ses) p store) as (s' & D & L & F').
        { now apply fits_at_fits in HF as [HF _]. }
        { eauto. }
        exists s'. split; [exact D|]. split; [|exact L].
        apply fits_at_fits. split; [exact F'|].
        apply (local_above _ _ _ L p [] es); [now rewrite app_nil_r|exact T].
      * exists store. split; [reflexivity|split; [assumption|apply local_refl]].
    + inversion F.
  - exists store. split; [reflexivity|split; [assumption|apply local_refl]].
Qed.

(** [walk] of the deletion pass returns on translations that fit. *)
Definition walks_totally (rs : snode) (sv : snode) : Prop :=
  forall p store,
    fits sv (tat store p) -> (exists es, tat store p = Some (TObject es)) ->
    exists store', walk deletion rs p sv store = Ok store'
                   /\ local p store store' /\ fits sv (tat store' p).

Lemma enter_total (rs : snode) (p : list str) (array : bool)
    (ses : list (str * snode)) (k : str) (a' : bool) (ses' : list (str * snode))
    (store : tnode) :
  fits_at array ses p store ->
  In (k, SNode a' ses') ses ->
  exists store' es',
    enter (mkTranslations rs p (SNode array ses)) k store = Ok store'
    /\ fits_at array ses p store' /\ local p store store'
    /\ tat store' (p ++ [k]) = Some (TObject es').
Proof.
  intros HF Hin. pose proof HF as (es & T & N).
  pose proof N as (ND & Hl & Hu & Hc & Hg & Hi).
  unfold enter.
  rewrite (proj2 (_translated_Ok (mkTranslations rs p (SNode array ses)) store es) T).
  cbn [bind path]. pose proof (Hc _ _ Hin) as F.
  destruct (assoc k es) as [[pf|esk]|] eqn:A.
  - exfalso. apply fits_child_message in F as [[source F] _]. discriminate.
  - exists store, esk. split; [reflexivity|split; [exact HF|split; [apply local_refl|]]].
    now rewrite (tat_key _ _ _ k T).
  - assert (I : inherited k = false).
    { destruct (inherited k) eqn:I; [|reflexivity].
      exfalso. exact (Hi _ _ _ Hin I A). }
    unfold inherited in I. apply orb_false_iff in I as [I1 I2]. rewrite I1, I2.
    exists (tupdate p (put k (TObject [])) store), []. split; [reflexivity|].
    split; [|split].
    + apply (fits_at_put array ses p k (SNode a' ses')); auto.
      now apply fits_node_created.
    + apply local_tupdate.
    + rewrite (tat_tupdate_prefix _ _ _ _ [k] T). simpl. now rewrite assoc_put_same.
Qed.

Lemma visit_total (rs : snode) (p : list str) (array : bool)
    (ses : list (str * snode)) (k : str) (sv : snode) (store : tnode) :
  walks_totally rs sv ->
  fits_at array ses p store ->
  In (k, sv) ses ->
  exists store',
    visit (walk_deletion rs) (mkTranslations rs p (SNode array ses)) k sv store = Ok store'
    /\ fits_at array ses p store' /\ local p store store'.
Proof.
  intros W HF Hin. destruct sv as [source|a' ses'].
  - unfold visit.
    destruct (deletePartialTranslation_total rs p array ses k source store HF Hin)
      as (s' & D & I & L).
    exists s'. split; [now apply call_deletion|auto].
  - unfold visit.
    destruct (enter_total rs p array ses k a' ses' store HF Hin)
      as (s1 & es1 & E & I1 & L1 & T1).
    rewrite E. cbn [bind path]. unfold walk_deletion.
    pose proof I1 as (es & T & N). pose proof N as (ND & Hl & Hu & Hc & Hg & Hi).
    destruct (W (p ++ [k]) s1) as (s2 & D & L2 & F2).
    { rewrite (tat_key _ _ _ k T). exact (Hc _ _ Hin). }
    { eauto. }
    exists s2. split; [exact D|]. split.
    + apply (fits_at_child array ses p k (SNode a' ses') s1 s2 I1 Hin L2 F2).
      intros _. destruct (local_above _ _ _ L2 (p ++ [k]) [] es1) as [es' T'].
      * now rewrite app_nil_r.
      * exact T1.
      * rewrite T'. discriminate.
    + exact (local_trans _ _ _ _ L1 (local_deeper _ _ _ _ L2)).
Qed.

Lemma walk_each_total (rs : snode) (p : list str) (array : bool)
    (ses : list (str * snode)) (part : list (str * snode)) (store : tnode) :
  Forall (fun e => walks_totally rs (snd e)) ses ->
  incl part ses ->
  fits_at array ses p store ->
  exists store',
    walk_each (walk_deletion rs) deletion (mkTranslations rs p (SNode array ses))
              part store = Ok store'
    /\ fits_at array ses p store' /\ local p store store'.
Proof.
  intros IH. revert store; induction part as [|[k sv] part IHp]; intros store Hi HF.
  - exists store. split; [reflexivity|split; [assumption|apply local_refl]].
  - assert (Hin : In (k, sv) ses) by (apply Hi; now left).
    destruct (visit_total rs p array ses k sv store) as (s1 & V & I1 & L1); auto.
    { exact (proj1 (Forall_forall _ _) IH _ Hin). }
    destruct (IHp s1) as (s2 & D & I2 & L2); auto.
    { intros e He. apply Hi. now right. }
    exists s2. rewrite walk_each_cons, V. cbn [bind]. split; [exact D|split; [exact I2|]].
    exact (local_trans _ _ _ _ L1 L2).
Qed.

Lemma walk_total (rs : snode) (src : snode) : walks_totally rs src.
Proof.
  induction src as [pf|array ses IH] using snode_induction; intros p store F [es T].
  - rewrite T in F. inversion F.
  - cbn [walk].
    destruct (walk_each_total rs p array ses ses store IH (incl_refl ses))
      as (s' & D & I & L).
    + apply fits_at_fits. eauto.
    + exists s'. split; [exact D|]. split; [exact L|].
      now apply fits_at_fits in I as [I _].
Qed.

(** The first pass of [writeTranslations] returns on translations that
    have the shape of the source, and leaves them in that shape. *)
Lemma deletion_pass_total (array : bool) (ses : list (str * snode))
    (es : list (str * tnode)) :
  fits (SNode array ses) (Some (TObject es)) ->
  exists es',
    walk deletion (SNode array ses) [] (SNode array ses) (TObject es) = Ok (TObject es')
    /\ fits (SNode array ses) (Some (TObject es')).
Proof.
  intros F.
  destruct (walk_total (SNode array ses) (SNode array ses) [] (TObject es))
    as (s' & D & L & F'); simpl; eauto.
  destruct (local_above _ _ _ L [] [] es eq_refl eq_refl) as [es' T'].
  simpl in T'. injection T' as ->. eauto.
Qed.

(** *** Deciding the fit *)

Fixpoint distinct (keys : list str) : bool :=
  match keys with
  | [] => true
  | k :: keys' => negb (existsb (str_eqb k) keys') && distinct keys'
  end.

(** [fits] as a test. *)
Fixpoint fitsb (src : snode) (tr : option tnode) {struct src} : bool :=
  match src with
  | SMessage _ =>
    match tr with
    | None => true
    | Some (TMessage pf) => negb (length (forms pf) =? 0)
    | Some (TObject _) => false
    end
  | SNode array ses =>
    match tr with
    | Some (TMessage _) => false
    | _ =>
      let es := entries_of tr in
      distinct (map fst ses)
      && (negb array || negb (has_key length_key ses))
      && forallb (fun e => has_key (fst e) ses) es
      && forallb (fun e => fitsb (snd e) (assoc (fst e) es)) ses
      && forallb (fun e => match snd e with
                           | SMessage _ => negb (is_group array ses) || has_key (fst e) es
                           | SNode _ _ => negb (inherited (fst e)) || has_key (fst e) es
                           end) ses
    end
  end.

Lemma distinct_NoDup (keys : list str) : distinct keys = true -> NoDup keys.
Proof.
  induction keys as [|k keys IH]; simpl; [constructor|].
  intros H. apply andb_true_iff in H as [H1 H2]. constructor; [|auto].
  intros Hin. apply negb_true_iff in H1.
  assert (E : existsb (str_eqb k) keys = true).
  { apply existsb_exists. exists k. split; [exact Hin|apply str_eqb_refl]. }
  congruence.
Qed.

Lemma has_key_false {A : Type} (k : str) (l : list (str * A)) :
  has_key k l = false -> assoc k l = None.
Proof.
  intros H. destruct (assoc k l) as [v|] eqn:E; [|reflexivity].
  assert (T : has_key k l = true) by (apply has_key_assoc; eauto). congruence.
Qed.

Lemma fitsb_fits (src : snode) : forall tr, fitsb src tr = true -> fits src tr.
Proof.
  induction src as [source|array ses IH] using snode_induction; intros tr.
  - simpl. destruct tr as [[pf|es]|]; [|discriminate|constructor].
    intros H. constructor. apply negb_true_iff, Nat.eqb_neq in H.
    intros E. rewrite E in H. now apply H.
  - cbn [fitsb]. intros H.
    assert (Hn : forall pf, tr <> Some (TMessage pf)).
    { intros pf ->. discriminate. }
    assert (H' : distinct (map fst ses)
                 && (negb array || negb (has_key length_key ses))
                 && forallb (fun e => has_key (fst e) ses) (entries_of tr)
                 && forallb (fun e => fitsb (snd e) (assoc (fst e) (entries_of tr))) ses
                 && forallb (fun e => match snd e with
                                      | SMessage _ =>
                                        negb (is_group array ses)
                                        || has_key (fst e) (entries_of tr)
                                      | SNode _ _ =>
                                        negb (inherited (fst e))
                                        || has_key (fst e) (entries_of tr)
                                      end) ses = true).
    { destruct tr as [[pf|es]|]; [discriminate|exact H|exact H]. }
    clear H. apply andb_true_iff in H' as [H' H5]. apply andb_true_iff in H' as [H' H4].
    apply andb_true_iff in H' as [H' H3]. apply andb_true_iff in H' as [H1 H2].
    constructor; [exact Hn|]. repeat split.
    + now apply distinct_NoDup.
    + intros ->. simpl in H2. apply negb_true_iff in H2. now apply has_key_false.
    + intros k tv A. apply assoc_In in A.
      apply (proj1 (forallb_forall _ _) H3) in A. now apply has_key_assoc.
    + intros k sv Hin. pose proof (proj1 (forallb_forall _ _) H4 _ Hin) as F.
      exact (proj1 (Forall_forall _ _) IH _ Hin _ F).
    + intros G k source Hin.
      pose proof (proj1 (forallb_forall _ _) H5 _ Hin) as F. simpl in F.
      rewrite G in F. simpl in F.
      apply has_key_assoc in F as [v ->]. discriminate.
    + intros k a' ses' Hin I.
      pose proof (proj1 (forallb_forall _ _) H5 _ Hin) as F. simpl in F.
      rewrite I in F. simpl in F.
      apply has_key_assoc in F as [v ->]. discriminate.
Qed.

End FitFacts.
Import FitFacts.

(** ** The second pass writes linked locale messages only *)

Module LinkFacts.
Import Vars Plural Linked Merge.

(** The value of the source at a path. *)
Inductive src_at : snode -> list str -> snode -> Prop :=
| src_here (s : snode) : src_at s [] s
| src_step (array : bool) (entries : list (str * snode)) (k : str) (s : snode)
           (p : list str) (w : snode) :
    In (k, s) entries -> src_at s p w -> src_at (SNode array entries) (k :: p) w.

(** The keys of every object and array of the source are distinct. *)
Fixpoint distinct_source (s : snode) : bool :=
  match s with
  | SMessage _ => true
  | SNode _ entries =>
    distinct (map fst entries) && forallb (fun e => distinct_source (snd e)) entries
  end.

Lemma src_at_snoc (s : snode) (p : list str) (array : bool)
    (ses : list (str * snode)) (k : str) (sv : snode) :
  src_at s p (SNode array ses) -> In (k, sv) ses -> src_at s (p ++ [k]) sv.
Proof.
  intros H Hin. remember (SNode array ses) as w eqn:E.
  induction H as [s|a entries k0 s0 p w Hin0 H IH]; subst.
  - simpl. econstructor; [exact Hin|constructor].
  - simpl. econstructor; [exact Hin0|now apply IH].
Qed.

Lemma distinct_child (array : bool) (entries : list (str * snode)) (k : str)
    (child s : snode) :
  distinct_source (SNode array entries) = true ->
  assoc k entries = Some child -> In (k, s) entries ->
  s = child /\ distinct_source child = true.
Proof.
  simpl. intros D A Hin. apply andb_true_iff in D as [D1 D2].
  assert (E : s = child).
  { apply (keys_unique entries k); [now apply distinct_NoDup|exact Hin|].
    now apply assoc_In. }
  split; [exact E|]. subst s.
  exact (proj1 (forallb_forall _ _) D2 _ Hin).
Qed.

(** With distinct keys, the paths of the source lead where [sat] leads. *)
Lemma src_at_sat (q : list str) :
  forall (s w : snode) (r : list str) (w' : snode),
    distinct_source s = true -> sat s q = Some w ->
    src_at s (q ++ r) w' -> src_at w r w'.
Proof.
  induction q as [|k q IH]; intros s w r w' D S H.
  - simpl in S. injection S as <-. exact H.
  - simpl in S.
    destruct (is_array s && str_eqb k length_key); [discriminate|].
    destruct (assoc k (source_entries s)) as [child|] eqn:A; [|discriminate].
    simpl in H. inversion H as [|array entries k' s0 p' w0 Hin H']; subst.
    simpl in A. destruct (distinct_child _ _ _ _ _ D A Hin) as [-> Dc].
    exact (IH _ _ _ _ Dc S H').
Qed.

Lemma sat_src_at (s : snode) (l : list str) (w : snode) :
  src_at s l w ->
  distinct_source s = true ->
  forall r w2, sat s (l ++ r) = Some w2 -> sat w r = Some w2.
Proof.
  induction 1 as [s|array entries k s0 p w Hin H IH]; intros D r w2 S.
  - exact S.
  - cbn [app sat source_entries] in S.
    destruct (is_array (SNode array entries) && str_eqb k length_key); [discriminate|].
    destruct (assoc k entries) as [child|] eqn:A; [|discriminate].
    destruct (distinct_child _ _ _ _ _ D A Hin) as [-> Dc].
    exact (IH Dc r w2 S).
Qed.

(** A linked locale message of the source. *)
Definition is_link (m : PluralForms) : Prop :=
  exists link, pathOfLinkedMessage m = Ok (Some link).

(** What is not under the path [p] is kept. *)
Definition keeps_outside (p : list str) (s s' : tnode) : Prop :=
  forall r pf, leaf s r pf -> (forall r', r <> p ++ r') -> leaf s' r pf.

Lemma keeps_outside_refl (p : list str) (s : tnode) : keeps_outside p s s.
Proof. intros r pf L _. exact L. Qed.

Lemma same_leaves_keeps (p : list str) (s s' : tnode) :
  (forall r pf, leaf s' r pf <-> leaf s r pf) -> keeps_outside p s s'.
Proof. intros H r pf L _. now apply H. Qed.

Lemma keeps_outside_trans (p : list str) (s1 s2 s3 : tnode) :
  keeps_outside p s1 s2 -> keeps_outside p s2 s3 -> keeps_outside p s1 s3.
Proof. intros A B r pf L Hr. apply (B r pf); [apply (A r pf)|]; auto. Qed.

Lemma keeps_outside_deeper (p q : list str) (s s' : tnode) :
  keeps_outside (p ++ q) s s' -> keeps_outside p s s'.
Proof.
  intros A r pf L Hr. apply (A r pf L). intros r' E. apply (Hr (q ++ r')).
  now rewrite app_assoc.
Qed.

Lemma get_same_leaves (h : Translations) (k : str) (store store' : tnode) (g : got) :
  get h k store = Ok (g, store') -> forall r pf, leaf store' r pf <-> leaf store r pf.
Proof.
  unfold get.
  destruct (is_array (_source h) && str_eqb k length_key); [discriminate|].
  destruct (assoc k (source_entries (_source h))) as [[pf|a ses]|].
  - intros H; injection H as _ <-. tauto.
  - destruct (enter h k store) as [s1|] eqn:E; [|discriminate]. cbn [bind].
    intros H; injection H as _ <-. exact (enter_same_leaves h k _ _ E).
  - intros H. apply not_own_Ok in H. injection H as _ <-. tauto.
Qed.

Lemma reduce_get_same_leaves (link : list str) :
  forall node store g store',
    reduce_get link node store = Ok (g, store') ->
    forall r pf, leaf store' r pf <-> leaf store r pf.
Proof.
  induction link as [|k link IH]; intros node store g store'; simpl.
  - intros H; injection H as _ <-. tauto.
  - destruct node as [|t|h]; try discriminate.
    destruct (get h k store) as [[g1 s1]|] eqn:G; [|discriminate]. cbn [bind fst snd].
    intros H r pf. rewrite (IH _ _ _ _ H r pf). exact (get_same_leaves _ _ _ _ _ G r pf).
Qed.

Lemma set_frame (h : Translations) (k : str) (pf : PluralForms) (store store' : tnode) :
  set h k pf store = Ok store' ->
  keeps_outside (path h ++ [k]) store store'
  /\ leaf store' (path h ++ [k]) pf.
Proof.
  unfold set.
  destruct (assoc k (source_entries (_source h))) as [[source|a ses]|]; try discriminate.
  destruct (_translated h store) as [es|] eqn:T; [|discriminate].
  cbn [bind]. intros H; injection H as <-. apply _translated_Ok in T. split.
  - intros r pf' L Hr. apply (leaf_put _ _ _ _ _ _ _ T). right. split; [|exact L].
    intros r' E. apply (Hr r'). rewrite <- app_assoc. exact E.
  - apply (leaf_put _ _ _ _ _ _ _ T). left. exists []. split; reflexivity.
Qed.

(** [set] adds the message it is given, and no other. *)
Lemma set_adds (h : Translations) (k : str) (pf : PluralForms) (store store' : tnode) :
  set h k pf store = Ok store' ->
  forall r pf', leaf store' r pf' ->
    leaf store r pf' \/ (r = path h ++ [k] /\ pf' = pf).
Proof.
  unfold set.
  destruct (assoc k (source_entries (_source h))) as [[source|a ses]|]; try discriminate.
  destruct (_translated h store) as [es|] eqn:T; [|discriminate].
  cbn [bind]. intros H; injection H as <-. apply _translated_Ok in T.
  intros r pf' L. apply (leaf_put _ _ _ _ _ _ _ T) in L.
  destruct L as [(r' & -> & L)|[_ L]]; [|now left].
  right. unfold leaf in L. destruct r' as [|k' r']; [|discriminate].
  simpl in L. injection L as <-. auto.
Qed.

Lemma copy_frame (t : Translation) (store store' : tnode) :
  copyLinkedLocaleMessage t store = Ok store' ->
  keeps_outside (path (parent t) ++ [key t]) store store'.
Proof.
  unfold copyLinkedLocaleMessage.
  destruct (pathOfLinkedMessage (source t)) as [[link|]|]; cbn [bind]; [| |discriminate].
  - destruct (reduce_get link _ store) as [[g s1]|] eqn:R; [|discriminate].
    cbn [bind fst snd].
    pose proof (same_leaves_keeps (path (parent t) ++ [key t]) _ _
                  (reduce_get_same_leaves _ _ _ _ _ R)) as K1.
    destruct g as [|t'|h']; try discriminate.
    destruct (translated t' s1) as [[[pf|es]|]|]; cbn [bind]; try discriminate.
    destruct (negb (isEmpty pf)).
    + intros H. eapply keeps_outside_trans; [exact K1|].
      exact (proj1 (set_frame _ _ _ _ _ H)).
    + intros H; injection H as <-. exact K1.
  - intros H; injection H as <-. apply keeps_outside_refl.
Qed.

(** [copyLinkedLocaleMessage] changes nothing unless the source message is
    a link, and then adds at most that message, at its own path. *)
Lemma copy_writes (t : Translation) (store store' : tnode) :
  copyLinkedLocaleMessage t store = Ok store' ->
  (~ is_link (source t) -> forall r pf, leaf store' r pf <-> leaf store r pf)
  /\ forall r pf, leaf store' r pf ->
       leaf store r pf
       \/ (r = path (parent t) ++ [key t] /\ pf = source t /\ is_link (source t)).
Proof.
  unfold copyLinkedLocaleMessage, is_link.
  destruct (pathOfLinkedMessage (source t)) as [[link|]|]; cbn [bind]; [| |discriminate].
  - destruct (reduce_get link _ store) as [[g s1]|] eqn:R; [|discriminate].
    cbn [bind fst snd].
    pose proof (reduce_get_same_leaves _ _ _ _ _ R) as K1.
    destruct g as [|t'|h']; try discriminate.
    destruct (translated t' s1) as [[[pf|es]|]|]; cbn [bind]; try discriminate.
    destruct (negb (isEmpty pf)).
    + intros H. split; [intros N; exfalso; apply N; eauto|].
      intros r pf' L. destruct (set_adds _ _ _ _ _ H r pf' L) as [L'|[-> ->]].
      * left. now apply K1.
      * right. eauto.
    + intros H; injection H as <-. split; [intros _; exact K1|].
      intros r pf' L. left. now apply K1.
  - intros H; injection H as <-. split; [tauto|auto].
Qed.

(** The callbacks of the second pass. *)
Definition second (intl : str -> list str) (locale : str) : list callback :=
  [copyLinkedLocaleMessage; validateTranslation intl locale].

(** What the second pass does to the messages of the store: a message is
    kept unless a linked locale message of the source lies on its path,
    and the messages added are linked locale messages of the source, at
    their own paths. *)
Record writes_links (rs : snode) (s s' : tnode) : Prop := mk_writes_links {
  links_keep : forall r pf, leaf s r pf ->
    (forall l r' m, r = l ++ r' -> src_at rs l (SMessage m) -> ~ is_link m) ->
    leaf s' r pf;
  links_add : forall r pf, leaf s' r pf ->
    leaf s r pf \/ (src_at rs r (SMessage pf) /\ is_link pf)
}.

Lemma writes_links_same (rs : snode) (s s' : tnode) :
  (forall r pf, leaf s' r pf <-> leaf s r pf) -> writes_links rs s s'.
Proof. intros H. split; intros r pf L; [intros _|left]; now apply H. Qed.

Lemma writes_links_trans (rs : snode) (s1 s2 s3 : tnode) :
  writes_links rs s1 s2 -> writes_links rs s2 s3 -> writes_links rs s1 s3.
Proof.
  intros [K1 A1] [K2 A2]. split.
  - intros r pf L C. apply K2; [apply K1|]; assumption.
  - intros r pf L. destruct (A2 r pf L) as [L2|R]; [exact (A1 r pf L2)|now right].
Qed.

Lemma call_second (intl : str -> list str) (locale : str) (rs : snode)
    (t : Translation) (s s' : tnode) :
  src_at rs (path (parent t) ++ [key t]) (SMessage (source t)) ->
  call_each (second intl locale) t s = Ok s' -> writes_links rs s s'.
Proof.
  intros Hat. unfold second. cbn [call_each].
  destruct (copyLinkedLocaleMessage t s) as [s1|] eqn:C; [|discriminate].
  cbn [bind]. unfold validateTranslation.
  destruct (translated t s1) as [tr|]; [|discriminate]. cbn [bind].
  destruct (validate intl locale (source t) tr); [|discriminate]. cbn [bind].
  intros H; injection H as <-.
  destruct (copy_writes _ _ _ C) as [Same Adds].
  pose proof (copy_frame _ _ _ C) as Frame. split.
  - intros r pf L Cond.
    destruct (prefix_cases (path (parent t) ++ [key t]) r) as [[r' ->]|Hn].
    + apply Same; [|exact L]. exact (Cond _ _ _ eq_refl Hat).
    + exact (Frame r pf L Hn).
  - intros r pf L. destruct (Adds r pf L) as [L'|(-> & -> & I)]; [now left|].
    right. split; [exact Hat|exact I].
Qed.

Definition writes (intl : str -> list str) (locale : str) (rs : snode) (src : snode)
    : Prop :=
  forall p s s',
    src_at rs p src -> walk (second intl locale) rs p src s = Ok s' ->
    writes_links rs s s'.

Lemma walk_each_writes (intl : str -> list str) (locale : str) (rs : snode)
    (p : list str) (array : bool) (ses : list (str * snode))
    (part : list (str * snode)) :
  Forall (fun e => writes intl locale rs (snd e)) part ->
  src_at rs p (SNode array ses) -> incl part ses ->
  forall s s',
    walk_each (fun p' sv store' => walk (second intl locale) rs p' sv store')
              (second intl locale) (mkTranslations rs p (SNode array ses)) part s
    = Ok s' ->
    writes_links rs s s'.
Proof.
  induction part as [|[k v] part IH]; intros HW Hat Hi s s' H.
  - injection H as <-. apply writes_links_same. tauto.
  - inversion HW as [|? ? W1 W2]; subst.
    assert (Hin : In (k, v) ses) by (apply Hi; now left).
    pose proof (src_at_snoc _ _ _ _ _ _ Hat Hin) as Hk.
    cbn [walk_each] in H.
    match type of H with
    | bind ?step _ = _ => destruct step as [s1|] eqn:V; [|discriminate]
    end.
    cbn [bind] in H.
    apply (writes_links_trans rs s s1 s').
    + destruct v as [m|a' ses'].
      * exact (call_second intl locale rs
                 (mkTranslation (mkTranslations rs p (SNode array ses)) k m) _ _ Hk V).
      * destruct (enter _ k s) as [s0|] eqn:E; [|discriminate]. cbn [bind path] in V.
        apply (writes_links_trans rs s s0 s1).
        -- apply writes_links_same. exact (enter_same_leaves _ _ _ _ E).
        -- exact (W1 _ _ _ Hk V).
    + apply (IH W2 Hat); [|exact H]. intros e He. apply Hi. now right.
Qed.

Lemma walk_writes (intl : str -> list str) (locale : str) (rs : snode) (src : snode) :
  writes intl locale rs src.
Proof.
  induction src as [pf|array ses IH] using snode_induction; intros p s s' Hat H.
  - discriminate.
  - cbn [walk] in H.
    exact (walk_each_writes intl locale rs p array ses ses IH Hat (incl_refl _) s s' H).
Qed.

(** *** The elements of an array *)

Lemma array_values_at (f : str -> result (option json)) (n : nat) :
  forall i values, array_values f n i = Ok values ->
    forall m, i <= m < i + n -> exists j, f (key_of_index m) = Ok j /\ In j values.
Proof.
  induction n as [|n IH]; intros i values H m Hm; [lia|].
  simpl in H. destruct (f (key_of_index i)) as [j0|] eqn:F; [|discriminate].
  cbn [bind] in H.
  destruct (array_values f n (S i)) as [more|] eqn:M; [|discriminate].
  cbn [bind] in H. injection H as <-.
  destruct (Nat.eq_dec m i) as [->|Hne].
  - exists j0. split; [exact F|now left].
  - destruct (IH _ _ M m) as (j & Fj & Hin); [lia|].
    exists j. split; [exact Fj|now right].
Qed.

Lemma count_undefined_In (values : list (option json)) :
  In None values -> count_undefined values <> 0.
Proof.
  induction values as [|[v|] values IH]; simpl; [tauto| |lia].
  intros [E|H]; [discriminate|auto].
Qed.

(** An array is kept with its indices as keys. *)
Definition indexed (ses : list (str * snode)) : Prop :=
  map fst ses = map key_of_index (seq 0 (length ses)).

(** What [restructure] accepts as a component interpolation or as an
    array: the values of a group with the key [full] are messages, and no
    message of the group or array is a linked locale message. *)
Definition plain_group (array : bool) (ses : list (str * snode)) : Prop :=
  (array = false -> only_messages ses)
  /\ (array = true -> indexed ses)
  /\ forall k m, In (k, SMessage m) ses -> pathOfLinkedMessage m = Ok None.

Lemma snoc_prefix {A : Type} (q l r : list A) (k : A) :
  q ++ [k] = l ++ r ->
  (r = [] /\ l = q ++ [k]) \/ exists r2, r = r2 ++ [k] /\ q = l ++ r2.
Proof.
  intros E. destruct r as [|y r] using rev_ind.
  - left. rewrite app_nil_r in E. auto.
  - right. rewrite app_assoc in E. apply app_inj_tail in E as [-> <-]. eauto.
Qed.

End LinkFacts.
Import LinkFacts.

(** C2. In the deletion pass for a locale other than the source locale,
    for every message whose parent has the key [full] or is an array, if
    the translation of the message is empty then every message of the
    translations of the whole parent is empty after the pass. After the
    second pass, which copies the linked locale messages, [toJSON] emits
    no key for the parent: it returns [undefined], or an empty object or
    array where the key of the parent is made of digits. This for a source
    with distinct keys and a parent that [restructure] accepts: a group
    with the key [full] holds messages only, an array has its indices as
    keys, and neither holds a linked locale message. *)
Theorem partial_translation_cleared (intl : str -> list str) (locale : str)
    (rs : Merge.snode) (store store' : Merge.tnode)
    (q : list str) (array : bool) (ses : list (str * Merge.snode)) (k : str)
    (source pf : Plural.PluralForms) :
  str_eqb locale Locales.sourceLocale = false ->
  Merge.writeTranslations intl locale rs store = Ok store' ->
  distinct_source rs = true ->
  sat rs q = Some (Merge.SNode array ses) ->
  Merge.has (Merge.mkTranslations rs q (Merge.SNode array ses)) (u "full")
  || Merge.is_array (Merge.SNode array ses) = true ->
  plain_group array ses ->
  assoc k ses = Some (Merge.SMessage source) ->
  Merge.tat store (q ++ [k]) = Some (Merge.TMessage pf) ->
  Plural.isEmpty pf = true ->
  exists store1,
    Merge.walk [Merge.deletePartialTranslation] rs [] rs store = Ok store1
    /\ (forall r pf', Merge.tat store1 (q ++ r) = Some (Merge.TMessage pf') ->
                      Plural.isEmpty pf' = true)
    /\ forall key j,
         Merge.toJSON (Merge.SNode array ses) (Merge.tat store' q) key = Ok j ->
         j = None \/ j = Some (Merge.JObject []) \/ j = Some (Merge.JArray []).
Proof.
  intros Hl HT Hd HS Hg (Hflat & Hidx & Hnl) Hk HL He.
  unfold Merge.writeTranslations in HT.
  destruct (Locales.locale_lookup intl locale); [|discriminate].
  rewrite Hl in HT.
  destruct (Merge.walk [Merge.deletePartialTranslation] rs [] rs store)
    as [store1|] eqn:HW; [|discriminate].
  cbn [bind] in HT. exists store1. split; [reflexivity|].
  pose proof (assoc_In _ _ _ Hk) as Hin.
  destruct (walk_visits rs q rs [] store store1 array ses k source HW HS Hin)
    as (s1 & s2 & C1 & D & C2).
  simpl in D.
  destruct (cleared_keeps _ _ C1 _ _ HL) as (pf1 & L1 & E1).
  assert (He1 : Plural.isEmpty pf1 = true) by (destruct E1 as [->|E1]; assumption).
  assert (B : blank_under store1 q).
  { unfold Merge.deletePartialTranslation in D. cbn [Merge.parent Merge._source] in D.
    rewrite Hg in D.
    unfold leaf in L1. rewrite tat_app in L1.
    destruct (Merge.tat s1 q) as [[pfq|esq]|] eqn:Tq; try discriminate L1.
    simpl in L1.
    destruct (assoc k esq) as [c|] eqn:Ak; [|discriminate L1].
    injection L1 as ->.
    rewrite (translated_own
               (Merge.mkTranslation (Merge.mkTranslations rs q (Merge.SNode array ses))
                                    k source) s1 esq (Merge.TMessage pf1)
               (proj2 (_translated_Ok
                         (Merge.mkTranslations rs q (Merge.SNode array ses)) s1 esq) Tq)
               Ak) in D.
    cbn [bind] in D. rewrite He1 in D.
    assert (D' : Merge.clear rs q (Merge.SNode array ses) s1 = Ok s2) by exact D.
    destruct (clear_cleared _ _ _ _ _ D') as [_ B2].
    eapply blank_under_cleared; eauto. }
  split; [exact B|].
  assert (W : writes_links rs store1 store').
  { exact (walk_writes intl locale rs rs [] store1 store' (src_here rs) HT). }
  assert (Lk : exists pfx, leaf store1 (q ++ [k]) pfx /\ Plural.isEmpty pfx = true).
  { destruct (cleared_keeps _ _ (deletePartialTranslation_cleared _ _ _ D) _ _ L1)
      as (pf2 & L2 & _).
    destruct (cleared_keeps _ _ C2 _ _ L2) as (pfx & Lx & _).
    exists pfx. split; [exact Lx|exact (B [k] pfx Lx)]. }
  intros key j HJ. destruct array.
  - (* an array: the element of the message stays empty, so that the array
       is emitted empty or not at all *)
    destruct Lk as (pfx & Lx & Hx).
    assert (Lx' : leaf store' (q ++ [k]) pfx).
    { apply (links_keep _ _ _ W _ _ Lx). intros l r' m E Hat [link Hlink].
      destruct (snoc_prefix _ _ _ _ E) as [[-> ->]|(r2 & -> & ->)].
      - pose proof (src_at_sat q rs _ [k] _ Hd HS Hat) as Hat'.
        inversion Hat' as [|? ? ? s0 ? ? Hin0 H0]; subst.
        inversion H0; subst. rewrite (Hnl _ _ Hin0) in Hlink. discriminate.
      - pose proof (sat_src_at _ _ _ Hat Hd r2 _ HS) as S2.
        destruct r2; simpl in S2; discriminate. }
    unfold leaf in Lx'. rewrite tat_app in Lx'.
    destruct (Merge.tat store' q) as [[pfq|es']|]; try discriminate Lx'.
    simpl in Lx'. destruct (assoc k es') as [c|] eqn:Ak; [|discriminate Lx'].
    injection Lx' as ->.
    assert (Hi : exists i, i < length ses /\ k = key_of_index i).
    { pose proof (in_map fst _ _ Hin) as Hk'. simpl in Hk'.
      rewrite (Hidx eq_refl) in Hk'. apply in_map_iff in Hk' as (i & <- & Hi).
      apply in_seq in Hi. exists i. split; [lia|reflexivity]. }
    destruct Hi as (i & Hi & ->).
    cbn [Merge.toJSON] in HJ.
    destruct (Merge.array_values _ (length ses) 0) as [values|] eqn:V; [|discriminate].
    cbn [bind] in HJ.
    destruct (array_values_at _ _ _ _ V i) as (j0 & V0 & Hj0); [lia|].
    apply value_of_Ok in V0 as (f & Hf & V0).
    rewrite (assoc_map_values (fun e => Merge.toJSON (snd e))), Hk in Hf.
    injection Hf as <-. cbn [snd] in V0. rewrite Ak in V0.
    cbn [Merge.toJSON] in V0. rewrite Hx in V0. injection V0 as <-.
    destruct (Merge.count_undefined values + Merge.count_no_keys values =? length ses).
    + destruct (all_digits key); injection HJ as <-; auto.
    + apply count_undefined_In, Nat.eqb_neq in Hj0. rewrite Hj0 in HJ. discriminate.
  - (* a group: its messages are all empty still *)
    assert (Bt : blank (Merge.tat store' q)).
    { intros t r pf' E L.
      assert (L' : leaf store' (q ++ r) pf') by (unfold leaf; rewrite tat_app, E; exact L).
      destruct (links_add _ _ _ W _ _ L') as [L1'|[Hat [link Hlink]]];
        [exact (B r pf' L1')|].
      pose proof (src_at_sat q rs _ r _ Hd HS Hat) as Hat'.
      inversion Hat' as [|? ? k' s0 r2 ? Hin0 H0]; subst.
      destruct (Hflat eq_refl _ Hin0) as [m0 Em]. simpl in Em. subst s0.
      inversion H0; subst. rewrite (Hnl _ _ Hin0) in Hlink. discriminate. }
    destruct (toJSON_blank _ _ _ _ Bt HJ) as [QH Q].
    destruct Q as [->|(o & -> & Ho)]; [auto|].
    right. left. destruct o as [|[k0 v0] o]; [reflexivity|].
    destruct (Ho k0 v0 (or_introl eq_refl)) as (a' & ses' & A').
    apply assoc_In in A'. destruct (Hflat eq_refl _ A') as [pf' E]. discriminate.
Qed.

Definition click_source : Merge.snode :=
  Merge.SNode false
    [(u "introduction",
      Merge.SNode true
        [(u "0", Merge.SNode false
                   [(u "full", Merge.SMessage (Plural.mkPluralForms [u "Click {here}."]));
                    (u "here", Merge.SMessage (Plural.mkPluralForms [u "here"]))])])].

Definition click_translated : Merge.tnode :=
  Merge.TObject
    [(u "introduction",
      Merge.TObject
        [(u "0", Merge.TObject
                   [(u "full", Merge.TMessage (Plural.mkPluralForms [[]]));
                    (u "here", Merge.TMessage (Plural.mkPluralForms [u "here (es)"]))])])].

Definition click_cleared : Merge.tnode :=
  Merge.TObject
    [(u "introduction",
      Merge.TObject
        [(u "0", Merge.TObject
                   [(u "full", Merge.TMessage (Plural.mkPluralForms [[]]));
                    (u "here", Merge.TMessage (Plural.mkPluralForms [[]]))])])].

(** The translations of the example have the shape of the source, so the
    deletion pass returns on them; nothing of the example is emitted. *)
Example click_pass_returns :
  fitsb click_source (Some click_translated) = true
  /\ (exists es', Merge.walk deletion click_source [] click_source click_translated
                  = Ok (Merge.TObject es'))
  /\ Merge.toJSON click_source (Some click_cleared) [] = Ok None.
Proof.
  split; [reflexivity|]. split; [|reflexivity].
  destruct (deletion_pass_total false
              [(u "introduction",
                Merge.SNode true
                  [(u "0", Merge.SNode false
                             [(u "full", Merge.SMessage (Plural.mkPluralForms [u "Click {here}."]));
                              (u "here", Merge.SMessage (Plural.mkPluralForms [u "here"]))])])]
              [(u "introduction",
                Merge.TObject
                  [(u "0", Merge.TObject
                             [(u "full", Merge.TMessage (Plural.mkPluralForms [[]]));
                              (u "here", Merge.TMessage (Plural.mkPluralForms [u "here (es)"]))])])])
    as (es' & W & _).
  - apply fitsb_fits. reflexivity.
  - exists es'. exact W.
Qed.

Lemma partial_translation_cleared_witness :
  exists store1,
    Merge.walk [Merge.deletePartialTranslation] click_source [] click_source
               click_translated = Ok store1
    /\ (forall r pf',
          Merge.tat store1 ([u "introduction"; u "0"] ++ r) = Some (Merge.TMessage pf') ->
          Plural.isEmpty pf' = true)
    /\ forall key j,
         Merge.toJSON
           (Merge.SNode false
              [(u "full", Merge.SMessage (Plural.mkPluralForms [u "Click {here}."]));
               (u "here", Merge.SMessage (Plural.mkPluralForms [u "here"]))])
           (Merge.tat click_cleared [u "introduction"; u "0"]) key = Ok j ->
         j = None \/ j = Some (Merge.JObject []) \/ j = Some (Merge.JArray []).
Proof.
  apply (partial_translation_cleared Locales.cldr (u "es")
           click_source click_translated click_cleared
           [u "introduction"; u "0"] false _ (u "full")
           (Plural.mkPluralForms [u "Click {here}."]) (Plural.mkPluralForms [[]])
           eq_refl eq_refl eq_refl eq_refl eq_refl);
    [|reflexivity|reflexivity|reflexivity].
  split; [|split; [discriminate|]].
  - intros _ e [<-|[<-|[]]]; simpl; eauto.
  - intros k m [E|[E|[]]]; injection E as <- <-; reflexivity.
Defined.

(** ** Linked messages in the second pass *)

Module CopyFacts.
Import Vars Plural Linked Merge.

Lemma tat_message (pf : PluralForms) (r : list str) (t : tnode) :
  tat (TMessage pf) r = Some t -> r = [] /\ t = TMessage pf.
Proof. destruct r; simpl; [intros H; injection H as <-; auto|discriminate]. Qed.

(** When the path of the link leads to a message of the source that has a
    translation, following it with [get] from the root reaches that
    message and leaves the store as it is. *)
Lemma reduce_get_resolves (store : tnode) (target tt : PluralForms) (link : list str) :
  forall cur es,
    sat (_source cur) link = Some (SMessage target) ->
    tat store (path cur) = Some (TObject es) ->
    tat store (path cur ++ link) = Some (TMessage tt) ->
    exists h' k',
      reduce_get link (SomeTranslations cur) store
      = Ok (ATranslation (mkTranslation h' k' target), store)
      /\ translated (mkTranslation h' k' target) store = Ok (Some (TMessage tt)).
Proof.
  induction link as [|k1 link IH]; intros cur es HS HT HL.
  - rewrite app_nil_r in HL. congruence.
  - simpl in HS. cbn [reduce_get]. unfold get.
    destruct (is_array (_source cur) && str_eqb k1 length_key); [discriminate|].
    destruct (assoc k1 (source_entries (_source cur))) as [sv|] eqn:A; [|discriminate].
    rewrite tat_app, HT in HL. simpl in HL.
    destruct (assoc k1 es) as [c|] eqn:Ac; [|discriminate].
    destruct sv as [pf|a' ses'].
    + destruct link as [|x link]; [|simpl in HS; discriminate].
      simpl in HS. injection HS as ->. simpl in HL. injection HL as ->.
      exists cur, k1. split; [reflexivity|].
      unfold translated, _translated. simpl. rewrite HT. simpl. now rewrite Ac.
    + destruct c as [pfc|esc].
      { apply tat_message in HL as [-> _]. simpl in HS. discriminate. }
      unfold enter, _translated. rewrite HT. simpl. rewrite Ac. simpl.
      apply (IH (child cur k1 (SNode a' ses')) esc).
      * exact HS.
      * simpl. rewrite tat_app, HT. simpl. now rewrite Ac.
      * simpl. rewrite <- app_assoc. simpl. rewrite tat_app, HT. simpl. now rewrite Ac.
Qed.

(** The loop of [toJSON] on an object puts no key for which it gets
    [undefined]. *)
Lemma object_values_absent (value_at : str -> result (option json)) (k : str)
    (keys : list str) (object object' : list (str * json)) :
  assoc k object = None ->
  (In k keys -> value_at k = Ok None) ->
  object_values value_at keys object = Ok object' ->
  assoc k object' = None.
Proof.
  revert object; induction keys as [|k0 keys IH]; intros object Ho Hv; simpl.
  - intros H; injection H as <-. exact Ho.
  - destruct (value_at k0) as [j|] eqn:V; simpl; [|discriminate].
    apply IH; [|intros Hin; apply Hv; now right].
    destruct j as [v|]; [|exact Ho].
    destruct (list_eq_dec N.eq_dec k k0) as [->|Hne].
    + rewrite (Hv (or_introl eq_refl)) in V. discriminate.
    + now rewrite assoc_put_other.
Qed.

End CopyFacts.
Import CopyFacts.

(** C5, as the code has it. Take a message of the source that is a link
    [@:path], whose path leads to a message of the source that has a
    translation. [copyLinkedLocaleMessage] sets the translation of the
    link to the source message if the translation of the target is not
    empty, and otherwise leaves the store as it is: the message is copied
    if and only if the target is translated. When the target is not
    translated, the key of the link is omitted from what [toJSON] emits
    for its parent, provided that the store holds no translation, or an
    empty one, for the link itself. *)
Theorem copyLinkedLocaleMessage_copies (rs : Merge.snode) (store : Merge.tnode)
    (h : Merge.Translations) (k : str) (source target tt : Plural.PluralForms)
    (link : list str) (es : list (str * Merge.tnode)) :
  Merge.root_source h = rs ->
  assoc k (Merge.source_entries (Merge._source h)) = Some (Merge.SMessage source) ->
  Merge.tat store (Merge.path h) = Some (Merge.TObject es) ->
  Linked.pathOfLinkedMessage source = Ok (Some link) ->
  sat rs link = Some (Merge.SMessage target) ->
  Merge.tat store link = Some (Merge.TMessage tt) ->
  Merge.copyLinkedLocaleMessage (Merge.mkTranslation h k source) store
  = Ok (if Plural.isEmpty tt then store
        else Merge.tupdate (Merge.path h) (put k (Merge.TMessage source)) store)
  /\ (Plural.isEmpty tt = false ->
      Merge.tat (Merge.tupdate (Merge.path h) (put k (Merge.TMessage source)) store)
                (Merge.path h ++ [k])
      = Some (Merge.TMessage source))
  /\ (Plural.isEmpty tt = true ->
      forall ses key o,
        Merge._source h = Merge.SNode false ses ->
        (assoc k es = None
         \/ exists e, assoc k es = Some (Merge.TMessage e) /\ Plural.isEmpty e = true) ->
        Merge.toJSON (Merge._source h) (Merge.tat store (Merge.path h)) key
        = Ok (Some (Merge.JObject o)) ->
        assoc k o = None).
Proof.
  intros Hr Hk Hp Hlink Hs Ht.
  assert (Hroot : exists es0, store = Merge.TObject es0).
  { destruct store as [pf|es0]; [|eauto].
    destruct (Merge.path h); simpl in Hp; discriminate. }
  destruct Hroot as [es0 ->].
  split; [|split].
  - unfold Merge.copyLinkedLocaleMessage. cbn [Merge.source Merge.parent Merge.key].
    rewrite Hlink. cbn [bind].
    destruct (reduce_get_resolves (Merge.TObject es0) target tt link
                (Merge.root h) es0) as (h' & k' & R & T).
    + simpl. rewrite Hr. exact Hs.
    + reflexivity.
    + exact Ht.
    + rewrite R. cbn [bind fst snd]. rewrite T. cbn [bind].
      destruct (Plural.isEmpty tt); cbn [negb]; [reflexivity|].
      unfold Merge.set. rewrite Hk. unfold Merge._translated. rewrite Hp. reflexivity.
  - intros _. replace (Merge.path h ++ [k]) with (Merge.path h ++ [k] ++ []) by reflexivity.
    rewrite (tat_tupdate_prefix _ _ _ _ _ Hp). simpl. now rewrite assoc_put_same.
  - intros _ ses key o Hsrc Hke. rewrite Hsrc, Hp. cbn [Merge.toJSON].
    destruct (Merge.object_values _ (map fst es) []) as [o'|] eqn:V; cbn [bind];
      [|discriminate].
    intros H.
    assert (E : o' = o).
    { destruct (negb (length o' =? 0) || all_digits key); [|discriminate].
      injection H as <-. reflexivity. }
    subst o'. eapply object_values_absent; [| |exact V]; [reflexivity|].
    intros Hin. unfold Merge.value_of. cbn [andb].
    rewrite (assoc_map_values (fun e => Merge.toJSON (snd e)) k ses).
    rewrite Hsrc in Hk. simpl in Hk. rewrite Hk.
    destruct Hke as [A|(e & A & Ee)].
    + apply in_keys_assoc in Hin. destruct Hin as [v Hv]. congruence.
    + rewrite A. simpl. now rewrite Ee.
Qed.

Definition link_source : Merge.snode :=
  Merge.SNode false
    [(u "x", Merge.SNode false
               [(u "y", Merge.SMessage (Plural.mkPluralForms [u "@:a.b"]))]);
     (u "a", Merge.SNode false
               [(u "b", Merge.SMessage (Plural.mkPluralForms [u "hello"]))])].

Definition link_translated (b : string) : Merge.tnode :=
  Merge.TObject
    [(u "a", Merge.TObject [(u "b", Merge.TMessage (Plural.mkPluralForms [u b]))]);
     (u "x", Merge.TObject [])].

Lemma copyLinkedLocaleMessage_copies_witness :
  Merge.copyLinkedLocaleMessage
    (Merge.mkTranslation
       (Merge.mkTranslations link_source [u "x"]
          (Merge.SNode false
             [(u "y", Merge.SMessage (Plural.mkPluralForms [u "@:a.b"]))]))
       (u "y") (Plural.mkPluralForms [u "@:a.b"]))
    (link_translated "hola")
  = Ok (Merge.TObject
          [(u "a", Merge.TObject [(u "b", Merge.TMessage (Plural.mkPluralForms [u "hola"]))]);
           (u "x", Merge.TObject
                     [(u "y", Merge.TMessage (Plural.mkPluralForms [u "@:a.b"]))])]).
Proof.
  exact (proj1 (copyLinkedLocaleMessage_copies link_source (link_translated "hola")
    (Merge.mkTranslations link_source [u "x"]
       (Merge.SNode false
          [(u "y", Merge.SMessage (Plural.mkPluralForms [u "@:a.b"]))]))
    (u "y") (Plural.mkPluralForms [u "@:a.b"]) (Plural.mkPluralForms [u "hello"])
    (Plural.mkPluralForms [u "hola"]) [u "a"; u "b"] []
    eq_refl eq_refl eq_refl eq_refl eq_refl eq_refl)).
Defined.

(** The example of the specification, through both passes: the key of the
    link is omitted while its target is not translated, and holds the link
    once the target is translated. *)
Example link_omitted_until_target_translated :
  (store <- Merge.writeTranslations Locales.cldr (u "es") link_source
              (Merge.TObject
                 [(u "a", Merge.TObject
                            [(u "b", Merge.TMessage (Plural.mkPluralForms [[]]))])]) ;;
   Merge.toJSON link_source (Some store) [])
  = Ok None
  /\ (store <- Merge.writeTranslations Locales.cldr (u "es") link_source
                 (Merge.TObject
                    [(u "a", Merge.TObject
                               [(u "b", Merge.TMessage (Plural.mkPluralForms [u "hola"]))])]) ;;
      Merge.toJSON link_source (Some store) [])
     = Ok (Some (Merge.JObject
                   [(u "a", Merge.JObject [(u "b", Merge.JString (u "hola"))]);
                    (u "x", Merge.JObject [(u "y", Merge.JString (u "@:a.b"))])])).
Proof. split; reflexivity. Qed.

(** C5 as stated fails when the translations hold a message of their own
    at the key of the link: the target is not translated, the value is left
    as it is, and the key is emitted. *)
Lemma link_key_with_own_translation_emitted :
  Merge.tat (Merge.TObject
               [(u "x", Merge.TObject
                          [(u "y", Merge.TMessage (Plural.mkPluralForms [u "foo"]))]);
                (u "a", Merge.TObject
                          [(u "b", Merge.TMessage (Plural.mkPluralForms [[]]))])])
            [u "a"; u "b"]
  = Some (Merge.TMessage (Plural.mkPluralForms [[]]))
  /\ Merge.writeTranslations Locales.cldr (u "es") link_source
       (Merge.TObject
          [(u "x", Merge.TObject
                     [(u "y", Merge.TMessage (Plural.mkPluralForms [u "foo"]))]);
           (u "a", Merge.TObject
                     [(u "b", Merge.TMessage (Plural.mkPluralForms [[]]))])])
     = Ok (Merge.TObject
             [(u "x", Merge.TObject
                        [(u "y", Merge.TMessage (Plural.mkPluralForms [u "foo"]))]);
              (u "a", Merge.TObject
                        [(u "b", Merge.TMessage (Plural.mkPluralForms [[]]))])])
  /\ Merge.toJSON link_source
       (Some (Merge.TObject
                [(u "x", Merge.TObject
                           [(u "y", Merge.TMessage (Plural.mkPluralForms [u "foo"]))]);
                 (u "a", Merge.TObject
                           [(u "b", Merge.TMessage (Plural.mkPluralForms [[]]))])]))
       []
     = Ok (Some (Merge.JObject
                   [(u "x", Merge.JObject [(u "y", Merge.JString (u "foo"))])])).
Proof. repeat split. Qed.
(** * Further properties of the script *)

(** ** Splitting and joining *)

Module SplitFacts.

Lemma split_from_cons (sep : str) (s : str) :
  forall skip cur, exists x l, split_from sep skip cur s = x :: l.
Proof.
  induction s as [|c t IH]; intros skip cur; simpl; [eauto|].
  destruct skip as [|k]; [|apply IH].
  destruct (prefix sep (c :: t)); [eauto|apply IH].
Qed.

Lemma split_from_skip (sep p s cur : str) :
  split_from sep (length p) cur (p ++ s) = split_from sep 0 cur s.
Proof. induction p as [|c p IH]; simpl; [reflexivity|exact IH]. Qed.

Lemma join_cons (sep x : str) (l : list str) :
  l <> [] -> join sep (x :: l) = x ++ sep ++ join sep l.
Proof. destruct l; [congruence|reflexivity]. Qed.

(** Joining what [split] gives restores the string. *)
Lemma join_split_from (sep : str) (n : nat) :
  sep <> [] ->
  forall s cur, length s <= n -> join sep (split_from sep 0 cur s) = rev cur ++ s.
Proof.
  intros Hsep. induction n as [|n IH]; intros s cur Hn.
  - destruct s; [|simpl in Hn; lia]. simpl. now rewrite app_nil_r.
  - destruct s as [|c t]; [simpl; now rewrite app_nil_r|].
    cbn [split_from]. destruct (prefix sep (c :: t)) eqn:P.
    + apply prefix_true in P as [r E].
      destruct sep as [|c0 sep']; [congruence|].
      simpl in E. injection E as <- ->.
      change (length (c :: sep') - 1) with (length sep' - 0). rewrite Nat.sub_0_r.
      rewrite split_from_skip.
      destruct (split_from_cons (c :: sep') r 0 []) as (x & l & E).
      rewrite join_cons by (rewrite E; discriminate).
      rewrite IH.
      * reflexivity.
      * simpl in Hn. rewrite length_app in Hn. lia.
    + rewrite IH by (simpl in Hn; lia). simpl. now rewrite <- app_assoc.
Qed.

Lemma join_split (sep s : str) : sep <> [] -> join sep (split sep s) = s.
Proof. intros H. unfold split. now rewrite (join_split_from sep (length s) H s []). Qed.

End SplitFacts.
Import SplitFacts.

(** ** Messages of Vue I18n *)

Module VueFacts.
Import Plural.

Lemma check_vue_forms_Ok (fs : list str) :
  check_vue_forms fs = Ok tt ->
  forall f, In f fs -> includes (u "|") f = false /\ odd_white_space f = false.
Proof.
  induction fs as [|f0 fs IH]; simpl; [intros _ f []|].
  destruct (includes (u "|") f0) eqn:P; [discriminate|].
  destruct (odd_white_space f0) eqn:W; [discriminate|].
  simpl. intros H f [<-|Hin]; auto.
Qed.

End VueFacts.
Import VueFacts.

(** A message that [fromVueI18n] accepts has one or two forms, none of
    which holds a [|] or leading, trailing or doubled white space, and
    [toVueI18n] gives the message back. *)
Theorem fromVueI18n_toVueI18n (message : str) (pf : Plural.PluralForms) :
  Plural.fromVueI18n message = Ok pf ->
  Plural.toVueI18n pf = Ok message
  /\ Plural.forms pf = split (u " | ") message
  /\ 1 <= length (Plural.forms pf) <= 2
  /\ forall f, In f (Plural.forms pf) ->
       includes (u "|") f = false /\ odd_white_space f = false.
Proof.
  unfold Plural.fromVueI18n. intros H.
  destruct (2 <? length (split (u " | ") message)) eqn:L; [discriminate|].
  cbn [when_ bind] in H.
  destruct (Plural.check_vue_forms (split (u " | ") message)) as [[]|] eqn:C;
    [|discriminate].
  cbn [bind] in H. pose proof (check_vue_forms_Ok _ C) as F.
  apply new_Ok in H as [-> (f0 & rest & vars & E & _)]. cbn [Plural.forms].
  split; [|split; [reflexivity|split; [|exact F]]].
  - unfold Plural.toVueI18n. cbn [Plural.forms].
    assert (X : existsb (includes (u "|")) (split (u " | ") message) = false).
    { destruct (existsb _ _) eqn:X; [|reflexivity].
      apply existsb_exists in X as (f & Hin & Hf).
      destruct (F f Hin) as [Hf' _]. congruence. }
    rewrite X. cbn [when_ bind]. f_equal. apply join_split. discriminate.
  - apply Nat.ltb_ge in L. rewrite E in *. simpl in *. lia.
Qed.

Lemma fromVueI18n_toVueI18n_witness :
  Plural.toVueI18n (Plural.mkPluralForms [u "{count} row"; u "{count} rows"])
  = Ok (u "{count} row | {count} rows").
Proof.
  exact (proj1 (fromVueI18n_toVueI18n (u "{count} row | {count} rows")
                  (Plural.mkPluralForms [u "{count} row"; u "{count} rows"]) eq_refl)).
Defined.

(** ** Variables *)

Module TokenFacts.
Import Vars.

Lemma token_at_not_brace (c : char) (s : str) :
  is_brace c = false -> token_at (c :: s) = None.
Proof.
  intros H. apply is_brace_false in H as [H _]. simpl. now rewrite H.
Qed.

Lemma Flat_braces (s : str) :
  Flat s -> count_braces s = 2 * length (match_tokens 0 s).
Proof.
  induction 1 as [|c s Hc HF IH|w s Hw Hword HF IH].
  - reflexivity.
  - rewrite (match_tokens_no_token c s (token_at_not_brace c s Hc)).
    unfold count_braces in *. simpl. now rewrite Hc.
  - rewrite (match_tokens_token w s Hw Hword).
    change (open_brace :: w ++ close_brace :: s)
      with ([open_brace] ++ w ++ [close_brace] ++ s).
    rewrite !count_braces_app, (count_braces_word w Hword).
    change (count_braces [open_brace]) with 1.
    change (count_braces [close_brace]) with 1.
    simpl length. lia.
Qed.

End TokenFacts.
Import TokenFacts.

(** [parseVars] returns exactly on the strings in which every brace belongs
    to a token [{name}], the name being a non-empty run of word characters;
    on every other string it throws [unexpected brace]. *)
Theorem parseVars_accepts_flat (s : str) :
  ((exists vs, Vars.parseVars s = Ok vs) <-> Flat s)
  /\ (Vars.parseVars s = Throw unexpected_brace <-> ~ Flat s).
Proof.
  assert (A : (exists vs, Vars.parseVars s = Ok vs) <-> Flat s).
  { split.
    - intros [vs H]. exact (parseVars_Flat s vs H).
    - intros F. exists (sort (Vars.match_tokens 0 s)).
      apply parseVars_Ok. split; [now apply Flat_braces|reflexivity]. }
  split; [exact A|]. split.
  - intros H F. apply A in F as [vs F]. congruence.
  - intros H. destruct (Vars.parseVars s) as [vs|e] eqn:E.
    + exfalso. apply H. apply A. eauto.
    + now rewrite (parseVars_fails s e E).
Qed.

(** ** The constructor of [PluralForms] *)

Module ConstructorFacts.
Import Vars Plural.

Lemma is_empty_string_nil (f : str) : is_empty_string f = true <-> f = [].
Proof. unfold is_empty_string. apply str_eqb_eq. Qed.

Lemma check_forms_total (form0 : str) (vars rest : list str) :
  (forall f, In f rest ->
     is_empty_string f = is_empty_string form0 /\ parseVars f = Ok vars) ->
  check_forms form0 vars rest = Ok tt.
Proof.
  induction rest as [|f rest IH]; intros H; [reflexivity|].
  destruct (H f (or_introl eq_refl)) as [E P]. simpl.
  rewrite E, xorb_nilpotent, P. cbn [when_ bind]. rewrite equals_refl.
  cbn [negb when_ bind]. apply IH. intros g Hg. apply H. now right.
Qed.

End ConstructorFacts.
Import ConstructorFacts.

(** [new PluralForms(forms)] returns exactly when there is a form, every
    form passes [parseVars] with the same variables, and the forms are
    either all empty or all non-empty; the instance then holds the forms
    as given. *)
Theorem new_returns_iff (fs : list str) :
  ((exists pf, Plural.new fs = Ok pf) <->
   fs <> []
   /\ (exists vars, forall f, In f fs -> Vars.parseVars f = Ok vars)
   /\ (forall f g, In f fs -> In g fs -> (f = [] <-> g = [])))
  /\ (forall pf, Plural.new fs = Ok pf ->
        Plural.forms pf = fs
        /\ forall f, In f fs -> (f = [] <-> Plural.isEmpty pf = true)).
Proof.
  assert (B : forall form0 rest vars,
             Vars.parseVars form0 = Ok vars ->
             Plural.check_forms form0 vars rest = Ok tt ->
             forall f, In f (form0 :: rest) ->
               Plural.is_empty_string f = Plural.is_empty_string form0
               /\ Vars.parseVars f = Ok vars).
  { intros form0 rest vars P C f [<-|Hin]; [auto|].
    exact (check_forms_Ok form0 vars rest C f Hin). }
  split; [split|].
  - intros [pf H]. apply new_Ok in H as [-> (form0 & rest & vars & -> & P & C)].
    split; [discriminate|]. split.
    + exists vars. intros f Hin. exact (proj2 (B _ _ _ P C f Hin)).
    + intros f g Hf Hg. rewrite <- !is_empty_string_nil.
      rewrite (proj1 (B _ _ _ P C f Hf)), (proj1 (B _ _ _ P C g Hg)). tauto.
  - intros (Hne & [vars Hv] & He). destruct fs as [|form0 rest]; [congruence|].
    exists (Plural.mkPluralForms (form0 :: rest)). unfold Plural.new.
    rewrite (Hv form0 (or_introl eq_refl)). cbn [bind].
    rewrite check_forms_total; [reflexivity|].
    intros f Hin. split; [|apply Hv; now right].
    destruct (Plural.is_empty_string f) eqn:Ef, (Plural.is_empty_string form0) eqn:E0;
      try reflexivity.
    + apply is_empty_string_nil in Ef.
      apply (He f form0 (or_intror Hin) (or_introl eq_refl)) in Ef.
      apply is_empty_string_nil in Ef. congruence.
    + apply is_empty_string_nil in E0.
      apply (He f form0 (or_intror Hin) (or_introl eq_refl)) in E0.
      apply is_empty_string_nil in E0. congruence.
  - intros pf H. apply new_Ok in H as [-> (form0 & rest & vars & -> & P & C)].
    split; [reflexivity|]. intros f Hin. unfold Plural.isEmpty. cbn [Plural.forms].
    rewrite <- is_empty_string_nil, (proj1 (B _ _ _ P C f Hin)). tauto.
Qed.

(** ** Strings of Transifex *)

Module TransifexFacts.
Import Plural.

Lemma check_transifex_forms_Ok (fs : list str) :
  check_transifex_forms fs = Ok tt <->
  forall f, In f fs -> includes (u "'") f = false /\ includes (u "#") f = false.
Proof.
  induction fs as [|f0 fs IH]; simpl.
  - split; [intros _ f []|reflexivity].
  - destruct (includes (u "'") f0) eqn:Q; cbn [when_ bind].
    + split; [discriminate|]. intros H.
      destruct (H f0 (or_introl eq_refl)). congruence.
    + destruct (includes (u "#") f0) eqn:X; cbn [when_ bind].
      * split; [discriminate|]. intros H.
        destruct (H f0 (or_introl eq_refl)). congruence.
      * rewrite IH. split.
        -- intros H f [<-|Hin]; auto.
        -- intros H f Hin. apply H. now right.
Qed.

(** White space after [trim] and the replacement of its runs. *)

Lemma drop_spaces_suffix (s : str) :
  exists p, s = p ++ drop_spaces s /\ forallb is_space p = true.
Proof.
  induction s as [|c t (p & E & F)]; simpl; [exists []; auto|].
  destruct (is_space c) eqn:C.
  - exists (c :: p). simpl. rewrite C, F. split; [congruence|reflexivity].
  - exists []. auto.
Qed.

Lemma drop_spaces_head (s : str) : starts_with_space (drop_spaces s) = false.
Proof.
  induction s as [|c t IH]; simpl; [reflexivity|].
  destruct (is_space c) eqn:C; [exact IH|]. simpl. exact C.
Qed.

Lemma starts_with_space_app (a b : str) :
  a <> [] -> starts_with_space (a ++ b) = starts_with_space a.
Proof. destruct a; [congruence|reflexivity]. Qed.

Lemma trim_ends (s : str) :
  starts_with_space (trim s) = false /\ starts_with_space (rev (trim s)) = false.
Proof.
  unfold trim. rewrite rev_involutive. split; [|apply drop_spaces_head].
  destruct (drop_spaces_suffix (rev (drop_spaces s))) as (p & E & _).
  remember (drop_spaces (rev (drop_spaces s))) as b.
  assert (E' : drop_spaces s = rev b ++ rev p).
  { rewrite <- rev_app_distr, <- E. now rewrite rev_involutive. }
  destruct (rev b) as [|c r] eqn:R; [reflexivity|].
  pose proof (drop_spaces_head s) as H. rewrite E' in H.
  rewrite starts_with_space_app in H by discriminate. exact H.
Qed.

Lemma plain_space_collapse (s : str) (in_run : bool) :
  forallb plain_space (collapse_from in_run s) = true.
Proof.
  revert in_run; induction s as [|c t IH]; intros in_run; simpl; [reflexivity|].
  destruct (is_space c) eqn:C.
  - destruct in_run; [apply IH|]. simpl. rewrite IH. reflexivity.
  - simpl. unfold plain_space at 1. rewrite C. simpl. apply IH.
Qed.

Lemma collapse_in_run_head (s : str) : starts_with_space (collapse_from true s) = false.
Proof.
  induction s as [|c t IH]; simpl; [reflexivity|].
  destruct (is_space c) eqn:C; [exact IH|]. simpl. exact C.
Qed.

Lemma double_space_cons (c : char) (s : str) :
  double_space (c :: s) = (is_space c && starts_with_space s) || double_space s.
Proof. destruct s; simpl; [now rewrite andb_false_r|reflexivity]. Qed.

Lemma collapse_no_double (s : str) (in_run : bool) :
  double_space (collapse_from in_run s) = false.
Proof.
  revert in_run; induction s as [|c t IH]; intros in_run; [reflexivity|].
  cbn [collapse_from]. destruct (is_space c) eqn:C.
  - destruct in_run; [apply IH|].
    rewrite double_space_cons, collapse_in_run_head, IH. now rewrite andb_false_r.
  - rewrite double_space_cons, C, IH. reflexivity.
Qed.

Lemma collapse_from_snoc (s : str) (c : char) (in_run : bool) :
  is_space c = false -> collapse_from in_run (s ++ [c]) = collapse_from in_run s ++ [c].
Proof.
  intros C. revert in_run; induction s as [|d t IH]; intros in_run; simpl.
  - now rewrite C.
  - destruct (is_space d); [destruct in_run|]; simpl; now rewrite IH.
Qed.

Lemma collapse_ends (s : str) :
  starts_with_space s = false -> starts_with_space (rev s) = false ->
  starts_with_space (collapse s) = false /\ starts_with_space (rev (collapse s)) = false.
Proof.
  intros H1 H2. unfold collapse. split.
  - destruct s as [|c t]; [reflexivity|]. simpl in *. rewrite H1. simpl. exact H1.
  - destruct (rev s) as [|c r] eqn:R.
    + apply (f_equal (@rev char)) in R. rewrite rev_involutive in R. subst s. reflexivity.
    + apply (f_equal (@rev char)) in R. rewrite rev_involutive in R. subst s.
      simpl in H2. simpl rev. rewrite (collapse_from_snoc _ _ _ H2).
      rewrite rev_app_distr. simpl. exact H2.
Qed.

(** What [fromTransifex] does to the white space of a form. *)
Lemma tidy_plain (s : str) : plain_spacing (tidy s) = true.
Proof.
  unfold plain_spacing, tidy, odd_white_space.
  destruct (trim_ends s) as [T1 T2].
  destruct (collapse_ends (trim s) T1 T2) as [C1 C2].
  rewrite C1, C2. unfold collapse. rewrite collapse_no_double, plain_space_collapse.
  reflexivity.
Qed.

End TransifexFacts.
Import TransifexFacts.

(** [toTransifex] returns exactly on the instances with at most two forms
    none of which holds a straight single quote or a [#]; it returns the
    only form as it is, and two forms as the branches [one] and [other] of
    an ICU plural. *)
Theorem toTransifex_returns_iff (pf : Plural.PluralForms) :
  Plural.forms pf <> [] ->
  ((exists s, Plural.toTransifex pf = Ok s) <->
   length (Plural.forms pf) <= 2
   /\ forall f, In f (Plural.forms pf) ->
        includes (u "'") f = false /\ includes (u "#") f = false)
  /\ (forall s, Plural.toTransifex pf = Ok s ->
        (exists form0, Plural.forms pf = [form0] /\ s = form0)
        \/ (exists form0 form1,
              Plural.forms pf = [form0; form1]
              /\ s = u "{count, plural, one {" ++ form0 ++ u "} other {" ++ form1 ++ u "}}")).
Proof.
  intros Hne. unfold Plural.toTransifex.
  destruct (Plural.check_transifex_forms (Plural.forms pf)) as [[]|e] eqn:C; cbn [bind].
  - pose proof (proj1 (check_transifex_forms_Ok _) C) as F.
    destruct (Plural.forms pf) as [|f0 [|f1 [|f2 rest]]] eqn:E; [congruence| | |].
    + cbn. split; [split; [intros _; split; [lia|exact F]|eauto]|].
      intros s H; injection H as <-. left. eauto.
    + cbn. split; [split; [intros _; split; [lia|exact F]|eauto]|].
      intros s H; injection H as <-. right. eauto.
    + cbn. split; [split|]; [intros [s H]; discriminate|intros [H _]; simpl in H; lia|].
      intros s H; discriminate.
  - split; [split|]; [intros [s H]; discriminate| |intros s H; discriminate].
    intros [_ F]. apply check_transifex_forms_Ok in F. congruence.
Qed.

Lemma toTransifex_returns_iff_witness :
  exists s,
    Plural.toTransifex (Plural.mkPluralForms [u "{count} row"; u "{count} rows"]) = Ok s.
Proof.
  apply (proj1 (toTransifex_returns_iff
                  (Plural.mkPluralForms [u "{count} row"; u "{count} rows"])
                  ltac:(discriminate))).
  split; [simpl; lia|].
  intros f [<-|[<-|[]]]; split; reflexivity.
Defined.

(** Every form that [fromTransifex] returns has plain white space: none at
    its ends, no two white-space characters in a row and none other than
    the space. The forms pass the white-space test of [fromVueI18n]. *)
Theorem fromTransifex_plain_spacing (intl : str -> list str) (string locale : str)
    (pf : Plural.PluralForms) :
  Plural.fromTransifex intl string locale = Ok pf ->
  forall f, In f (Plural.forms pf) ->
    odd_white_space f = false
    /\ (forall c, In c f -> is_space c = true -> c = space)
    /\ Plural.tidy f = f.
Proof.
  unfold Plural.fromTransifex. intros H f Hin.
  match type of H with bind ?r _ = _ => destruct r as [fs|] eqn:R end; [|discriminate].
  cbn [bind] in H. apply new_Ok in H as [-> _]. cbn [Plural.forms] in Hin.
  apply in_map_iff in Hin as (x & <- & _).
  pose proof (tidy_plain x) as P.
  split; [|split; [|now apply tidy_id]].
  - unfold plain_spacing in P. apply andb_true_iff in P as [P _].
    now apply negb_true_iff in P.
  - unfold plain_spacing in P. apply andb_true_iff in P as [_ P].
    intros c Hc Hs. apply (proj1 (forallb_forall _ _) P) in Hc.
    unfold plain_space in Hc. rewrite Hs in Hc. simpl in Hc. now apply N.eqb_eq in Hc.
Qed.

Lemma fromTransifex_plain_spacing_witness :
  odd_white_space (u "a b") = false
  /\ (forall c, In c (u "a b") -> is_space c = true -> c = space)
  /\ Plural.tidy (u "a b") = u "a b".
Proof.
  apply (fromTransifex_plain_spacing Locales.cldr (u "  a    b ") (u "en")
           (Plural.mkPluralForms [u "a b"]) eq_refl).
  now left.
Defined.

(** ** The path of a linked locale message *)

(** When [pathOfLinkedMessage] returns a path, the message has the single
    form [@:] followed by the segments of the path joined by dots. *)
Theorem pathOfLinkedMessage_path (pf : Plural.PluralForms) (p : list str) :
  Linked.pathOfLinkedMessage pf = Ok (Some p) ->
  Plural.forms pf = [link_marker ++ join (u ".") p]
  /\ p <> []
  /\ forallb Linked.is_path_char (join (u ".") p) = true.
Proof.
  unfold Linked.pathOfLinkedMessage. intros H.
  destruct (match Plural.forms pf with
            | [form0] => Linked.link_match form0
            | _ => None
            end) as [q|] eqn:M.
  - injection H as <-.
    destruct (Plural.forms pf) as [|form0 [|]] eqn:E; try discriminate.
    apply link_match_spec in M as (-> & Hq & Hc).
    rewrite join_split by discriminate. split; [reflexivity|split; [|exact Hc]].
    unfold split. destruct (split_from_cons (u ".") q 0 []) as (x & l & ->). discriminate.
  - destruct (existsb _ _); cbn [when_ bind] in H; discriminate.
Qed.

Lemma pathOfLinkedMessage_path_witness :
  Plural.forms (Plural.mkPluralForms [u "@:common.yes"])
  = [link_marker ++ join (u ".") [u "common"; u "yes"]].
Proof.
  exact (proj1 (pathOfLinkedMessage_path (Plural.mkPluralForms [u "@:common.yes"])
                  [u "common"; u "yes"] eq_refl)).
Defined.

(** ** The tree of a component interpolation *)

Module TreeFacts.
Import Plural Interp.

Lemma make_nodes_invalid (entries : list (str * value)) (k : str)
    (nodes : list (str * ComponentInterpolationNode)) :
  In (k, NotMessage) entries -> make_nodes entries nodes = Throw invalid_message.
Proof.
  revert nodes; induction entries as [|[k0 v0] entries IH]; intros nodes; [intros []|].
  intros [E|Hin].
  - injection E as -> ->. reflexivity.
  - simpl. destruct v0; [now apply IH|reflexivity].
Qed.

Lemma existsb_str_eqb (k : str) (keys : list str) :
  In k keys -> existsb (str_eqb k) keys = true.
Proof.
  intros H. apply existsb_exists. exists k. split; [exact H|apply str_eqb_refl].
Qed.

Lemma attached_In (entries : list (str * value)) (p k : str) (keys : list str) :
  In k (attached entries p keys) <->
  In k keys /\ k <> full /\ find_entry (token k) entries = Ok (Some p).
Proof.
  unfold attached. rewrite filter_In. split.
  - intros [Hin H]. apply andb_true_iff in H as [H1 H2].
    apply negb_true_iff, str_eqb_neq in H1.
    destruct (find_entry (token k) entries) as [[q|]|]; try discriminate.
    apply str_eqb_eq in H2. subst q. auto.
  - intros (Hin & Hne & ->). split; [exact Hin|].
    apply str_eqb_neq in Hne. rewrite Hne, str_eqb_refl. reflexivity.
Qed.

(** The table of nodes that [fromMessages] returns. *)
Lemma fromMessages_table (messages : list (str * value))
    (nodes : list (str * ComponentInterpolationNode)) :
  fromMessages messages = Ok nodes ->
  (forall k, In k (map fst messages) -> exists n, assoc k nodes = Some n)
  /\ (forall p n, assoc p nodes = Some n ->
        In p (map fst messages)
        /\ key n = p
        /\ childNodes n = attached messages p (map fst messages)
        /\ parentNode n
           = (if existsb (str_eqb p) (map fst messages) && negb (str_eqb p full)
              then match find_entry (token p) messages with
                   | Ok found => found
                   | Throw _ => None
                   end
              else None))
  /\ exists root, assoc full nodes = Some root /\ childNodes root <> [].
Proof.
  unfold fromMessages. intros H.
  destruct (make_nodes messages []) as [nodes0|] eqn:M; [|discriminate].
  cbn [bind] in H.
  destruct (link_nodes messages (map fst messages) nodes0) as [nodes1|] eqn:L;
    [|discriminate].
  cbn [bind] in H.
  destruct (assoc full nodes1) as [root|] eqn:R; [|discriminate].
  destruct (negb (hasChildNodes root)) eqn:C; [discriminate|].
  cbn [when_ bind] in H. injection H as <-.
  destruct (make_nodes_Ok _ _ _ M) as [M1 M2].
  destruct (link_nodes_Ok _ _ _ _ L) as [_ L2].
  split; [|split].
  - intros k Hk. destruct (M1 k Hk) as [pf A0].
    destruct (L2 k _ A0) as (c & Ac & _). eauto.
  - intros p n A.
    destruct (in_dec str_eq_dec p (map fst messages)) as [Hin|Hout].
    + destruct (M1 p Hin) as [pf A0].
      destruct (L2 p _ A0) as (n' & A' & [S1 _] & Ch & Pa).
      rewrite A in A'. injection A' as <-. simpl in *. auto.
    + rewrite (link_nodes_None _ _ _ _ p L) in A; [discriminate|].
      rewrite (M2 p Hout). reflexivity.
  - exists root. split; [exact R|].
    apply negb_false_iff in C. unfold hasChildNodes in C.
    apply negb_true_iff, Nat.eqb_neq in C.
    intros E. rewrite E in C. now apply C.
Qed.

(** A key is among the children of a node exactly when the node is its
    parent. *)
Lemma children_have_parent (messages : list (str * value))
    (nodes : list (str * ComponentInterpolationNode)) (p : str)
    (n : ComponentInterpolationNode) :
  fromMessages messages = Ok nodes ->
  assoc p nodes = Some n ->
  forall k, In k (childNodes n) <->
    k <> full /\ exists c, assoc k nodes = Some c /\ parentNode c = Some p.
Proof.
  intros H A k. destruct (fromMessages_table _ _ H) as (T1 & K & _).
  destruct (K p n A) as (Hin & Hk & Hc & _).
  rewrite Hc, attached_In. split.
  - intros (Hk1 & Hk2 & F). split; [exact Hk2|].
    destruct (T1 k Hk1) as [c Ac]. exists c. split; [exact Ac|].
    destruct (K k c Ac) as (_ & _ & _ & Pa). rewrite Pa.
    rewrite (existsb_str_eqb k _ Hk1). apply str_eqb_neq in Hk2. rewrite Hk2.
    simpl. now rewrite F.
  - intros (Hk2 & c & Ac & Pc).
    destruct (K k c Ac) as (Hk1 & _ & _ & Pa). rewrite Pc in Pa.
    split; [exact Hk1|split; [exact Hk2|]].
    rewrite (existsb_str_eqb k _ Hk1) in Pa. apply str_eqb_neq in Hk2.
    rewrite Hk2 in Pa. simpl in Pa.
    destruct (find_entry (token k) messages) as [found|];
      [now subst found|discriminate].
Qed.

End TreeFacts.
Import TreeFacts.

(** [fromMessages] throws [invalid message] as soon as one value of the
    group is not an instance of [PluralForms]. *)
Theorem fromMessages_invalid_message (messages : list (str * Interp.value)) (k : str) :
  In (k, Interp.NotMessage) messages ->
  Interp.fromMessages messages = Throw invalid_message.
Proof.
  intros H. unfold Interp.fromMessages.
  now rewrite (make_nodes_invalid messages k [] H).
Qed.

Lemma fromMessages_invalid_message_witness :
  Interp.fromMessages
    [(u "full", Interp.Message (Plural.mkPluralForms [u "Click {here}."]));
     (u "here", Interp.NotMessage)]
  = Throw invalid_message.
Proof.
  apply (fromMessages_invalid_message _ (u "here")). right. now left.
Defined.

(** The nodes that [fromMessages] returns form one structure: a key is
    among the children of a node exactly when that node is its parent, and
    the node of [full] has no parent and at least one child. *)
Theorem fromMessages_children_parents (messages : list (str * Interp.value))
    (nodes : list (str * Interp.ComponentInterpolationNode)) :
  Interp.fromMessages messages = Ok nodes ->
  (forall p n, assoc p nodes = Some n ->
     Interp.key n = p
     /\ In p (map fst messages)
     /\ forall k, In k (Interp.childNodes n) <->
          k <> Interp.full
          /\ exists c, assoc k nodes = Some c /\ Interp.parentNode c = Some p)
  /\ exists root, assoc Interp.full nodes = Some root
                  /\ Interp.parentNode root = None
                  /\ Interp.childNodes root <> [].
Proof.
  intros H. destruct (fromMessages_table _ _ H) as (_ & K & root & R & C).
  split.
  - intros p n A. destruct (K p n A) as (Hin & Hk & _).
    split; [exact Hk|split; [exact Hin|]].
    exact (children_have_parent messages nodes p n H A).
  - exists root. split; [exact R|split; [|exact C]].
    destruct (K _ _ R) as (_ & _ & _ & Pa).
    rewrite Pa, str_eqb_refl. now rewrite andb_false_r.
Qed.

Definition link_group : list (str * Interp.value) :=
  [ (u "full", Interp.Message (Plural.mkPluralForms [u "Go to {page} for {more}."]));
    (u "page", Interp.Message (Plural.mkPluralForms [u "the {bold} page"]));
    (u "bold", Interp.Message (Plural.mkPluralForms [u "first"]));
    (u "more", Interp.Message (Plural.mkPluralForms [u "more"])) ].

Definition link_group_nodes : list (str * Interp.ComponentInterpolationNode) :=
  Eval vm_compute in
    match Interp.fromMessages link_group with
    | Ok nodes => nodes
    | Throw _ => []
    end.

Lemma fromMessages_children_parents_witness :
  exists root, assoc Interp.full link_group_nodes = Some root
               /\ Interp.parentNode root = None
               /\ Interp.childNodes root <> [].
Proof.
  exact (proj2 (fromMessages_children_parents link_group link_group_nodes eq_refl)).
Defined.

(** ** Reading and changing the translations *)

Module StoreFacts.
Import Plural Merge.

Lemma tat_put (store : tnode) (p : list str) (es : list (str * tnode))
    (k : str) (v : tnode) :
  tat store p = Some (TObject es) ->
  tat (tupdate p (put k v) store) p = Some (TObject (put k v es)).
Proof.
  intros T. rewrite <- (app_nil_r p) at 2. now rewrite (tat_tupdate_prefix _ _ _ _ [] T).
Qed.

End StoreFacts.
Import StoreFacts.

(** [set] returns only for a key whose source value is a message; the
    translation of the key is then the one given, and no other message of
    the translations has changed. *)
Theorem set_then_translated (h : Merge.Translations) (k : str)
    (pf : Plural.PluralForms) (store store' : Merge.tnode) :
  Merge.set h k pf store = Ok store' ->
  (exists source,
     assoc k (Merge.source_entries (Merge._source h)) = Some (Merge.SMessage source))
  /\ (forall source,
        Merge.translated (Merge.mkTranslation h k source) store'
        = Ok (Some (Merge.TMessage pf)))
  /\ (forall r pf', (forall r', r <> Merge.path h ++ k :: r') ->
        (leaf store' r pf' <-> leaf store r pf')).
Proof.
  unfold Merge.set. intros H.
  destruct (assoc k (Merge.source_entries (Merge._source h))) as [[source|a ses]|] eqn:A;
    try discriminate.
  destruct (Merge._translated h store) as [es|] eqn:T; [|discriminate].
  cbn [bind] in H. injection H as <-. apply _translated_Ok in T.
  split; [eauto|split].
  - intros source'. unfold Merge.translated. cbn [Merge.parent Merge.key].
    rewrite (proj2 (_translated_Ok h _ _) (tat_put _ _ _ k (Merge.TMessage pf) T)).
    cbn [bind]. now rewrite assoc_put_same.
  - intros r pf' Hr. rewrite (leaf_put _ _ _ _ _ _ _ T). split.
    + intros [(r' & E & _)|[_ L]]; [exfalso; exact (Hr r' E)|exact L].
    + intros L. right. auto.
Qed.

Definition page_source : Merge.snode :=
  Merge.SNode false
    [(u "title", Merge.SMessage (Plural.mkPluralForms [u "Title"]));
     (u "steps",
      Merge.SNode true
        [(u "0", Merge.SMessage (Plural.mkPluralForms [u "one"]));
         (u "1", Merge.SMessage (Plural.mkPluralForms [u "two"]))])].

Definition page_translated : Merge.tnode :=
  Merge.TObject
    [(u "title", Merge.TMessage (Plural.mkPluralForms [u "Titre"]));
     (u "steps",
      Merge.TObject
        [(u "0", Merge.TMessage (Plural.mkPluralForms [u "un"]));
         (u "1", Merge.TMessage (Plural.mkPluralForms [u "deux"]))])].

Definition page : Merge.Translations := Merge.mkTranslations page_source [] page_source.

Lemma set_then_translated_witness :
  exists store',
    Merge.set page (u "title") (Plural.mkPluralForms [u "Oui"]) page_translated = Ok store'
    /\ Merge.translated
         (Merge.mkTranslation page (u "title") (Plural.mkPluralForms [u "Title"])) store'
       = Ok (Some (Merge.TMessage (Plural.mkPluralForms [u "Oui"]))).
Proof.
  eexists. split; [reflexivity|].
  refine (proj1 (proj2 (set_then_translated page (u "title")
            (Plural.mkPluralForms [u "Oui"]) page_translated _ eq_refl)) _).
Defined.

(** [get], for a key other than [__proto__]. When it returns, no message
    of the translations has changed. It returns [undefined] only for a key
    that the source neither has nor inherits, and then leaves the
    translations as they are; for a message of the source it returns a
    [Translation] of that key; for an object or array of the source it
    returns a [Translations] object whose translations exist afterwards,
    created empty if they were missing. For the name of a method that the
    source inherits and has no property of, it throws [invalid source]. *)
Theorem get_keeps_messages (h : Merge.Translations) (k : str) (store : Merge.tnode) :
  k <> proto_key ->
  (forall g store', Merge.get h k store = Ok (g, store') ->
     (forall r pf, leaf store' r pf <-> leaf store r pf)
     /\ match g with
        | Merge.Undefined =>
          assoc k (Merge.source_entries (Merge._source h)) = None
          /\ inherited k = false /\ store' = store
        | Merge.ATranslation t =>
          Merge.parent t = h /\ Merge.key t = k /\ store' = store
          /\ assoc k (Merge.source_entries (Merge._source h))
             = Some (Merge.SMessage (Merge.source t))
        | Merge.SomeTranslations c =>
          Merge.path c = Merge.path h ++ [k]
          /\ assoc k (Merge.source_entries (Merge._source h)) = Some (Merge._source c)
          /\ exists es, Merge.tat store' (Merge.path c) = Some (Merge.TObject es)
        end)
  /\ (assoc k (Merge.source_entries (Merge._source h)) = None ->
      is_object_method k = true ->
      Merge.get h k store = Throw invalid_source).
Proof.
  intros Hk. split.
  - unfold Merge.get. intros g store' H.
    destruct (Merge.is_array (Merge._source h) && str_eqb k Merge.length_key);
      [discriminate|].
    destruct (assoc k (Merge.source_entries (Merge._source h))) as [[pf|a ses]|] eqn:A.
    + injection H as <- <-. split; [tauto|]. cbn. auto.
    + destruct (Merge.enter h k store) as [s1|] eqn:E; [|discriminate].
      cbn [bind] in H. injection H as <- <-.
      split; [exact (enter_same_leaves h k _ _ E)|].
      cbn [Merge.child Merge.path Merge._source].
      split; [reflexivity|split; [reflexivity|]].
      unfold Merge.enter in E.
      destruct (Merge._translated h store) as [es|] eqn:T; [|discriminate].
      cbn [bind] in E. apply _translated_Ok in T.
      destruct (assoc k es) as [[pf0|es0]|] eqn:Ak; [discriminate| |].
      * injection E as <-. exists es0. now rewrite (tat_key _ _ _ k T).
      * destruct (str_eqb k proto_key); [discriminate|].
        destruct (is_object_method k); [discriminate|].
        injection E as <-. exists [].
        rewrite (tat_tupdate_prefix _ _ _ _ [k] T). simpl. now rewrite assoc_put_same.
    + unfold Merge.not_own, inherited in *.
      destruct (str_eqb k proto_key); [discriminate|].
      destruct (is_object_method k); [discriminate|]. cbn [orb] in H.
      destruct (Merge.is_array (Merge._source h) && is_array_method k); [discriminate|].
      injection H as <- <-. split; [tauto|auto].
  - intros A M. unfold Merge.get. rewrite A.
    destruct (Merge.is_array (Merge._source h) && str_eqb k Merge.length_key);
      [reflexivity|].
    unfold Merge.not_own. apply str_eqb_neq in Hk. rewrite Hk, M. reflexivity.
Qed.

Lemma get_keeps_messages_witness :
  (exists es,
     Merge.tat (Merge.tupdate [] (put (u "steps") (Merge.TObject []))
                  (Merge.TObject
                     [(u "title", Merge.TMessage (Plural.mkPluralForms [u "Titre"]))]))
               [u "steps"]
     = Some (Merge.TObject es))
  /\ Merge.get page (u "constructor") page_translated = Throw invalid_source.
Proof.
  split.
  - exact (proj2 (proj2 (proj2 (proj1 (get_keeps_messages page (u "steps")
             (Merge.TObject [(u "title", Merge.TMessage (Plural.mkPluralForms [u "Titre"]))])
             ltac:(discriminate)) _ _ eq_refl)))).
  - exact (proj2 (get_keeps_messages page (u "constructor") page_translated
                    ltac:(discriminate)) eq_refl eq_refl).
Defined.

(** [delete] on the key of a translated message replaces the message by
    one with as many forms, all of them empty, and changes no other key of
    the object. *)
Theorem delete_keeps_length (h : Merge.Translations)
    (clear_child : list (str * (Merge.tnode -> result Merge.tnode)))
    (k : str) (store : Merge.tnode) (es : list (str * Merge.tnode))
    (pf : Plural.PluralForms) :
  Merge.tat store (Merge.path h) = Some (Merge.TObject es) ->
  assoc k es = Some (Merge.TMessage pf) ->
  Plural.forms pf <> [] ->
  exists store',
    Merge.delete h clear_child k store = Ok store'
    /\ Merge.tat store' (Merge.path h ++ [k])
       = Some (Merge.TMessage
                 (Plural.mkPluralForms (repeat [] (length (Plural.forms pf)))))
    /\ forall k', k' <> k ->
         Merge.tat store' (Merge.path h ++ [k']) = Merge.tat store (Merge.path h ++ [k']).
Proof.
  intros T A Hne. unfold Merge.delete.
  rewrite (proj2 (_translated_Ok h store es) T). cbn [bind]. rewrite A.
  destruct (Plural.forms pf) as [|f0 rest] eqn:F; [congruence|].
  assert (E : Plural.empty (length (f0 :: rest))
              = Ok (Plural.mkPluralForms (repeat [] (length (f0 :: rest))))).
  { destruct (empty_total (length (f0 :: rest))) as (e & E & _); [discriminate|].
    rewrite E. f_equal. unfold Plural.empty in E. now apply new_Ok in E as [-> _]. }
  rewrite E. cbn [bind]. eexists. split; [reflexivity|]. split.
  - rewrite (tat_tupdate_prefix _ _ _ _ [k] T). simpl. now rewrite assoc_put_same.
  - intros k' Hk. rewrite (tat_tupdate_prefix _ _ _ _ [k'] T).
    rewrite (tat_key _ _ _ k' T). simpl. rewrite (assoc_put_other _ _ _ _ Hk).
    destruct (assoc k' es); reflexivity.
Qed.

Lemma delete_keeps_length_witness :
  exists store',
    Merge.delete page [] (u "title") page_translated = Ok store'
    /\ Merge.tat store' [u "title"]
       = Some (Merge.TMessage (Plural.mkPluralForms [[]])).
Proof.
  destruct (delete_keeps_length page [] (u "title") page_translated _
              (Plural.mkPluralForms [u "Titre"]) eq_refl eq_refl
              ltac:(discriminate)) as (store' & D & T & _).
  exists store'. split; [exact D|exact T].
Defined.

(** ** The deletion pass *)

Module PassFacts.
Import Plural Merge.

Definition same_leaves (store store' : tnode) : Prop :=
  forall r pf, leaf store' r pf <-> leaf store r pf.

(** Translations none of whose messages is empty. *)
Definition complete (store : tnode) : Prop :=
  forall r pf, leaf store r pf -> isEmpty pf = false.

Lemma same_leaves_refl (store : tnode) : same_leaves store store.
Proof. intros r pf. tauto. Qed.

Lemma same_leaves_trans (s1 s2 s3 : tnode) :
  same_leaves s1 s2 -> same_leaves s2 s3 -> same_leaves s1 s3.
Proof. intros A B r pf. rewrite (B r pf). apply A. Qed.

Lemma same_leaves_complete (s s' : tnode) :
  same_leaves s s' -> complete s -> complete s'.
Proof. intros A C r pf L. apply (C r pf). now apply A. Qed.

Lemma deletePartialTranslation_complete (t : Translation) (store store' : tnode) :
  complete store -> deletePartialTranslation t store = Ok store' -> store' = store.
Proof.
  intros C. unfold deletePartialTranslation.
  destruct (has (parent t) (u "full") || is_array (_source (parent t)));
    [|intros H; now injection H].
  unfold translated.
  destruct (_translated (parent t) store) as [es|] eqn:T; [|discriminate].
  cbn [bind]. apply _translated_Ok in T.
  destruct (assoc (key t) es) as [[pf|es0]|] eqn:A; try discriminate.
  - assert (L : leaf store (path (parent t) ++ [key t]) pf).
    { unfold leaf. now rewrite (tat_key _ _ _ (key t) T). }
    cbn [bind]. rewrite (C _ _ L). intros H; now injection H.
  - destruct (inherited (key t)); discriminate.
Qed.

Definition keeps_complete (walk_child : list str -> snode -> tnode -> result tnode)
    (sv : snode) : Prop :=
  forall p store store',
    complete store -> walk_child p sv store = Ok store' -> same_leaves store store'.

Lemma walk_each_complete (walk_child : list str -> snode -> tnode -> result tnode)
    (h : Translations) (ses : list (str * snode)) (store store' : tnode) :
  Forall (fun e => keeps_complete walk_child (snd e)) ses ->
  complete store ->
  walk_each walk_child deletion h ses store = Ok store' -> same_leaves store store'.
Proof.
  revert store; induction ses as [|[k sv] ses IH]; intros store HW C.
  - simpl. intros H; injection H as <-. apply same_leaves_refl.
  - rewrite walk_each_cons. inversion HW as [|? ? W1 W2]; subst.
    destruct (visit walk_child h k sv store) as [s1|] eqn:V; [|discriminate].
    cbn [bind]. intros H.
    assert (S1 : same_leaves store s1).
    { destruct sv as [pf|a ses']; simpl in V.
      - apply call_deletion in V.
        rewrite (deletePartialTranslation_complete _ _ _ C V). apply same_leaves_refl.
      - destruct (enter h k store) as [s0|] eqn:E; [|discriminate]. cbn [bind] in V.
        pose proof (enter_same_leaves h k _ _ E) as S0.
        eapply same_leaves_trans; [exact S0|].
        apply (W1 _ _ _ (same_leaves_complete _ _ S0 C) V). }
    eapply same_leaves_trans; [exact S1|].
    apply IH; auto. exact (same_leaves_complete _ _ S1 C).
Qed.

Lemma walk_complete (rs : snode) (src : snode) : keeps_complete (walk_deletion rs) src.
Proof.
  induction src as [pf|array ses IH] using snode_induction; intros p store store' C.
  - discriminate.
  - unfold walk_deletion. cbn [walk]. now apply walk_each_complete.
Qed.

End PassFacts.
Import PassFacts.

(** The deletion pass leaves complete translations alone: when no message
    of the translations is empty, every message is the same after the
    pass, and no message was added. *)
Theorem deletion_keeps_complete_translations (rs : Merge.snode)
    (store store' : Merge.tnode) :
  (forall r pf, Merge.tat store r = Some (Merge.TMessage pf) ->
                Plural.isEmpty pf = false) ->
  Merge.walk [Merge.deletePartialTranslation] rs [] rs store = Ok store' ->
  forall r pf, Merge.tat store' r = Some (Merge.TMessage pf)
               <-> Merge.tat store r = Some (Merge.TMessage pf).
Proof.
  intros C H. exact (walk_complete rs rs [] store store' C H).
Qed.

Lemma deletion_keeps_complete_translations_witness :
  Merge.tat page_translated [u "steps"; u "1"]
  = Some (Merge.TMessage (Plural.mkPluralForms [u "deux"])).
Proof.
  refine (proj1 (deletion_keeps_complete_translations page_source page_translated
                   page_translated _ eq_refl [u "steps"; u "1"]
                   (Plural.mkPluralForms [u "deux"])) eq_refl).
  intros r pf.
  destruct r as [|k1 [|k2 [|k3 r]]]; simpl; try discriminate;
    repeat (match goal with
            | |- context [str_eqb ?a ?b] => destruct (str_eqb a b); simpl
            end);
    try discriminate; intros H; injection H as <-; reflexivity.
Defined.

(** The deletion pass returns on translations that have the shape of the
    source, and leaves them in that shape: the keys of the source are
    distinct, every key of the translations is a key of the source, a
    message is translated by a message, an object or array by an object,
    each message of an array or of a group with the key [full] has a
    translation, and so has each object or array whose key is the name of
    a property that objects inherit. *)
Theorem deletion_pass_returns (array : bool) (ses : list (str * Merge.snode))
    (es : list (str * Merge.tnode)) :
  fits (Merge.SNode array ses) (Some (Merge.TObject es)) ->
  exists es',
    Merge.walk [Merge.deletePartialTranslation] (Merge.SNode array ses) []
               (Merge.SNode array ses) (Merge.TObject es)
    = Ok (Merge.TObject es')
    /\ fits (Merge.SNode array ses) (Some (Merge.TObject es')).
Proof.
  intros F.
  destruct (walk_total (Merge.SNode array ses) (Merge.SNode array ses) []
              (Merge.TObject es)) as (s' & D & L & F'); simpl; eauto.
  destruct (local_above _ _ _ L [] [] es eq_refl eq_refl) as [es' T'].
  simpl in T'. injection T' as ->. eauto.
Qed.

(** A source object under the name of an inherited method needs
    translations of its own: without them [get] finds the method in their
    place, and the constructor of [Translations] rejects it. *)
Example inherited_key_needs_translations :
  fitsb (Merge.SNode false
           [(u "valueOf",
             Merge.SNode false [(u "a", Merge.SMessage (Plural.mkPluralForms [u "A"]))]);
            (u "b", Merge.SMessage (Plural.mkPluralForms [u "B"]))])
        (Some (Merge.TObject [(u "b", Merge.TMessage (Plural.mkPluralForms [u "Be"]))]))
  = false
  /\ Merge.walk [Merge.deletePartialTranslation]
       (Merge.SNode false
          [(u "valueOf",
            Merge.SNode false [(u "a", Merge.SMessage (Plural.mkPluralForms [u "A"]))]);
           (u "b", Merge.SMessage (Plural.mkPluralForms [u "B"]))])
       []
       (Merge.SNode false
          [(u "valueOf",
            Merge.SNode false [(u "a", Merge.SMessage (Plural.mkPluralForms [u "A"]))]);
           (u "b", Merge.SMessage (Plural.mkPluralForms [u "B"]))])
       (Merge.TObject [(u "b", Merge.TMessage (Plural.mkPluralForms [u "Be"]))])
     = Throw invalid_translated.
Proof. split; reflexivity. Qed.

Lemma deletion_pass_returns_witness :
  exists es',
    Merge.walk [Merge.deletePartialTranslation] page_source [] page_source page_translated
    = Ok (Merge.TObject es')
    /\ fits page_source (Some (Merge.TObject es')).
Proof.
  apply (deletion_pass_returns false
           [(u "title", Merge.SMessage (Plural.mkPluralForms [u "Title"]));
            (u "steps",
             Merge.SNode true
               [(u "0", Merge.SMessage (Plural.mkPluralForms [u "one"]));
                (u "1", Merge.SMessage (Plural.mkPluralForms [u "two"]))])]).
  apply fitsb_fits. reflexivity.
Defined.

(** ** What [toJSON] emits *)

Module OutputFacts.
Import Plural Merge.

Lemma array_values_length (f : str -> result (option json)) (n i : nat)
    (values : list (option json)) :
  array_values f n i = Ok values -> length values = n.
Proof.
  revert i values; induction n as [|n IH]; intros i values; simpl.
  - intros H; injection H as <-. reflexivity.
  - destruct (f (key_of_index i)) as [j|]; [|discriminate]. cbn [bind].
    destruct (array_values f n (S i)) as [more|] eqn:M; [|discriminate]. cbn [bind].
    intros H; injection H as <-. simpl. f_equal. exact (IH _ _ M).
Qed.

Lemma array_values_In (f : str -> result (option json)) (n i : nat)
    (values : list (option json)) (j : option json) :
  array_values f n i = Ok values -> In j values ->
  exists m, i <= m < i + n /\ f (key_of_index m) = Ok j.
Proof.
  revert i values; induction n as [|n IH]; intros i values; simpl.
  - intros H; injection H as <-. intros [].
  - destruct (f (key_of_index i)) as [j0|] eqn:F; [|discriminate]. cbn [bind].
    destruct (array_values f n (S i)) as [more|] eqn:M; [|discriminate]. cbn [bind].
    intros H; injection H as <-. intros [<-|Hin].
    + exists i. split; [lia|exact F].
    + destruct (IH _ _ M Hin) as (m & Hm & Fm). exists m. split; [lia|exact Fm].
Qed.

Lemma defined_length (values : list (option json)) :
  count_undefined values = 0 -> length (defined values) = length values.
Proof.
  induction values as [|[v|] values IH]; simpl; [reflexivity| |discriminate].
  intros H. f_equal. exact (IH H).
Qed.

Lemma object_values_In (f : str -> result (option json)) (keys : list str)
    (object object' : list (str * json)) (k : str) (v : json) :
  object_values f keys object = Ok object' -> In (k, v) object' ->
  In (k, v) object \/ (In k keys /\ f k = Ok (Some v)).
Proof.
  revert object; induction keys as [|k0 keys IH]; intros object; simpl.
  - intros H; injection H as <-. auto.
  - destruct (f k0) as [j|] eqn:F; [|discriminate]. cbn [bind].
    intros H Hin. destruct (IH _ H Hin) as [Hacc|[Hk Hf]]; [|auto].
    destruct j as [v0|]; [|auto].
    apply put_In in Hacc as [E|Hacc]; [|auto].
    injection E as -> ->. auto.
Qed.

Lemma value_of_child (array : bool) (ses : list (str * snode))
    (entries : list (str * tnode)) (k : str) (j : option json) :
  value_of array (map (fun e => (fst e, toJSON (snd e))) ses) entries k = Ok j ->
  exists sv, In (k, sv) ses /\ toJSON sv (assoc k entries) k = Ok j.
Proof.
  intros H. apply value_of_Ok in H as (f & Hf & H). revert Hf.
  rewrite (assoc_map_values (fun e => toJSON (snd e)) k ses).
  destruct (assoc k ses) as [sv|] eqn:A; [|discriminate]. simpl.
  intros Hf. injection Hf as <-. exists sv. split; [now apply assoc_In|exact H].
Qed.

(** A JSON value none of whose strings is empty. *)
Inductive Filled : json -> Prop :=
| Filled_string (s : str) : s <> [] -> Filled (JString s)
| Filled_array (l : list json) : (forall v, In v l -> Filled v) -> Filled (JArray l)
| Filled_object (es : list (str * json)) :
    (forall k v, In (k, v) es -> Filled v) -> Filled (JObject es).

(** Translations each message of which was built by the constructor. *)
Definition constructed (tr : option tnode) : Prop :=
  forall t r pf, tr = Some t -> leaf t r pf -> new (forms pf) = Ok pf.

Lemma constructed_child (tr : option tnode) (k : str) :
  constructed tr ->
  constructed (assoc k match tr with Some (TObject entries) => entries | _ => [] end).
Proof.
  intros C t r pf E L. destruct tr as [[pf0|es]|]; try discriminate.
  apply (C (TObject es) (k :: r) pf eq_refl). unfold leaf in *. simpl. now rewrite E.
Qed.

Lemma join_not_empty (sep f0 : str) (rest : list str) :
  f0 <> [] -> join sep (f0 :: rest) <> [].
Proof.
  intros H. destruct rest; simpl; [exact H|].
  destruct f0; [congruence|discriminate].
Qed.

Lemma new_no_empty_form (pf : PluralForms) :
  new (forms pf) = Ok pf -> isEmpty pf = false ->
  forall f, In f (forms pf) -> f <> [].
Proof.
  intros H E f Hin. apply new_Ok in H as [_ (form0 & rest & vars & F & P & C)].
  unfold isEmpty in E. rewrite F in *.
  assert (X : is_empty_string f = false).
  { destruct Hin as [<-|Hin]; [exact E|].
    rewrite (proj1 (check_forms_Ok _ _ _ C f Hin)). exact E. }
  intros ->. discriminate.
Qed.

Lemma toJSON_filled (src : snode) :
  forall tr k j, constructed tr -> toJSON src tr k = Ok (Some j) -> Filled j.
Proof.
  induction src as [source|array ses IH] using snode_induction; intros tr k j C.
  - simpl. destruct tr as [[translated|es]|]; try discriminate.
    pose proof (C _ [] translated eq_refl eq_refl) as W.
    destruct (isEmpty translated) eqn:E; [discriminate|].
    destruct (str_eqb k (u "full") && negb (length (forms source) =? 1)).
    + intros H; injection H as <-. constructor. intros v Hv.
      apply in_map_iff in Hv as (f & <- & Hf). constructor.
      exact (new_no_empty_form translated W E f Hf).
    + unfold toVueI18n. destruct (existsb _ _); [discriminate|]. cbn [when_ bind].
      intros H; injection H as <-. constructor.
      apply new_Ok in W as [_ (form0 & rest & vars & F & _)].
      unfold isEmpty in E. rewrite F in *. apply join_not_empty.
      intros ->. discriminate.
  - cbn [toJSON].
    assert (Ch : forall k' v, value_of array (map (fun e => (fst e, toJSON (snd e))) ses)
                                match tr with Some (TObject entries) => entries | _ => [] end
                                k' = Ok (Some v) -> Filled v).
    { intros k' v V. apply value_of_child in V as (sv & Hin & V).
      exact (proj1 (Forall_forall _ _) IH _ Hin _ _ _ (constructed_child tr k' C) V). }
    intros H.
    assert (H' :
      (if array then
         values <- array_values
                     (value_of array (map (fun e => (fst e, toJSON (snd e))) ses)
                        match tr with Some (TObject entries) => entries | _ => [] end)
                     (length ses) 0 ;;
         if count_undefined values + count_no_keys values =? length ses
         then Ok (if all_digits k then Some (JArray []) else None)
         else if negb (count_undefined values =? 0) then logThenThrow sparse_array
         else Ok (Some (JArray (defined values)))
       else
         object <- object_values
                     (value_of array (map (fun e => (fst e, toJSON (snd e))) ses)
                        match tr with Some (TObject entries) => entries | _ => [] end)
                     (map fst match tr with Some (TObject entries) => entries | _ => [] end)
                     [] ;;
         Ok (if negb (length object =? 0) || all_digits k
             then Some (JObject object) else None)) = Ok (Some j)).
    { destruct tr as [[pf|es]|]; [discriminate|exact H|exact H]. }
    clear H. destruct array.
    + destruct (array_values _ (length ses) 0) as [values|] eqn:V; [|discriminate].
      cbn [bind] in H'.
      destruct (count_undefined values + count_no_keys values =? length ses).
      * destruct (all_digits k); [|discriminate]. injection H' as <-.
        constructor. intros v [].
      * destruct (negb (count_undefined values =? 0)); [discriminate|].
        injection H' as <-. constructor. intros v Hv. apply defined_In in Hv.
        destruct (array_values_In _ _ _ _ _ V Hv) as (m & _ & F). exact (Ch _ _ F).
    + destruct (object_values _ _ []) as [o|] eqn:V; [|discriminate].
      cbn [bind] in H'.
      destruct (negb (length o =? 0) || all_digits k); [|discriminate].
      injection H' as <-. constructor. intros k' v Hin.
      destruct (object_values_In _ _ _ _ _ _ V Hin) as [[]|[_ F]]. exact (Ch _ _ F).
Qed.

End OutputFacts.
Import OutputFacts.

(** [toJSON] never emits a sparse array: for an array of the source it
    returns [undefined], the empty array, or an array with one element for
    each element of the source. *)
Theorem toJSON_array_dense (ses : list (str * Merge.snode)) (tr : option Merge.tnode)
    (k : str) :
  forall j, Merge.toJSON (Merge.SNode true ses) tr k = Ok j ->
    j = None
    \/ j = Some (Merge.JArray [])
    \/ exists l, j = Some (Merge.JArray l) /\ length l = length ses.
Proof.
  intros j. cbn [Merge.toJSON].
  set (f := Merge.value_of true _ _).
  intros H.
  assert (H' :
    (values <- Merge.array_values f (length ses) 0 ;;
     if Merge.count_undefined values + Merge.count_no_keys values =? length ses
     then Ok (if all_digits k then Some (Merge.JArray []) else None)
     else if negb (Merge.count_undefined values =? 0) then logThenThrow sparse_array
     else Ok (Some (Merge.JArray (Merge.defined values)))) = Ok j).
  { destruct tr as [[pf|es]|]; [discriminate|exact H|exact H]. }
  clear H. destruct (Merge.array_values f (length ses) 0) as [values|] eqn:V; [|discriminate].
  cbn [bind] in H'.
  destruct (Merge.count_undefined values + Merge.count_no_keys values =? length ses).
  - destruct (all_digits k); injection H' as <-; auto.
  - destruct (Merge.count_undefined values =? 0) eqn:U; [|discriminate].
    injection H' as <-. right. right. eexists. split; [reflexivity|].
    apply Nat.eqb_eq in U. rewrite (defined_length _ U).
    exact (array_values_length _ _ _ _ V).
Qed.

(** [toJSON] never emits an empty string: when every message of the
    translations was built by the constructor of [PluralForms], each string
    of the JSON that [toJSON] returns is non-empty. *)
Theorem toJSON_no_empty_string (src : Merge.snode) (tr : option Merge.tnode)
    (k : str) (j : Merge.json) :
  (forall t r pf, tr = Some t -> Merge.tat t r = Some (Merge.TMessage pf) ->
                  Plural.new (Plural.forms pf) = Ok pf) ->
  Merge.toJSON src tr k = Ok (Some j) ->
  Filled j.
Proof. intros C H. exact (toJSON_filled src tr k j C H). Qed.

Lemma toJSON_no_empty_string_witness :
  Filled (Merge.JString (u "Titre")).
Proof.
  apply (toJSON_no_empty_string (Merge.SMessage (Plural.mkPluralForms [u "Title"]))
           (Some (Merge.TMessage (Plural.mkPluralForms [u "Titre"]))) (u "title")).
  - intros t r pf E L. injection E as <-.
    destruct r; simpl in L; [injection L as <-; reflexivity|discriminate].
  - reflexivity.
Defined.

(** ** Validation *)

Module CheckFacts.
Import Plural Merge.

Lemma check_links_same (fs : list str) : check_links fs fs = Ok tt.
Proof.
  induction fs as [|f fs IH]; [reflexivity|].
  simpl. rewrite str_eqb_refl. rewrite andb_false_r. cbn [when_ bind]. exact IH.
Qed.

Lemma check_links_rejects (i : nat) :
  forall source translated f,
    nth_error translated i = Some f -> includes (u "@:") f = true ->
    nth_error source i <> Some f ->
    check_links source translated = Throw unexpected_linked_locale_message.
Proof.
  induction i as [|i IH]; intros source translated f Ht Hi Hs.
  - destruct translated as [|t0 translated]; [discriminate|]. injection Ht as ->.
    simpl. rewrite Hi.
    assert (E : match source with s0 :: _ => str_eqb f s0 | [] => false end = false).
    { destruct source as [|s0 source]; [reflexivity|].
      apply str_eqb_neq. intros ->. now apply Hs. }
    rewrite E. reflexivity.
  - destruct translated as [|t0 translated]; [discriminate|]. simpl in Ht.
    simpl. destruct (includes (u "@:") t0 && _); [reflexivity|]. cbn [when_ bind].
    apply (IH (tl source) translated f Ht Hi).
    destruct source; simpl in *; [destruct i; discriminate|exact Hs].
Qed.

End CheckFacts.
Import CheckFacts.

(** A translation that is the same as its source message passes
    validation, in every locale of the table. *)
Theorem validate_accepts_source (intl : str -> list str) (locale : str)
    (l : Locales.normalized) (source : Plural.PluralForms) :
  Locales.locale_lookup intl locale = Some l ->
  Plural.new (Plural.forms source) = Ok source ->
  Merge.validate intl locale source (Some (Merge.TMessage source)) = Ok tt.
Proof.
  intros Hl Hn.
  rewrite (validate_arity_same intl locale l source source Hl).
  - apply new_Ok in Hn as [_ (form0 & rest & vars & F & P & _)].
    rewrite F. destruct (negb (Plural.isEmpty source)).
    + rewrite P. cbn [bind]. rewrite equals_refl. cbn [negb when_ bind].
      apply check_links_same.
    + cbn [bind]. apply check_links_same.
  - unfold arity_differs. now rewrite xorb_nilpotent, andb_false_r.
Qed.

Lemma validate_accepts_source_witness :
  Merge.validate Locales.cldr (u "fr")
    (Plural.mkPluralForms [u "{count} row"; u "{count} rows"])
    (Some (Merge.TMessage (Plural.mkPluralForms [u "{count} row"; u "{count} rows"])))
  = Ok tt.
Proof.
  exact (validate_accepts_source Locales.cldr (u "fr") _
           (Plural.mkPluralForms [u "{count} row"; u "{count} rows"]) eq_refl eq_refl).
Defined.

(** Validation never accepts a translation one form of which holds the
    marker [@:] of a linked locale message, unless that form is the form of
    the source at the same index. *)
Theorem validate_rejects_link (intl : str -> list str) (locale : str)
    (source translated : Plural.PluralForms) (i : nat) (f : str) :
  nth_error (Plural.forms translated) i = Some f ->
  includes (u "@:") f = true ->
  nth_error (Plural.forms source) i <> Some f ->
  exists e, Merge.validate intl locale source (Some (Merge.TMessage translated)) = Throw e.
Proof.
  intros Ht Hi Hs. unfold Merge.validate.
  destruct (Locales.locale_lookup intl locale) as [l|]; [|eauto].
  match goal with
  | |- exists e, ?a ;;; ?b = _ => destruct a as [[]|e1]; [|cbn [bind]; eauto]
  end.
  cbn [bind].
  match goal with
  | |- exists e, ?a ;;; ?b = _ => destruct a as [[]|e1]; [|cbn [bind]; eauto]
  end.
  cbn [bind]. rewrite (check_links_rejects i _ _ f Ht Hi Hs). eauto.
Qed.

Lemma validate_rejects_link_witness :
  exists e,
    Merge.validate Locales.cldr (u "es") (Plural.mkPluralForms [u "Yes"])
      (Some (Merge.TMessage (Plural.mkPluralForms [u "@:common.yes"])))
    = Throw e.
Proof.
  apply (validate_rejects_link Locales.cldr (u "es") (Plural.mkPluralForms [u "Yes"])
           (Plural.mkPluralForms [u "@:common.yes"]) 0 (u "@:common.yes"));
    [reflexivity|reflexivity|discriminate].
Defined.

Lemma toJSON_array_dense_witness :
  Some (Merge.JArray [Merge.JString (u "un"); Merge.JString (u "deux")]) = None
  \/ Some (Merge.JArray [Merge.JString (u "un"); Merge.JString (u "deux")])
     = Some (Merge.JArray [])
  \/ exists l,
       Some (Merge.JArray [Merge.JString (u "un"); Merge.JString (u "deux")])
       = Some (Merge.JArray l)
       /\ length l = 2.
Proof.
  exact (toJSON_array_dense
           [(u "0", Merge.SMessage (Plural.mkPluralForms [u "one"]));
            (u "1", Merge.SMessage (Plural.mkPluralForms [u "two"]))]
           (Some (Merge.TObject
                    [(u "0", Merge.TMessage (Plural.mkPluralForms [u "un"]));
                     (u "1", Merge.TMessage (Plural.mkPluralForms [u "deux"]))]))
           (u "steps") _ eq_refl).
Defined.

(** ** The block of a component *)

Module BlockFacts.
Import Restructure Block.

Lemma assoc_app {A : Type} (k : str) (a b : list (str * A)) :
  assoc k (a ++ b) = match assoc k a with
                     | Some v => Some v
                     | None => assoc k b
                     end.
Proof.
  induction a as [|[k0 v0] a IH]; simpl; [reflexivity|].
  destruct (str_eqb k k0); [reflexivity|exact IH].
Qed.

Lemma assoc_not_key {A : Type} (k : str) (l : list (str * A)) :
  ~ In k (map fst l) -> assoc k l = None.
Proof.
  intros H. destruct (assoc k l) as [v|] eqn:E; [|reflexivity].
  exfalso. apply H. exact (assoc_in_keys _ _ _ E).
Qed.

Lemma has_key_In {A : Type} (k : str) (l : list (str * A)) :
  has_key k l = true <-> In k (map fst l).
Proof.
  rewrite has_key_assoc. split.
  - intros [v E]. exact (assoc_in_keys _ _ _ E).
  - apply in_keys_assoc.
Qed.

Lemma keys_replace_value {A : Type} (k : str) (v : A) (l : list (str * A)) :
  map fst (replace_value k v l) = map fst l.
Proof.
  induction l as [|[k0 v0] l IH]; simpl; [reflexivity|].
  destruct (str_eqb k k0); simpl; [reflexivity|now rewrite IH].
Qed.

(** The keys after [o[k] = v], for a key that is not an array index. *)
Lemma keys_put {A : Type} (k : str) (v : A) (l : list (str * A)) :
  array_index k = None ->
  map fst (put k v l) = if has_key k l then map fst l else map fst l ++ [k].
Proof.
  intros H. unfold put. destruct (has_key k l).
  - apply keys_replace_value.
  - rewrite H, map_app. reflexivity.
Qed.

Lemma keys_remove {A : Type} (k : str) (l : list (str * A)) :
  forall k', In k' (map fst (remove k l)) -> In k' (map fst l).
Proof.
  induction l as [|[k0 v0] l IH]; simpl; [tauto|].
  intros k'. destruct (str_eqb k k0); simpl; [tauto|].
  intros [E|H]; auto.
Qed.

Lemma remove_NoDup {A : Type} (k : str) (l : list (str * A)) :
  NoDup (map fst l) ->
  NoDup (map fst (remove k l))
  /\ ~ In k (map fst (remove k l))
  /\ forall k', k' <> k -> (In k' (map fst (remove k l)) <-> In k' (map fst l)).
Proof.
  induction l as [|[k0 v0] l IH]; simpl; intros ND.
  - split; [constructor|tauto].
  - inversion ND as [|? ? Hn ND']; subst.
    destruct (str_eqb k k0) eqn:E.
    + apply str_eqb_eq in E; subst k0. split; [exact ND'|split; [exact Hn|]].
      intros k' Hk. split; [auto|]. intros [E|H]; [congruence|exact H].
    + apply str_eqb_neq in E. destruct (IH ND') as (N1 & N2 & N3). simpl.
      split; [|split].
      * constructor; [|exact N1]. intros H. apply Hn. exact (keys_remove _ _ _ H).
      * intros [E'|H]; [congruence|auto].
      * intros k' Hk. rewrite (N3 k' Hk). tauto.
Qed.

Lemma assoc_remove {A : Type} (k k' : str) (l : list (str * A)) :
  k' <> k -> assoc k' (remove k l) = assoc k' l.
Proof.
  intros Hk. induction l as [|[k0 v0] l IH]; simpl; [reflexivity|].
  destruct (str_eqb k k0) eqn:E.
  - apply str_eqb_eq in E; subst k0.
    apply str_eqb_neq in Hk. now rewrite Hk.
  - simpl. destruct (str_eqb k' k0); [reflexivity|exact IH].
Qed.

Lemma remove_app {A : Type} (k : str) (a b : list (str * A)) :
  In k (map fst a) -> remove k (a ++ b) = remove k a ++ b.
Proof.
  induction a as [|[k0 v0] a IH]; simpl; [tauto|].
  intros H. destruct (str_eqb k k0) eqn:E; [reflexivity|].
  simpl. f_equal. apply IH. destruct H as [H|H]; [|exact H].
  apply str_eqb_neq in E. congruence.
Qed.

Lemma NoDup_app_inv {A : Type} (l m : list A) :
  NoDup (l ++ m) -> NoDup l /\ NoDup m /\ forall x, In x l -> ~ In x m.
Proof.
  induction l as [|a l IH]; simpl; intros H.
  - split; [constructor|split; [exact H|tauto]].
  - inversion H as [|? ? Hn H']; subst. destruct (IH H') as (N1 & N2 & N3).
    split; [|split; [exact N2|]].
    + constructor; [|exact N1]. intros Hin. apply Hn, in_or_app. now left.
    + intros x [<-|Hx]; [|auto]. intros Hm. apply Hn, in_or_app. now right.
Qed.

Lemma NoDup_app_intro {A : Type} (l m : list A) :
  NoDup l -> NoDup m -> (forall x, In x l -> ~ In x m) -> NoDup (l ++ m).
Proof.
  induction l as [|a l IH]; simpl; intros N1 N2 N3; [exact N2|].
  inversion N1 as [|? ? Hn N1']; subst. constructor.
  - intros H. apply in_app_or in H as [H|H]; [contradiction|].
    exact (N3 a (or_introl eq_refl) H).
  - apply IH; auto.
Qed.

(** The loop moves the keys behind those that were moved before. *)
Lemma reposition_moves {A : Type} (rest : list str) :
  forall a b : list (str * A),
    NoDup (map fst (a ++ b)) -> NoDup rest ->
    (forall k, In k rest <-> In k (map fst a)) ->
    (forall k, In k rest -> array_index k = None) ->
    map fst (reposition rest (a ++ b)) = map fst b ++ rest
    /\ forall k, assoc k (reposition rest (a ++ b)) = assoc k (a ++ b).
Proof.
  induction rest as [|key rest IH]; intros a b ND NDr Hk Hi.
  - destruct a as [|[k0 v0] a]; [simpl; now rewrite app_nil_r|].
    exfalso. apply (Hk k0). now left.
  - cbn [reposition].
    assert (Ha : In key (map fst a)) by (apply Hk; now left).
    destruct (in_keys_assoc _ _ Ha) as [v Av].
    rewrite assoc_app, Av.
    rewrite (remove_app key a b Ha).
    rewrite map_app in ND. destruct (NoDup_app_inv _ _ ND) as (NDa & NDb & Hab).
    destruct (remove_NoDup key a NDa) as (R1 & R2 & R3).
    assert (Hb : ~ In key (map fst b)) by (apply Hab; exact Ha).
    assert (P : put key v (remove key a ++ b) = remove key a ++ (b ++ [(key, v)])).
    { unfold put.
      assert (F : has_key key (remove key a ++ b) = false).
      { destruct (has_key key (remove key a ++ b)) eqn:F; [|reflexivity].
        apply has_key_In in F. rewrite map_app in F.
        apply in_app_or in F as [F|F]; contradiction. }
      rewrite F, (Hi key (or_introl eq_refl)). now rewrite <- app_assoc. }
    rewrite P. inversion NDr as [|? ? Hr NDr']; subst.
    destruct (IH (remove key a) (b ++ [(key, v)])) as [I1 I2].
    + rewrite !map_app. simpl. apply NoDup_app_intro; [exact R1| |].
      * apply NoDup_app_intro; [exact NDb|constructor; [tauto|constructor]|].
        intros x Hx [<-|[]]. contradiction.
      * intros x Hx Hin. apply in_app_or in Hin as [Hin|[<-|[]]].
        -- exact (Hab x (keys_remove _ _ _ Hx) Hin).
        -- contradiction.
    + exact NDr'.
    + intros k. split.
      * intros H. apply R3; [intros ->; contradiction|]. apply Hk. now right.
      * intros H. assert (Hne : k <> key) by (intros ->; contradiction).
        apply (R3 k Hne) in H. apply Hk in H as [E|H]; [congruence|exact H].
    + intros k H. apply Hi. now right.
    + split.
      * rewrite I1, map_app. simpl. now rewrite <- app_assoc.
      * intros k. rewrite I2, !assoc_app.
        destruct (list_eq_dec N.eq_dec k key) as [->|Hne].
        -- rewrite (assoc_not_key key (remove key a) R2), Av.
           rewrite (assoc_not_key key b Hb). simpl. now rewrite str_eqb_refl.
        -- rewrite (assoc_remove key k a Hne).
           destruct (assoc k a); [reflexivity|].
           destruct (assoc k b); [reflexivity|].
           simpl. apply str_eqb_neq in Hne. now rewrite Hne.
Qed.

End BlockFacts.
Import BlockFacts.

(** [escapeJSON] leaves no [<] in the text, and changes nothing in a text
    without one. *)
Theorem escapeJSON_no_lt (json : str) :
  ~ In 60%N (Block.escapeJSON json)
  /\ (~ In 60%N json -> Block.escapeJSON json = json).
Proof.
  unfold Block.escapeJSON. split.
  - intros H. apply in_flat_map in H as (c & _ & H).
    destruct (N.eqb c 60) eqn:E.
    + unfold Block.escaped_lt in H. simpl in H.
      repeat (destruct H as [H|H]; [discriminate|]). exact H.
    + destruct H as [H|[]]. subst c. discriminate E.
  - induction json as [|c t IH]; intros H; [reflexivity|]. simpl.
    destruct (N.eqb c 60) eqn:E.
    + apply N.eqb_eq in E. exfalso. apply H. now left.
    + simpl. f_equal. apply IH. intros Ht. apply H. now right.
Qed.

(** After the translations of a locale are added to the block of a
    component, the locales of the block are in alphabetical order, the new
    locale has the translations given and the other locales have theirs:
    this for locales none of which is written as an array index. *)
Theorem add_locale_sorted {A : Type} (locale : str) (translations : A)
    (blockMessages : list (str * A)) :
  NoDup (map fst blockMessages) ->
  (forall k, k = locale \/ In k (map fst blockMessages) -> array_index k = None) ->
  StronglySorted str_le (map fst (Block.add_locale locale translations blockMessages))
  /\ (forall k, In k (map fst (Block.add_locale locale translations blockMessages))
                <-> k = locale \/ In k (map fst blockMessages))
  /\ assoc locale (Block.add_locale locale translations blockMessages) = Some translations
  /\ forall k, k <> locale ->
       assoc k (Block.add_locale locale translations blockMessages)
       = assoc k blockMessages.
Proof.
  intros ND Hi. unfold Block.add_locale.
  set (o := put locale translations blockMessages).
  assert (Ko : map fst o = if has_key locale blockMessages
                           then map fst blockMessages
                           else map fst blockMessages ++ [locale]).
  { apply keys_put. apply Hi. now left. }
  assert (Io : forall k, In k (map fst o) <-> k = locale \/ In k (map fst blockMessages)).
  { intros k. rewrite Ko. destruct (has_key locale blockMessages) eqn:F.
    - apply has_key_In in F. split; [auto|]. intros [->|H]; auto.
    - rewrite in_app_iff. simpl. split; [intros [H|[<-|[]]]; auto|].
      intros [->|H]; auto. }
  assert (NDo : NoDup (map fst o)).
  { rewrite Ko. destruct (has_key locale blockMessages) eqn:F; [exact ND|].
    apply NoDup_app_intro; [exact ND|constructor; [tauto|constructor]|].
    intros x Hx [E|[]]. subst x.
    assert (T : has_key locale blockMessages = true) by now apply has_key_In.
    congruence. }
  destruct (reposition_moves (sort (map fst o)) o []) as [R1 R2].
  - now rewrite app_nil_r.
  - exact (Permutation_NoDup (Permutation_sym (sort_perm _)) NDo).
  - intros k. split; intros H.
    + exact (Permutation_in _ (sort_perm _) H).
    + exact (Permutation_in _ (Permutation_sym (sort_perm _)) H).
  - intros k H. apply Hi, Io. exact (Permutation_in _ (sort_perm _) H).
  - rewrite app_nil_r in R1, R2. simpl in R1.
    split; [rewrite R1; apply sort_sorted|].
    split; [|split].
    + intros k. rewrite R1, <- Io. split; intros H.
      * exact (Permutation_in _ (sort_perm _) H).
      * exact (Permutation_in _ (Permutation_sym (sort_perm _)) H).
    + rewrite R2. apply assoc_put_same.
    + intros k Hk. rewrite R2. now apply assoc_put_other.
Qed.

Lemma add_locale_sorted_witness :
  map fst (Block.add_locale (u "es") 1 [(u "fr", 2); (u "en", 3)])
  = [u "en"; u "es"; u "fr"]
  /\ StronglySorted str_le
       (map fst (Block.add_locale (u "es") 1 [(u "fr", 2); (u "en", 3)])).
Proof.
  split; [reflexivity|].
  refine (proj1 (add_locale_sorted (u "es") 1 [(u "fr", 2); (u "en", 3)] _ _)).
  - repeat constructor; simpl; intuition discriminate.
  - intros k [->|[<-|[<-|[]]]]; reflexivity.
Defined.

(** ** The comments of a component interpolation *)

Module CommentFacts.
Import Plural Interp Messages Comments.

Definition each_child (unfold_child : str -> option tree) : list str -> option (list tree) :=
  fix each (keys : list str) : option (list tree) :=
    match keys with
    | [] => Some []
    | c :: keys' =>
      match unfold_child c, each keys' with
      | Some t, Some ts => Some (t :: ts)
      | _, _ => None
      end
    end.

Lemma unfold_S (nodesByKey : list (str * ComponentInterpolationNode)) (depth : nat)
    (k : str) :
  unfold nodesByKey (S depth) k
  = match assoc k nodesByKey with
    | None => None
    | Some n =>
      match each_child (unfold nodesByKey depth) (childNodes n) with
      | Some ts => Some (Tree n ts)
      | None => None
      end
    end.
Proof. reflexivity. Qed.

Lemma each_child_total (unfold_child : str -> option tree) (keys : list str) :
  (forall c, In c keys -> exists t, unfold_child c = Some t) ->
  exists ts, each_child unfold_child keys = Some ts.
Proof.
  induction keys as [|c keys IH]; intros H; simpl; [eauto|].
  destruct (H c (or_introl eq_refl)) as [t ->].
  destruct IH as [ts ->]; [intros c' Hc; apply H; now right|]. eauto.
Qed.

Section Table.
Variable nodes : list (str * ComponentInterpolationNode).

Definition parent_of (k : str) : option str :=
  match assoc k nodes with
  | Some n => parentNode n
  | None => None
  end.

(** A key with its ancestors, up to [full]. *)
Inductive Chain : list str -> Prop :=
| Chain_root : Chain [full]
| Chain_step (c k : str) (rest : list str) :
    parent_of c = Some k -> c <> full -> Chain (k :: rest) -> Chain (c :: k :: rest).

Lemma chain_parent (l : list str) :
  Chain l -> forall x before after, l = before ++ x :: after ->
  after = [] \/ exists y after', after = y :: after' /\ parent_of x = Some y.
Proof.
  induction 1 as [|c k rest Hp Hc HC IH]; intros x before after E.
  - destruct before as [|b before]; [injection E as <- <-; now left|].
    injection E as _ E. destruct before; discriminate.
  - destruct before as [|b before].
    + injection E as <- <-. right. eauto.
    + injection E as _ E. exact (IH x before after E).
Qed.

Lemma chain_last (l : list str) : Chain l -> exists before, l = before ++ [full].
Proof.
  induction 1 as [|c k rest Hp Hc HC [before E]]; [exists []; reflexivity|].
  exists (c :: before). simpl. now rewrite E.
Qed.

(** A child of the head of a chain is not on the chain. *)
Lemma chain_fresh (c k : str) (rest : list str) :
  Chain (k :: rest) -> NoDup (k :: rest) ->
  parent_of c = Some k -> c <> full -> ~ In c (k :: rest).
Proof.
  intros HC ND Hp Hc Hin.
  apply in_split in Hin as (before & after & E).
  destruct (chain_parent _ HC c before after E) as [->|(y & after' & -> & Hy)].
  - destruct (chain_last _ HC) as [before' E'].
    rewrite E in E'. apply app_inj_tail in E' as [_ E']. contradiction.
  - rewrite Hp in Hy. injection Hy as <-.
    rewrite E in ND. destruct before as [|b before].
    + injection E as -> _. inversion ND as [|? ? Hn _]. apply Hn. now left.
    + injection E as <- _. inversion ND as [|? ? Hn _]. apply Hn.
      apply in_or_app. right. right. now left.
Qed.

Hypothesis children :
  forall p n c, assoc p nodes = Some n -> In c (childNodes n) ->
    c <> full /\ parent_of c = Some p /\ assoc c nodes <> None.

Lemma unfold_chain (depth : nat) :
  forall k rest,
    Chain (k :: rest) -> NoDup (k :: rest) ->
    (forall a, In a (k :: rest) -> assoc a nodes <> None) ->
    length nodes < length (k :: rest) + depth ->
    exists t, unfold nodes depth k = Some t.
Proof.
  induction depth as [|depth IH]; intros k rest HC ND Hn Hl.
  - exfalso. rewrite Nat.add_0_r in Hl.
    assert (I : incl (k :: rest) (map fst nodes)).
    { intros a Ha. destruct (assoc a nodes) as [n|] eqn:A; [|now apply Hn in Ha].
      exact (assoc_in_keys _ _ _ A). }
    pose proof (NoDup_incl_length ND I) as L. rewrite length_map in L. lia.
  - rewrite unfold_S. destruct (assoc k nodes) as [n|] eqn:A.
    + destruct (each_child_total (unfold nodes depth) (childNodes n)) as [ts ->]; [|eauto].
      intros c Hc. destruct (children k n c A Hc) as (Hf & Hp & Hnode).
      apply (IH c (k :: rest)).
      * now constructor.
      * constructor; [|exact ND]. now apply chain_fresh.
      * intros a [<-|Ha]; [exact Hnode|now apply Hn].
      * simpl in *. lia.
    + exfalso. apply (Hn k); [now left|exact A].
Qed.

End Table.

(** The chains of children are shorter than the table of nodes: the tree
    under [full] is found. *)
Lemma unfold_total (messages : list (str * value))
    (nodes : list (str * ComponentInterpolationNode)) :
  fromMessages messages = Ok nodes ->
  exists t, unfold nodes (length nodes) full = Some t.
Proof.
  intros H. destruct (fromMessages_table _ _ H) as (T1 & K & root & R & _).
  apply (unfold_chain nodes) with (rest := []).
  - intros p n c A Hc.
    apply (children_have_parent messages nodes p n H A) in Hc as (Hf & c' & Ac & Pc).
    split; [exact Hf|]. unfold parent_of. rewrite Ac. split; [exact Pc|discriminate].
  - constructor.
  - constructor; [intros []|constructor].
  - intros a [<-|[]]. rewrite R. discriminate.
  - simpl. lia.
Qed.

End CommentFacts.
Import CommentFacts.

(** [generateCommentsForFull] returns exactly when [fromMessages] does, and
    fails as [fromMessages] fails: once the nodes are built, writing the
    comments of the tree never fails. *)
Theorem generateCommentsForFull_returns (messages : list (str * Messages.vnode)) :
  (forall e, Interp.fromMessages
               (map (fun e => (fst e, Comments.message_of (snd e))) messages) = Throw e ->
             Comments.generateCommentsForFull messages = Fail (Earlier e))
  /\ (forall nodes,
        Interp.fromMessages
          (map (fun e => (fst e, Comments.message_of (snd e))) messages) = Ok nodes ->
        exists comments, Comments.generateCommentsForFull messages = Done comments).
Proof.
  unfold Comments.generateCommentsForFull. split.
  - intros e ->. reflexivity.
  - intros nodes H. rewrite H. cbn [lift and_then].
    destruct (unfold_total _ _ H) as [[rootNode children] ->]. eauto.
Qed.

(** ** Structured JSON *)

Module StructureFacts.
Import Plural Linked Messages Comments Restructure.
Local Open Scope outcome_scope.

Fixpoint vnode_induction (P : vnode -> Prop)
    (HNull : P VNull) (HOther : P VOther) (HString : forall s, P (VString s))
    (HMessage : forall pf, P (VMessage pf))
    (HNode : forall array entries before,
        Forall (fun e => P (snd e)) entries -> P (VNode array entries before))
    (v : vnode) {struct v} : P v :=
  match v with
  | VNull => HNull
  | VOther => HOther
  | VString s => HString s
  | VMessage pf => HMessage pf
  | VNode array entries before =>
    HNode array entries before
      ((fix all (l : list (str * vnode)) : Forall (fun e => P (snd e)) l :=
          match l with
          | [] => Forall_nil _
          | e :: l' =>
            Forall_cons e (vnode_induction P HNull HOther HString HMessage HNode (snd e))
                        (all l')
          end) entries)
  end.

Fixpoint Structured_induction (P : Structured -> Prop)
    (HLeaf : forall s c, P (SLeaf s c))
    (HObj : forall entries, Forall (fun e => P (snd e)) entries -> P (SObj entries))
    (s : Structured) {struct s} : P s :=
  match s with
  | SLeaf string c => HLeaf string c
  | SObj entries =>
    HObj entries
      ((fix all (l : list (str * Structured)) : Forall (fun e => P (snd e)) l :=
          match l with
          | [] => Forall_nil _
          | e :: l' => Forall_cons e (Structured_induction P HLeaf HObj (snd e)) (all l')
          end) entries)
  end.

(** The value at a path. *)
Inductive v_at : vnode -> list str -> vnode -> Prop :=
| v_here (v : vnode) : v_at v [] v
| v_step (array : bool) (entries : list (str * vnode)) (before : list (str * list str))
         (k : str) (v : vnode) (p : list str) (w : vnode) :
    In (k, v) entries -> v_at v p w -> v_at (VNode array entries before) (k :: p) w.

Inductive s_at : Structured -> list str -> Structured -> Prop :=
| s_here (s : Structured) : s_at s [] s
| s_step (entries : list (str * Structured)) (k : str) (s : Structured)
         (p : list str) (w : Structured) :
    In (k, s) entries -> s_at s p w -> s_at (SObj entries) (k :: p) w.

(** What the loop of [_restructure] does with one property. *)
Definition link_check (root : vnode) (array : bool) (entries : list (str * vnode))
    (v : vnode) : outcome bool :=
  match v with
  | VMessage pf =>
    path <- lift (pathOfLinkedMessage pf) ;;
    match path with
    | Some path =>
      target <- messageLinkedTo path (Value root) ;;
      linked <- is_linked target ;;
      if linked then Fail link_to_linked_message
      else if has_full entries || array then Fail link_in_group_or_array
      else Done true
    | None => Done false
    end
  | _ => Done false
  end.

Section Loop.
Variable root : vnode.
Variable commentsByKey : list (str * str).
Variable array : bool.
Variable entries : list (str * vnode).
Variable before : list (str * list str).
Variable commentForPath commentForKey : option str.
Variable commentsForFull : option (list (str * str)).

Fixpoint each (l : list (str * vnode)) (structured : list (str * Structured))
    : outcome (list (str * Structured)) :=
  match l with
  | [] => Done structured
  | (k, v) :: l' =>
    skip <- link_check root array entries v ;;
    if skip then each l' structured
    else
      forKey <- own k commentsByKey ;;
      forFull <-
        match commentsForFull with
        | Some comments => own k comments
        | None => Done None
        end ;;
      converted <-
        _restructure root commentsByKey v
          (match assoc k before with
           | Some comments => Some (comment_text comments)
           | None => commentForPath
           end)
          (match forKey with
           | Some comment => Some comment
           | None => commentForKey
           end)
          forFull ;;
      let structured1 := put k converted structured in
      each l' (if is_object v && no_properties converted
               then remove k structured1
               else structured1)
  end.

(** One turn of the loop that does not skip the property: the value is
    converted with some comments, and set. *)
Lemma each_step (k : str) (v : vnode) (l : list (str * vnode))
    (structured structured' : list (str * Structured)) :
  each ((k, v) :: l) structured = Done structured' ->
  (link_check root array entries v = Done true /\ each l structured = Done structured')
  \/ (link_check root array entries v = Done false
      /\ exists cP cK cF converted,
           _restructure root commentsByKey v cP cK cF = Done converted
           /\ each l (if is_object v && no_properties converted
                      then remove k (put k converted structured)
                      else put k converted structured) = Done structured').
Proof.
  cbn [each]. destruct (link_check root array entries v) as [[|]|]; cbn [and_then];
    [auto| |discriminate].
  destruct (own k commentsByKey) as [forKey|]; cbn [and_then]; [|discriminate].
  destruct (match commentsForFull with
            | Some comments => own k comments
            | None => Done None
            end) as [forFull|]; cbn [and_then]; [|discriminate].
  match goal with
  | |- and_then ?r _ = _ -> _ => destruct r as [converted|] eqn:C
  end; cbn [and_then]; [|discriminate].
  intros H. right. split; [reflexivity|]. eauto 10.
Qed.

End Loop.

Lemma _restructure_node (root : vnode) (commentsByKey : list (str * str))
    (array : bool) (entries : list (str * vnode)) (before : list (str * list str))
    (commentForPath commentForKey commentForFull : option str) :
  _restructure root commentsByKey (VNode array entries before)
    commentForPath commentForKey commentForFull
  = (commentsForFull <-
       (if has_full entries
        then comments <- generateCommentsForFull entries ;; Done (Some comments)
        else Done None) ;;
     structured <-
       each root commentsByKey array entries before commentForPath commentForKey
            commentsForFull entries [] ;;
     Done (SObj structured)).
Proof. reflexivity. Qed.

Lemma In_remove {A : Type} (k : str) (l : list (str * A)) (x : str * A) :
  In x (remove k l) -> In x l.
Proof.
  induction l as [|[k0 v0] l IH]; simpl; [tauto|].
  destruct (str_eqb k k0); simpl; [tauto|]. intros [E|H]; auto.
Qed.

Lemma keys_insert_index {A : Type} (n : N) (k : str) (v : A) (l : list (str * A)) :
  Permutation (map fst (insert_index n k v l)) (k :: map fst l).
Proof.
  induction l as [|[k0 v0] l IH]; simpl; [reflexivity|].
  destruct (array_index k0) as [m|]; [|reflexivity].
  destruct (N.ltb m n); [|reflexivity].
  simpl. rewrite IH. apply perm_swap.
Qed.

Lemma put_NoDup {A : Type} (k : str) (v : A) (l : list (str * A)) :
  NoDup (map fst l) -> NoDup (map fst (put k v l)).
Proof.
  intros ND. unfold put. destruct (has_key k l) eqn:F.
  - now rewrite keys_replace_value.
  - assert (Hk : ~ In k (map fst l)).
    { intros H. apply has_key_In in H. congruence. }
    destruct (array_index k) as [n|].
    + apply (Permutation_NoDup (Permutation_sym (keys_insert_index n k v l))).
      now constructor.
    + rewrite map_app. apply NoDup_app_intro; [exact ND|constructor; [tauto|constructor]|].
      intros x Hx [E|[]]. subst x. contradiction.
Qed.

Lemma In_keys {A : Type} (k : str) (v : A) (l : list (str * A)) :
  In (k, v) l -> In k (map fst l).
Proof. intros H. change k with (fst (k, v)). now apply in_map. Qed.

(** What is left of an object after a property is set and deleted. *)
Lemma remove_put {A : Type} (k : str) (v : A) (l : list (str * A)) (x : str * A) :
  NoDup (map fst l) -> In x (remove k (put k v l)) -> In x l /\ fst x <> k.
Proof.
  intros ND H. pose proof (put_NoDup k v l ND) as ND'.
  destruct (remove_NoDup k _ ND') as (_ & R2 & _).
  assert (Hk : fst x <> k).
  { intros E. apply R2. destruct x as [k0 v0]. simpl in E. subst k0.
    exact (In_keys _ _ _ H). }
  split; [|exact Hk].
  apply In_remove, put_In in H as [E|H]; [|exact H]. subst x. now elim Hk.
Qed.

Lemma link_check_false (root : vnode) (array : bool) (entries : list (str * vnode))
    (pf : PluralForms) :
  link_check root array entries (VMessage pf) = Done false ->
  pathOfLinkedMessage pf = Ok None.
Proof.
  unfold link_check. destruct (pathOfLinkedMessage pf) as [[path|]|]; cbn [lift and_then];
    [|reflexivity|discriminate].
  destruct (messageLinkedTo path (Value root)) as [target|]; cbn [and_then]; [|discriminate].
  destruct (is_linked target) as [[|]|]; cbn [and_then]; try discriminate.
  destruct (has_full entries || array); discriminate.
Qed.

Lemma link_check_true (root : vnode) (array : bool) (entries : list (str * vnode))
    (v : vnode) :
  link_check root array entries v = Done true ->
  exists pf path target,
    v = VMessage pf /\ pathOfLinkedMessage pf = Ok (Some path)
    /\ messageLinkedTo path (Value root) = Done target
    /\ is_linked target = Done false
    /\ has_full entries = false /\ array = false.
Proof.
  unfold link_check. destruct v as [| | |pf|]; try discriminate.
  destruct (pathOfLinkedMessage pf) as [[path|]|] eqn:P; cbn [lift and_then];
    try discriminate.
  destruct (messageLinkedTo path (Value root)) as [target|] eqn:M; cbn [and_then];
    [|discriminate].
  destruct (is_linked target) as [[|]|] eqn:L; cbn [and_then]; try discriminate.
  destruct (has_full entries) eqn:F, array eqn:A; try discriminate.
  intros _. exists pf, path, target. repeat split; assumption.
Qed.

Lemma link_check_complete (root : vnode) (array : bool) (entries : list (str * vnode))
    (pf : PluralForms) (path : list str) (skip : bool) :
  pathOfLinkedMessage pf = Ok (Some path) ->
  link_check root array entries (VMessage pf) = Done skip -> skip = true.
Proof.
  unfold link_check. intros ->. cbn [lift and_then].
  destruct (messageLinkedTo path (Value root)) as [target|]; cbn [and_then]; [|discriminate].
  destruct (is_linked target) as [[|]|]; cbn [and_then]; try discriminate.
  destruct (has_full entries || array); [discriminate|]. intros H; now injection H.
Qed.

Section Invariant.
Variable root : vnode.
Variable commentsByKey : list (str * str).
Variable array : bool.
Variable entries : list (str * vnode).
Variable before : list (str * list str).
Variable commentForPath commentForKey : option str.
Variable commentsForFull : option (list (str * str)).

Let loop := each root commentsByKey array entries before commentForPath
                 commentForKey commentsForFull.

(** Every property of the object that the loop returns was converted from
    a property of the source that is not a linked locale message, and is
    not an object without properties. *)
Lemma each_converted (l : list (str * vnode)) :
  forall structured structured',
    loop l structured = Done structured' ->
    NoDup (map fst structured) ->
    NoDup (map fst structured')
    /\ forall k r, In (k, r) structured' ->
         In (k, r) structured
         \/ exists v cP cK cF,
              In (k, v) l
              /\ link_check root array entries v = Done false
              /\ _restructure root commentsByKey v cP cK cF = Done r
              /\ r <> SObj [].
Proof.
  induction l as [|[k v] l IH]; intros structured structured' H ND.
  - injection H as <-. auto.
  - apply each_step in H as [[_ H]|(Hl & cP & cK & cF & converted & C & H)].
    + destruct (IH _ _ H ND) as [ND' I]. split; [exact ND'|].
      intros k' r Hin. destruct (I k' r Hin) as [Hs|(v' & a & b & c & Hv & R)]; [auto|].
      right. exists v', a, b, c. split; [now right|exact R].
    + pose proof (put_NoDup k converted structured ND) as ND1.
      destruct (is_object v && no_properties converted) eqn:E.
      * destruct (remove_NoDup k _ ND1) as (ND2 & _).
        destruct (IH _ _ H ND2) as [ND' I]. split; [exact ND'|].
        intros k' r Hin. destruct (I k' r Hin) as [Hs|(v' & a & b & c & Hv & R)].
        -- left. exact (proj1 (remove_put k converted structured (k', r) ND Hs)).
        -- right. exists v', a, b, c. split; [now right|exact R].
      * destruct (IH _ _ H ND1) as [ND' I]. split; [exact ND'|].
        intros k' r Hin. destruct (I k' r Hin) as [Hs|(v' & a & b & c & Hv & R)].
        -- apply put_In in Hs as [Hs|Hs]; [|auto].
           injection Hs as -> ->. right. exists v, cP, cK, cF.
           split; [now left|split; [exact Hl|split; [exact C|]]].
           intros ->. destruct v; try discriminate C; simpl in E; discriminate E.
        -- right. exists v', a, b, c. split; [now right|exact R].
Qed.

(** The loop goes through every property of the source: one that it skips
    is a valid linked locale message, any other is converted. *)
Lemma each_visits (l : list (str * vnode)) :
  forall structured structured',
    loop l structured = Done structured' ->
    forall k v, In (k, v) l ->
      link_check root array entries v = Done true
      \/ (link_check root array entries v = Done false
          /\ exists cP cK cF r, _restructure root commentsByKey v cP cK cF = Done r).
Proof.
  induction l as [|[k0 v0] l IH]; intros structured structured' H k v Hin; [destruct Hin|].
  apply each_step in H as [[Hl H]|(Hl & cP & cK & cF & converted & C & H)].
  - destruct Hin as [E|Hin]; [injection E as -> ->; auto|exact (IH _ _ H k v Hin)].
  - destruct Hin as [E|Hin]; [injection E as -> ->; eauto 10|exact (IH _ _ H k v Hin)].
Qed.

End Invariant.

Lemma _restructure_Done_node (root : vnode) (commentsByKey : list (str * str))
    (array : bool) (entries : list (str * vnode)) (before : list (str * list str))
    (cP cK cF : option str) (st : Structured) :
  _restructure root commentsByKey (VNode array entries before) cP cK cF = Done st ->
  exists commentsForFull structured,
    st = SObj structured
    /\ each root commentsByKey array entries before cP cK commentsForFull entries []
       = Done structured.
Proof.
  rewrite _restructure_node.
  destruct (if has_full entries
            then comments <- generateCommentsForFull entries ;; Done (Some comments)
            else Done None) as [commentsForFull|]; cbn [and_then]; [|discriminate].
  destruct (each _ _ _ _ _ _ _ _ entries []) as [structured|] eqn:E; cbn [and_then];
    [|discriminate].
  intros H; injection H as <-. eauto.
Qed.

(** The strings of the Structured JSON come from the messages of the
    source that are not linked locale messages. *)
Lemma _restructure_sound (root : vnode) (commentsByKey : list (str * str))
    (value : vnode) :
  forall cP cK cF st,
    _restructure root commentsByKey value cP cK cF = Done st ->
    forall p string comment, s_at st p (SLeaf string comment) ->
      exists pf, v_at value p (VMessage pf)
                 /\ toTransifex pf = Ok string
                 /\ (p <> [] -> pathOfLinkedMessage pf = Ok None).
Proof.
  induction value as [| |s|pf|array entries before IH] using vnode_induction;
    intros cP cK cF st H p string comment Hat; try discriminate H.
  - cbn [_restructure] in H.
    destruct (toTransifex pf) as [s|] eqn:T; [|discriminate]. cbn [lift and_then] in H.
    injection H as <-. inversion Hat; subst.
    exists pf. split; [constructor|split; [exact T|congruence]].
  - apply _restructure_Done_node in H as (cff & structured & -> & E).
    destruct (each_converted _ _ _ _ _ _ _ _ _ _ _ E (NoDup_nil _)) as [_ I].
    inversion Hat as [|? k r p' ? Hin Hat']; subst.
    destruct (I k r Hin) as [[]|(v & a & b & c & Hv & Hl & R & _)].
    pose proof (proj1 (Forall_forall _ _) IH _ Hv) as IHv. simpl in IHv.
    destruct (IHv _ _ _ _ R _ _ _ Hat') as (pf & Vat & T & L).
    exists pf. split; [econstructor; eauto|split; [exact T|]].
    intros _. destruct p' as [|k' p'']; [|apply L; discriminate].
    inversion Vat; subst. exact (link_check_false _ _ _ _ Hl).
Qed.

(** No object of the Structured JSON is without properties, the outermost
    object apart. *)
Lemma _restructure_filled (root : vnode) (commentsByKey : list (str * str))
    (value : vnode) :
  forall cP cK cF st,
    _restructure root commentsByKey value cP cK cF = Done st ->
    forall p, p <> [] -> ~ s_at st p (SObj []).
Proof.
  induction value as [| |s|pf|array entries before IH] using vnode_induction;
    intros cP cK cF st H p Hp Hat; try discriminate H.
  - cbn [_restructure] in H.
    destruct (toTransifex pf) as [s|] eqn:T; [|discriminate]. cbn [lift and_then] in H.
    injection H as <-. inversion Hat.
  - apply _restructure_Done_node in H as (cff & structured & -> & E).
    destruct (each_converted _ _ _ _ _ _ _ _ _ _ _ E (NoDup_nil _)) as [_ I].
    inversion Hat as [|? k r p' ? Hin Hat']; subst; [congruence|].
    destruct (I k r Hin) as [[]|(v & a & b & c & Hv & Hl & R & Hne)].
    destruct p' as [|k' p''].
    + inversion Hat'; subst. congruence.
    + pose proof (proj1 (Forall_forall _ _) IH _ Hv) as IHv. simpl in IHv.
      apply (IHv _ _ _ _ R (k' :: p'')); [discriminate|exact Hat'].
Qed.

(** Every linked locale message of a source that [_restructure] accepts
    is valid. *)
Lemma _restructure_links (root : vnode) (commentsByKey : list (str * str))
    (value : vnode) :
  forall cP cK cF st,
    _restructure root commentsByKey value cP cK cF = Done st ->
    forall p array entries before k pf path,
      v_at value p (VNode array entries before) ->
      In (k, VMessage pf) entries ->
      pathOfLinkedMessage pf = Ok (Some path) ->
      array = false /\ has_full entries = false
      /\ exists target, messageLinkedTo path (Value root) = Done target
                        /\ is_linked target = Done false.
Proof.
  induction value as [| |s|pf0|array0 entries0 before0 IH] using vnode_induction;
    intros cP cK cF st H p array entries before k pf path Vat Hin Hp;
    try discriminate H.
  - inversion Vat.
  - apply _restructure_Done_node in H as (cff & structured & -> & E).
    inversion Vat as [|? ? ? k1 v1 p1 ? Hin1 Vat1]; subst.
    + destruct (each_visits _ _ _ _ _ _ _ _ _ _ _ E k _ Hin) as [Hl|[Hl _]].
      * apply link_check_true in Hl as (pf' & path' & target & Ev & Hp' & M & L & F & A).
        injection Ev as <-. rewrite Hp in Hp'. injection Hp' as <-. eauto 10.
      * discriminate (link_check_complete _ _ _ _ _ _ Hp Hl).
    + destruct (each_visits _ _ _ _ _ _ _ _ _ _ _ E k1 _ Hin1) as [Hl|[Hl R]].
      * apply link_check_true in Hl as (pf' & _ & _ & -> & _). inversion Vat1.
      * destruct R as (a & b & c & r & R).
        pose proof (proj1 (Forall_forall _ _) IH _ Hin1) as IHv. simpl in IHv.
        exact (IHv _ _ _ _ R _ _ _ _ _ _ _ Vat1 Hin Hp).
Qed.

(** The comments of a component interpolation are written only if each of
    its values is a message. *)
Lemma generateCommentsForFull_messages (entries : list (str * vnode))
    (comments : list (str * str)) :
  generateCommentsForFull entries = Done comments ->
  forall k v, In (k, v) entries -> exists pf, v = VMessage pf.
Proof.
  unfold generateCommentsForFull. intros H k v Hin.
  destruct (message_of v) as [pf|] eqn:M.
  - destruct v; try discriminate M. eauto.
  - exfalso.
    assert (N : In (k, Interp.NotMessage)
                  (map (fun e => (fst e, message_of (snd e))) entries)).
    { apply in_map_iff. exists (k, v). split; [simpl; now rewrite M|exact Hin]. }
    unfold Interp.fromMessages in H.
    rewrite (make_nodes_invalid _ k [] N) in H. discriminate H.
Qed.

(** A component interpolation that [_restructure] accepts is flat, and
    holds no linked locale message. *)
Lemma _restructure_flat (root : vnode) (commentsByKey : list (str * str))
    (value : vnode) :
  forall cP cK cF st,
    _restructure root commentsByKey value cP cK cF = Done st ->
    forall p array entries before k v,
      v_at value p (VNode array entries before) ->
      has_full entries = true ->
      In (k, v) entries ->
      exists pf, v = VMessage pf /\ pathOfLinkedMessage pf = Ok None.
Proof.
  induction value as [| |s|pf0|array0 entries0 before0 IH] using vnode_induction;
    intros cP cK cF st H p array entries before k v Vat Hf Hin;
    try discriminate H.
  - inversion Vat.
  - pose proof H as H0.
    apply _restructure_Done_node in H as (cff & structured & -> & E).
    inversion Vat as [|? ? ? k1 v1 p1 ? Hin1 Vat1]; subst.
    + rewrite _restructure_node, Hf in H0.
      destruct (generateCommentsForFull entries) as [comments|] eqn:G;
        [|discriminate H0].
      destruct (generateCommentsForFull_messages _ _ G k v Hin) as [pf ->].
      exists pf. split; [reflexivity|].
      destruct (each_visits _ _ _ _ _ _ _ _ _ _ _ E k _ Hin) as [Hl|[Hl _]].
      * apply link_check_true in Hl as (_ & _ & _ & _ & _ & _ & _ & F & _).
        congruence.
      * exact (link_check_false _ _ _ _ Hl).
    + destruct (each_visits _ _ _ _ _ _ _ _ _ _ _ E k1 _ Hin1) as [Hl|[Hl R]].
      * apply link_check_true in Hl as (pf' & _ & _ & -> & _). inversion Vat1.
      * destruct R as (a & b & c & r & R).
        pose proof (proj1 (Forall_forall _ _) IH _ Hin1) as IHv. simpl in IHv.
        exact (IHv _ _ _ _ R _ _ _ _ _ _ Vat1 Hf Hin).
Qed.

End StructureFacts.
Import StructureFacts.

(** Every string of the Structured JSON that [restructure] returns is the
    Transifex string of the message that the source has at the same path,
    and that message is not a linked locale message. *)
Theorem restructure_strings (messages : Messages.vnode) (before_all : option (list str))
    (st : Restructure.Structured) :
  Restructure.restructure messages before_all = Done st ->
  forall p string comment, s_at st p (Restructure.SLeaf string comment) ->
    exists pf, v_at messages p (Messages.VMessage pf)
               /\ Plural.toTransifex pf = Ok string
               /\ (p <> [] -> Linked.pathOfLinkedMessage pf = Ok None).
Proof.
  unfold Restructure.restructure. destruct before_all as [comments|]; [|discriminate].
  intros H. exact (_restructure_sound _ _ _ _ _ _ _ H).
Qed.

(** The Structured JSON that [restructure] returns holds no object without
    properties, unless it is such an object itself. *)
Theorem restructure_no_empty_object (messages : Messages.vnode)
    (before_all : option (list str)) (st : Restructure.Structured) :
  Restructure.restructure messages before_all = Done st ->
  forall p, p <> [] -> ~ s_at st p (Restructure.SObj []).
Proof.
  unfold Restructure.restructure. destruct before_all as [comments|]; [|discriminate].
  intros H. exact (_restructure_filled _ _ _ _ _ _ _ H).
Qed.

(** [restructure] returns only if every linked locale message of the source
    has passed the three tests of the script: it is a property of an
    object that is neither an array nor a component interpolation; each
    step of its path, read from the root through the properties that the
    values have or inherit, gives a value that is not null; and what the
    path reaches is not a linked locale message itself. What the path
    reaches need not be a message: the script tests no more than this. *)
Theorem restructure_links (messages : Messages.vnode) (before_all : option (list str))
    (st : Restructure.Structured) :
  Restructure.restructure messages before_all = Done st ->
  forall p array entries before k pf path,
    v_at messages p (Messages.VNode array entries before) ->
    In (k, Messages.VMessage pf) entries ->
    Linked.pathOfLinkedMessage pf = Ok (Some path) ->
    array = false /\ Messages.has_full entries = false
    /\ exists target,
         Restructure.messageLinkedTo path (Restructure.Value messages) = Done target
         /\ Restructure.is_linked target = Done false.
Proof.
  unfold Restructure.restructure. destruct before_all as [comments|]; [|discriminate].
  intros H. exact (_restructure_links _ _ _ _ _ _ _ H).
Qed.

(** [restructure] returns only if every component interpolation of the
    source is flat: each value of an object with the key [full] is a
    message, and none of them is a linked locale message. *)
Theorem restructure_groups_flat (messages : Messages.vnode)
    (before_all : option (list str)) (st : Restructure.Structured) :
  Restructure.restructure messages before_all = Done st ->
  forall p array entries before k v,
    v_at messages p (Messages.VNode array entries before) ->
    Messages.has_full entries = true ->
    In (k, v) entries ->
    exists pf, v = Messages.VMessage pf /\ Linked.pathOfLinkedMessage pf = Ok None.
Proof.
  unfold Restructure.restructure. destruct before_all as [comments|]; [|discriminate].
  intros H. exact (_restructure_flat _ _ _ _ _ _ _ H).
Qed.

(** A linked locale message whose path leads to a method without
    parameters, to a form of a message or to a length passes the tests:
    [restructure] returns, and the link is left out of the Structured JSON
    as any other. A path that leads to nothing is rejected. *)
Example link_to_no_message :
  let linking (link : string) :=
    Restructure.restructure
      (Messages.VNode false
         [(u "title", Messages.VMessage (Plural.mkPluralForms [u "Title"]));
          (u "again", Messages.VMessage (Plural.mkPluralForms [u link]))] [])
      (Some []) in
  let title_only :=
    Done (Restructure.SObj [(u "title", Restructure.SLeaf (u "Title") None)]) in
  linking "@:title"%string = title_only
  /\ linking "@:toString"%string = title_only
  /\ linking "@:title.0"%string = title_only
  /\ linking "@:title.length"%string = title_only
  /\ linking "@:constructor"%string = Fail (Earlier TypeError)
  /\ linking "@:subtitle"%string = Fail link_to_missing_message
  /\ linking "@:again"%string = Fail link_to_linked_message.
Proof. repeat split. Qed.

(** ** Nothing is lost, and the strings are read back *)

Module RoundFacts.
Import Plural Linked Messages Comments Restructure Destructure.

(** The keys of every object of the source are pairwise distinct, as the
    keys of an object are. *)
Fixpoint distinct_keys (v : vnode) : bool :=
  match v with
  | VNode _ entries _ =>
    distinct (map fst entries) && forallb (fun e => distinct_keys (snd e)) entries
  | _ => true
  end.

Lemma In_put_new {A : Type} (k : str) (v : A) (l : list (str * A)) :
  ~ In k (map fst l) -> In (k, v) (put k v l) /\ forall x, In x l -> In x (put k v l).
Proof.
  intros Hk. unfold put.
  assert (F : has_key k l = false).
  { destruct (has_key k l) eqn:F; [|reflexivity]. apply has_key_In in F. contradiction. }
  rewrite F. destruct (array_index k) as [n|].
  - clear F Hk. induction l as [|[k0 v0] l [IH1 IH2]]; simpl; [split; [now left|tauto]|].
    destruct (array_index k0) as [m|]; [destruct (N.ltb m n)|]; simpl.
    + split; [now right|]. intros x [<-|H]; auto.
    + split; [now left|]. intros x H; now right.
    + split; [now left|]. intros x H; now right.
  - split; [apply in_or_app; right; now left|].
    intros x H. apply in_or_app. now left.
Qed.

Lemma In_remove_other {A : Type} (k : str) (l : list (str * A)) (x : str * A) :
  In x l -> fst x <> k -> In x (remove k l).
Proof.
  intros H Hk. induction l as [|[k0 v0] l IH]; [destruct H|]. simpl.
  destruct (str_eqb k k0) eqn:E.
  - apply str_eqb_eq in E; subst k0. destruct H as [<-|H]; [now elim Hk|exact H].
  - destruct H as [<-|H]; [now left|right; auto].
Qed.

Section Kept.
Variable root : vnode.
Variable commentsByKey : list (str * str).
Variable array : bool.
Variable entries : list (str * vnode).
Variable before : list (str * list str).
Variable commentForPath commentForKey : option str.
Variable commentsForFull : option (list (str * str)).

Let loop := each root commentsByKey array entries before commentForPath
                 commentForKey commentsForFull.

(** With distinct keys, what the loop has set stays. *)
Lemma each_keeps (l : list (str * vnode)) :
  forall structured structured',
    loop l structured = Done structured' ->
    NoDup (map fst l) ->
    (forall k, In k (map fst l) -> ~ In k (map fst structured)) ->
    (forall x, In x structured -> In x structured')
    /\ forall k v, In (k, v) l -> link_check root array entries v = Done false ->
         exists cP cK cF r,
           _restructure root commentsByKey v cP cK cF = Done r
           /\ (In (k, r) structured' \/ r = SObj []).
Proof.
  induction l as [|[k v] l IH]; intros structured structured' H ND Hd.
  - injection H as <-. split; [auto|intros k v []].
  - simpl in ND. inversion ND as [|? ? Hk ND']; subst.
    apply each_step in H as [[Hl H]|(Hl & cP & cK & cF & converted & C & H)].
    + destruct (IH _ _ H ND') as [I1 I2]; [intros k' Hk'; apply Hd; now right|].
      split; [exact I1|]. intros k' v' [E|Hin] Hl'.
      * injection E as -> ->. congruence.
      * exact (I2 k' v' Hin Hl').
    + assert (Hnew : ~ In k (map fst structured)) by (apply Hd; now left).
      destruct (In_put_new k converted structured Hnew) as [P1 P2].
      assert (Kput : forall k', In k' (map fst (put k converted structured)) ->
                                k' = k \/ In k' (map fst structured)).
      { intros k' Hk'. apply in_map_iff in Hk' as ([k1 r1] & <- & Hx).
        apply put_In in Hx as [E|Hx]; [injection E as -> _; now left|].
        right. exact (In_keys _ _ _ Hx). }
      destruct (is_object v && no_properties converted) eqn:E.
      * destruct (IH _ _ H ND') as [I1 I2].
        { intros k' Hk' Hin. apply keys_remove in Hin.
          apply Kput in Hin as [->|Hin]; [contradiction|].
          exact (Hd k' (or_intror Hk') Hin). }
        split.
        -- intros x Hx. apply I1. apply In_remove_other; [now apply P2|].
           intros Ex. apply Hnew. rewrite <- Ex. destruct x. exact (In_keys _ _ _ Hx).
        -- intros k' v' [Ev|Hin] Hl'; [|exact (I2 k' v' Hin Hl')].
           injection Ev as -> ->. exists cP, cK, cF, converted. split; [exact C|].
           right. apply andb_true_iff in E as [_ E].
           destruct converted as [|es]; [discriminate|]. simpl in E.
           apply Nat.eqb_eq in E. destruct es; [reflexivity|discriminate].
      * destruct (IH _ _ H ND') as [I1 I2].
        { intros k' Hk' Hin. apply Kput in Hin as [->|Hin]; [contradiction|].
          exact (Hd k' (or_intror Hk') Hin). }
        split; [intros x Hx; apply I1; now apply P2|].
        intros k' v' [Ev|Hin] Hl'; [|exact (I2 k' v' Hin Hl')].
        injection Ev as -> ->. exists cP, cK, cF, converted. split; [exact C|].
        left. now apply I1.
Qed.

End Kept.

(** With distinct keys, every message of the source that is not a linked
    locale message has its string in the Structured JSON. *)
Lemma _restructure_complete (root : vnode) (commentsByKey : list (str * str))
    (value : vnode) :
  forall cP cK cF st,
    _restructure root commentsByKey value cP cK cF = Done st ->
    distinct_keys value = true ->
    forall p pf, v_at value p (VMessage pf) ->
      (p <> [] -> pathOfLinkedMessage pf = Ok None) ->
      exists string comment,
        s_at st p (SLeaf string comment) /\ toTransifex pf = Ok string.
Proof.
  induction value as [| |s|pf0|array entries before IH] using vnode_induction;
    intros cP cK cF st H D p pf Vat Hp; try discriminate H.
  - inversion Vat; subst. cbn [_restructure] in H.
    destruct (toTransifex pf) as [s|] eqn:T; [|discriminate]. cbn [lift and_then] in H.
    injection H as <-. exists s, (comment_of cP cK cF). split; [constructor|reflexivity].
  - apply _restructure_Done_node in H as (cff & structured & -> & E).
    simpl in D. apply andb_true_iff in D as [D1 D2].
    destruct (each_keeps _ _ _ _ _ _ _ _ _ _ _ E (distinct_NoDup _ D1)) as [_ I];
      [intros k _ []|].
    inversion Vat as [|? ? ? k v p' ? Hin Vat']; subst.
    assert (Hl : link_check root array entries v = Done false).
    { destruct (each_visits _ _ _ _ _ _ _ _ _ _ _ E k v Hin) as [Hl|[Hl _]];
        [|exact Hl].
      apply link_check_true in Hl as (pf' & path & _ & -> & P & _).
      inversion Vat'; subst. rewrite Hp in P; [discriminate|discriminate]. }
    destruct (I k v Hin Hl) as (a & b & c & r & R & Hr).
    pose proof (proj1 (Forall_forall _ _) IH _ Hin) as IHv. simpl in IHv.
    destruct (IHv _ _ _ _ R (proj1 (forallb_forall _ _) D2 _ Hin) p' pf Vat')
      as (string & comment & Sat & T).
    { intros _. destruct p' as [|k' p'']; [|apply Hp; discriminate].
      inversion Vat'; subst. exact (link_check_false _ _ _ _ Hl). }
    exists string, comment. split; [|exact T].
    destruct Hr as [Hr| ->]; [econstructor; eauto|].
    inversion Sat as [|? ? ? ? ? Hin' _]; subst. destruct Hin'.
Qed.

(** *** Reading the Structured JSON *)

(** What [JSON.parse] reads from the text that [JSON.stringify] writes for
    a value of the Structured JSON. *)
Fixpoint to_parsed (s : Structured) : parsed :=
  match s with
  | SLeaf string developer_comment =>
    PObject ((u "string", PString string)
             :: match developer_comment with
                | Some comment => [(u "developer_comment", PString comment)]
                | None => []
                end)
  | SObj entries => PObject (map (fun e => (fst e, to_parsed (snd e))) entries)
  end.

Inductive r_at : revived -> list str -> revived -> Prop :=
| r_here (r : revived) : r_at r [] r
| r_step (entries : list (str * revived)) (k : str) (r : revived)
         (p : list str) (w : revived) :
    In (k, r) entries -> r_at r p w -> r_at (RObject entries) (k :: p) w.

Definition each_entry (intl : str -> list str) (locale : str) :=
  fix each (l : list (str * parsed)) : result (list (str * revived)) :=
    match l with
    | [] => Ok []
    | (k, v) :: l' =>
      v' <- destructure intl locale v ;;
      more <- each l' ;;
      Ok ((k, v') :: more)
    end.

Lemma each_entry_cons (intl : str -> list str) (locale : str) (k : str) (v : parsed)
    (l : list (str * parsed)) :
  each_entry intl locale ((k, v) :: l)
  = (v' <- destructure intl locale v ;;
     more <- each_entry intl locale l ;;
     Ok ((k, v') :: more)).
Proof. reflexivity. Qed.

Lemma destructure_object (intl : str -> list str) (locale : str)
    (entries : list (str * parsed)) :
  destructure intl locale (PObject entries)
  = (entries' <- each_entry intl locale entries ;; reviver intl locale (RObject entries')).
Proof. reflexivity. Qed.

Definition is_message_or_object (r : revived) : Prop :=
  match r with
  | RForms _ | RObject _ => True
  | _ => False
  end.

(** [destructure] on Structured JSON: every string becomes the message
    that [fromTransifex] makes of it, at the same path. *)
Lemma destructure_structured (intl : str -> list str) (locale : str) (st : Structured) :
  (forall p string comment, s_at st p (SLeaf string comment) ->
     exists pf, fromTransifex intl string locale = Ok pf) ->
  exists rv,
    destructure intl locale (to_parsed st) = Ok rv
    /\ is_message_or_object rv
    /\ forall p string comment, s_at st p (SLeaf string comment) ->
         exists pf, fromTransifex intl string locale = Ok pf /\ r_at rv p (RForms pf).
Proof.
  induction st as [string comment|entries IH] using Structured_induction; intros H.
  - destruct (H [] string comment (s_here _)) as [pf F].
    exists (RForms pf). split; [|split; [exact I|]].
    + cbn [to_parsed]. rewrite destructure_object.
      destruct comment as [c|]; cbn; rewrite F; reflexivity.
    + intros p s c Hat. inversion Hat; subst. exists pf. split; [exact F|constructor].
  - cbn [to_parsed]. rewrite destructure_object.
    assert (L : exists entries',
               each_entry intl locale (map (fun e => (fst e, to_parsed (snd e))) entries)
               = Ok entries'
               /\ (forall k r, In (k, r) entries' -> is_message_or_object r)
               /\ forall k s p string comment,
                    In (k, s) entries -> s_at s p (SLeaf string comment) ->
                    exists pf r, fromTransifex intl string locale = Ok pf
                                 /\ In (k, r) entries' /\ r_at r p (RForms pf)).
    { clear - IH H. induction entries as [|[k s] entries IHe].
      - exists []. split; [reflexivity|split; [intros k r []|intros k s p a b []]].
      - inversion IH as [|? ? IHs IHrest]; subst. simpl in IHs.
        destruct IHs as (rv & D & M & R).
        { intros p string comment Hat. apply (H (k :: p) string comment).
          econstructor; [now left|exact Hat]. }
        destruct (IHe IHrest) as (entries' & E & M' & R').
        { intros p string comment Hat. apply (H p string comment).
          inversion Hat; subst. econstructor; [right; eassumption|eassumption]. }
        exists ((k, rv) :: entries'). split; [|split].
        + cbn [map fst snd]. rewrite each_entry_cons, D. cbn [bind].
          rewrite E. reflexivity.
        + intros k' r [Er|Hin]; [injection Er as <- <-; exact M|exact (M' k' r Hin)].
        + intros k' s' p string comment [Es|Hin] Hat.
          * injection Es as <- <-. destruct (R p string comment Hat) as (pf & F & Rat).
            exists pf, rv. split; [exact F|split; [now left|exact Rat]].
          * destruct (R' k' s' p string comment Hin Hat) as (pf & r & F & Hr & Rat).
            exists pf, r. split; [exact F|split; [now right|exact Rat]]. }
    destruct L as (entries' & E & M & R). rewrite E. cbn [bind].
    exists (RObject entries'). split; [|split; [exact I|]].
    + unfold reviver. destruct (assoc (u "string") entries') as [r|] eqn:A; [|reflexivity].
      apply assoc_In in A. apply M in A. destruct r; try reflexivity; destruct A.
    + intros p string comment Hat. inversion Hat as [|? k s p' ? Hin Hat']; subst.
      destruct (R k s p' string comment Hin Hat') as (pf & r & F & Hr & Rat).
      exists pf. split; [exact F|]. econstructor; eauto.
Qed.

(** [fromTransifex] gives back the message that [toTransifex] encoded, when
    the white space of the message is plain. *)
Lemma fromTransifex_back (intl : str -> list str) (locale : str) (pf : PluralForms)
    (string : str) :
  new (forms pf) = Ok pf ->
  toTransifex pf = Ok string ->
  (forall f, In f (forms pf) -> plain_spacing f = true) ->
  (length (forms pf) = 2 ->
   exists l, Locales.locale_lookup intl locale = Some l
             /\ Locales.pluralCategories l = [u "one"; u "other"]) ->
  fromTransifex intl string locale = Ok pf.
Proof.
  intros Hnew HT Hs Hl.
  assert (HF : forall f, In f (forms pf) -> Flat f).
  { intros f Hf. destruct (new_forms_parse _ _ Hnew f Hf) as [vars Hv].
    eapply parseVars_Flat; eauto. }
  unfold toTransifex in HT.
  destruct (check_transifex_forms (forms pf)) as [[]|]; [|discriminate].
  cbn [bind] in HT. destruct pf as [fs]. cbn [forms] in *.
  destruct fs as [|A [|B [|C fs]]]; try discriminate.
  - cbn [length Nat.ltb Nat.leb when_ bind] in HT. injection HT as <-.
    unfold fromTransifex. rewrite (icuMatch_flat A (HF A (or_introl eq_refl))).
    cbn [bind map]. rewrite (tidy_id A (Hs A (or_introl eq_refl))). exact Hnew.
  - cbn [length Nat.ltb Nat.leb when_ bind] in HT. injection HT as <-.
    assert (FA : Flat A) by (apply HF; simpl; auto).
    assert (FB : Flat B) by (apply HF; simpl; auto).
    destruct (Hl eq_refl) as (l & Hlook & Hcats).
    pose (s := u "{count, plural, one {" ++ A ++ u "} other {" ++ B ++ u "}}").
    change (fromTransifex intl s locale = Ok {| forms := [A; B] |}).
    assert (Hm : icuMatch s = true).
    { unfold icuMatch.
      assert (H1 : prefix icu_open s = true) by reflexivity.
      assert (H2 : (length icu_open + 2 <=? length s) = true) by reflexivity.
      rewrite H1, H2. unfold s. rewrite !last_char_app. reflexivity. }
    assert (Hb : plural_blocks (length icu_open) s = Ok ([u "one"; u "other"], [A; B])).
    { change s with
        (icu_open
         ++ space :: u "one" ++ space :: open_brace :: A ++ close_brace
            :: (space :: u "other" ++ space :: open_brace :: B ++ close_brace
                :: [close_brace])).
      rewrite plural_blocks_skip.
      rewrite plural_blocks_block; [|discriminate|reflexivity|exact FA|discriminate].
      rewrite plural_blocks_block; [|discriminate|reflexivity|exact FB|discriminate].
      reflexivity. }
    unfold fromTransifex. rewrite Hm, Hb. cbn [bind fst snd].
    rewrite Hlook, Hcats.
    change (sort [u "one"; u "other"]) with [u "one"; u "other"].
    rewrite equals_refl. cbn [negb when_ bind map].
    rewrite (tidy_id A (Hs A (or_introl eq_refl))).
    rewrite (tidy_id B (Hs B (or_intror (or_introl eq_refl)))). exact Hnew.
Qed.

End RoundFacts.
Import RoundFacts.

(** [restructure] loses no message: when the keys of every object of the
    source are distinct, each message of the source that is not a linked
    locale message has its Transifex string in the Structured JSON, at the
    same path. *)
Theorem restructure_complete (messages : Messages.vnode) (before_all : option (list str))
    (st : Restructure.Structured) :
  Restructure.restructure messages before_all = Done st ->
  distinct_keys messages = true ->
  forall p pf, v_at messages p (Messages.VMessage pf) ->
    (p <> [] -> Linked.pathOfLinkedMessage pf = Ok None) ->
    exists string comment,
      s_at st p (Restructure.SLeaf string comment)
      /\ Plural.toTransifex pf = Ok string.
Proof.
  unfold Restructure.restructure. destruct before_all as [comments|]; [|discriminate].
  intros H. exact (_restructure_complete _ _ _ _ _ _ _ H).
Qed.

(** What [destructure] reads from the Structured JSON that [restructure]
    wrote is the source again: each string is read back as the message
    that the source has at its path, when the messages of the source were
    built by the constructor and have plain white space, and the locale
    has the categories [one] and [other] for the messages with two
    forms. *)
Theorem destructure_restructure (intl : str -> list str) (locale : str)
    (messages : Messages.vnode) (before_all : option (list str))
    (st : Restructure.Structured) :
  Restructure.restructure messages before_all = Done st ->
  (forall p pf, v_at messages p (Messages.VMessage pf) ->
     Plural.new (Plural.forms pf) = Ok pf
     /\ (forall f, In f (Plural.forms pf) -> plain_spacing f = true)
     /\ (length (Plural.forms pf) = 2 ->
         exists l, Locales.locale_lookup intl locale = Some l
                   /\ Locales.pluralCategories l = [u "one"; u "other"])) ->
  exists rv,
    Destructure.destructure intl locale (to_parsed st) = Ok rv
    /\ forall p string comment, s_at st p (Restructure.SLeaf string comment) ->
         exists pf, v_at messages p (Messages.VMessage pf)
                    /\ r_at rv p (Destructure.RForms pf).
Proof.
  intros H C.
  assert (B : forall p string comment, s_at st p (Restructure.SLeaf string comment) ->
              exists pf, v_at messages p (Messages.VMessage pf)
                         /\ Plural.fromTransifex intl string locale = Ok pf).
  { intros p string comment Hat.
    unfold Restructure.restructure in H. destruct before_all as [comments|]; [|discriminate].
    destruct (_restructure_sound _ _ _ _ _ _ _ H p string comment Hat) as (pf & V & T & _).
    destruct (C p pf V) as (Hn & Hs & Hl).
    exists pf. split; [exact V|]. exact (fromTransifex_back intl locale pf string Hn T Hs Hl). }
  destruct (destructure_structured intl locale st) as (rv & D & _ & R).
  { intros p string comment Hat. destruct (B p string comment Hat) as (pf & _ & F). eauto. }
  exists rv. split; [exact D|].
  intros p string comment Hat.
  destruct (B p string comment Hat) as (pf & V & F).
  destruct (R p string comment Hat) as (pf' & F' & Rat).
  rewrite F in F'. injection F' as <-. eauto.
Qed.

(** ** An example: the messages of a component *)

Definition guide_entries : list (str * Messages.vnode) :=
  [ (u "title", Messages.VMessage (Plural.mkPluralForms [u "Title"]));
    (u "again", Messages.VMessage (Plural.mkPluralForms [u "@:title"]));
    (u "rows", Messages.VMessage (Plural.mkPluralForms [u "{count} row"; u "{count} rows"]));
    (u "links", Messages.VNode false
                  [(u "t", Messages.VMessage (Plural.mkPluralForms [u "@:title"]))] []);
    (u "steps", Messages.VNode true
                  [(u "0", Messages.VMessage (Plural.mkPluralForms [u "one"]));
                   (u "1", Messages.VMessage (Plural.mkPluralForms [u "two"]))] []) ].

Definition guide : Messages.vnode := Messages.VNode false guide_entries [].

Definition guide_comments : option (list str) := Some [u "rows: number of rows"].

Definition guide_structured : Restructure.Structured :=
  Restructure.SObj
    [ (u "title", Restructure.SLeaf (u "Title") None);
      (u "rows",
       Restructure.SLeaf (u "{count, plural, one {{count} row} other {{count} rows}}")
                         (Some (u "number of rows")));
      (u "steps",
       Restructure.SObj [ (u "0", Restructure.SLeaf (u "one") None);
                          (u "1", Restructure.SLeaf (u "two") None) ]) ].

Lemma restructure_strings_witness :
  exists pf, v_at guide [u "rows"] (Messages.VMessage pf)
             /\ Plural.toTransifex pf
                = Ok (u "{count, plural, one {{count} row} other {{count} rows}}")
             /\ ([u "rows"] <> [] -> Linked.pathOfLinkedMessage pf = Ok None).
Proof.
  apply (restructure_strings guide guide_comments guide_structured eq_refl
           [u "rows"] _ (Some (u "number of rows"))).
  eapply s_step; [right; left; reflexivity|apply s_here].
Defined.

Lemma restructure_no_empty_object_witness :
  ~ s_at guide_structured [u "links"] (Restructure.SObj []).
Proof.
  apply (restructure_no_empty_object guide guide_comments guide_structured eq_refl).
  discriminate.
Defined.

Lemma restructure_links_witness :
  false = false /\ Messages.has_full guide_entries = false
  /\ exists target,
       Restructure.messageLinkedTo [u "title"] (Restructure.Value guide) = Done target
       /\ Restructure.is_linked target = Done false.
Proof.
  apply (restructure_links guide guide_comments guide_structured eq_refl
           [] false guide_entries [] (u "again") (Plural.mkPluralForms [u "@:title"])
           [u "title"]).
  - apply v_here.
  - right; left; reflexivity.
  - reflexivity.
Defined.

Definition tour_group : list (str * Messages.vnode) :=
  [ (u "full", Messages.VMessage (Plural.mkPluralForms [u "Go to {page}."]));
    (u "page", Messages.VMessage (Plural.mkPluralForms [u "the page"])) ].

Definition tour : Messages.vnode :=
  Messages.VNode false [(u "intro", Messages.VNode false tour_group [])] [].

Definition tour_structured : Restructure.Structured :=
  Eval vm_compute in
    match Restructure.restructure tour (Some []) with
    | Done st => st
    | Fail _ => Restructure.SObj []
    end.

Lemma restructure_groups_flat_witness :
  exists pf,
    Messages.VMessage (Plural.mkPluralForms [u "the page"]) = Messages.VMessage pf
    /\ Linked.pathOfLinkedMessage pf = Ok None.
Proof.
  apply (restructure_groups_flat tour (Some []) tour_structured eq_refl
           [u "intro"] false tour_group [] (u "page")).
  - eapply v_step; [left; reflexivity|apply v_here].
  - reflexivity.
  - right; left; reflexivity.
Defined.

(** A component interpolation that holds an object, or a linked locale
    message, is rejected, as is a linked locale message in an array. *)
Example group_must_be_flat :
  Restructure.restructure
    (Messages.VNode false
       [(u "intro",
         Messages.VNode false
           [(u "full", Messages.VMessage (Plural.mkPluralForms [u "Go to {page}."]));
            (u "page",
             Messages.VNode false
               [(u "name", Messages.VMessage (Plural.mkPluralForms [u "the page"]))] [])]
           [])] [])
    (Some [])
  = Fail (Earlier invalid_message)
  /\ Restructure.restructure
       (Messages.VNode false
          [(u "title", Messages.VMessage (Plural.mkPluralForms [u "Title"]));
           (u "intro",
            Messages.VNode false
              [(u "full", Messages.VMessage (Plural.mkPluralForms [u "Go to {page}."]));
               (u "page", Messages.VMessage (Plural.mkPluralForms [u "@:title"]))] [])]
          [])
       (Some [])
     = Fail link_in_group_or_array
  /\ Restructure.restructure
       (Messages.VNode false
          [(u "title", Messages.VMessage (Plural.mkPluralForms [u "Title"]));
           (u "steps",
            Messages.VNode true
              [(u "0", Messages.VMessage (Plural.mkPluralForms [u "@:title"]))] [])]
          [])
       (Some [])
     = Fail link_in_group_or_array.
Proof. repeat split. Qed.

Lemma restructure_complete_witness :
  exists string comment,
    s_at guide_structured [u "steps"; u "1"] (Restructure.SLeaf string comment)
    /\ Plural.toTransifex (Plural.mkPluralForms [u "two"]) = Ok string.
Proof.
  apply (restructure_complete guide guide_comments guide_structured eq_refl eq_refl).
  - eapply v_step; [do 4 right; left; reflexivity|].
    eapply v_step; [right; left; reflexivity|apply v_here].
  - intros _. reflexivity.
Defined.

Lemma destructure_restructure_witness :
  exists rv,
    Destructure.destructure Locales.cldr (u "en") (to_parsed guide_structured) = Ok rv
    /\ forall p string comment,
         s_at guide_structured p (Restructure.SLeaf string comment) ->
         exists pf, v_at guide p (Messages.VMessage pf)
                    /\ r_at rv p (Destructure.RForms pf).
Proof.
  apply (destructure_restructure Locales.cldr (u "en") guide guide_comments
           guide_structured eq_refl).
  intros p pf H. unfold guide, guide_entries in H.
  repeat match goal with
         | H : v_at (Messages.VNode _ _ _) _ _ |- _ => inversion H; clear H; subst
         | H : v_at (Messages.VMessage _) _ _ |- _ => inversion H; clear H; subst
         | H : In _ (_ :: _) |- _ => destruct H as [H|H]; [injection H as <- <-|]
         | H : In _ [] |- _ => destruct H
         end.
  all: split; [reflexivity|split].
  all: try (intros L; discriminate L).
  all: try (intros f Hf; simpl in Hf;
            repeat (destruct Hf as [<-|Hf]; [reflexivity|]); destruct Hf).
  intros _. eexists. split; reflexivity.
Defined.

(** ** Reading what [toJSON] writes *)

Module ReadFacts.
Import Plural Merge Messages Read.

(** The value that [comment-json] reads from the text of a JSON value,
    there being no comment. *)
Fixpoint of_json (j : json) : vnode :=
  match j with
  | JString s => VString s
  | JArray elements =>
    VNode true
      ((fix each (i : nat) (l : list json) : list (str * vnode) :=
          match l with
          | [] => []
          | element :: l' => (key_of_index i, of_json element) :: each (S i) l'
          end) 0 elements)
      []
  | JObject entries => VNode false (map (fun e => (fst e, of_json (snd e))) entries) []
  end.

Definition indexed : nat -> list json -> list (str * vnode) :=
  fix each (i : nat) (l : list json) : list (str * vnode) :=
    match l with
    | [] => []
    | element :: l' => (key_of_index i, of_json element) :: each (S i) l'
    end.

Definition revive_each : list (str * vnode) -> outcome (list (str * vnode)) :=
  fix each (l : list (str * vnode)) : outcome (list (str * vnode)) :=
    match l with
    | [] => Done []
    | (k, v) :: l' =>
      and_then (revive k v) (fun v' =>
      and_then (each l') (fun more => Done ((k, v') :: more)))
    end.

Lemma revive_node (key : str) (array : bool) (entries : list (str * vnode))
    (before : list (str * list str)) :
  revive key (VNode array entries before)
  = and_then (revive_each entries)
             (fun entries' => reviver key (VNode array entries' before)).
Proof. reflexivity. Qed.

(** A form without [|] and odd white space is read as a message with that
    single form. *)
Lemma fromVueI18n_single (f : str) (vars : list str) :
  includes (u "|") f = false -> odd_white_space f = false ->
  Vars.parseVars f = Ok vars ->
  fromVueI18n f = Ok (mkPluralForms [f]).
Proof.
  intros Hp Hw Hv. unfold fromVueI18n. rewrite separator_is. unfold split.
  change pipe with 124%N in *.
  rewrite (split_from_no_separator f [] (includes_single _ _ Hp)). simpl.
  rewrite Hp, Hw. simpl. now rewrite Hv.
Qed.

Lemma toVueI18n_back (m : PluralForms) (s : str) :
  new (forms m) = Ok m -> length (forms m) <= 2 ->
  (forall f, In f (forms m) -> includes (u "|") f = false /\ odd_white_space f = false) ->
  toVueI18n m = Ok s -> fromVueI18n s = Ok m.
Proof.
  intros Hnew Hlen Hc. destruct m as [fs]. cbn [forms] in *.
  destruct fs as [|A [|B [|C fs]]]; [discriminate Hnew| | |simpl in Hlen; lia].
  - destruct (Hc A (or_introl eq_refl)) as (Hp & Hw).
    unfold toVueI18n. cbn [forms existsb]. rewrite Hp. cbn [orb when_ bind join].
    intros H; injection H as <-.
    unfold fromVueI18n. rewrite separator_is. unfold split.
    change pipe with 124%N in *.
    rewrite (split_from_no_separator A [] (includes_single _ _ Hp)). simpl.
    rewrite Hp, Hw. simpl. exact Hnew.
  - destruct (Hc A) as (HpA & HwA); [simpl; auto|].
    destruct (Hc B) as (HpB & HwB); [simpl; auto|].
    unfold toVueI18n. cbn [forms existsb]. rewrite HpA, HpB.
    cbn [orb when_ bind join]. intros H; injection H as <-.
    change (fromVueI18n (A ++ separator ++ B) = Ok {| forms := [A; B] |}).
    unfold fromVueI18n. rewrite separator_is. unfold split.
    change pipe with 124%N in *.
    rewrite (split_from_two A B [] (includes_single _ _ HpA) (includes_single _ _ HpB)).
    cbn [rev app length Nat.ltb Nat.leb when_ bind check_vue_forms].
    rewrite HpA, HwA, HpB, HwB. cbn [when_ bind]. exact Hnew.
Qed.

Lemma revive_forms (fs : list str) :
  (forall f, In f fs ->
     includes (u "|") f = false /\ odd_white_space f = false
     /\ exists vars, Vars.parseVars f = Ok vars) ->
  forall i, exists entries,
    revive_each (indexed i (map JString fs)) = Done entries
    /\ only_forms entries = Done fs.
Proof.
  induction fs as [|f fs IH]; intros H i.
  - exists []. split; reflexivity.
  - destruct (H f (or_introl eq_refl)) as (Hp & Hw & vars & Hv).
    destruct (IH (fun g Hg => H g (or_intror Hg)) (S i)) as (entries & E & O).
    exists ((key_of_index i, VMessage (mkPluralForms [f])) :: entries). split.
    + cbn [map indexed revive_each of_json]. fold indexed. fold revive_each.
      cbn [revive reviver]. rewrite (fromVueI18n_single f vars Hp Hw Hv).
      cbn [lift and_then]. rewrite E. reflexivity.
    + cbn [only_forms only_form forms]. cbn [and_then]. rewrite O. reflexivity.
Qed.

End ReadFacts.
Import ReadFacts.

(** What [toJSON] writes for a translated message with at most two forms,
    none of which holds a [|] or odd white space, is read back by the
    reviver of [readSourceMessages] as the same message. *)
Theorem reviver_reads_toJSON (source translated : Plural.PluralForms) (key : str)
    (j : Merge.json) :
  Plural.new (Plural.forms translated) = Ok translated ->
  length (Plural.forms translated) <= 2 ->
  (forall f, In f (Plural.forms translated) ->
     includes (u "|") f = false /\ odd_white_space f = false) ->
  Merge.toJSON (Merge.SMessage source) (Some (Merge.TMessage translated)) key
  = Ok (Some j) ->
  Read.revive key (of_json j) = Done (Messages.VMessage translated).
Proof.
  intros Hnew Hlen Hc. cbn [Merge.toJSON].
  destruct (Plural.isEmpty translated); [discriminate|].
  destruct (str_eqb key (u "full") && negb (length (Plural.forms source) =? 1)) eqn:K.
  - intros H; injection H as <-. apply andb_true_iff in K as [K _].
    cbn [of_json]. fold (indexed 0 (map Merge.JString (Plural.forms translated))).
    rewrite revive_node.
    destruct (revive_forms (Plural.forms translated)) with (i := 0) as (entries & E & O).
    { intros f Hf. destruct (Hc f Hf) as [Hp Hw]. split; [exact Hp|split; [exact Hw|]].
      exact (new_forms_parse _ _ Hnew f Hf). }
    rewrite E. cbn [and_then Read.reviver]. rewrite K, O. cbn [and_then].
    rewrite Hnew. reflexivity.
  - destruct (Plural.toVueI18n translated) as [s|] eqn:V; [|discriminate].
    cbn [bind]. intros H; injection H as <-.
    cbn [of_json Read.revive Read.reviver].
    rewrite (toVueI18n_back translated s Hnew Hlen Hc V). reflexivity.
Qed.

Lemma reviver_reads_toJSON_witness :
  Read.revive (u "full")
    (of_json (Merge.JArray [Merge.JString (u "{count} ligne");
                            Merge.JString (u "{count} lignes")]))
  = Done (Messages.VMessage (Plural.mkPluralForms [u "{count} ligne"; u "{count} lignes"])).
Proof.
  apply (reviver_reads_toJSON
           (Plural.mkPluralForms [u "{count} row"; u "{count} rows"])
           (Plural.mkPluralForms [u "{count} ligne"; u "{count} lignes"]) (u "full"));
    [reflexivity|simpl; lia| |reflexivity].
  intros f [<-|[<-|[]]]; split; reflexivity.
Defined.

(** ** The pass for the source locale *)

Module SourceFacts.
Import Plural Linked Merge.

Definition checking : list callback := [copyLinkedLocaleMessage; verifyDestructure].

Lemma verify_leaf (t : Translation) (store store' : tnode) :
  verifyDestructure t store = Ok store' ->
  store' = store
  /\ (forms (source t) <> [] ->
      exists pf, leaf store (path (parent t) ++ [key t]) pf
                 /\ forms pf = forms (source t)).
Proof.
  unfold verifyDestructure, translated.
  destruct (_translated (parent t) store) as [es|] eqn:T; [|discriminate].
  cbn [bind]. apply _translated_Ok in T.
  destruct (assoc (key t) es) as [[pf|es0]|] eqn:A;
    [| |destruct (inherited (key t)); discriminate]; cbn [bind].
  - destruct (equals (forms (source t)) (forms pf)) eqn:E; [|discriminate].
    cbn. intros H; injection H as <-. split; [reflexivity|]. intros _.
    exists pf. split; [|symmetry; now apply equals_eq].
    unfold leaf. now rewrite (tat_key _ _ _ (key t) T).
  - destruct (equals (forms (source t)) []) eqn:E; [|discriminate].
    cbn. intros H; injection H as <-. split; [reflexivity|].
    apply equals_eq in E. congruence.
Qed.

Lemma call_checking (t : Translation) (store store' : tnode) :
  call_each checking t store = Ok store' ->
  keeps_outside (path (parent t) ++ [key t]) store store'
  /\ (forms (source t) <> [] ->
      exists pf, leaf store' (path (parent t) ++ [key t]) pf
                 /\ forms pf = forms (source t)).
Proof.
  unfold checking. cbn [call_each].
  destruct (copyLinkedLocaleMessage t store) as [s1|] eqn:C; [|discriminate].
  cbn [bind].
  destruct (verifyDestructure t s1) as [s2|] eqn:V; [|discriminate].
  cbn [bind]. intros H; injection H as <-.
  destruct (verify_leaf _ _ _ V) as [-> L].
  split; [exact (copy_frame _ _ _ C)|exact L].
Qed.

Definition verified (p : list str) (src : snode) (s' : tnode) : Prop :=
  forall q m, src_at src q (SMessage m) -> forms m <> [] ->
    exists m', leaf s' (p ++ q) m' /\ forms m' = forms m.

Definition checks (rs : snode) (src : snode) : Prop :=
  forall p s s',
    walk checking rs p src s = Ok s' -> distinct_source src = true ->
    keeps_outside p s s' /\ (forall array ses, src = SNode array ses -> verified p src s').

Lemma not_under_sibling (p : list str) (k k' : str) (q r' : list str) :
  k <> k' -> p ++ k :: q <> (p ++ [k']) ++ r'.
Proof.
  intros Hk E. rewrite <- app_assoc in E. apply app_inv_head in E.
  injection E as E _. contradiction.
Qed.

Lemma walk_each_checks (rs : snode) (p : list str) (array : bool)
    (ses : list (str * snode)) (part : list (str * snode)) :
  Forall (fun e => checks rs (snd e)) part ->
  forall s s',
    walk_each (fun p' sv store' => walk checking rs p' sv store') checking
              (mkTranslations rs p (SNode array ses)) part s = Ok s' ->
    NoDup (map fst part) ->
    forallb (fun e => distinct_source (snd e)) part = true ->
    (forall r pf, leaf s r pf ->
       (forall k r', In k (map fst part) -> r <> p ++ k :: r') -> leaf s' r pf)
    /\ forall k v q m, In (k, v) part -> src_at v q (SMessage m) -> forms m <> [] ->
         exists m', leaf s' (p ++ k :: q) m' /\ forms m' = forms m.
Proof.
  induction part as [|[k v] part IH]; intros HW s s' H ND D.
  - injection H as <-. split; [auto|intros k v q m []].
  - inversion HW as [|? ? W1 W2]; subst. simpl in ND.
    inversion ND as [|? ? Hk ND']; subst.
    simpl in D. apply andb_true_iff in D as [D1 D2].
    cbn [walk_each] in H.
    match type of H with
    | bind ?step _ = _ => destruct step as [s1|] eqn:V; [|discriminate]
    end.
    cbn [bind] in H. destruct (IH W2 _ _ H ND' D2) as [B A].
    assert (V' : keeps_outside (p ++ [k]) s s1
                 /\ forall q m, src_at v q (SMessage m) -> forms m <> [] ->
                      exists m', leaf s1 (p ++ k :: q) m' /\ forms m' = forms m).
    { destruct v as [m0|a' ses'].
      - destruct (call_checking _ _ _ V) as [K L]. cbn in K, L. split; [exact K|].
        intros q m Hat Hm. inversion Hat; subst. exact (L Hm).
      - destruct (enter _ k s) as [s0|] eqn:E; [|discriminate]. cbn [bind path] in V.
        destruct (W1 _ _ _ V D1) as [K L]. split.
        + eapply keeps_outside_trans; [|exact K].
          apply same_leaves_keeps. exact (enter_same_leaves _ _ _ _ E).
        + intros q m Hat Hm. destruct (L a' ses' eq_refl q m Hat Hm) as (m' & L' & F).
          exists m'. rewrite <- app_assoc in L'. auto. }
    destruct V' as [K1 L1]. split.
    + intros r pf L Hr. apply B.
      * apply (K1 r pf L). intros r' E. apply (Hr k r' (or_introl eq_refl)).
        rewrite <- app_assoc in E. exact E.
      * intros k' r' Hk'. apply Hr. now right.
    + intros k' v' q m [E|Hin] Hat Hm.
      * injection E as <- <-. destruct (L1 q m Hat Hm) as (m' & L' & F).
        exists m'. split; [|exact F]. apply B; [exact L'|].
        intros k' r' Hk' E. apply app_inv_head in E. injection E as E _.
        subst k'. contradiction.
      * exact (A k' v' q m Hin Hat Hm).
Qed.

Lemma walk_checks (rs : snode) (src : snode) : checks rs src.
Proof.
  induction src as [pf|array ses IH] using snode_induction; intros p s s' H D.
  - discriminate.
  - cbn [walk] in H. simpl in D. apply andb_true_iff in D as [D1 D2].
    destruct (walk_each_checks rs p array ses ses IH s s' H (distinct_NoDup _ D1) D2)
      as [B A].
    split.
    + intros r pf L Hr. apply (B r pf L). intros k r' _. apply Hr.
    + intros a' ses' E q m Hat Hm. injection E as <- <-.
      inversion Hat as [|? ? k v q' ? Hin Hat']; subst.
      exact (A k v q' m Hin Hat' Hm).
Qed.

End SourceFacts.
Import SourceFacts.

(** When [writeTranslations] returns for the source locale, the
    translations hold, at the path of every message of the source, a
    message with the same forms: this for a source the keys of whose
    objects are distinct. *)
Theorem source_pass_verifies (intl : str -> list str) (array : bool)
    (ses : list (str * Merge.snode)) (store store' : Merge.tnode) :
  Merge.writeTranslations intl Locales.sourceLocale (Merge.SNode array ses) store
  = Ok store' ->
  distinct_source (Merge.SNode array ses) = true ->
  forall q m, src_at (Merge.SNode array ses) q (Merge.SMessage m) ->
    Plural.forms m <> [] ->
    exists m', Merge.tat store' q = Some (Merge.TMessage m')
               /\ Plural.forms m' = Plural.forms m.
Proof.
  unfold Merge.writeTranslations.
  destruct (Locales.locale_lookup intl Locales.sourceLocale); [|discriminate].
  rewrite str_eqb_refl. intros H D q m Hat Hm.
  destruct (walk_checks _ _ _ _ _ H D) as [_ V].
  exact (V array ses eq_refl q m Hat Hm).
Qed.

Lemma source_pass_verifies_witness :
  exists m',
    Merge.tat (Merge.TObject
                 [(u "title", Merge.TMessage (Plural.mkPluralForms [u "Title"]));
                  (u "again", Merge.TMessage (Plural.mkPluralForms [u "@:title"]))])
              [u "again"]
    = Some (Merge.TMessage m')
    /\ Plural.forms m' = [u "@:title"].
Proof.
  apply (source_pass_verifies Locales.cldr false
           [(u "title", Merge.SMessage (Plural.mkPluralForms [u "Title"]));
            (u "again", Merge.SMessage (Plural.mkPluralForms [u "@:title"]))]
           (Merge.TObject [(u "title", Merge.TMessage (Plural.mkPluralForms [u "Title"]))])
           _ eq_refl eq_refl [u "again"] (Plural.mkPluralForms [u "@:title"])).
  - eapply src_step; [right; left; reflexivity|apply src_here].
  - discriminate.
Defined.
